(* ===== verification/_CoqProject ===== *)
-Q . S2P
Prelude.v
Contract.v
Assoc.v
Node.v
Rotate.v
Tree.v
Walk.v
Itor.v
Shape.v
Balance.v
Zipper.v
WalkShape.v
Dict.v
Protocol.v
Vtable.v
Examples.v
Bst.v
Inv.v
ShapeOps.v
Fuel.v
InsertShape.v
RemoveShape.v
Exec.v
RotateProofs.v
FixupProofs.v
SearchProofs.v
InsertProofs.v
ProbeProofs.v
RemoveProofs.v
EmptyProofs.v
WalkProofs.v
MetricsProofs.v
ItorProofs.v
DictProofs.v
Builds.v
Typed.v
Frame.v
Aliasing.v
ProtocolProofs.v
Scenarios.v
