(* ===== verification/Prelude.v ===== *)
(** * A verified model of libdict's path-reduction tree (src/src/pr_tree.c)

    The program is an in-memory ordered map: a weight-annotated binary search
    tree whose nodes are C structs linked by [llink], [rlink] and [parent]
    pointers, rebalanced by rotations that are made only when they shorten the
    internal path length (Gonnet's path-reduction trees), together with a
    cursor over the same nodes and a table of entry points through which the
    generic [dict] handle reaches the tree.

    ** Parts of the program and the files that model them

    The C code, one definition per C function and in the C's own control
    flow:

    - [Prelude] (this file).  Machine integers ([unsigned] is 32 bits,
      [weight_t] = [unsigned long] is 64 bits, both as [Z] with the wrap-around
      written out), pointers ([ptr] = [option positive], [NULL] = [None]), the
      state-and-failure monad [M] in which every C function is written, the
      build ([Build], the flag [NDEBUG]) and [ASSERT], the total-correctness
      predicate [wp] with its rules, the judgements [keeps] (a property of
      the state that every run keeps), [eventually] (a state reached by
      repeating a computation) and the order [c ⊑ c'] (every run of [c] is
      a run of [c']), the tactics [monad_inv], [case_bool], [distinct] and
      the hint databases [pr] and [pr_rw].
    - [Contract]: the comparator contract.  A comparator is a function
      [K -> K -> Z] read by its sign, as [tree->key_cmp] is; the class
      [Comparator] states the laws of a total preorder, [keq] is the
      equivalence it induces (coarser than equality: two key pointers may
      compare equal) with its [Proper] instances.  [dict_ptr_cmp], the default
      comparator of dict.c, is modelled from the specification.
    - [Node]: [struct pr_node] and [struct pr_tree], the state [world] (the
      store of nodes, a [gmap] from addresses to nodes; the tree struct; the
      log of the calls made to [del_func]), the field reads and writes, the
      macros [WEIGHT] and [REWEIGH], [node_new], [FREE] and the allocator
      interface [Allocator] ([MALLOC] returns a fresh address or [NULL]) with
      an allocator that never fails and one that fails above a limit.
    - [Rotate]: [rot_left], [rot_right], [fixup] and the macro [FIXUP], the
      latter as its own expansion ([FIXUP_again], the code from the label
      [again:] of the macro, which calls the function [fixup] in its
      recursive case).
    - [Tree]: [pr_tree_new], [pr_tree_search], [pr_tree_csearch],
      [pr_tree_insert], [pr_tree_probe], [pr_tree_remove], [pr_tree_empty],
      [pr_tree_destroy], [pr_tree_count].
    - [Walk]: [pr_tree_min], [pr_tree_max], [pr_tree_walk], [pr_tree_height],
      [pr_tree_mheight], [pr_tree_pathlen] and the static helpers [node_min],
      [node_max], [node_next], [node_prev], [node_height], [node_mheight],
      [node_pathlen].
    - [Itor]: [struct pr_itor] and the cursor functions [pr_itor_*].
    - [Vtable]: the two static tables [pr_tree_vtable] and
      [pr_tree_itor_vtable] and the handle constructors [pr_dict_new] and
      [pr_dict_itor_new].

    The interface between the tree and its callers:

    - [Dict]: the table types [dict_vtable] and [itor_vtable] as records of
      operations over a state, the contract of a dictionary ([DictLaws]) and
      of a cursor ([ItorLaws]) as classes over a table, and programs written
      against a table with theorems proved from the contract alone:
      sequences of calls ([do_calls]), which answer what the abstract
      dictionary answers to the same calls ([spec_calls]), [dict_rename],
      [dict_size_by_walk], the enumeration of the keys through a cursor
      ([itor_keys]) and the traversals, which end
      ([next_eventually_end]).  Two more relations on tables carry
      properties from the entries to the programs: [vt ⊑ vt'] (every run of
      an entry of [vt] is a run of the entry of [vt']) and
      [dict_vtable_keeps] (every entry keeps a property of the state).
    - [Protocol]: a dictionary and a cursor on it, called in any order.
      The caller's view is a sorted list of pairs and a [place]: a position
      of the list, or [Stale] once the pair under the cursor was removed.
      [spec_mcall] is what each call answers and where it leaves the cursor
      (a cursor follows its pair: [follow]); it has no answer for a read
      through a stale cursor.  [AliasLaws] is what a container promises for
      this, and [do_mcalls_run] proves every sequence of calls that follows
      the protocol correct from [DictLaws], [ItorLaws] and [AliasLaws]
      alone.
      The same file has the calls when memory may run out.  A call that
      adds a pair has two outcomes, the one of the protocol and the failure
      that changes nothing ([outcome], [outcomes]); [MemoryLaws] is what a
      container promises when it is out of memory, and [do_mcalls_any]
      proves that every sequence of calls that follows the protocol along
      every outcome ([allowed]) returns, whatever the allocator does.

    The abstract side:

    - [Assoc]: the dictionary a tree stands for, a list of pairs in strictly
      ascending key order with [assoc], [put_entry] and [del_entry].
    - [Shape]: an inductive tree that records, for each node, its address and
      fields; contexts (the path from a node to the root) with [plug]; [rep],
      which says that a store holds exactly the cells of such a tree with
      consistent parent pointers; [wf], which adds the root pointer, distinct
      addresses and that the store holds nothing else; [bst], [weights_ok]
      and [fits] (the node count is below 2^64 - 1, so that no weight wraps).
      [wf] is decidable, so that concrete worlds are checked by computation,
      and a store represents one shape only, which [shape_of] reads back
      ([shape_of_wf]).
    - [Balance]: where the path-reduction condition holds at every node
      the weight doubles every two levels, so that a tree of [n] nodes has
      height at most [2 * log2 (n + 1)] ([balanced_height_s]).
    - [Zipper]: weights and symmetric order along a context.
    - [WalkShape]: the sequence of the nodes in symmetric order with their
      addresses ([elems]), the place of a node in it, and [pr_tree_walk] as a
      function on the sequence of pairs ([walk_s]).
    - [Bst]: the descent as a function on shapes, [lookup_s], equal to
      [assoc] on a search tree.
    - [Inv]: the representation invariant [inv] of the operations ([wf],
      [bst], [weights_ok], [fits], the comparator, [count] equal to the node
      count modulo 2^32), and [pr_tree_new] establishes it.
    - [ShapeOps]: the rotations and [fixup] as functions on shapes
      ([rot_left_s], [rot_right_s], [fixup_s], [rebalance]), with what they
      keep (nodes, symmetric order, exact weights) and that each rotation made
      shortens the internal path length.
    - [Fuel]: [fixup_s] does not depend on its fuel once the fuel exceeds the
      internal path length, which is below the square of the node count, and
      it leaves the node it was given where no rotation applies ([settled]).
    - [InsertShape]: [pr_tree_insert] as a function on shapes ([path],
      [insert_up], [insert_s]), proved to compute [put_entry] and to keep
      [bst] and [weights_ok].
    - [RemoveShape]: [pr_tree_remove] as a function on shapes ([lift_left],
      [lift_right], [remove_root], [remove_s]), proved to compute
      [del_entry] and to keep [bst] and [weights_ok].
    - [Examples]: small concrete worlds and the shapes they hold.

    The refinement proofs, one file per group of C functions: the C function
    run on a world that holds a tree returns, with the fuel it takes, a world
    that holds the tree the function on shapes computes.

    - [Exec]: symbolic execution of the monadic code ([step], [steps]), the
      effect of relinking a node under its parent ([set_hole]) and of writing
      or adding one node on [wf].
    - [RotateProofs]: [rot_left] and [rot_right] refine [rot_left_s] and
      [rot_right_s] at any node of a well-formed tree, and fault on a node
      without the child they lift.
    - [FixupProofs]: [fixup] refines [rebalance]; the fuel [FIXUP] takes is
      enough; the expansion of the macro is the same computation as the
      function ([FIXUP_expands_fixup]); when [FIXUP] returns no rotation
      applies at the node and [FIXUP] again changes nothing
      ([FIXUP_settles]).
    - [SearchProofs]: [pr_tree_search] returns [assoc] of the dictionary.
    - [InsertProofs]: [pr_tree_insert] refines [put_entry] on every branch
      (new key, existing key kept, existing key overwritten with the deleter
      called, no memory), keeps [inv], and [pr_tree_search] afterwards finds
      what was inserted.
    - [ProbeProofs]: the same for [pr_tree_probe].
    - [RemoveProofs]: [pr_tree_remove] refines [del_entry], keeps [inv],
      calls the deleter on the pair removed, and [pr_tree_search] afterwards
      finds nothing under the key.
    - [EmptyProofs]: [pr_tree_empty] and [pr_tree_destroy] free every node
      after the deleter was called on every pair, children before their
      parent ([postorder]).
    - [WalkProofs]: [pr_tree_min], [pr_tree_max], [node_next], [node_prev]
      and [pr_tree_walk] against the symmetric order.
    - [MetricsProofs]: [pr_tree_height], [pr_tree_mheight],
      [pr_tree_pathlen] and [pr_tree_count], with the bounds on the height.
    - [ItorProofs]: the cursor functions against the position of the cursor
      in the symmetric order ([at_pos], [pair_at]).
    - [DictProofs]: the tables of pr_tree.c satisfy [DictLaws] and
      [ItorLaws], with [tree_models] (the state satisfies [inv] for a tree
      whose symmetric order is the dictionary) and [cursor_at]; the handle
      constructors return these tables; the client programs of [Dict]
      therefore run on path-reduction trees with the results the contract
      gives.  In particular every sequence of calls through the table
      returns, answers as the abstract dictionary does and keeps [inv]
      ([pr_tree_calls_run], which [pr_tree_protocol_refines] extends to
      the calls of a cursor).
    - [Builds]: the code in two builds.  A build that checks fewer
      assertions has every run of a build that checks more, on every state
      ([pr_tree_builds_refine]); on a state that satisfies the invariant no
      assertion fails and the builds agree ([pr_tree_builds_agree]);
      outside the invariant they differ ([builds_differ_on_stale_count]).
    - [Typed]: the C types of the integer fields.  Every function keeps
      the weights 64-bit values and the count a 32-bit value, from any
      state, and returns a value in the range of its type
      ([pr_tree_tables_typed]).
    - [Frame]: what the functions leave alone.  Four relations between
      the state before and the state after are instances of the class
      [Relinks], against which the rotations and the rebalancing are proved
      once: [within] (every node was there, with its key and datum),
      [extends] (every node is still there, with its key and datum),
      [persists] (every node is still there, with its pair or with the key
      inserted in place of a key that compares equal) and [except] (only
      nodes whose key compares equal to the key removed are gone).  The
      functions that free nodes keep [within], [pr_tree_probe] and
      [pr_tree_insert] without [overwrite] keep [extends], [pr_tree_insert]
      keeps [persists] and [pr_tree_remove] keeps [except].
    - [Aliasing]: a cursor and the tree share the nodes.  [pr_tree_remove]
      frees the node that held the key, and [pr_tree_empty] every node: a
      cursor on a freed node still reports itself valid while every read
      through it is a read of freed memory ([pr_tree_remove_stale],
      [pr_tree_empty_stale]).  After any other update a cursor is on the
      node it was on, at a position of the new dictionary, and reads what
      it read ([update_keeps_cursor]).
    - [ProtocolProofs]: the tables of pr_tree.c satisfy [AliasLaws], so
      that every sequence of calls of the two tables that follows the
      protocol of [Protocol] returns the answers of the abstract dictionary
      and cursor ([pr_tree_protocol_refines]); and [MemoryLaws], so that
      with any allocator the sequences return, each call with one of its
      outcomes ([pr_tree_protocol_any_allocator]).
    - [Scenarios]: the entry points run from [pr_tree_new] on concrete keys:
      the scenarios of the specification, a cursor followed across updates,
      an allocator that runs out, a comparison that is no order and loses
      a key
      ([comparator_contract_needed]), and the runs that show where the
      code and the specification part.

    ** How C is read

    A C function [f(tree, args)] is a definition [f args : M world R]: a
    function from the state to [option (R * world)].  [None] is "no result":
    the C would dereference [NULL] or a freed node, or the fuel of a loop ran
    out.  Every theorem that says an operation returns is proved in the form
    "on a state that satisfies the invariant the model returns [Some]"
    ([wp]), never only "if it returns".  [ASSERT(expr)] evaluates [expr]
    and has no result when it is false (the program is aborted), unless the
    build defines [NDEBUG]; the build is a parameter of every function that
    asserts, so that every theorem is proved for both builds.  The
    assertions on nodes and on the count are where the C has them; in
    [fixup] the assertion stands at the head of the recursion and is checked
    again after [goto again], on an argument that has not changed.  The
    deleter [tree->del_func] is a
    flag (present or [NULL]) and a log of the pairs it was called with; the
    visitor of [pr_tree_walk] is a function with a state of its own.

    ** Loops and fuel

    Each [while]/[for]/[goto] loop is a [Fixpoint] on a fuel of type [nat].
    The entry points compute their own fuel from the store, so callers never
    pass it: a descent or an ascent along pointers gets [S (size store)]
    (a path in a well-formed tree visits each node at most once), [FIXUP] gets
    [S (size store * size store)] (each rotation strictly lowers the internal
    path length of the subtree, which is below the square of its node count),
    the loops of [pr_tree_remove] and [pr_tree_empty] get
    [S (2 * size store)] (the loop of [pr_tree_empty] makes 2n - 1
    iterations on n nodes, one down and one up per edge and one per node
    freed).  The functions on shapes [fixup_s] and
    [remove_root] take fuel too (the internal path length and the number of
    nodes of the subtree), and are proved not to depend on it above that
    bound.  That the fuel is enough is part of each theorem: the theorems of
    the proof files are stated for the entry points, which take their own
    fuel.  The loops of [pr_itor_nextn] and [pr_itor_prevn] count down their
    argument, which is their fuel.

    ** What is proved

    Proved against the abstract dictionary: creation, search, insertion,
    probing, removal, emptying and destruction, with their error paths; the
    rotations and the rebalancing they use; the extremes, the neighbours of
    a node, the traversal and every cursor function against the symmetric
    order; the metrics; that traversals end; that the builds agree; that
    the integer fields keep their C types; that [FIXUP] settles the node it
    is given; which node a removal frees and what a cursor on it then
    does; that a cursor stays on its pair across every update that does
    not remove it, and that calls of the tree and of a cursor interleaved
    in any order answer as the abstract dictionary and cursor do, and
    return whether the allocator gives memory or not.  The
    theorems on [keeps] and on [⊑] are about every run that returns, from
    any state; all others state that the code returns.  Results of type [unsigned] are stated modulo 2^32
    ([pr_tree_count], the result of [pr_tree_walk], [pr_tree_pathlen]); the
    heights, which the code computes under [MAX] and [MIN], are stated for
    trees of at most 2^32 - 1 nodes.  The balance condition of the
    specification is not an invariant of the code: insertions, and a
    removal, reach states that satisfy [inv] for a tree that violates it
    ([updates_leave_unbalanced]); it is no part of [inv].  What the code
    does guarantee is local: no rotation applies at a node when [FIXUP]
    leaves it, and rebalancing changes a tree only by making its paths
    strictly shorter ([rebalance_keeps]).  The logarithmic bound on the
    height is proved for the trees in which the condition holds at every
    node ([pr_tree_height_correct]).

    ** What is not modelled

    The [_object] field of the generic handle (the state holds one tree, so
    that a handle is the table it carries) and the dispatch macros of dict.h,
    which are outside src/; the other containers of libdict behind the same
    handle (src/include/hb_tree.h only declares one of them, with the
    signatures of an older interface, and no source defines its functions:
    there is no code to translate); the contents
    of keys and values (opaque); the bodies of the caller's callbacks; the
    allocator's policy (any function that returns fresh addresses or
    [NULL]); the assertions [tree != NULL], [itor != NULL] and
    [key != NULL], which are on pointers the model does not represent (the
    state holds the tree, a cursor is a value, keys are opaque). *)

From Stdlib Require Import ZArith Lia.
From stdpp Require Import base tactics option list gmap.

(** ** Notations of the development, in a scope of their own *)

Declare Scope pr_scope.
Delimit Scope pr_scope with pr.

(** Addresses of heap objects are positive numbers; a C pointer is an optional
    address. *)
Abbreviation addr := positive (only parsing).
Abbreviation ptr := (option positive) (only parsing).
Abbreviation NULL := (@None positive) (only parsing).

(** [if (p)] and [p == q] on pointers. *)
Definition nonnull (p : ptr) : bool :=
  match p with
  | Some _ => true
  | None => false
  end.
Definition ptr_eqb (p q : ptr) : bool := bool_decide (p = q).

(** ** Machine integers *)

(** [wrap bits z] is [z] as an unsigned integer of [bits] bits. *)
Definition wrap (bits : Z) (z : Z) : Z := (z mod 2 ^ bits)%Z.

(** [unsigned] and [unsigned long] on an LP64 target. *)
Definition UINT_BITS : Z := 32.
Definition ULONG_BITS : Z := 64.
Definition UINT_MAX : Z := (2 ^ UINT_BITS - 1)%Z.
Definition ULONG_MAX : Z := (2 ^ ULONG_BITS - 1)%Z.
Definition uint (z : Z) : Z := wrap UINT_BITS z.
Definition ulong (z : Z) : Z := wrap ULONG_BITS z.

(** [MAX] and [MIN] of dict_private.h. *)
Definition MAX (a b : Z) : Z := if (a >? b)%Z then a else b.
Definition MIN (a b : Z) : Z := if (a <? b)%Z then a else b.

(** ** The monad of C functions: state and failure *)

Definition M (W A : Type) : Type := W → option (A * W).

#[export] Instance M_ret {W} : MRet (M W) := λ A a w, Some (a, w).
#[export] Instance M_bind {W} : MBind (M W) := λ A B f c w,
  match c w with
  | Some (a, w') => f a w'
  | None => None
  end.

(** No result: a fault of the C program, or a loop out of fuel. *)
Definition stuck {W A} : M W A := λ _, None.
Definition get {W} : M W W := λ w, Some (w, w).
Definition gets {W A} (f : W → A) : M W A := λ w, Some (f w, w).
Definition put {W} (w : W) : M W unit := λ _, Some (tt, w).
Definition modify {W} (f : W → W) : M W unit := λ w, Some (tt, f w).
(** A partial read: [None] is a fault. *)
Definition lift {W A} (o : option A) : M W A := λ w,
  match o with
  | Some a => Some (a, w)
  | None => None
  end.
(** [when_ b c] is C's [if (b) c;]. *)
Definition when_ {W} (b : bool) (c : M W unit) : M W unit :=
  if b then c else mret tt.

(** The result and the final state of a run. *)
Definition retval {W A} (r : option (A * W)) : option A := fst <$> r.
Definition endstate {W A} (r : option (A * W)) : option W := snd <$> r.

(** ** The build and [ASSERT]

    [ASSERT(expr)] aborts the program when [expr] is false, unless the build
    defines [NDEBUG]: then the macro expands to nothing and [expr] is not
    evaluated.  The build is a parameter of the code. *)
Class Build : Type := { NDEBUG : bool }.
Definition debug_build : Build := {| NDEBUG := false |}.
Definition release_build : Build := {| NDEBUG := true |}.

Definition ASSERT {W} `{!Build} (expr : M W bool) : M W unit :=
  if NDEBUG then mret tt
  else b ← expr; if b : bool then mret tt else stuck.

(** [B ⊑ B']: the build [B'] checks no assertion that [B] compiles out. *)
#[export] Instance Build_le : SqSubsetEq Build := λ B B' : Build,
  @NDEBUG B = true → @NDEBUG B' = true.

(** [c ⊑ c']: every run of [c] that returns is a run of [c'], with the same
    result and the same final state. *)
#[export] Instance M_le {W A} : SqSubsetEq (M W A) := λ c c',
  ∀ w r, c w = Some r → c' w = Some r.

(** An expression without side effects. *)
Definition readonly {W A} (e : M W A) : Prop :=
  ∀ w a w', e w = Some (a, w') → w' = w.

(** [keeps T c R]: every run of [c] that starts in a state of [T] and
    returns ends in a state of [T], with a result in [R].  This is partial
    correctness, for properties that hold of every state, well formed or
    not; that the code returns is what [wp] states. *)
Definition keeps {W A} (T : W → Prop) (c : M W A) (R : A → Prop) : Prop :=
  ∀ w a w', T w → c w = Some (a, w') → T w' ∧ R a.

(** [eventually step P s]: the computation [step], repeated from the state
    [s], reaches a state of [P]; every repetition on the way returns. *)
Inductive eventually {W A} (step : M W A) (P : W → Prop) (s : W) : Prop :=
  | eventually_now : P s → eventually step P s
  | eventually_step a s' :
      step s = Some (a, s') → eventually step P s' → eventually step P s.

(** ** Tactics *)

(** Case analysis on the boolean tests of the code, turned into arithmetic. *)
Ltac case_bool :=
  match goal with
  | |- context [(?a <? ?b)%Z] => destruct (Z.ltb_spec a b)
  | |- context [(?a >? ?b)%Z] => rewrite (Z.gtb_ltb a b); destruct (Z.ltb_spec b a)
  | |- context [(?a =? ?b)%Z] => destruct (Z.eqb_spec a b)
  | |- context [(?a <=? ?b)%Z] => destruct (Z.leb_spec a b)
  end.

Create HintDb pr discriminated.
Create Rewrite HintDb pr_rw.

(** ** Lemmas on machine integers *)

Section MachineIntegers.
Context (bits : Z) (Hbits : (0 ≤ bits)%Z).

Lemma wrap_range z : (0 ≤ wrap bits z < 2 ^ bits)%Z.
Proof. unfold wrap. apply Z.mod_pos_bound. lia. Qed.

Lemma wrap_small z : (0 ≤ z < 2 ^ bits)%Z → wrap bits z = z.
Proof. intros. unfold wrap. by apply Z.mod_small. Qed.

Lemma wrap_wrap z : wrap bits (wrap bits z) = wrap bits z.
Proof. unfold wrap. apply Z.mod_mod. pose proof (Z.pow_pos_nonneg 2 bits). lia. Qed.

Lemma wrap_add_l a b : wrap bits (wrap bits a + b) = wrap bits (a + b).
Proof. unfold wrap. by rewrite Zplus_mod_idemp_l. Qed.

Lemma wrap_add_r a b : wrap bits (a + wrap bits b) = wrap bits (a + b).
Proof. unfold wrap. by rewrite Zplus_mod_idemp_r. Qed.

Lemma wrap_sub_l a b : wrap bits (wrap bits a - b) = wrap bits (a - b).
Proof. unfold wrap. by rewrite Zminus_mod_idemp_l. Qed.

(** Incrementing then decrementing a machine integer gives it back. *)
Lemma wrap_succ_pred z :
  (0 ≤ z < 2 ^ bits)%Z → wrap bits (wrap bits (z + 1) - 1) = z.
Proof.
  intros. rewrite wrap_sub_l. replace (z + 1 - 1)%Z with z by lia.
  by apply wrap_small.
Qed.

(** The only value whose successor wraps to zero is the maximum. *)
Lemma wrap_succ_zero z :
  (0 ≤ z < 2 ^ bits)%Z → wrap bits (z + 1) = 0%Z → z = (2 ^ bits - 1)%Z.
Proof.
  unfold wrap. intros Hz H0.
  destruct (decide (z + 1 < 2 ^ bits)%Z) as [Hlt|Hge].
  - rewrite Z.mod_small in H0 by lia. lia.
  - lia.
Qed.

End MachineIntegers.

Lemma uint_range z : (0 ≤ uint z ≤ UINT_MAX)%Z.
Proof. pose proof (wrap_range UINT_BITS ltac:(done) z). unfold uint, UINT_MAX. lia. Qed.

Lemma ulong_range z : (0 ≤ ulong z ≤ ULONG_MAX)%Z.
Proof. pose proof (wrap_range ULONG_BITS ltac:(done) z). unfold ulong, ULONG_MAX. lia. Qed.

Lemma uint_small z : (0 ≤ z ≤ UINT_MAX)%Z → uint z = z.
Proof. intros. apply wrap_small. unfold UINT_MAX in *. lia. Qed.

Lemma ulong_small z : (0 ≤ z ≤ ULONG_MAX)%Z → ulong z = z.
Proof. intros. apply wrap_small. unfold ULONG_MAX in *. lia. Qed.

(** Remove the wrap-arounds that the hypotheses show cannot happen, innermost
    first. *)
Ltac unwrap :=
  repeat match goal with
  | |- context [ulong ?x] => rewrite (ulong_small x) by lia
  | |- context [uint ?x] => rewrite (uint_small x) by lia
  end.

Lemma ulong_uint z : uint (ulong z) = uint z.
Proof.
  unfold uint, ulong, wrap, UINT_BITS, ULONG_BITS.
  apply Z.mod_mod_divide. by exists (2 ^ 32)%Z.
Qed.

Lemma uint_uint z : uint (uint z) = uint z.
Proof. by apply wrap_wrap. Qed.

(** Sums of [unsigned] values depend on the summands modulo 2^32 only. *)
Lemma uint_add_proper (x x' y y' : Z) :
  uint x = uint x' → uint y = uint y' → uint (x + y) = uint (x' + y').
Proof.
  unfold uint. intros Hx Hy.
  by rewrite <- (wrap_add_l _ x), <- (wrap_add_r _ _ y), Hx, Hy,
    wrap_add_l, wrap_add_r.
Qed.

Lemma MAX_max a b : MAX a b = Z.max a b.
Proof. unfold MAX. case_bool; lia. Qed.

Lemma MIN_min a b : MIN a b = Z.min a b.
Proof. unfold MIN. case_bool; lia. Qed.

#[export] Hint Rewrite MAX_max MIN_min : pr_rw.
#[export] Hint Resolve uint_range ulong_range : pr.

Lemma nonnull_true p : nonnull p = true ↔ ∃ a, p = Some a.
Proof. destruct p; simpl; split; eauto; [done | by intros [? ?]]. Qed.

Lemma nonnull_false p : nonnull p = false ↔ p = NULL.
Proof. by destruct p. Qed.

Lemma ptr_eqb_true p q : ptr_eqb p q = true ↔ p = q.
Proof. unfold ptr_eqb. apply bool_decide_eq_true. Qed.

Lemma ptr_eqb_false p q : ptr_eqb p q = false ↔ p ≠ q.
Proof. unfold ptr_eqb. apply bool_decide_eq_false. Qed.

Lemma ptr_eqb_refl p : ptr_eqb p p = true.
Proof. by apply ptr_eqb_true. Qed.

(** ** Lemmas on the monad *)

Section Monad.
Context {W : Type}.

Lemma bind_Some {A B} (c : M W A) (f : A → M W B) w r :
  (c ≫= f) w = Some r ↔ ∃ a w', c w = Some (a, w') ∧ f a w' = Some r.
Proof.
  unfold mbind, M_bind. destruct (c w) as [[a w']|].
  - split; [eauto | by intros (? & ? & [= <- <-] & ?)].
  - split; [done | by intros (? & ? & ? & ?)].
Qed.

Lemma bind_run {A B} (c : M W A) (f : A → M W B) w a w' :
  c w = Some (a, w') → (c ≫= f) w = f a w'.
Proof. unfold mbind, M_bind. by intros ->. Qed.

(** Two computations that start alike and go on alike. *)
Lemma bind_ext {A B} (c : M W A) (f g : A → M W B) w :
  (∀ a w', f a w' = g a w') → (c ≫= f) w = (c ≫= g) w.
Proof. intros H. unfold mbind, M_bind. by destruct (c w) as [[a w']|]. Qed.

Lemma bind_None {A B} (c : M W A) (f : A → M W B) w :
  c w = None → (c ≫= f) w = None.
Proof. unfold mbind, M_bind. by intros ->. Qed.

(** The monad laws, pointwise. *)
Lemma ret_bind {A B} (a : A) (f : A → M W B) w : (mret a ≫= f) w = f a w.
Proof. done. Qed.

Lemma bind_ret {A} (c : M W A) w : (c ≫= mret) w = c w.
Proof. unfold mbind, M_bind, mret, M_ret. by destruct (c w) as [[]|]. Qed.

Lemma bind_assoc {A B C} (c : M W A) (f : A → M W B) (g : B → M W C) w :
  ((c ≫= f) ≫= g) w = (c ≫= λ a, f a ≫= g) w.
Proof. unfold mbind, M_bind. by destruct (c w) as [[]|]. Qed.

Lemma lift_Some {A} (o : option A) (w w' : W) a :
  lift o w = Some (a, w') ↔ o = Some a ∧ w' = w.
Proof.
  unfold lift. destruct o; [|by split; [|intros []]].
  split; [by intros [= -> ->] | by intros [[= ->] ->]].
Qed.

Lemma when_true (c : M W unit) w : when_ true c w = c w.
Proof. done. Qed.

Lemma when_false (c : M W unit) w : when_ false c w = Some (tt, w).
Proof. done. Qed.

(** An assertion that holds is passed, in every build. *)
Lemma ASSERT_run `{!Build} (expr : M W bool) w :
  expr w = Some (true, w) → ASSERT expr w = Some (tt, w).
Proof.
  intros He. unfold ASSERT. destruct NDEBUG; [done|].
  by rewrite (bind_run _ _ _ _ _ He).
Qed.

(** An assertion that fails, before code that faults: no result in any build. *)
Lemma ASSERT_fails `{!Build} {B} (expr : M W bool) (f : unit → M W B) w :
  expr w = Some (false, w) → f tt w = None → (ASSERT expr ≫= f) w = None.
Proof.
  intros He Hf. unfold ASSERT. destruct NDEBUG; [exact Hf|].
  by rewrite bind_assoc, (bind_run _ _ _ _ _ He).
Qed.

(** An assertion a build checks was true when it returned. *)
Lemma ASSERT_Some `{!Build} (expr : M W bool) w r :
  ASSERT expr w = Some r →
  NDEBUG = true ∧ r = (tt, w) ∨ ∃ w', expr w = Some (true, w') ∧ r = (tt, w').
Proof.
  unfold ASSERT. destruct NDEBUG; [intros [= <-]; by left|].
  intros (b & w' & He & Hb)%bind_Some. destruct b; [|done].
  injection Hb as <-. right. eauto.
Qed.

End Monad.

(** ** Runs of one computation that are runs of another *)

Section Le.
Context {W : Type}.

#[export] Instance M_le_preorder {A} : PreOrder (⊑@{M W A}).
Proof.
  split; [by intros c w r|]. intros c1 c2 c3 H12 H23 w r Hr. by apply H23, H12.
Qed.

#[export] Instance Build_le_preorder : PreOrder (⊑@{Build}).
Proof.
  split; [intros B H; exact H|]. intros B1 B2 B3 H12 H23 H. by apply H23, H12.
Qed.

Lemma debug_build_le (B : Build) : debug_build ⊑ B.
Proof. intros H. discriminate H. Qed.

Lemma le_release_build (B : Build) : B ⊑ release_build.
Proof. intros _. reflexivity. Qed.

Lemma bind_le {A B} (c c' : M W A) (f f' : A → M W B) :
  c ⊑ c' → (∀ a, f a ⊑ f' a) → c ≫= f ⊑ c' ≫= f'.
Proof.
  intros Hc Hf w r (a & w' & Ha & Hr)%bind_Some.
  rewrite (bind_run _ _ _ _ _ (Hc _ _ Ha)). by apply Hf.
Qed.

#[export] Instance mbind_le_proper {A B} :
  Proper (pointwise_relation A (⊑) ==> (⊑) ==> (⊑)) (mbind (M := M W) (B := B)).
Proof. intros f f' Hf c c' Hc. by apply bind_le. Qed.

Lemma when_le b (c c' : M W unit) : c ⊑ c' → when_ b c ⊑ when_ b c'.
Proof. by destruct b. Qed.

Lemma readonly_ret {A} (a : A) : readonly (mret a : M W A).
Proof. by intros w a' w' [= _ <-]. Qed.

Lemma readonly_bind {A B} (c : M W A) (f : A → M W B) :
  readonly c → (∀ a, readonly (f a)) → readonly (c ≫= f).
Proof.
  intros Hc Hf w b w' (a & w1 & Ha & Hb)%bind_Some.
  rewrite <- (Hc _ _ _ Ha). by eapply Hf.
Qed.

(** An assertion on an expression without side effects restricts the runs:
    the more assertions a build checks, the fewer runs return. *)
Lemma ASSERT_le (B B' : Build) (expr : M W bool) :
  B ⊑ B' → readonly expr →
  @ASSERT W B expr ⊑ @ASSERT W B' expr.
Proof.
  intros HB He w r Hr. unfold ASSERT.
  destruct (ASSERT_Some _ _ _ Hr) as [[HN ->]|(w' & Hw & ->)].
  - rewrite (HB HN). reflexivity.
  - pose proof (He _ _ _ Hw) as ->. destruct (@NDEBUG B'); [reflexivity|].
    rewrite (bind_run _ _ _ _ _ Hw). reflexivity.
Qed.

End Le.

(** ** Total correctness

    [wp c w Q]: run on [w], the computation [c] returns (it does not fault
    and its fuel suffices), and its result and final state satisfy [Q]. *)

Definition wp {W A} (c : M W A) (w : W) (Q : A → W → Prop) : Prop :=
  ∃ a w', c w = Some (a, w') ∧ Q a w'.

Section Wp.
Context {W : Type}.

Lemma wp_run {A} (c : M W A) w a w' (Q : A → W → Prop) :
  c w = Some (a, w') → Q a w' → wp c w Q.
Proof. intros. by exists a, w'. Qed.

Lemma wp_ret {A} (a : A) (w : W) (Q : A → W → Prop) : Q a w → wp (mret a) w Q.
Proof. by apply wp_run. Qed.

Lemma wp_bind {A B} (c : M W A) (f : A → M W B) w R (Q : B → W → Prop) :
  wp c w R → (∀ a w1, R a w1 → wp (f a) w1 Q) → wp (c ≫= f) w Q.
Proof.
  intros (a & w1 & Hc & HR) Hf. destruct (Hf a w1 HR) as (b & w2 & Hf2 & HQ).
  exists b, w2. by rewrite (bind_run _ _ _ _ _ Hc).
Qed.

Lemma wp_bind_run {A B} (c : M W A) (f : A → M W B) w a w1 (Q : B → W → Prop) :
  c w = Some (a, w1) → wp (f a) w1 Q → wp (c ≫= f) w Q.
Proof.
  intros Hc (b & w2 & Hf & HQ). exists b, w2. by rewrite (bind_run _ _ _ _ _ Hc).
Qed.

Lemma wp_bind_assoc {A B C} (c : M W A) (f : A → M W B) (g : B → M W C) w
    (Q : C → W → Prop) :
  wp (c ≫= λ a, f a ≫= g) w Q → wp ((c ≫= f) ≫= g) w Q.
Proof. unfold wp. by rewrite bind_assoc. Qed.

Lemma wp_mono {A} (c : M W A) w (Q Q' : A → W → Prop) :
  wp c w Q → (∀ a w', Q a w' → Q' a w') → wp c w Q'.
Proof. intros (a & w' & Hc & HQ) HQQ. exists a, w'. auto. Qed.

(** Two facts about the one run. *)
Lemma wp_and {A} (c : M W A) w (Q Q' : A → W → Prop) :
  wp c w Q → wp c w Q' → wp c w (λ a w', Q a w' ∧ Q' a w').
Proof.
  intros (a & w' & Hc & HQ) (a' & w'' & Hc' & HQ'). exists a, w'.
  rewrite Hc in Hc'. by simplify_eq.
Qed.

Lemma wp_eq {A} (c : M W A) w (Q : A → W → Prop) :
  wp c w Q → wp c w (λ a w', c w = Some (a, w') ∧ Q a w').
Proof. intros (a & w' & Hc & HQ). by exists a, w'. Qed.

Lemma wp_when (b : bool) (c : M W unit) w (Q : unit → W → Prop) :
  (b = true → wp c w Q) → (b = false → Q tt w) → wp (when_ b c) w Q.
Proof. destruct b; intros H1 H2; [by apply H1 | by apply wp_ret, H2]. Qed.

End Wp.

(** ** Invariants of every run *)

Section Keeps.
Context {W : Type} (T : W → Prop).

Lemma keeps_ret {A} (a : A) (R : A → Prop) : R a → keeps T (mret a) R.
Proof. by intros Ha w a' w' Hw [= <- <-]. Qed.

Lemma keeps_stuck {A} (R : A → Prop) : keeps T stuck R.
Proof. by intros w a w' _. Qed.

Lemma keeps_bind {A B} (c : M W A) (f : A → M W B) (R1 : A → Prop) (R : B → Prop) :
  keeps T c R1 → (∀ a, R1 a → keeps T (f a) R) → keeps T (c ≫= f) R.
Proof.
  intros Hc Hf w b w' Hw (a & w1 & Ha & Hb)%bind_Some.
  destruct (Hc _ _ _ Hw Ha) as [Hw1 HR1]. by apply (Hf a HR1 w1).
Qed.

Lemma keeps_weaken {A} (c : M W A) (R R' : A → Prop) :
  keeps T c R → (∀ a, R a → R' a) → keeps T c R'.
Proof. intros Hc HR w a w' Hw Ha. destruct (Hc _ _ _ Hw Ha). auto. Qed.

Lemma keeps_when b (c : M W unit) (R : unit → Prop) :
  keeps T c R → R tt → keeps T (when_ b c) R.
Proof. intros Hc HR. destruct b; [done|by apply keeps_ret]. Qed.

Lemma keeps_readonly {A} (c : M W A) : readonly c → keeps T c (λ _, True).
Proof. intros Hc w a w' Hw Ha. by rewrite (Hc _ _ _ Ha). Qed.

Lemma keeps_gets {A} (f : W → A) : keeps T (gets f) (λ _, True).
Proof. by intros w a w' Hw [= _ <-]. Qed.

Lemma keeps_ASSERT `{!Build} (e : M W bool) :
  readonly e → keeps T (ASSERT e) (λ _, True).
Proof.
  intros He w [] w' Hw [[_ [= <-]]|(w1 & Hw1 & [= <-])]%ASSERT_Some; [done|].
  by rewrite (He _ _ _ Hw1).
Qed.

(** What [wp] and [keeps] say together. *)
Lemma wp_keeps {A} (c : M W A) w (Q : A → W → Prop) (R : A → Prop) :
  T w → keeps T c R → wp c w Q → wp c w (λ a w', Q a w' ∧ T w' ∧ R a).
Proof.
  intros Hw Hc (a & w' & Ha & HQ). exists a, w'. split; [done|].
  split; [done|]. by apply (Hc w).
Qed.

End Keeps.

(** ** States reached by repeating a computation *)

Section Eventually.
Context {W A : Type} (step : M W A).

Lemma eventually_weaken (P Q : W → Prop) s :
  eventually step P s → (∀ s', P s' → Q s') → eventually step Q s.
Proof.
  intros H HPQ. induction H as [s Hs|s a s' Hstep _ IH];
    [by apply eventually_now, HPQ|by eapply eventually_step].
Qed.

Lemma eventually_trans (P Q : W → Prop) s :
  eventually step P s → (∀ s', P s' → eventually step Q s') → eventually step Q s.
Proof.
  intros H HPQ. induction H as [s Hs|s a s' Hstep _ IH];
    [by apply HPQ|by eapply eventually_step].
Qed.

(** A step that is known to return and to lead to the goal. *)
Lemma eventually_wp (P : W → Prop) s :
  wp step s (λ _ s', eventually step P s') → eventually step P s.
Proof. intros (a & s' & Hstep & H). by eapply eventually_step. Qed.

End Eventually.

(** Decompose hypotheses that say a monadic computation returned. *)
Ltac monad_inv :=
  repeat match goal with
  | H : (_ ≫= _) _ = Some _ |- _ =>
      apply bind_Some in H; destruct H as (? & ? & ? & H)
  | H : lift _ _ = Some _ |- _ => apply lift_Some in H; destruct H as [? ->]
  | H : mret _ _ = Some _ |- _ => injection H as <- <-
  | H : get _ = Some _ |- _ => injection H as <- <-
  | H : gets _ _ = Some _ |- _ => injection H as <- <-
  | H : put _ _ = Some _ |- _ => injection H as <- <-
  | H : modify _ _ = Some _ |- _ => injection H as <- <-
  | H : stuck _ = Some _ |- _ => discriminate H
  end.

(** ** Lemmas on lists shared by the components *)

Section Lists.
Context {A : Type}.

Lemma NoDup_app_comm (l1 l2 : list A) : NoDup (l1 ++ l2) → NoDup (l2 ++ l1).
Proof. by rewrite (Permutation_app_comm l1 l2). Qed.

Lemma NoDup_app_l (l1 l2 : list A) : NoDup (l1 ++ l2) → NoDup l1.
Proof. rewrite NoDup_app. tauto. Qed.

Lemma NoDup_app_r (l1 l2 : list A) : NoDup (l1 ++ l2) → NoDup l2.
Proof. rewrite NoDup_app. tauto. Qed.

Lemma NoDup_app_disj (l1 l2 : list A) x :
  NoDup (l1 ++ l2) → x ∈ l1 → x ∉ l2.
Proof. rewrite NoDup_app. intros (_ & H & _). apply H. Qed.

(** Sub-multisets of a list without repetition: the form in which the
    refinement proofs use that the addresses of a tree are distinct, since
    [solve_submseteq] decides the side condition by reflection. *)
Lemma submseteq_NoDup (l L : list A) : NoDup L → l ⊆+ L → NoDup l.
Proof.
  intros HL (k & Hk)%submseteq_Permutation. rewrite Hk in HL.
  by apply NoDup_app in HL as [? _].
Qed.

Lemma NoDup_ne (L : list A) x y : NoDup L → [x; y] ⊆+ L → x ≠ y.
Proof.
  intros HL Hsub ->. pose proof (submseteq_NoDup _ _ HL Hsub) as H.
  apply NoDup_cons in H as [H _]. apply H. by left.
Qed.

Lemma NoDup_not_elem (L l : list A) x : NoDup L → x :: l ⊆+ L → x ∉ l.
Proof.
  intros HL Hsub. pose proof (submseteq_NoDup _ _ HL Hsub) as H.
  by apply NoDup_cons in H as [H _].
Qed.

(** The element after and the element before a position of a list. *)
Lemma head_drop_lookup (l : list A) i : head (drop i l) = l !! i.
Proof. by rewrite head_lookup, lookup_drop, Nat.add_0_r. Qed.

Lemma last_take_lookup (l : list A) i :
  (i < length l)%nat → last (take (S i) l) = l !! i.
Proof.
  intros Hi. rewrite last_lookup, length_take_le by lia.
  by rewrite lookup_take_lt by (cbn; lia).
Qed.

End Lists.

#[export] Hint Resolve NoDup_app_l NoDup_app_r : pr.

(** Two addresses differ, or an address is not in a list, because both are
    parts of a list without repetition that is a hypothesis. *)
Ltac distinct :=
  first
    [ done
    | match goal with
      | Hnd : NoDup ?L |- _ ≠ _ => apply (NoDup_ne L _ _ Hnd); solve_submseteq
      | Hnd : NoDup ?L |- _ ∉ _ => apply (NoDup_not_elem L _ _ Hnd); solve_submseteq
      | Hnd : NoDup ?L |- NoDup _ => apply (submseteq_NoDup _ L Hnd); solve_submseteq
      end ].
