(* ===== verification/Contract.v ===== *)
(** * The comparator and deleter contract

    [tree->key_cmp] is a caller-supplied [int (*)(const void *, const void *)]
    and the tree reads only the sign of its result.  This file states what a
    comparator must satisfy for the tree to be a search tree (the class
    [Comparator]: a total preorder given by signs), the equivalence [keq] and
    the strict order [klt] it induces, with the instances that let the
    rewriting tactics replace a key by an equivalent one, and two concrete
    comparators.  [tree->del_func] is a callback whose body is the caller's:
    the model logs the pairs it is called with. *)

From Stdlib Require Import ZArith Lia.
From stdpp Require Import base tactics list.
From S2P Require Import Prelude.

#[local] Open Scope Z_scope.

(** [dict_compare_func] and the arguments of one call of a
    [dict_delete_func]. *)
Definition dict_compare_func (K : Type) : Type := K → K → Z.
Definition del_call (K V : Type) : Type := (K * V)%type.

(** The laws of a comparator: the sign is antisymmetric, and "not greater" is
    transitive. *)
Class Comparator {K : Type} (cmp : dict_compare_func K) : Prop := {
  cmp_sym : ∀ a b, Z.sgn (cmp b a) = - Z.sgn (cmp a b);
  cmp_trans : ∀ a b c, cmp a b ≤ 0 → cmp b c ≤ 0 → cmp a c ≤ 0
}.

(** Keys that compare equal, and keys in strict order. *)
Definition keq {K} (cmp : dict_compare_func K) (a b : K) : Prop := cmp a b = 0.
Definition klt {K} (cmp : dict_compare_func K) (a b : K) : Prop := cmp a b < 0.

(** A comparator on integer keys, and the default comparator of dict.c, which
    orders the key pointers themselves. *)
Definition Z_cmp : dict_compare_func Z := λ a b, a - b.
(** The address a key pointer holds. *)
Class KeyPointer (K : Type) : Type := key_address : K → positive.
Definition dict_ptr_cmp `{KeyPointer K} : dict_compare_func K := λ a b,
  if (key_address a <? key_address b)%positive then -1
  else if (key_address b <? key_address a)%positive then 1 else 0.

Section Comparator.
Context {K : Type} (cmp : dict_compare_func K) `{!Comparator cmp}.

Lemma cmp_refl a : cmp a a = 0.
Proof. pose proof (cmp_sym a a). lia. Qed.

Lemma cmp_lt_gt a b : cmp a b < 0 ↔ 0 < cmp b a.
Proof. pose proof (cmp_sym a b). lia. Qed.

Lemma cmp_eq_sym a b : cmp a b = 0 ↔ cmp b a = 0.
Proof. pose proof (cmp_sym a b). lia. Qed.

Lemma cmp_lt_trans a b c : cmp a b < 0 → cmp b c < 0 → cmp a c < 0.
Proof.
  intros Hab Hbc. assert (cmp a c ≤ 0) as Hac by (apply cmp_trans with b; lia).
  destruct (decide (cmp a c = 0)) as [H0|]; [|lia].
  apply cmp_eq_sym in H0.
  assert (cmp c b ≤ 0) by (apply cmp_trans with a; lia).
  apply cmp_lt_gt in Hbc. lia.
Qed.

Lemma cmp_eq_lt a b c : cmp a b = 0 → cmp b c < 0 → cmp a c < 0.
Proof.
  intros Hab Hbc. assert (cmp a c ≤ 0) as Hac by (apply cmp_trans with b; lia).
  destruct (decide (cmp a c = 0)) as [H0|]; [|lia].
  apply cmp_eq_sym in H0.
  assert (cmp c b ≤ 0) by (apply cmp_trans with a; lia).
  apply cmp_lt_gt in Hbc. lia.
Qed.

Lemma cmp_lt_eq a b c : cmp a b < 0 → cmp b c = 0 → cmp a c < 0.
Proof.
  intros Hab Hbc. assert (cmp a c ≤ 0) as Hac by (apply cmp_trans with b; lia).
  destruct (decide (cmp a c = 0)) as [H0|]; [|lia].
  apply cmp_eq_sym in H0.
  assert (cmp b a ≤ 0) by (apply cmp_trans with c; lia).
  apply cmp_lt_gt in Hab. lia.
Qed.

Lemma cmp_eq_trans a b c : cmp a b = 0 → cmp b c = 0 → cmp a c = 0.
Proof.
  intros Hab Hbc. assert (cmp a c ≤ 0) by (apply cmp_trans with b; lia).
  apply cmp_eq_sym in Hab. apply cmp_eq_sym in Hbc.
  assert (cmp c a ≤ 0) as Hca by (apply cmp_trans with b; lia).
  pose proof (cmp_sym a c). lia.
Qed.

(** Exactly one of less, equal, greater. *)
Lemma cmp_trichotomy a b :
  (cmp a b < 0 ∧ 0 < cmp b a) ∨ (cmp a b = 0 ∧ cmp b a = 0) ∨
  (0 < cmp a b ∧ cmp b a < 0).
Proof. pose proof (cmp_sym a b). lia. Qed.

#[export] Instance keq_equivalence : Equivalence (keq cmp).
Proof.
  split.
  - intros a. apply cmp_refl.
  - intros a b. apply cmp_eq_sym.
  - intros a b c. apply cmp_eq_trans.
Qed.

#[export] Instance klt_strict : StrictOrder (klt cmp).
Proof.
  split.
  - intros a Ha. unfold klt in Ha. rewrite cmp_refl in Ha. lia.
  - intros a b c. apply cmp_lt_trans.
Qed.

(** The sign of a comparison depends on the keys only up to [keq]. *)
Lemma cmp_sgn_proper a a' b b' :
  keq cmp a a' → keq cmp b b' → Z.sgn (cmp a b) = Z.sgn (cmp a' b').
Proof.
  unfold keq. intros Ha Hb.
  destruct (cmp_trichotomy a b) as [[H1 _]|[[H1 _]|[H2 H1]]].
  - assert (cmp a' b' < 0); [|lia].
    apply cmp_eq_lt with a; [by apply cmp_eq_sym|]. by apply cmp_lt_eq with b.
  - assert (cmp a' b' = 0); [|lia].
    apply cmp_eq_trans with a; [by apply cmp_eq_sym|]. by apply cmp_eq_trans with b.
  - assert (cmp b' a' < 0) as ?%cmp_lt_gt; [|lia].
    apply cmp_eq_lt with b; [by apply cmp_eq_sym|]. by apply cmp_lt_eq with a.
Qed.

#[export] Instance klt_proper : Proper (keq cmp ==> keq cmp ==> iff) (klt cmp).
Proof.
  intros a a' Ha b b' Hb. unfold klt.
  pose proof (cmp_sgn_proper a a' b b' Ha Hb). lia.
Qed.

#[export] Instance keq_proper : Proper (keq cmp ==> keq cmp ==> iff) (keq cmp).
Proof.
  intros a a' Ha b b' Hb. unfold keq.
  pose proof (cmp_sgn_proper a a' b b' Ha Hb). lia.
Qed.

Lemma klt_not_keq a b : klt cmp a b → ¬ keq cmp a b.
Proof. unfold klt, keq. lia. Qed.

Lemma klt_asym a b : klt cmp a b → ¬ klt cmp b a.
Proof. unfold klt. rewrite (cmp_lt_gt b a). lia. Qed.

End Comparator.

#[export] Instance Z_cmp_comparator : Comparator Z_cmp.
Proof. split; unfold Z_cmp; intros; lia. Qed.

#[export] Instance positive_key_pointer : KeyPointer positive := id.

#[export] Instance dict_ptr_cmp_comparator `{KeyPointer K} :
  Comparator (dict_ptr_cmp (K:=K)).
Proof.
  split; unfold dict_ptr_cmp; intros;
    repeat match goal with
    | |- context [(?x <? ?y)%positive] => destruct (Pos.ltb_spec x y)
    | H : context [(?x <? ?y)%positive] |- _ => destruct (Pos.ltb_spec x y)
    end; lia.
Qed.

(** The integer comparator identifies only equal keys; the default comparator
    identifies the keys held at one address. *)
Lemma Z_cmp_eq a b : keq Z_cmp a b ↔ a = b.
Proof. unfold keq, Z_cmp. lia. Qed.

Lemma dict_ptr_cmp_eq `{KeyPointer K} (a b : K) :
  keq dict_ptr_cmp a b ↔ key_address a = key_address b.
Proof.
  unfold keq, dict_ptr_cmp.
  destruct (Pos.ltb_spec (key_address a) (key_address b)),
    (Pos.ltb_spec (key_address b) (key_address a)); split; intros; lia.
Qed.

#[export] Hint Resolve cmp_refl : pr.
