(* ===== verification/Assoc.v ===== *)
(** * The abstract dictionary

    What a dictionary promises, independently of trees: a list of pairs in
    strictly ascending key order, with [assoc] (search), [put_entry] (insert,
    with or without overwrite) and [del_entry] (remove).  Keys are compared with the
    comparator only: two keys that compare equal are the same entry.  The
    tree operations of pr_tree.c are proved to compute these functions on the
    symmetric-order sequence of the tree. *)

From Stdlib Require Import ZArith Lia.
From stdpp Require Import base tactics option list sorting.
From S2P Require Import Prelude Contract.

#[local] Open Scope Z_scope.

Section Assoc.
Context {K V : Type} (cmp : dict_compare_func K).
Implicit Types (k : K) (v : V) (l : list (K * V)).

(** ** Definitions *)

Definition sorted l : Prop := StronglySorted (klt cmp) l.*1.

Fixpoint assoc k l : option V :=
  match l with
  | [] => None
  | (k', v') :: l' => if cmp k k' =? 0 then Some v' else assoc k l'
  end.

(** [put_entry k v overwrite l]: the entry equal to [k] gets the key and the
    datum given when [overwrite] is set and is left alone otherwise; without
    such an entry the pair is added at its place. *)
Fixpoint put_entry k v (overwrite : bool) l : list (K * V) :=
  match l with
  | [] => [(k, v)]
  | (k', v') :: l' =>
      if cmp k k' <? 0 then (k, v) :: l
      else if cmp k k' =? 0 then (if overwrite then (k, v) :: l' else l)
      else (k', v') :: put_entry k v overwrite l'
  end.

Fixpoint del_entry k l : list (K * V) :=
  match l with
  | [] => []
  | (k', v') :: l' => if cmp k k' =? 0 then l' else (k', v') :: del_entry k l'
  end.

(** The entry of [l] equal to [k], key and datum. *)
Fixpoint entry k l : option (K * V) :=
  match l with
  | [] => None
  | (k', v') :: l' => if cmp k k' =? 0 then Some (k', v') else entry k l'
  end.

(** The position of the entry of [l] equal to [k]. *)
Fixpoint index_of k l : option nat :=
  match l with
  | [] => None
  | (k', _) :: l' => if cmp k k' =? 0 then Some 0%nat else S <$> index_of k l'
  end.

(** ** Lemmas *)

Context `{!Comparator cmp}.

Lemma sorted_nil : sorted [].
Proof. constructor. Qed.

Lemma sorted_cons k v l :
  sorted ((k, v) :: l) ↔ Forall (klt cmp k) l.*1 ∧ sorted l.
Proof.
  unfold sorted. cbn. apply StronglySorted_cons.
Qed.

Lemma sorted_app l1 l2 :
  sorted (l1 ++ l2) ↔
  sorted l1 ∧ sorted l2 ∧ ∀ a b, a ∈ l1.*1 → b ∈ l2.*1 → klt cmp a b.
Proof.
  unfold sorted. rewrite fmap_app, StronglySorted_app. tauto.
Qed.

Lemma assoc_entry k l : assoc k l = snd <$> entry k l.
Proof. induction l as [|[k' v'] l IH]; cbn; [done|]. by case_match. Qed.

Lemma entry_keq k l kv : entry k l = Some kv → keq cmp k kv.1 ∧ kv ∈ l.
Proof.
  induction l as [|[k' v'] l IH]; cbn; [done|]. case_bool.
  - intros [= <-]. split; [done|by left].
  - intros [??]%IH. split; [done|by right].
Qed.

Lemma assoc_Some k l v : assoc k l = Some v → ∃ k', keq cmp k k' ∧ (k', v) ∈ l.
Proof.
  rewrite assoc_entry. destruct (entry k l) as [[k' v']|] eqn:He; [|done].
  intros [= <-]. apply entry_keq in He. by exists k'.
Qed.

Lemma assoc_None k l : assoc k l = None ↔ ∀ k' v, (k', v) ∈ l → ¬ keq cmp k k'.
Proof.
  induction l as [|[k' v'] l IH]; cbn.
  - split; [|done]. intros _ ?? ?%elem_of_nil. done.
  - case_bool.
    + split; [done|]. intros H. exfalso. apply (H k' v'); [by left|done].
    + rewrite IH. split.
      * intros H k'' v'' [[= -> ->]|?]%elem_of_cons; [done|by eapply H].
      * intros H k'' v'' ?. apply (H k'' v''). by right.
Qed.

(** Keys that compare equal find the same entry. *)
Lemma assoc_proper k1 k2 l : keq cmp k1 k2 → assoc k1 l = assoc k2 l.
Proof.
  intros Heq. induction l as [|[k' v'] l IH]; cbn; [done|]. rewrite IH.
  pose proof (cmp_sgn_proper cmp k1 k2 k' k' Heq (cmp_refl cmp k')).
  repeat case_bool; try done; lia.
Qed.

(** An entry below (above) all keys of a list is not in it. *)
Lemma assoc_below k l : Forall (klt cmp k) l.*1 → assoc k l = None.
Proof.
  intros H. apply assoc_None. intros k' v Hin Heq.
  rewrite Forall_forall in H. assert (klt cmp k k') as Hlt.
  { apply H. by apply (list_elem_of_fmap_2' _ _ (k', v)). }
  unfold klt, keq in *. lia.
Qed.

Lemma assoc_above k l : Forall (λ k', klt cmp k' k) l.*1 → assoc k l = None.
Proof.
  intros H. apply assoc_None. intros k' v Hin Heq.
  rewrite Forall_forall in H. assert (klt cmp k' k) as Hlt.
  { apply H. by apply (list_elem_of_fmap_2' _ _ (k', v)). }
  unfold klt, keq in *. apply cmp_eq_sym in Heq; [lia|done].
Qed.

Lemma assoc_app k l1 l2 :
  assoc k (l1 ++ l2) = match assoc k l1 with Some v => Some v | None => assoc k l2 end.
Proof.
  induction l1 as [|[k' v'] l1 IH]; cbn; [done|]. by destruct (cmp k k' =? 0).
Qed.

Lemma entry_None k l : entry k l = None ↔ assoc k l = None.
Proof. rewrite assoc_entry. by destruct (entry k l). Qed.

Lemma entry_app k l1 l2 :
  entry k (l1 ++ l2) = match entry k l1 with Some e => Some e | None => entry k l2 end.
Proof.
  induction l1 as [|[k' v'] l1 IH]; cbn; [done|]. by destruct (cmp k k' =? 0).
Qed.

(** The entry of [k] in a list split around the place of [k]. *)
Lemma entry_middle k l1 l2 l3 :
  Forall (λ k', klt cmp k' k) l1.*1 → Forall (klt cmp k) l3.*1 →
  entry k (l1 ++ l2 ++ l3) = entry k l2.
Proof.
  intros H1%assoc_above%entry_None H3%assoc_below%entry_None.
  rewrite !entry_app, H1, H3. by destruct (entry k l2).
Qed.

(** *** [put_entry] *)

(** [put_entry] passes over the entries below the key. *)
Lemma put_entry_app k v ow l1 l2 :
  Forall (λ x, klt cmp x k) l1.*1 →
  put_entry k v ow (l1 ++ l2) = l1 ++ put_entry k v ow l2.
Proof.
  induction l1 as [|[k' v'] l1 IH]; cbn; [done|].
  intros [Hlt ?]%Forall_cons. unfold klt in Hlt. apply (cmp_lt_gt cmp) in Hlt.
  destruct (Z.ltb_spec (cmp k k') 0); [lia|].
  destruct (Z.eqb_spec (cmp k k') 0); [lia|]. by rewrite IH.
Qed.

Lemma put_entry_below k v ow l :
  Forall (klt cmp k) l.*1 → put_entry k v ow l = (k, v) :: l.
Proof.
  destruct l as [|[k' v'] l]; cbn; [done|]. intros [Hlt _]%Forall_cons.
  unfold klt in Hlt. by destruct (Z.ltb_spec (cmp k k') 0); [|lia].
Qed.

Lemma put_entry_found k v ow k' v' l :
  keq cmp k k' →
  put_entry k v ow ((k', v') :: l) = if ow then (k, v) :: l else (k', v') :: l.
Proof.
  unfold keq. intros Heq. cbn. rewrite Heq. done.
Qed.

(** [put_entry] adds at most one entry. *)
Lemma length_put_entry k v ow l : (length (put_entry k v ow l) ≤ S (length l))%nat.
Proof.
  induction l as [|[k' v'] l IH]; cbn; [done|].
  repeat case_match; cbn; lia.
Qed.

(** Overwriting with the key of an entry changes the datum at its place. *)
Lemma put_entry_insert k v d i l :
  sorted l → l !! i = Some (k, v) → put_entry k d true l = <[i := (k, d)]> l.
Proof.
  revert i. induction l as [|[k' v'] l IH]; intros i Hs Hi; [done|].
  apply sorted_cons in Hs as [Hk' Hl]. destruct i as [|i]; cbn in Hi.
  - injection Hi as -> ->. by rewrite put_entry_found by apply (cmp_refl cmp).
  - change ((k', v') :: l) with ([(k', v')] ++ l).
    rewrite put_entry_app; [by rewrite (IH i)|].
    repeat constructor. eapply Forall_forall in Hk'; [exact Hk'|].
    apply (list_elem_of_fmap_2 fst _ (k, v)). by eapply list_elem_of_lookup_2.
Qed.

(** The keys after [put_entry] are the key given and the keys before. *)
Lemma put_entry_Forall (P : K → Prop) k v ow l :
  P k → Forall P l.*1 → Forall P (put_entry k v ow l).*1.
Proof.
  intros Hk. induction l as [|[k' v'] l IH]; cbn; [by repeat constructor|].
  intros [??]%Forall_cons. repeat case_match; cbn; repeat constructor; auto.
Qed.

Lemma put_entry_sorted k v ow l : sorted l → sorted (put_entry k v ow l).
Proof.
  induction l as [|[k' v'] l IH]; [by intros; apply sorted_cons|].
  intros [Hk' Hl]%sorted_cons. cbn.
  destruct (Z.ltb_spec (cmp k k') 0) as [Hlt|Hge].
  - apply sorted_cons. split; [|by apply sorted_cons]. cbn.
    constructor; [done|]. eapply Forall_impl; [exact Hk'|].
    intros x Hx. by trans k'.
  - destruct (Z.eqb_spec (cmp k k') 0) as [Heq|Hne].
    + destruct ow; [|by apply sorted_cons]. apply sorted_cons. split; [|done].
      eapply Forall_impl; [exact Hk'|]. intros x Hx. by eapply (cmp_eq_lt cmp).
    + apply sorted_cons. split; [|by apply IH].
      apply put_entry_Forall; [|done]. apply (cmp_lt_gt cmp). lia.
Qed.

(** Search after insertion. *)
Lemma assoc_put_entry_eq k v ow l :
  sorted l →
  assoc k (put_entry k v ow l) =
  if ow then Some v else Some (default v (assoc k l)).
Proof.
  pose proof (cmp_refl cmp k) as Hkk.
  induction l as [|[k' v'] l IH]; cbn; [by rewrite Hkk; destruct ow|].
  intros [Hk' Hl]%sorted_cons.
  destruct (Z.ltb_spec (cmp k k') 0) as [Hlt|Hge]; cbn.
  - rewrite Hkk. destruct (Z.eqb_spec (cmp k k') 0); [lia|].
    rewrite (assoc_below k l); [by destruct ow|].
    eapply Forall_impl; [exact Hk'|]. intros x Hx. by trans k'.
  - destruct (Z.eqb_spec (cmp k k') 0) as [Heq|Hne].
    + destruct ow; cbn; [by rewrite Hkk|]. by rewrite Heq.
    + cbn. destruct (Z.eqb_spec (cmp k k') 0); [done|]. by apply IH.
Qed.

Lemma assoc_put_entry_ne k v ow k0 l :
  ¬ keq cmp k0 k → assoc k0 (put_entry k v ow l) = assoc k0 l.
Proof.
  unfold keq. intros Hne%Z.eqb_neq.
  induction l as [|[k' v'] l IH]; cbn; [by rewrite Hne|].
  destruct (Z.ltb_spec (cmp k k') 0); cbn; [by rewrite Hne|].
  destruct (Z.eqb_spec (cmp k k') 0) as [Heq|]; cbn; [|by rewrite IH].
  destruct ow; cbn; [|done]. rewrite Hne.
  destruct (Z.eqb_spec (cmp k0 k') 0) as [Heq'|]; [|done].
  apply Z.eqb_neq in Hne. destruct Hne.
  apply (cmp_eq_trans cmp) with k'; [done|]. by apply (cmp_eq_sym cmp).
Qed.

(** *** [del_entry] *)

(** [del_entry] passes over the entries below the key. *)
Lemma del_entry_app k l1 l2 :
  Forall (λ x, klt cmp x k) l1.*1 →
  del_entry k (l1 ++ l2) = l1 ++ del_entry k l2.
Proof.
  induction l1 as [|[k' v'] l1 IH]; cbn; [done|].
  intros [Hlt ?]%Forall_cons. unfold klt in Hlt. apply (cmp_lt_gt cmp) in Hlt.
  destruct (Z.eqb_spec (cmp k k') 0); [lia|]. by rewrite IH.
Qed.

Lemma del_entry_found k k' v' l : keq cmp k k' → del_entry k ((k', v') :: l) = l.
Proof. unfold keq. intros Heq. cbn. by rewrite Heq. Qed.

Lemma length_del_entry k l : (length (del_entry k l) ≤ length l)%nat.
Proof.
  induction l as [|[k' v'] l IH]; cbn; [done|]. case_match; cbn; lia.
Qed.

Lemma del_entry_absent k l : assoc k l = None → del_entry k l = l.
Proof.
  induction l as [|[k' v'] l IH]; cbn; [done|].
  destruct (cmp k k' =? 0); [done|]. intros ?. by rewrite IH.
Qed.

Lemma del_entry_Forall (P : K → Prop) k l :
  Forall P l.*1 → Forall P (del_entry k l).*1.
Proof.
  induction l as [|[k' v'] l IH]; cbn; [done|].
  intros [??]%Forall_cons. case_match; [done|]. cbn. constructor; auto.
Qed.

Lemma del_entry_sorted k l : sorted l → sorted (del_entry k l).
Proof.
  induction l as [|[k' v'] l IH]; [done|]. intros [Hk' Hl]%sorted_cons. cbn.
  case_match; [done|]. apply sorted_cons. split; [|by apply IH].
  by apply del_entry_Forall.
Qed.

(** Search after removal. *)
Lemma assoc_del_entry_eq k l : sorted l → assoc k (del_entry k l) = None.
Proof.
  induction l as [|[k' v'] l IH]; [done|]. intros [Hk' Hl]%sorted_cons. cbn.
  destruct (Z.eqb_spec (cmp k k') 0) as [Heq|Hne].
  - apply assoc_below. eapply Forall_impl; [exact Hk'|].
    intros x Hx. by eapply (cmp_eq_lt cmp).
  - cbn. destruct (Z.eqb_spec (cmp k k') 0); [done|]. by apply IH.
Qed.

Lemma assoc_del_entry_ne k k0 l :
  ¬ keq cmp k0 k → assoc k0 (del_entry k l) = assoc k0 l.
Proof.
  unfold keq. intros Hne. induction l as [|[k' v'] l IH]; cbn; [done|].
  destruct (Z.eqb_spec (cmp k k') 0) as [Heq|]; cbn; [|by rewrite IH].
  destruct (Z.eqb_spec (cmp k0 k') 0) as [Heq'|]; [|done].
  destruct Hne. apply (cmp_eq_trans cmp) with k'; [done|].
  by apply (cmp_eq_sym cmp).
Qed.

(** *** [index_of] *)

Lemma index_of_Some k l i :
  index_of k l = Some i → ∃ k' v, l !! i = Some (k', v) ∧ keq cmp k k'.
Proof.
  revert i. induction l as [|[k1 v1] l IH]; intros i; cbn; [done|].
  destruct (Z.eqb_spec (cmp k k1) 0) as [Hk|_]; [intros [= <-]; by exists k1, v1|].
  destruct (index_of k l) as [j|]; intros [= <-]. by apply IH.
Qed.

(** In a sorted list the entry equal to a key is at one position only. *)
Lemma index_of_lookup k l i k' v :
  sorted l → l !! i = Some (k', v) → keq cmp k k' → index_of k l = Some i.
Proof.
  revert i. induction l as [|[k1 v1] l IH]; intros i Hs Hl Hk; [done|].
  apply sorted_cons in Hs as [Hlt Hs]. cbn. destruct i as [|i]; simpl in Hl.
  { simplify_eq. unfold keq in Hk. by rewrite Hk. }
  destruct (Z.eqb_spec (cmp k k1) 0) as [Hk1|_]; [exfalso|by rewrite (IH i)].
  assert (klt cmp k1 k') as Hlt'.
  { apply (Forall_lookup_1 _ _ i k' Hlt). rewrite list_lookup_fmap. by rewrite Hl. }
  apply (klt_not_keq cmp k1 k' Hlt'). unfold keq in *.
  apply (cmp_eq_trans cmp _ k); [by apply (cmp_eq_sym cmp)|done].
Qed.

Lemma index_of_None k l : index_of k l = None ↔ assoc k l = None.
Proof.
  induction l as [|[k1 v1] l IH]; cbn; [done|].
  destruct (cmp k k1 =? 0); [done|]. rewrite <- IH. by destruct (index_of k l).
Qed.

End Assoc.
