(* ===== verification/Node.v ===== *)
(** * Nodes, the tree struct and the store

    The structs of pr_tree.c ([pr_node], [pr_tree]), the state the C functions
    run on ([world]: the allocated nodes, the tree struct, the log of the
    calls to [del_func]), the reads and writes of fields through pointers, the
    macros [WEIGHT] and [REWEIGH], the allocator interface and [node_new].
    A read or a write through [NULL] or through the address of a node that is
    not allocated has no result. *)

From Stdlib Require Import ZArith Lia.
From stdpp Require Import base tactics option list gmap.
From S2P Require Import Prelude Contract.

#[local] Open Scope Z_scope.

(** ** The structs *)

(** [struct pr_node]. *)
Record pr_node (K V : Type) : Type := mk_node {
  key : K;
  datum : V;
  parent : ptr;
  llink : ptr;
  rlink : ptr;
  weight : Z
}.
Arguments mk_node {K V}.
Arguments key {K V}.
Arguments datum {K V}.
Arguments parent {K V}.
Arguments llink {K V}.
Arguments rlink {K V}.
Arguments weight {K V}.

(** [struct pr_tree].  [del_func] is [true] when the pointer is not [NULL]. *)
Record pr_tree (K : Type) : Type := mk_tree {
  root : ptr;
  count : Z;
  key_cmp : dict_compare_func K;
  del_func : bool
}.
Arguments mk_tree {K}.
Arguments root {K}.
Arguments count {K}.
Arguments key_cmp {K}.
Arguments del_func {K}.

(** The state: the nodes that are allocated, the tree struct ([None] before
    [pr_tree_new] and after [pr_tree_destroy]) and the pairs [del_func] was
    called with, oldest first. *)
Record world (K V : Type) : Type := mk_world {
  nodes : gmap positive (pr_node K V);
  tree : option (pr_tree K);
  del_log : list (del_call K V)
}.
Arguments mk_world {K V}.
Arguments nodes {K V}.
Arguments tree {K V}.
Arguments del_log {K V}.

(** The allocator behind [MALLOC]: given the addresses in use it returns a
    fresh one, or [None] when it is out of memory. *)
Class Allocator : Type := {
  MALLOC : gset positive → option positive;
  MALLOC_fresh : ∀ used a, MALLOC used = Some a → a ∉ used
}.

(** An allocator that never fails, and one that fails once [limit] nodes are
    allocated. *)
Definition MALLOC_unbounded (used : gset positive) : option positive :=
  Some (fresh used).
Definition MALLOC_bounded (limit : nat) (used : gset positive) : option positive :=
  if decide (size used < limit)%nat then Some (fresh used) else None.

Section Node.
Context {K V : Type}.

(** ** Field updates of a struct value *)

Definition set_key (x : K) (n : pr_node K V) : pr_node K V :=
  mk_node x (datum n) (parent n) (llink n) (rlink n) (weight n).
Definition set_datum (x : V) (n : pr_node K V) : pr_node K V :=
  mk_node (key n) x (parent n) (llink n) (rlink n) (weight n).
Definition set_parent (x : ptr) (n : pr_node K V) : pr_node K V :=
  mk_node (key n) (datum n) x (llink n) (rlink n) (weight n).
Definition set_llink (x : ptr) (n : pr_node K V) : pr_node K V :=
  mk_node (key n) (datum n) (parent n) x (rlink n) (weight n).
Definition set_rlink (x : ptr) (n : pr_node K V) : pr_node K V :=
  mk_node (key n) (datum n) (parent n) (llink n) x (weight n).
Definition set_weight (x : Z) (n : pr_node K V) : pr_node K V :=
  mk_node (key n) (datum n) (parent n) (llink n) (rlink n) x.

Definition set_root (x : ptr) (t : pr_tree K) : pr_tree K :=
  mk_tree x (count t) (key_cmp t) (del_func t).
Definition set_count (x : Z) (t : pr_tree K) : pr_tree K :=
  mk_tree (root t) x (key_cmp t) (del_func t).

Definition upd_nodes (f : gmap positive (pr_node K V) → gmap positive (pr_node K V))
    (w : world K V) : world K V :=
  mk_world (f (nodes w)) (tree w) (del_log w).
Definition upd_tree (f : option (pr_tree K) → option (pr_tree K))
    (w : world K V) : world K V :=
  mk_world (nodes w) (f (tree w)) (del_log w).
Definition upd_del_log (f : list (del_call K V) → list (del_call K V))
    (w : world K V) : world K V :=
  mk_world (nodes w) (tree w) (f (del_log w)).

(** What an operation that only relinks nodes leaves alone: the fields of the
    tree struct other than [root], and the log of deletions. *)
Definition meta (w : world K V) :
    option (Z * dict_compare_func K * bool) * list (del_call K V) :=
  ((λ tr, (count tr, key_cmp tr, del_func tr)) <$> tree w, del_log w).

(** ** Reads and writes through pointers *)

(** [*p] for a node pointer. *)
Definition deref (p : ptr) : M (world K V) (pr_node K V) := λ w,
  match p with
  | Some a => (λ n, (n, w)) <$> nodes w !! a
  | None => None
  end.

(** [p->f]. *)
Definition rd {A} (f : pr_node K V → A) (p : ptr) : M (world K V) A :=
  n ← deref p; mret (f n).

(** [p->f = x], as [wr (set_f x) p]. *)
Definition wr (f : pr_node K V → pr_node K V) (p : ptr) : M (world K V) unit :=
  n ← deref p;
  match p with
  | Some a => modify (upd_nodes <[a := f n]>)
  | None => stuck
  end.

(** [tree->f] and [tree->f = x]. *)
Definition rd_tree {A} (f : pr_tree K → A) : M (world K V) A := λ w,
  match tree w with
  | Some t => Some (f t, w)
  | None => None
  end.
Definition wr_tree (f : pr_tree K → pr_tree K) : M (world K V) unit := λ w,
  match tree w with
  | Some t => Some (tt, upd_tree (λ _, Some (f t)) w)
  | None => None
  end.

(** [FREE(p)] for a node pointer. *)
Definition FREE (p : ptr) : M (world K V) unit :=
  match p with
  | Some a => _ ← deref p; modify (upd_nodes (delete a))
  | None => mret tt
  end.

(** [if (tree->del_func) tree->del_func(node->key, node->datum);] *)
Definition call_del_func (node : ptr) : M (world K V) unit :=
  df ← rd_tree del_func;
  when_ df (
    k ← rd key node;
    d ← rd datum node;
    modify (upd_del_log (λ l, l ++ [(k, d)]))).

(** ** The macros *)

(** [#define WEIGHT(n) ((n) ? (n)->weight : 1)] *)
Definition WEIGHT (n : ptr) : M (world K V) Z :=
  match n with
  | Some _ => rd weight n
  | None => mret 1
  end.

(** [#define REWEIGH(n) (n)->weight = WEIGHT((n)->llink) + WEIGHT((n)->rlink)] *)
Definition REWEIGH (n : ptr) : M (world K V) unit :=
  l ← rd llink n;
  wl ← WEIGHT l;
  r ← rd rlink n;
  wr_ ← WEIGHT r;
  wr (set_weight (ulong (wl + wr_))) n.

(** ** [node_new] *)

Definition node_new `{!Allocator} (k : K) (d : V) : M (world K V) ptr := λ w,
  match MALLOC (dom (nodes w)) with
  | None => Some (NULL, w)
  | Some a =>
      Some (Some a, upd_nodes <[a := mk_node k d NULL NULL NULL 2]> w)
  end.

(** ** Lemmas: what a read or a write does on a store that holds the node *)

Implicit Types (w : world K V) (n : pr_node K V) (a : addr) (p : ptr).

Lemma deref_Some p w n w' :
  deref p w = Some (n, w') ↔ ∃ a, p = Some a ∧ nodes w !! a = Some n ∧ w' = w.
Proof.
  unfold deref. destruct p as [a|]; [|by split; [|intros (? & ? & _)]].
  destruct (nodes w !! a) as [n'|] eqn:E; simpl.
  - split; [intros [= <- <-]; eauto | intros (? & [= <-] & ? & ->); congruence].
  - split; [done | intros (? & [= <-] & ? & _); congruence].
Qed.

Lemma deref_run a w n : nodes w !! a = Some n → deref (Some a) w = Some (n, w).
Proof. intros H. unfold deref. by rewrite H. Qed.

Lemma rd_run {A} (f : pr_node K V → A) a w n :
  nodes w !! a = Some n → rd f (Some a) w = Some (f n, w).
Proof. intros H. unfold rd. by rewrite (bind_run _ _ _ _ _ (deref_run _ _ _ H)). Qed.

(** A read or a write through a pointer to a node that is not in the store
    has no result. *)
Lemma rd_dangling {A} (f : pr_node K V → A) a w :
  nodes w !! a = None → rd f (Some a) w = None.
Proof. intros H. unfold rd, deref, mbind, M_bind. by rewrite H. Qed.

Lemma wr_dangling f a w : nodes w !! a = None → wr f (Some a) w = None.
Proof. intros H. unfold wr, deref, mbind, M_bind. by rewrite H. Qed.

Lemma wr_run f a w n :
  nodes w !! a = Some n →
  wr f (Some a) w = Some (tt, upd_nodes <[a := f n]> w).
Proof. intros H. unfold wr. by rewrite (bind_run _ _ _ _ _ (deref_run _ _ _ H)). Qed.

Lemma rd_Some {A} (f : pr_node K V → A) p w x w' :
  rd f p w = Some (x, w') ↔
  ∃ a n, p = Some a ∧ nodes w !! a = Some n ∧ x = f n ∧ w' = w.
Proof.
  unfold rd. rewrite bind_Some. split.
  - intros (n & w1 & (a & -> & Hn & ->)%deref_Some & [= <- <-]). eauto 10.
  - intros (a & n & -> & Hn & -> & ->). exists n, w. by rewrite (deref_run _ _ n).
Qed.

Lemma wr_Some f p w w' :
  wr f p w = Some (tt, w') ↔
  ∃ a n, p = Some a ∧ nodes w !! a = Some n ∧ w' = upd_nodes <[a := f n]> w.
Proof.
  split.
  - unfold wr. rewrite bind_Some.
    intros (n & w1 & (a & -> & Hn & ->)%deref_Some & [= <-]). eauto.
  - intros (a & n & -> & Hn & ->). by apply wr_run.
Qed.

Lemma WEIGHT_NULL w : WEIGHT NULL w = Some (1, w).
Proof. done. Qed.

Lemma WEIGHT_run a w n :
  nodes w !! a = Some n → WEIGHT (Some a) w = Some (weight n, w).
Proof. apply rd_run. Qed.

Lemma rd_tree_run {A} (f : pr_tree K → A) w t :
  tree w = Some t → rd_tree f w = Some (f t, w).
Proof. intros H. unfold rd_tree. by rewrite H. Qed.

Lemma rd_tree_Some {A} (f : pr_tree K → A) w x w' :
  rd_tree f w = Some (x, w') ↔ ∃ tr, tree w = Some tr ∧ x = f tr ∧ w' = w.
Proof.
  unfold rd_tree. destruct (tree w) as [tr|]; [|by split; [|intros (? & ? & _)]].
  split; [intros [= <- <-]; eauto|by intros (? & [= <-] & -> & ->)].
Qed.

Lemma wr_tree_run f w t :
  tree w = Some t → wr_tree f w = Some (tt, upd_tree (λ _, Some (f t)) w).
Proof. intros H. unfold wr_tree. by rewrite H. Qed.

Lemma FREE_run a w n :
  nodes w !! a = Some n → FREE (Some a) w = Some (tt, upd_nodes (delete a) w).
Proof. intros H. unfold FREE. by rewrite (bind_run _ _ _ _ _ (deref_run _ _ _ H)). Qed.

(** Two writes to the same node: the second one stays. *)
Lemma upd_nodes_insert_insert w a (x y : pr_node K V) :
  upd_nodes <[a:=x]> (upd_nodes <[a:=y]> w) = upd_nodes <[a:=x]> w.
Proof. unfold upd_nodes. cbn. by rewrite insert_insert_eq. Qed.

(** What [meta] says of the tree struct. *)
Lemma meta_Some w cnt cmp df log :
  meta w = (Some (cnt, cmp, df), log) →
  ∃ tr, tree w = Some tr ∧ count tr = cnt ∧ key_cmp tr = cmp ∧
        del_func tr = df ∧ del_log w = log.
Proof.
  unfold meta. destruct (tree w) as [tr|]; [|done]. intros [= <- <- <- <-].
  by exists tr.
Qed.

Lemma meta_tree w w' tr :
  meta w' = meta w → tree w = Some tr →
  ∃ tr', tree w' = Some tr' ∧ count tr' = count tr ∧ key_cmp tr' = key_cmp tr ∧
         del_func tr' = del_func tr ∧ del_log w' = del_log w.
Proof.
  intros Hm Htr. apply meta_Some. rewrite Hm. unfold meta. by rewrite Htr.
Qed.

(** [if (tree->del_func) tree->del_func(node->key, node->datum)] logs the
    pair when there is a deleter. *)
Lemma call_del_func_run w tr a n :
  tree w = Some tr → nodes w !! a = Some n →
  call_del_func (Some a) w =
  Some (tt, if del_func tr
            then upd_del_log (λ log, log ++ [(key n, datum n)]) w else w).
Proof.
  intros Htr Ha. unfold call_del_func.
  rewrite (bind_run _ _ _ _ _ (rd_tree_run del_func _ _ Htr)).
  destruct (del_func tr); [|done]. unfold when_.
  rewrite (bind_run _ _ _ _ _ (rd_run key _ _ _ Ha)).
  by rewrite (bind_run _ _ _ _ _ (rd_run datum _ _ _ Ha)).
Qed.

(** [node_new] on an allocator that answers: a leaf of weight 2 at a fresh
    address, or [NULL] and no change. *)
Lemma node_new_Some `{!Allocator} k d w a :
  MALLOC (dom (nodes w)) = Some a →
  node_new k d w =
    Some (Some a, upd_nodes <[a := mk_node k d NULL NULL NULL 2]> w) ∧
  nodes w !! a = None.
Proof.
  intros Hm. unfold node_new. rewrite Hm. split; [done|].
  by apply not_elem_of_dom, MALLOC_fresh.
Qed.

Lemma node_new_NULL `{!Allocator} k d w :
  MALLOC (dom (nodes w)) = None → node_new k d w = Some (NULL, w).
Proof. intros Hm. unfold node_new. by rewrite Hm. Qed.

End Node.

(** ** The two allocators implement the interface *)

#[export] Program Instance unbounded_allocator : Allocator :=
  {| MALLOC := MALLOC_unbounded |}.
Next Obligation. intros used a [= <-]. apply is_fresh. Qed.

Program Definition bounded_allocator (limit : nat) : Allocator :=
  {| MALLOC := MALLOC_bounded limit |}.
Next Obligation.
  intros limit used a. unfold MALLOC_bounded.
  case_decide; [|done]. intros [= <-]. apply is_fresh.
Qed.

(** The field updates compute as soon as they are applied. *)
Arguments set_key {K V} x n /.
Arguments set_datum {K V} x n /.
Arguments set_parent {K V} x n /.
Arguments set_llink {K V} x n /.
Arguments set_rlink {K V} x n /.
Arguments set_weight {K V} x n /.
Arguments set_root {K} x t /.
Arguments set_count {K} x t /.
