(* ===== verification/Rotate.v ===== *)
(** * Rotations and rebalancing

    [rot_left], [rot_right] and [fixup] of pr_tree.c, statement by statement.
    Every [p->f] of the C is a read of the store at the time it is executed,
    so the model does what the C does also when pointers alias.  [fixup] is a
    [goto again] loop with one recursive call in the double-rotation branches:
    both the jump and the call consume one unit of fuel.  The macro [FIXUP],
    which [pr_tree_insert] and [pr_tree_probe] use, is modelled as its own
    expansion: [FIXUP_again] is the code from the label [again:] of the macro,
    whose jumps stay in the expansion and whose recursive case calls the
    function [fixup].  The functions start with the assertions of the C on
    [node] and on the child that is lifted; the macro has none. *)

From Stdlib Require Import ZArith Lia.
From stdpp Require Import base tactics option list gmap.
From S2P Require Import Prelude Contract Node.

#[local] Open Scope Z_scope.

Section Rotate.
Context {build : Build} {K V : Type}.

(** The statement that puts [x] where [node] hangs, which the C writes out in
    both rotations and in both unlinking branches of [pr_tree_remove]:
    [if (parent) { if (parent->llink == node) parent->llink = x;
    else parent->rlink = x; } else tree->root = x;] *)
Definition replace_child (parent_ node x : ptr) : M (world K V) unit :=
  if nonnull parent_ then
    pl ← rd llink parent_;
    if ptr_eqb pl node then wr (set_llink x) parent_
    else wr (set_rlink x) parent_
  else wr_tree (set_root x).

(** [rot_left(tree, node)]: the right child of [node] takes its place. *)
Definition rot_left (node : ptr) : M (world K V) unit :=
  ASSERT (mret (nonnull node));;
  ASSERT (r ← rd rlink node; mret (nonnull r));;
  rlink_ ← rd rlink node;
  rl ← rd llink rlink_;
  wr (set_rlink rl) node;;
  rl' ← rd llink rlink_;
  when_ (nonnull rl') (wr (set_parent node) rl');;
  parent_ ← rd parent node;
  wr (set_parent parent_) rlink_;;
  replace_child parent_ node rlink_;;
  wr (set_llink node) rlink_;;
  wr (set_parent rlink_) node;;
  REWEIGH node;;
  REWEIGH rlink_.

(** [rot_right(tree, node)]: the left child of [node] takes its place. *)
Definition rot_right (node : ptr) : M (world K V) unit :=
  ASSERT (mret (nonnull node));;
  ASSERT (l ← rd llink node; mret (nonnull l));;
  llink_ ← rd llink node;
  lr ← rd rlink llink_;
  wr (set_llink lr) node;;
  lr' ← rd rlink llink_;
  when_ (nonnull lr') (wr (set_parent node) lr');;
  parent_ ← rd parent node;
  wr (set_parent parent_) llink_;;
  replace_child parent_ node llink_;;
  wr (set_rlink node) llink_;;
  wr (set_parent llink_) node;;
  REWEIGH node;;
  REWEIGH llink_.

(** [fixup(tree, node)].  [again:] is the head of the recursion; a branch that
    ends in [goto again] ends in [fixup fuel node].  The assertion on [node],
    which the function never assigns, stands at the head of the recursion: it
    passes after a jump because it passed at entry. *)
Fixpoint fixup (fuel : nat) (node : ptr) : M (world K V) unit :=
  match fuel with
  | O => stuck
  | S fuel =>
      ASSERT (mret (nonnull node));;
      l ← rd llink node;
      wl ← WEIGHT l;
      r ← rd rlink node;
      wr_ ← WEIGHT r;
      if wr_ >? wl then
        rr ← rd rlink r;
        wrr ← WEIGHT rr;
        if wrr >? wl then
          rot_left node;;
          fixup fuel node
        else
          rl ← rd llink r;
          wrl ← WEIGHT rl;
          if wrl >? wl then
            temp ← rd rlink node;
            rot_right temp;;
            rot_left node;;
            tr ← rd rlink temp;
            when_ (nonnull tr) (fixup fuel tr);;
            fixup fuel node
          else mret tt
      else if wl >? wr_ then
        ll ← rd llink l;
        wll ← WEIGHT ll;
        if wll >? wr_ then
          rot_right node;;
          fixup fuel node
        else
          lr ← rd rlink l;
          wlr ← WEIGHT lr;
          if wlr >? wr_ then
            temp ← rd llink node;
            rot_left temp;;
            rot_right node;;
            tl ← rd llink temp;
            when_ (nonnull tl) (fixup fuel tl);;
            fixup fuel node
          else mret tt
      else mret tt
  end.

(** The fuel the entry points give to [fixup]: above the internal path length
    of any tree made of the nodes of the store. *)
Definition fixup_fuel (w : world K V) : nat :=
  S (size (nodes w) * size (nodes w)).

(** The macro [FIXUP(t, node)]: the body of [fixup] written out where the
    macro is used.  Its [goto again] jumps to the [again:] of the expansion
    ([FIXUP_again]); the recursive case of the double rotations is a call of
    the function [fixup]. *)
Fixpoint FIXUP_again (fuel : nat) (n : ptr) : M (world K V) unit :=
  match fuel with
  | O => stuck
  | S fuel =>
      l ← rd llink n;
      wl ← WEIGHT l;
      r ← rd rlink n;
      wr_ ← WEIGHT r;
      if wr_ >? wl then
        rr ← rd rlink r;
        wrr ← WEIGHT rr;
        if wrr >? wl then
          rot_left n;;
          FIXUP_again fuel n
        else
          rl ← rd llink r;
          wrl ← WEIGHT rl;
          if wrl >? wl then
            temp ← rd rlink n;
            rot_right temp;;
            rot_left n;;
            tr ← rd rlink temp;
            when_ (nonnull tr) (fixup fuel tr);;
            FIXUP_again fuel n
          else mret tt
      else if wl >? wr_ then
        ll ← rd llink l;
        wll ← WEIGHT ll;
        if wll >? wr_ then
          rot_right n;;
          FIXUP_again fuel n
        else
          lr ← rd rlink l;
          wlr ← WEIGHT lr;
          if wlr >? wr_ then
            temp ← rd llink n;
            rot_left temp;;
            rot_right n;;
            tl ← rd llink temp;
            when_ (nonnull tl) (fixup fuel tl);;
            FIXUP_again fuel n
          else mret tt
      else mret tt
  end.

Definition FIXUP (node : ptr) : M (world K V) unit :=
  fuel ← gets fixup_fuel;
  FIXUP_again fuel node.

End Rotate.
