(* ===== verification/Tree.v ===== *)
(** * The tree core

    The entry points of pr_tree.c that create, search and change a tree:
    [pr_tree_new], [pr_tree_destroy], [pr_tree_search], [pr_tree_csearch],
    [pr_tree_insert], [pr_tree_probe], [pr_tree_remove], [pr_tree_empty] and
    [pr_tree_count].  Each loop of the C is a [Fixpoint] on fuel next to the
    function that runs it; a loop that can leave the function early returns a
    sum: [inl] is the value of a [return] inside the loop, [inr] the variables
    the code after the loop reads.  [ASSERT(tree->count == 0)] is where
    the C has it, before the first node is linked. *)

From Stdlib Require Import ZArith Lia.
From stdpp Require Import base tactics option list gmap.
From S2P Require Import Prelude Contract Node Rotate.

#[local] Open Scope Z_scope.

Section Tree.
Context {build : Build} {K V : Type}.

(** The fuel of a walk along [llink], [rlink] or [parent] pointers, and of a
    loop that passes each edge of the tree at most twice. *)
Definition path_fuel (w : world K V) : nat := S (size (nodes w)).
Definition sweep_fuel (w : world K V) : nat := S (2 * size (nodes w)).

(** ** [pr_tree_new]

    [mem] says whether [MALLOC] gave memory for the tree struct; [key_cmp] is
    [None] for a [NULL] comparator, replaced by [dict_ptr_cmp].  The result is
    [true] for a tree pointer, [false] for [NULL]. *)
Definition pr_tree_new `{KeyPointer K} (mem : bool)
    (key_cmp : option (dict_compare_func K)) (del_func : bool) :
    M (world K V) bool :=
  if mem then
    modify (upd_tree (λ _, Some (mk_tree NULL 0 (default dict_ptr_cmp key_cmp) del_func)));;
    mret true
  else mret false.

(** ** [pr_tree_search] and [pr_tree_csearch] *)

Fixpoint search_loop (fuel : nat) (k : K) (node : ptr) : M (world K V) (option V) :=
  match fuel with
  | O => stuck
  | S fuel =>
      if nonnull node then
        cmp ← rd_tree key_cmp;
        nk ← rd key node;
        let rv := cmp k nk in
        if rv <? 0 then
          l ← rd llink node; search_loop fuel k l
        else if rv >? 0 then
          r ← rd rlink node; search_loop fuel k r
        else
          d ← rd datum node; mret (Some d)
      else mret None
  end.

Definition pr_tree_search (k : K) : M (world K V) (option V) :=
  node ← rd_tree root;
  fuel ← gets path_fuel;
  search_loop fuel k node.

Definition pr_tree_csearch (k : K) : M (world K V) (option V) :=
  pr_tree_search k.

(** ** [pr_tree_insert] *)

(** The descent.  [inl rv] is a [return rv] from the loop (the key was found);
    [inr (rv, parent)] are the last comparison and the node under which the new
    node goes. *)
Fixpoint insert_loop (fuel : nat) (k : K) (d : V) (overwrite : Z)
    (rv : Z) (parent_ node : ptr) : M (world K V) (Z + Z * ptr) :=
  match fuel with
  | O => stuck
  | S fuel =>
      if nonnull node then
        cmp ← rd_tree key_cmp;
        nk ← rd key node;
        let rv := cmp k nk in
        if rv <? 0 then
          l ← rd llink node; insert_loop fuel k d overwrite rv node l
        else if rv >? 0 then
          r ← rd rlink node; insert_loop fuel k d overwrite rv node r
        else if overwrite =? 0 then mret (inl 1)
        else
          call_del_func node;;
          wr (set_key k) node;;
          wr (set_datum d) node;;
          mret (inl 0)
      else mret (inr (rv, parent_))
  end.

(** [while ((node = parent) != NULL) { parent = parent->parent;
    node->weight++; FIXUP(tree, node); }] *)
Fixpoint insert_fixup_loop (fuel : nat) (parent_ : ptr) : M (world K V) unit :=
  match fuel with
  | O => stuck
  | S fuel =>
      let node := parent_ in
      if nonnull node then
        parent' ← rd parent parent_;
        wt ← rd weight node;
        wr (set_weight (ulong (wt + 1))) node;;
        FIXUP node;;
        insert_fixup_loop fuel parent'
      else mret tt
  end.

(** The code of [pr_tree_insert] and [pr_tree_probe] after the descent: make
    the node, link it under [parent_] and walk up.  [found] is what is
    returned when a node was made: 0 from insert, 1 from probe. *)
Definition link_new_node `{!Allocator} (k : K) (d : V) (rv : Z) (parent_ : ptr)
    (found : Z) : M (world K V) Z :=
  node ← node_new k d;
  if negb (nonnull node) then mret (-1)
  else
    wr (set_parent parent_) node;;
    if negb (nonnull parent_) then
      ASSERT (c ← rd_tree count; mret (c =? 0));;
      wr_tree (set_root node);;
      wr_tree (set_count 1);;
      mret found
    else
      (if rv <? 0 then wr (set_llink node) parent_
       else wr (set_rlink node) parent_);;
      fuel ← gets path_fuel;
      insert_fixup_loop fuel parent_;;
      c ← rd_tree count;
      wr_tree (set_count (uint (c + 1)));;
      mret found.

Definition pr_tree_insert `{!Allocator} (k : K) (d : V) (overwrite : Z) :
    M (world K V) Z :=
  node ← rd_tree root;
  fuel ← gets path_fuel;
  r ← insert_loop fuel k d overwrite 0 NULL node;
  match r with
  | inl rv => mret rv
  | inr (rv, parent_) => link_new_node k d rv parent_ 0
  end.

(** ** [pr_tree_probe]

    [d] is [*datum] on entry; the second component of the result is [*datum]
    on return. *)
Fixpoint probe_loop (fuel : nat) (k : K) (rv : Z) (parent_ node : ptr) :
    M (world K V) (V + Z * ptr) :=
  match fuel with
  | O => stuck
  | S fuel =>
      if nonnull node then
        cmp ← rd_tree key_cmp;
        nk ← rd key node;
        let rv := cmp k nk in
        if rv <? 0 then
          l ← rd llink node; probe_loop fuel k rv node l
        else if rv >? 0 then
          r ← rd rlink node; probe_loop fuel k rv node r
        else
          nd ← rd datum node; mret (inl nd)
      else mret (inr (rv, parent_))
  end.

Definition pr_tree_probe `{!Allocator} (k : K) (d : V) : M (world K V) (Z * V) :=
  node ← rd_tree root;
  fuel ← gets path_fuel;
  r ← probe_loop fuel k 0 NULL node;
  match r with
  | inl nd => mret (0, nd)
  | inr (rv, parent_) =>
      ret ← link_new_node k d rv parent_ 1;
      mret (ret, d)
  end.

(** ** [pr_tree_remove] *)

(** [for (; temp; temp = temp->parent) temp->weight--;] *)
Fixpoint weight_dec_loop (fuel : nat) (temp : ptr) : M (world K V) unit :=
  match fuel with
  | O => stuck
  | S fuel =>
      if nonnull temp then
        wt ← rd weight temp;
        wr (set_weight (ulong (wt - 1))) temp;;
        next ← rd parent temp;
        weight_dec_loop fuel next
      else mret tt
  end.

(** The two branches that unlink a node with at most one child: [out] is the
    child that takes its place. *)
Definition splice_out (node out : ptr) : M (world K V) Z :=
  np ← rd parent node;
  when_ (nonnull out) (wr (set_parent np) out);;
  np ← rd parent node;
  replace_child np node out;;
  temp ← rd parent node;
  call_del_func node;;
  FREE node;;
  fuel ← gets path_fuel;
  weight_dec_loop fuel temp;;
  c ← rd_tree count;
  wr_tree (set_count (uint (c - 1)));;
  mret 0.

Fixpoint remove_loop (fuel : nat) (k : K) (node : ptr) : M (world K V) Z :=
  match fuel with
  | O => stuck
  | S fuel =>
      if nonnull node then
        cmp ← rd_tree key_cmp;
        nk ← rd key node;
        let rv := cmp k nk in
        if negb (rv =? 0) then
          next ← (if rv <? 0 then rd llink node else rd rlink node);
          remove_loop fuel k next
        else
          l ← rd llink node;
          if negb (nonnull l) then
            out ← rd rlink node; splice_out node out
          else
          r ← rd rlink node;
          if negb (nonnull r) then
            out ← rd llink node; splice_out node out
          else
            wl ← WEIGHT l;
            wr_ ← WEIGHT r;
            if wl >? wr_ then
              ll ← rd llink l;
              wll ← WEIGHT ll;
              lr ← rd rlink l;
              wlr ← WEIGHT lr;
              when_ (wll <? wlr) (rot_left l);;
              out ← rd llink node;
              rot_right node;;
              next ← rd rlink out;
              remove_loop fuel k next
            else
              rr ← rd rlink r;
              wrr ← WEIGHT rr;
              rl ← rd llink r;
              wrl ← WEIGHT rl;
              when_ (wrr <? wrl) (rot_right r);;
              out ← rd rlink node;
              rot_left node;;
              next ← rd llink out;
              remove_loop fuel k next
      else mret (-1)
  end.

Definition pr_tree_remove (k : K) : M (world K V) Z :=
  node ← rd_tree root;
  fuel ← gets sweep_fuel;
  remove_loop fuel k node.

(** ** [pr_tree_empty] and [pr_tree_destroy] *)

Fixpoint empty_loop (fuel : nat) (node : ptr) : M (world K V) unit :=
  match fuel with
  | O => stuck
  | S fuel =>
      if nonnull node then
        l ← rd llink node;
        r ← rd rlink node;
        if nonnull l || nonnull r then
          empty_loop fuel (if nonnull l then l else r)
        else
          call_del_func node;;
          parent_ ← rd parent node;
          FREE node;;
          when_ (nonnull parent_) (
            pl ← rd llink parent_;
            if ptr_eqb pl node then wr (set_llink NULL) parent_
            else wr (set_rlink NULL) parent_);;
          empty_loop fuel parent_
      else mret tt
  end.

Definition pr_tree_empty : M (world K V) Z :=
  c ← rd_tree count;
  node ← rd_tree root;
  fuel ← gets sweep_fuel;
  empty_loop fuel node;;
  wr_tree (set_root NULL);;
  wr_tree (set_count 0);;
  mret c.

Definition pr_tree_destroy : M (world K V) Z :=
  r ← rd_tree root;
  c ← (if nonnull r then pr_tree_empty else mret 0);
  modify (upd_tree (λ _, None));;
  mret c.

(** ** [pr_tree_count] *)

Definition pr_tree_count : M (world K V) Z := rd_tree count.

End Tree.
