(* ===== verification/Walk.v ===== *)
(** * Traversal and metrics

    The static helpers [node_min], [node_max], [node_next], [node_prev],
    [node_height], [node_mheight], [node_pathlen] and the entry points built
    on them: [pr_tree_min], [pr_tree_max], [pr_tree_walk], [pr_tree_height],
    [pr_tree_mheight], [pr_tree_pathlen].  The visitor of [pr_tree_walk] is
    the caller's code: it is a function on a state [S] of the caller, which it
    may change at each call, and it returns whether the walk goes on.  Each
    static helper starts with the [ASSERT(node != NULL)] of the C. *)

From Stdlib Require Import ZArith Lia.
From stdpp Require Import base tactics option list gmap.
From S2P Require Import Prelude Contract Node Rotate Tree.

#[local] Open Scope Z_scope.

Section Walk.
Context {build : Build} {K V : Type}.

(** ** Leftmost and rightmost nodes *)

(** [while (node->llink) node = node->llink;] *)
Fixpoint llink_loop (fuel : nat) (node : ptr) : M (world K V) ptr :=
  match fuel with
  | O => stuck
  | S fuel =>
      l ← rd llink node;
      if nonnull l then llink_loop fuel l else mret node
  end.

(** [while (node->rlink) node = node->rlink;] *)
Fixpoint rlink_loop (fuel : nat) (node : ptr) : M (world K V) ptr :=
  match fuel with
  | O => stuck
  | S fuel =>
      r ← rd rlink node;
      if nonnull r then rlink_loop fuel r else mret node
  end.

Definition node_min (node : ptr) : M (world K V) ptr :=
  ASSERT (mret (nonnull node));;
  fuel ← gets path_fuel;
  llink_loop fuel node.

Definition node_max (node : ptr) : M (world K V) ptr :=
  ASSERT (mret (nonnull node));;
  fuel ← gets path_fuel;
  rlink_loop fuel node.

(** [pr_tree_min] and [pr_tree_max]: the key of the leftmost (rightmost) node,
    [None] for the [NULL] of an empty tree. *)
Definition pr_tree_min : M (world K V) (option K) :=
  node ← rd_tree root;
  if negb (nonnull node) then mret None
  else
    fuel ← gets path_fuel;
    node ← llink_loop fuel node;
    k ← rd key node;
    mret (Some k).

Definition pr_tree_max : M (world K V) (option K) :=
  node ← rd_tree root;
  if negb (nonnull node) then mret None
  else
    fuel ← gets path_fuel;
    node ← rlink_loop fuel node;
    k ← rd key node;
    mret (Some k).

(** ** Successor and predecessor *)

(** [while (temp && temp->rlink == node) { node = temp; temp = temp->parent; }] *)
Fixpoint next_up_loop (fuel : nat) (node temp : ptr) : M (world K V) ptr :=
  match fuel with
  | O => stuck
  | S fuel =>
      if nonnull temp then
        tr ← rd rlink temp;
        if ptr_eqb tr node then
          temp' ← rd parent temp;
          next_up_loop fuel temp temp'
        else mret temp
      else mret temp
  end.

(** [while (temp && temp->llink == node) { node = temp; temp = temp->parent; }] *)
Fixpoint prev_up_loop (fuel : nat) (node temp : ptr) : M (world K V) ptr :=
  match fuel with
  | O => stuck
  | S fuel =>
      if nonnull temp then
        tl ← rd llink temp;
        if ptr_eqb tl node then
          temp' ← rd parent temp;
          prev_up_loop fuel temp temp'
        else mret temp
      else mret temp
  end.

Definition node_next (node : ptr) : M (world K V) ptr :=
  ASSERT (mret (nonnull node));;
  fuel ← gets path_fuel;
  r ← rd rlink node;
  if nonnull r then llink_loop fuel r
  else
    temp ← rd parent node;
    next_up_loop fuel node temp.

Definition node_prev (node : ptr) : M (world K V) ptr :=
  ASSERT (mret (nonnull node));;
  fuel ← gets path_fuel;
  l ← rd llink node;
  if nonnull l then rlink_loop fuel l
  else
    temp ← rd parent node;
    prev_up_loop fuel node temp.

(** ** [pr_tree_walk] *)

(** [for (...; node; node = node_next(node)) { ++count;
    if (!visit(node->key, node->datum)) break; }] *)
Fixpoint walk_loop {S : Type} (fuel : nat) (visit : K → V → S → bool * S)
    (node : ptr) (n : Z) (s : S) : M (world K V) (Z * S) :=
  match fuel with
  | O => stuck
  | S fuel =>
      if nonnull node then
        let n := uint (n + 1) in
        k ← rd key node;
        d ← rd datum node;
        let r := visit k d s in
        if negb (fst r) then mret (n, snd r)
        else
          next ← node_next node;
          walk_loop fuel visit next n (snd r)
      else mret (n, s)
  end.

Definition pr_tree_walk {S : Type} (visit : K → V → S → bool * S) (s : S) :
    M (world K V) (Z * S) :=
  r ← rd_tree root;
  if negb (nonnull r) then mret (0, s)
  else
    fuel ← gets path_fuel;
    node ← node_min r;
    walk_loop fuel visit node 0 s.

(** ** Metrics *)

Fixpoint node_height (fuel : nat) (node : ptr) : M (world K V) Z :=
  match fuel with
  | O => stuck
  | S fuel =>
      ASSERT (mret (nonnull node));;
      ll ← rd llink node;
      l ← (if nonnull ll then h ← node_height fuel ll; mret (uint (h + 1))
           else mret 0);
      rl ← rd rlink node;
      r ← (if nonnull rl then h ← node_height fuel rl; mret (uint (h + 1))
           else mret 0);
      mret (MAX l r)
  end.

Fixpoint node_mheight (fuel : nat) (node : ptr) : M (world K V) Z :=
  match fuel with
  | O => stuck
  | S fuel =>
      ASSERT (mret (nonnull node));;
      ll ← rd llink node;
      l ← (if nonnull ll then h ← node_mheight fuel ll; mret (uint (h + 1))
           else mret 0);
      rl ← rd rlink node;
      r ← (if nonnull rl then h ← node_mheight fuel rl; mret (uint (h + 1))
           else mret 0);
      mret (MIN l r)
  end.

Fixpoint node_pathlen (fuel : nat) (node : ptr) (level : Z) : M (world K V) Z :=
  match fuel with
  | O => stuck
  | S fuel =>
      let n := 0 in
      ASSERT (mret (nonnull node));;
      ll ← rd llink node;
      n ← (if nonnull ll then
             p ← node_pathlen fuel ll (uint (level + 1));
             mret (uint (n + uint (level + p)))
           else mret n);
      rl ← rd rlink node;
      n ← (if nonnull rl then
             p ← node_pathlen fuel rl (uint (level + 1));
             mret (uint (n + uint (level + p)))
           else mret n);
      mret n
  end.

Definition pr_tree_height : M (world K V) Z :=
  r ← rd_tree root;
  if nonnull r then fuel ← gets path_fuel; node_height fuel r else mret 0.

Definition pr_tree_mheight : M (world K V) Z :=
  r ← rd_tree root;
  if nonnull r then fuel ← gets path_fuel; node_mheight fuel r else mret 0.

Definition pr_tree_pathlen : M (world K V) Z :=
  r ← rd_tree root;
  if nonnull r then fuel ← gets path_fuel; node_pathlen fuel r 1 else mret 0.

End Walk.
