(* ===== verification/Itor.v ===== *)
(** * The cursor

    [struct pr_itor] and the functions on it.  A cursor function runs on a
    pair: the state of the tree and the cursor struct.  [itor->tree] is the
    tree of that state, so the struct is modelled by its [node] field alone.
    [RETVALID] is the macro every stepping function ends with. *)

From Stdlib Require Import ZArith Lia.
From stdpp Require Import base tactics option list gmap.
From S2P Require Import Prelude Contract Node Rotate Tree Walk.

#[local] Open Scope Z_scope.

(** [struct pr_itor]. *)
Record pr_itor : Type := mk_itor { node : ptr }.

Section Itor.
Context {build : Build} {K V : Type}.

(** A tree function run from a cursor function. *)
Definition on_tree {A} (c : M (world K V) A) : M (world K V * pr_itor) A := λ s,
  match c s.1 with
  | Some (a, w') => Some (a, (w', s.2))
  | None => None
  end.

(** [itor->node] and [itor->node = p]. *)
Definition rd_itor : M (world K V * pr_itor) ptr := gets (λ s, node s.2).
Definition wr_itor (p : ptr) : M (world K V * pr_itor) unit :=
  modify (λ s, (s.1, mk_itor p)).

(** [#define RETVALID(itor) return itor->node != NULL] *)
Definition RETVALID : M (world K V * pr_itor) Z :=
  p ← rd_itor;
  mret (if nonnull p then 1 else 0).

Definition pr_itor_valid : M (world K V * pr_itor) Z := RETVALID.

Definition pr_itor_invalidate : M (world K V * pr_itor) unit := wr_itor NULL.

Definition pr_itor_first : M (world K V * pr_itor) Z :=
  r ← on_tree (rd_tree root);
  (if negb (nonnull r) then wr_itor NULL
   else m ← on_tree (node_min r); wr_itor m);;
  RETVALID.

Definition pr_itor_last : M (world K V * pr_itor) Z :=
  r ← on_tree (rd_tree root);
  (if negb (nonnull r) then wr_itor NULL
   else m ← on_tree (node_max r); wr_itor m);;
  RETVALID.

Definition pr_itor_next : M (world K V * pr_itor) Z :=
  p ← rd_itor;
  (if negb (nonnull p) then _ ← pr_itor_first; mret tt
   else n ← on_tree (node_next p); wr_itor n);;
  RETVALID.

Definition pr_itor_prev : M (world K V * pr_itor) Z :=
  p ← rd_itor;
  (if negb (nonnull p) then _ ← pr_itor_last; mret tt
   else n ← on_tree (node_prev p); wr_itor n);;
  RETVALID.

(** [while (count-- && itor->node) itor->node = node_next(itor->node);] with
    [n] the value of [count] on entry. *)
Fixpoint nextn_loop (n : nat) : M (world K V * pr_itor) unit :=
  match n with
  | O => mret tt
  | S n =>
      p ← rd_itor;
      if nonnull p then
        nx ← on_tree (node_next p); wr_itor nx;; nextn_loop n
      else mret tt
  end.

Fixpoint prevn_loop (n : nat) : M (world K V * pr_itor) unit :=
  match n with
  | O => mret tt
  | S n =>
      p ← rd_itor;
      if nonnull p then
        nx ← on_tree (node_prev p); wr_itor nx;; prevn_loop n
      else mret tt
  end.

Definition pr_itor_nextn (count : Z) : M (world K V * pr_itor) Z :=
  (if negb (count =? 0) then
     p ← rd_itor;
     count ← (if negb (nonnull p) then _ ← pr_itor_first; mret (uint (count - 1))
              else mret count);
     nextn_loop (Z.to_nat count)
   else mret tt);;
  RETVALID.

Definition pr_itor_prevn (count : Z) : M (world K V * pr_itor) Z :=
  (if negb (count =? 0) then
     p ← rd_itor;
     count ← (if negb (nonnull p) then _ ← pr_itor_last; mret (uint (count - 1))
              else mret count);
     prevn_loop (Z.to_nat count)
   else mret tt);;
  RETVALID.

(** [pr_itor_search]: the descent of [pr_tree_search], which leaves the node
    reached (or [NULL]) in the cursor. *)
Fixpoint itor_search_loop (fuel : nat) (cmp : dict_compare_func K) (k : K)
    (n : ptr) : M (world K V) ptr :=
  match fuel with
  | O => stuck
  | S fuel =>
      if nonnull n then
        nk ← rd key n;
        let rv := cmp k nk in
        if rv <? 0 then l ← rd llink n; itor_search_loop fuel cmp k l
        else if rv >? 0 then r ← rd rlink n; itor_search_loop fuel cmp k r
        else mret n
      else mret n
  end.

Definition pr_itor_search (k : K) : M (world K V * pr_itor) Z :=
  cmp ← on_tree (rd_tree key_cmp);
  r ← on_tree (rd_tree root);
  fuel ← on_tree (gets path_fuel);
  n ← on_tree (itor_search_loop fuel cmp k r);
  wr_itor n;;
  RETVALID.

(** [pr_itor_key], [pr_itor_data], [pr_itor_cdata]: [None] is the [NULL]
    returned at an invalid cursor. *)
Definition pr_itor_key : M (world K V * pr_itor) (option K) :=
  p ← rd_itor;
  if nonnull p then k ← on_tree (rd key p); mret (Some k) else mret None.

Definition pr_itor_data : M (world K V * pr_itor) (option V) :=
  p ← rd_itor;
  if nonnull p then d ← on_tree (rd datum p); mret (Some d) else mret None.

Definition pr_itor_cdata : M (world K V * pr_itor) (option V) :=
  p ← rd_itor;
  if nonnull p then d ← on_tree (rd datum p); mret (Some d) else mret None.

(** [pr_itor_set_data(itor, datum, old_datum)]: [want_old] says whether
    [old_datum] is not [NULL]; the second component is [*old_datum]. *)
Definition pr_itor_set_data (d : V) (want_old : bool) :
    M (world K V * pr_itor) (Z * option V) :=
  p ← rd_itor;
  if negb (nonnull p) then mret (-1, None)
  else
    old ← (if want_old then o ← on_tree (rd datum p); mret (Some o)
           else mret None);
    on_tree (wr (set_datum d) p);;
    mret (0, old).

(** [pr_itor_new(tree)]: [mem] says whether [MALLOC] gave memory for the
    cursor; the new cursor is positioned by [pr_itor_first]. *)
Definition pr_itor_new (mem : bool) : M (world K V) (option pr_itor) := λ w,
  if mem then
    match pr_itor_first (w, mk_itor NULL) with
    | Some (_, (w', it)) => Some (Some it, w')
    | None => None
    end
  else Some (None, w).

(** [pr_itor_destroy] frees the cursor struct and touches nothing else. *)
Definition pr_itor_destroy : M (world K V * pr_itor) unit := mret tt.

End Itor.
