(* ===== verification/Shape.v ===== *)
(** * Shapes: the tree a store represents

    A [shape] is the tree the C structs form, as an inductive value: each node
    with its address, key, datum and stored weight.  [rep m p t] says that the
    store [m] holds the cells of [t] below the parent pointer [p]; [wf w t]
    that the state [w] is exactly the tree [t]: the root pointer, the cells,
    no two nodes at one address and nothing else allocated.  A position in a
    tree is a context (a list of frames, innermost first) around a subtree;
    [plug] puts them together.  The invariants of the tree are predicates on
    shapes: [bst] (keys in order), [weights_ok] (each stored weight is the sum
    of its children's, a missing child counting 1), [balanced] (the
    path-reduction condition of the specification). *)

From Stdlib Require Import ZArith Lia.
From stdpp Require Import base tactics option list gmap sorting.
From S2P Require Import Prelude Contract Node.

#[local] Open Scope Z_scope.

Inductive shape (K V : Type) : Type :=
  | Leaf
  | Bin (a : addr) (l : shape K V) (k : K) (v : V) (w : Z) (r : shape K V).
Arguments Leaf {K V}.
Arguments Bin {K V}.

(** A frame is a node with a hole for one of its children. *)
Inductive frame (K V : Type) : Type :=
  | FL (a : addr) (k : K) (v : V) (w : Z) (r : shape K V)
  | FR (a : addr) (l : shape K V) (k : K) (v : V) (w : Z).
Arguments FL {K V}.
Arguments FR {K V}.

Section Shape.
Context {K V : Type}.
Implicit Types (t l r : shape K V) (f : frame K V) (c : list (frame K V)).
Implicit Types (m : gmap positive (pr_node K V)) (p : ptr).

(** ** Reading a shape *)

(** The pointer to the root of a shape, and [WEIGHT] of that pointer. *)
Definition ptr_of t : ptr :=
  match t with
  | Leaf => NULL
  | Bin a _ _ _ _ _ => Some a
  end.
Definition tweight t : Z :=
  match t with
  | Leaf => 1
  | Bin _ _ _ _ w _ => w
  end.

Fixpoint nnodes t : nat :=
  match t with
  | Leaf => O
  | Bin _ l _ _ _ r => S (nnodes l + nnodes r)
  end.

(** Addresses, pairs and keys in symmetric order. *)
Fixpoint addrs t : list addr :=
  match t with
  | Leaf => []
  | Bin a l _ _ _ r => addrs l ++ a :: addrs r
  end.
Fixpoint inorder t : list (K * V) :=
  match t with
  | Leaf => []
  | Bin _ l k v _ r => inorder l ++ (k, v) :: inorder r
  end.
Definition keys t : list K := (inorder t).*1.

(** Height in edges as [node_height] counts it, the shortest branch as
    [node_mheight] counts it, and the sum of the depths of the nodes below
    [level] as [node_pathlen] counts it. *)
Fixpoint height_s t : Z :=
  match t with
  | Leaf => 0
  | Bin _ l _ _ _ r =>
      Z.max (if nonnull (ptr_of l) then height_s l + 1 else 0)
            (if nonnull (ptr_of r) then height_s r + 1 else 0)
  end.
Fixpoint mheight_s t : Z :=
  match t with
  | Leaf => 0
  | Bin _ l _ _ _ r =>
      Z.min (if nonnull (ptr_of l) then mheight_s l + 1 else 0)
            (if nonnull (ptr_of r) then mheight_s r + 1 else 0)
  end.
Fixpoint pathlen_s t (level : Z) : Z :=
  match t with
  | Leaf => 0
  | Bin _ l _ _ _ r =>
      (if nonnull (ptr_of l) then level + pathlen_s l (level + 1) else 0) +
      (if nonnull (ptr_of r) then level + pathlen_s r (level + 1) else 0)
  end.

(** The internal path length that rotations lower: the sum over the nodes of
    the number of their proper ancestors. *)
Fixpoint ipl t : nat :=
  match t with
  | Leaf => O
  | Bin _ l _ _ _ r => (ipl l + nnodes l + (ipl r + nnodes r))%nat
  end.

(** ** Invariants *)

(** [weights_ok]: the weight invariant of the specification. *)
Fixpoint weights_ok t : Prop :=
  match t with
  | Leaf => True
  | Bin _ l _ _ w r => w = tweight l + tweight r ∧ weights_ok l ∧ weights_ok r
  end.

(** A shape all of whose exact weights fit the machine word [weight_t]. *)
Definition fits t : Prop := Z.of_nat (nnodes t) < ULONG_MAX.

(** [bst]: the keys are in strictly ascending order of the comparator. *)
Definition bst (cmp : dict_compare_func K) t : Prop :=
  StronglySorted (klt cmp) (keys t).

(** The path-reduction condition at one node and at every node. *)
Definition balanced_at l r : bool :=
  let wl := tweight l in
  let wr := tweight r in
  if wr >? wl then
    match r with
    | Leaf => true
    | Bin _ rl _ _ _ rr => (tweight rr <=? wl) && (tweight rl <=? wl)
    end
  else if wl >? wr then
    match l with
    | Leaf => true
    | Bin _ ll _ _ _ lr => (tweight ll <=? wr) && (tweight lr <=? wr)
    end
  else true.
Fixpoint balanced t : bool :=
  match t with
  | Leaf => true
  | Bin _ l _ _ _ r => balanced_at l r && balanced l && balanced r
  end.

(** ** Stores that represent a shape *)

Fixpoint rep m p t : Prop :=
  match t with
  | Leaf => True
  | Bin a l k v w r =>
      m !! a = Some (mk_node k v p (ptr_of l) (ptr_of r) w) ∧
      rep m (Some a) l ∧ rep m (Some a) r
  end.

Record wf (w : world K V) t : Prop := mk_wf {
  wf_root : root <$> tree w = Some (ptr_of t);
  wf_rep : rep (nodes w) NULL t;
  wf_nodup : NoDup (addrs t);
  wf_dom : dom (nodes w) = list_to_set (addrs t)
}.

(** The shape a store holds below a pointer, read with fuel. *)
Fixpoint abs (fuel : nat) m p : option (shape K V) :=
  match p, fuel with
  | None, _ => Some Leaf
  | Some _, O => None
  | Some a, S fuel =>
      n ← m !! a;
      l ← abs fuel m (llink n);
      r ← abs fuel m (rlink n);
      Some (Bin a l (key n) (datum n) (weight n) r)
  end.
Definition shape_of (w : world K V) : option (shape K V) :=
  tr ← tree w; abs (S (size (nodes w))) (nodes w) (root tr).

(** ** Contexts *)

Definition fill f t : shape K V :=
  match f with
  | FL a k v w r => Bin a t k v w r
  | FR a l k v w => Bin a l k v w t
  end.
Fixpoint plug c t : shape K V :=
  match c with
  | [] => t
  | f :: c => plug c (fill f t)
  end.
Definition frame_addr f : addr :=
  match f with
  | FL a _ _ _ _ => a
  | FR a _ _ _ _ => a
  end.
Definition frame_sibling f : shape K V :=
  match f with
  | FL _ _ _ _ r => r
  | FR _ l _ _ _ => l
  end.
Definition ctx_parent c : ptr :=
  match c with
  | [] => NULL
  | f :: _ => Some (frame_addr f)
  end.
Fixpoint ctx_addrs c : list addr :=
  match c with
  | [] => []
  | f :: c => frame_addr f :: addrs (frame_sibling f) ++ ctx_addrs c
  end.

(** The root pointer of a context whose hole holds the pointer [hole]. *)
Fixpoint ctx_root c (hole : ptr) : ptr :=
  match c with
  | [] => hole
  | f :: c => ctx_root c (Some (frame_addr f))
  end.

(** The cell of a frame whose hole holds the pointer [hole], under [p]. *)
Definition frame_cell f p (hole : ptr) : pr_node K V :=
  match f with
  | FL a k v w r => mk_node k v p hole (ptr_of r) w
  | FR a l k v w => mk_node k v p (ptr_of l) hole w
  end.
Fixpoint rep_ctx m c (hole : ptr) : Prop :=
  match c with
  | [] => True
  | f :: c' =>
      m !! frame_addr f = Some (frame_cell f (ctx_parent c') hole) ∧
      rep m (Some (frame_addr f)) (frame_sibling f) ∧
      rep_ctx m c' (Some (frame_addr f))
  end.

(** ** Lemmas on shapes *)

Lemma ptr_of_fill f t : ptr_of (fill f t) = Some (frame_addr f).
Proof. by destruct f. Qed.

Lemma nonnull_ptr_of t : nonnull (ptr_of t) = true ↔ t ≠ Leaf.
Proof. by destruct t. Qed.

Lemma ptr_of_Some t a :
  ptr_of t = Some a → ∃ l k v w r, t = Bin a l k v w r.
Proof. destruct t; [done|]. intros [= ->]. eauto 10. Qed.

Lemma ptr_of_NULL t : ptr_of t = NULL → t = Leaf.
Proof. by destruct t. Qed.

Lemma Leaf_or_not t : t = Leaf ∨ t ≠ Leaf.
Proof. destruct t; [by left|by right]. Qed.

Lemma length_addrs t : length (addrs t) = nnodes t.
Proof. induction t; simpl; [done|]. rewrite length_app. simpl. lia. Qed.

Lemma length_inorder t : length (inorder t) = nnodes t.
Proof. induction t; simpl; [done|]. rewrite length_app. simpl. lia. Qed.

Lemma keys_Bin a l k v w r : keys (Bin a l k v w r) = keys l ++ k :: keys r.
Proof. unfold keys. simpl. by rewrite fmap_app. Qed.

Lemma ptr_of_elem_of t a : ptr_of t = Some a → a ∈ addrs t.
Proof.
  intros (l & k & v & w & r & ->)%ptr_of_Some. simpl.
  apply elem_of_app. right. apply elem_of_cons. by left.
Qed.

(** With exact weights the weight of a tree is its number of nodes plus one
    (the number of its external nodes). *)
Lemma weights_ok_tweight t : weights_ok t → tweight t = Z.of_nat (nnodes t) + 1.
Proof.
  induction t as [|a l IHl k v w r IHr]; simpl; [done|].
  intros (-> & Hl & Hr). rewrite IHl, IHr by done. lia.
Qed.

Lemma weights_ok_pos t : weights_ok t → 1 ≤ tweight t.
Proof. intros H%weights_ok_tweight. lia. Qed.

(** A tree whose weight is above 1 is not empty. *)
Lemma weights_ok_Bin t : weights_ok t → 1 < tweight t → t ≠ Leaf.
Proof. intros _ H ->. simpl in H. lia. Qed.

(** ** Lemmas on contexts *)

Lemma plug_app c1 c2 t : plug (c1 ++ c2) t = plug c2 (plug c1 t).
Proof. revert t. induction c1 as [|f c1 IH]; intros t; simpl; [done|]. apply IH. Qed.

Lemma addrs_fill f t :
  addrs (fill f t) ≡ₚ addrs t ++ frame_addr f :: addrs (frame_sibling f).
Proof.
  destruct f as [a k v w r|a l k v w]; simpl; [done|].
  rewrite (Permutation_app_comm (addrs l)). simpl.
  by rewrite Permutation_middle.
Qed.

Lemma addrs_plug c t : addrs (plug c t) ≡ₚ addrs t ++ ctx_addrs c.
Proof.
  revert t. induction c as [|f c IH]; intros t; simpl.
  - by rewrite app_nil_r.
  - rewrite IH, addrs_fill. by rewrite <- app_assoc.
Qed.

Lemma addrs_plug_ext c t t' :
  addrs t = addrs t' → addrs (plug c t) = addrs (plug c t').
Proof.
  revert t t'. induction c as [|f c IH]; intros t t' H; simpl; [done|].
  apply IH. destruct f; simpl; by rewrite H.
Qed.

Lemma inorder_plug_ext c t t' :
  inorder t = inorder t' → inorder (plug c t) = inorder (plug c t').
Proof.
  revert t t'. induction c as [|f c IH]; intros t t' H; simpl; [done|].
  apply IH. destruct f; simpl; by rewrite H.
Qed.

Lemma ptr_of_plug c t : ptr_of (plug c t) = ctx_root c (ptr_of t).
Proof.
  revert t. induction c as [|f c IH]; intros t; simpl; [done|].
  by rewrite IH, ptr_of_fill.
Qed.

Lemma nnodes_plug_le c t : (nnodes t ≤ nnodes (plug c t))%nat.
Proof.
  revert t. induction c as [|f c IH]; intros t; simpl; [done|].
  etrans; [|apply IH]. destruct f; simpl; lia.
Qed.

(** ** Lemmas on [rep] *)

(** A store that agrees with another on the addresses of a shape represents
    it too. *)
Lemma rep_frame m m' p t :
  (∀ a, a ∈ addrs t → m' !! a = m !! a) → rep m p t → rep m' p t.
Proof.
  revert p. induction t as [|a l IHl k v w r IHr]; intros p Hagree; simpl; [done|].
  intros (Ha & Hl & Hr). split_and!.
  - rewrite Hagree; [done|]. simpl. set_solver.
  - apply IHl; [|done]. intros b Hb. apply Hagree. simpl. set_solver.
  - apply IHr; [|done]. intros b Hb. apply Hagree. simpl. set_solver.
Qed.

Lemma rep_insert_ne m p t a n : a ∉ addrs t → rep m p t → rep (<[a:=n]> m) p t.
Proof.
  intros Ha. apply rep_frame. intros b Hb.
  apply lookup_insert_ne. by intros ->.
Qed.

Lemma rep_delete_ne m p t a : a ∉ addrs t → rep m p t → rep (delete a m) p t.
Proof.
  intros Ha. apply rep_frame. intros b Hb.
  apply lookup_delete_ne. by intros ->.
Qed.

(** The root cell of a represented shape. *)
Lemma rep_root m p a l k v w r :
  rep m p (Bin a l k v w r) →
  m !! a = Some (mk_node k v p (ptr_of l) (ptr_of r) w).
Proof. by intros (? & _). Qed.

Lemma rep_ptr_of m p t a :
  rep m p t → ptr_of t = Some a →
  ∃ n, m !! a = Some n ∧ parent n = p ∧ weight n = tweight t.
Proof.
  intros Hrep (l & k & v & w & r & ->)%ptr_of_Some.
  destruct Hrep as (? & _). eauto.
Qed.

(** Giving the root of a shape another parent changes its root cell only. *)
Lemma rep_reparent m p p' t :
  NoDup (addrs t) → rep m p t →
  rep (match ptr_of t with
       | Some a => alter (set_parent p') a m
       | None => m
       end) p' t.
Proof.
  destruct t as [|a l k v w r]; simpl; [done|].
  intros Hnd (Ha & Hl & Hr).
  apply NoDup_app in Hnd as (_ & Hl' & (Har & _)%NoDup_cons).
  split_and!.
  - rewrite lookup_alter_eq, Ha. done.
  - eapply rep_frame; [|done]. intros b Hb.
    apply lookup_alter_ne. intros ->. by eapply Hl'; [|left].
  - eapply rep_frame; [|done]. intros b Hb.
    apply lookup_alter_ne. by intros ->.
Qed.

(** [rep] of a plugged context splits into the context and the subtree. *)
Lemma rep_plug m c t :
  rep m NULL (plug c t) ↔ rep_ctx m c (ptr_of t) ∧ rep m (ctx_parent c) t.
Proof.
  revert t. induction c as [|f c IH]; intros t; simpl; [tauto|].
  rewrite IH, ptr_of_fill. destruct f; simpl; tauto.
Qed.

Lemma rep_ctx_frame m m' c hole :
  (∀ a, a ∈ ctx_addrs c → m' !! a = m !! a) → rep_ctx m c hole → rep_ctx m' c hole.
Proof.
  revert hole. induction c as [|f c IH]; intros hole Hagree; simpl; [done|].
  intros (Ha & Hs & Hc). split_and!.
  - rewrite Hagree; [done|]. simpl. set_solver.
  - eapply rep_frame; [|done]. intros b Hb. apply Hagree. simpl. set_solver.
  - apply IH; [|done]. intros b Hb. apply Hagree. simpl. set_solver.
Qed.

Lemma rep_ctx_insert_ne m c hole a n :
  a ∉ ctx_addrs c → rep_ctx m c hole → rep_ctx (<[a:=n]> m) c hole.
Proof.
  intros Ha. apply rep_ctx_frame. intros b Hb.
  apply lookup_insert_ne. by intros ->.
Qed.

Lemma rep_ctx_delete_ne m c hole a :
  a ∉ ctx_addrs c → rep_ctx m c hole → rep_ctx (delete a m) c hole.
Proof.
  intros Ha. apply rep_ctx_frame. intros b Hb.
  apply lookup_delete_ne. by intros ->.
Qed.

(** ** Lemmas on [wf] *)

Lemma wf_lookup_elem w t a :
  wf w t → is_Some (nodes w !! a) ↔ a ∈ addrs t.
Proof.
  intros Hwf. rewrite <- elem_of_dom, (wf_dom _ _ Hwf). apply elem_of_list_to_set.
Qed.

(** The key and the datum of a node of the store are a pair of the shape. *)
Lemma rep_entry m p t a n :
  rep m p t → a ∈ addrs t → m !! a = Some n → (key n, datum n) ∈ inorder t.
Proof.
  revert p. induction t as [|b l IHl k v wt r IHr]; intros p; cbn [rep addrs inorder].
  { by intros _ ?%elem_of_nil. }
  intros (Hb & Hl & Hr) [?|[->|?]%elem_of_cons]%elem_of_app Hn; apply elem_of_app.
  - left. eauto.
  - right. rewrite Hb in Hn. injection Hn as <-. apply elem_of_cons. by left.
  - right. apply elem_of_cons. right. eauto.
Qed.

Lemma wf_entry w t a n :
  wf w t → nodes w !! a = Some n → (key n, datum n) ∈ inorder t.
Proof.
  intros Hwf Hn. eapply rep_entry; [apply Hwf| |done].
  apply (wf_lookup_elem _ _ _ Hwf). eauto.
Qed.

Lemma wf_size w t : wf w t → size (nodes w) = nnodes t.
Proof.
  intros Hwf. rewrite <- size_dom, (wf_dom _ _ Hwf).
  rewrite size_list_to_set by apply (wf_nodup _ _ Hwf). apply length_addrs.
Qed.

Lemma wf_tree w t : wf w t → ∃ tr, tree w = Some tr ∧ root tr = ptr_of t.
Proof.
  intros Hwf. pose proof (wf_root _ _ Hwf) as H.
  destruct (tree w) as [tr|]; [|done]. injection H as H. eauto.
Qed.

(** Reading the shape back: [shape_of] returns the shape that the store
    represents. *)
Lemma abs_rep m p t : ∀ fuel,
  rep m p t → (nnodes t < fuel)%nat → abs fuel m (ptr_of t) = Some t.
Proof.
  revert p. induction t as [|a l IHl k v wt r IHr]; intros p fuel Hrep Hlt.
  { by destruct fuel. }
  destruct fuel as [|fuel]; [lia|]. destruct Hrep as (Ha & Hl & Hr).
  cbn [abs ptr_of nnodes] in *. rewrite Ha. cbn.
  rewrite (IHl _ fuel Hl), (IHr _ fuel Hr) by lia. done.
Qed.

Lemma shape_of_wf w t : wf w t → shape_of w = Some t.
Proof.
  intros Hwf. destruct (wf_tree w t Hwf) as (tr & Htr & Hroot).
  unfold shape_of. rewrite Htr. cbn [mbind option_bind]. rewrite Hroot.
  apply (abs_rep _ NULL); [apply Hwf|]. rewrite (wf_size _ _ Hwf). lia.
Qed.

(** A store represents one shape only. *)
Lemma wf_unique w t t' : wf w t → wf w t' → t = t'.
Proof. intros H H'. apply shape_of_wf in H, H'. congruence. Qed.

(** [wf] reads the store and the root only. *)
Lemma wf_ext w w' t :
  nodes w' = nodes w → root <$> tree w' = root <$> tree w → wf w t → wf w' t.
Proof. intros Hn Hr [????]. split; by rewrite ?Hn, ?Hr. Qed.

(** A well-formed world seen at a position of its tree: the root pointer,
    the context, the subtree, and the addresses of both. *)
Lemma wf_plug w c t :
  wf w (plug c t) ↔
    root <$> tree w = Some (ctx_root c (ptr_of t)) ∧
    rep_ctx (nodes w) c (ptr_of t) ∧ rep (nodes w) (ctx_parent c) t ∧
    NoDup (addrs t ++ ctx_addrs c) ∧
    dom (nodes w) = list_to_set (addrs t ++ ctx_addrs c).
Proof.
  assert (Hset : list_to_set (C:=gset addr) (addrs (plug c t))
                 = list_to_set (addrs t ++ ctx_addrs c))
    by (apply set_eq; intros a; by rewrite !elem_of_list_to_set, addrs_plug).
  split.
  - intros [Hroot Hrep Hnd Hdom]. rewrite ptr_of_plug in Hroot.
    rewrite addrs_plug in Hnd. apply rep_plug in Hrep as [??].
    split_and!; [done..|congruence].
  - intros (Hroot & Hctx & Hrep & Hnd & Hdom). split.
    + by rewrite ptr_of_plug.
    + by apply rep_plug.
    + by rewrite addrs_plug.
    + congruence.
Qed.

(** Rebuild [wf] at a position after a change that kept the set of cells and
    the addresses of the subtree. *)
Lemma wf_replug w w' c t t' :
  wf w (plug c t) → dom (nodes w') = dom (nodes w) → addrs t' = addrs t →
  root <$> tree w' = Some (ctx_root c (ptr_of t')) →
  rep_ctx (nodes w') c (ptr_of t') → rep (nodes w') (ctx_parent c) t' →
  wf w' (plug c t').
Proof.
  intros (_ & _ & _ & Hnd & Hdom)%wf_plug Hd Ha Hroot Hctx Hrep.
  apply wf_plug. by rewrite Ha, Hd.
Qed.

End Shape.

#[export] Hint Resolve rep_insert_ne rep_ctx_insert_ne : pr.

(** Replace the weights by numbers of nodes, where the weights are exact, so
    that [lia] compares subtrees. *)
Ltac weigh :=
  unfold fits in *; cbn [weights_ok nnodes ipl tweight] in *; destruct_and?; subst;
  repeat match goal with
  | H : weights_ok ?t |- _ =>
      let E := fresh "Hw" in
      pose proof (weights_ok_tweight t H) as E; revert H
  end; intros.

(** ** Deciding that a world represents a shape

    With decidable equality on keys and data, [rep] and [wf] are decidable:
    the statements about concrete worlds are proved by evaluation. *)

#[export] Instance pr_node_eq_dec {K V} `{EqDecision K, EqDecision V} :
  EqDecision (pr_node K V).
Proof. solve_decision. Defined.

#[export] Instance rep_dec {K V} `{EqDecision K, EqDecision V}
    (m : gmap addr (pr_node K V)) (p : ptr) (t : shape K V) : Decision (rep m p t).
Proof. revert p. induction t; intros p; simpl; apply _. Defined.

#[export] Instance wf_dec {K V} `{EqDecision K, EqDecision V}
    (w : world K V) (t : shape K V) : Decision (wf w t).
Proof.
  destruct (decide (root <$> tree w = Some (ptr_of t) ∧ rep (nodes w) NULL t
                    ∧ NoDup (addrs t) ∧ dom (nodes w) = list_to_set (addrs t)))
    as [Hyes|Hno].
  - left. destruct Hyes as (?&?&?&?). by split.
  - right. intros []. apply Hno. by split_and!.
Defined.
