(* ===== verification/Balance.v ===== *)
(** * The height of a balanced tree

    The path-reduction condition of the specification bounds the height:
    where it holds at every node, a grandchild weighs at most as much as its
    uncle, hence at most half of its grandparent, so that the weight doubles
    at least every two levels and a tree of [n] nodes has at most
    [2 * log2 (n + 1)] levels.  The condition is the one [fixup]
    establishes at the node it is called on ([Fuel.fixup_s_settles]); the
    updates of pr_tree.c do not keep it at every node
    ([Scenarios.updates_leave_unbalanced]), so the bound is a property of
    the trees that satisfy it and not of every tree the code builds. *)

From Stdlib Require Import ZArith Lia.
From stdpp Require Import base tactics option list.
From S2P Require Import Prelude Contract Node Shape.

#[local] Open Scope Z_scope.

Section Balance.
Context {K V : Type}.
Implicit Types (t l r : shape K V).

(** ** Definitions *)

(** The number of nodes on the longest branch. *)
Fixpoint levels t : nat :=
  match t with
  | Leaf => O
  | Bin _ l _ _ _ r => S (levels l `max` levels r)
  end.

(** ** Lemmas *)

(** [node_height] counts edges: one less than the levels of a tree that
    has a node. *)
Lemma height_s_levels t : height_s t = Z.of_nat (Nat.pred (levels t)).
Proof.
  induction t as [|a l IHl k v wt r IHr]; [done|]. cbn [height_s levels Nat.pred].
  rewrite IHl, IHr. destruct l, r; cbn [ptr_of nonnull levels Nat.pred]; lia.
Qed.

(** Under the condition a grandchild weighs no more than its uncle. *)
Lemma balanced_at_left a ll k v wt lr r :
  weights_ok (Bin a ll k v wt lr) → weights_ok r →
  balanced_at (Bin a ll k v wt lr) r = true →
  tweight ll ≤ tweight r ∧ tweight lr ≤ tweight r.
Proof.
  intros (-> & Hll%weights_ok_pos & Hlr%weights_ok_pos) Hr%weights_ok_pos.
  unfold balanced_at. cbn [tweight].
  destruct (Z.gtb_spec (tweight r) (tweight ll + tweight lr)); [lia|].
  destruct (Z.gtb_spec (tweight ll + tweight lr) (tweight r)); [|lia].
  rewrite andb_true_iff, !Z.leb_le. lia.
Qed.

Lemma balanced_at_right l a rl k v wt rr :
  weights_ok l → weights_ok (Bin a rl k v wt rr) →
  balanced_at l (Bin a rl k v wt rr) = true →
  tweight rl ≤ tweight l ∧ tweight rr ≤ tweight l.
Proof.
  intros Hl%weights_ok_pos (-> & Hrl%weights_ok_pos & Hrr%weights_ok_pos).
  unfold balanced_at. cbn [tweight].
  destruct (Z.gtb_spec (tweight rl + tweight rr) (tweight l)); [|lia].
  rewrite andb_true_iff, !Z.leb_le. lia.
Qed.

(** The weight doubles every two levels. *)
Lemma balanced_levels n : ∀ t,
  weights_ok t → balanced t = true → (2 * n ≤ S (levels t))%nat → 2 ^ Z.of_nat n ≤ tweight t.
Proof.
  induction n as [|n IH]; intros t Hok Hb Hn; [by apply weights_ok_pos|].
  rewrite Nat2Z.inj_succ, Z.pow_succ_r by lia.
  destruct t as [|a l k v wt r]; [cbn in Hn; lia|].
  pose proof Hok as (-> & Hl & Hr). cbn [balanced] in Hb.
  apply andb_true_iff in Hb as [[Hat Hbl]%andb_true_iff Hbr]. cbn [tweight levels] in *.
  pose proof (weights_ok_pos _ Hl). pose proof (weights_ok_pos _ Hr).
  destruct (Nat.max_spec (levels l) (levels r)) as [[_ Hmax]|[_ Hmax]];
    rewrite Hmax in Hn; clear Hmax.
  - destruct r as [|a' rl k' v' wt' rr]; [cbn in Hn; pose proof (IH Leaf I eq_refl); cbn in *; lia|].
    destruct (balanced_at_right _ _ _ _ _ _ _ Hl Hr Hat) as [Hrl Hrr].
    pose proof Hr as (-> & Hokl & Hokr). cbn [balanced] in Hbr.
    apply andb_true_iff in Hbr as [[_ Hb1]%andb_true_iff Hb2]. cbn [tweight levels] in *.
    pose proof (weights_ok_pos _ Hokl). pose proof (weights_ok_pos _ Hokr).
    destruct (Nat.max_spec (levels rl) (levels rr)) as [[_ Hmax]|[_ Hmax]];
      rewrite Hmax in Hn; [pose proof (IH rr Hokr Hb2)|pose proof (IH rl Hokl Hb1)]; lia.
  - destruct l as [|a' ll k' v' wt' lr]; [cbn in Hn; pose proof (IH Leaf I eq_refl); cbn in *; lia|].
    destruct (balanced_at_left _ _ _ _ _ _ _ Hl Hr Hat) as [Hll Hlr].
    pose proof Hl as (-> & Hokl & Hokr). cbn [balanced] in Hbl.
    apply andb_true_iff in Hbl as [[_ Hb1]%andb_true_iff Hb2]. cbn [tweight levels] in *.
    pose proof (weights_ok_pos _ Hokl). pose proof (weights_ok_pos _ Hokr).
    destruct (Nat.max_spec (levels ll) (levels lr)) as [[_ Hmax]|[_ Hmax]];
      rewrite Hmax in Hn; [pose proof (IH lr Hokr Hb2)|pose proof (IH ll Hokl Hb1)]; lia.
Qed.

(** A balanced tree of [n] nodes has height at most [2 * log2 (n + 1)]. *)
Lemma balanced_height_s t :
  weights_ok t → balanced t = true →
  2 ^ ((height_s t + 1) / 2) ≤ Z.of_nat (nnodes t) + 1.
Proof.
  intros Hok Hb. rewrite <- (weights_ok_tweight t Hok), height_s_levels.
  pose proof (Z.div_mod (Z.of_nat (Nat.pred (levels t)) + 1) 2 ltac:(done)) as Hd.
  pose proof (Z.mod_pos_bound (Z.of_nat (Nat.pred (levels t)) + 1) 2 ltac:(done)).
  pose proof (balanced_levels (Z.to_nat ((Z.of_nat (Nat.pred (levels t)) + 1) / 2)) t Hok Hb) as Hw.
  rewrite Z2Nat.id in Hw by lia. apply Hw. lia.
Qed.

End Balance.
