(* ===== verification/Zipper.v ===== *)
(** * Positions in a tree

    A position is a context (the frames from the node up to the root) and the
    subtree at the hole.  This file holds what the loops that walk up or down
    a path need at a position: the weights along the context when they lag
    behind the subtree by a constant ([ctx_weights]: the state between the
    linking of a new node and the increments of [pr_tree_insert], and between
    the unlinking and the decrements of [pr_tree_remove]), and the pairs
    before and after the hole in symmetric order. *)

From Stdlib Require Import ZArith Lia.
From stdpp Require Import base tactics option list gmap.
From S2P Require Import Prelude Contract Node Shape.

#[local] Open Scope Z_scope.

Section Zipper.
Context {K V : Type}.
Implicit Types (t l r : shape K V) (c : list (frame K V)) (f : frame K V).

(** ** Definitions *)

Definition frame_weight f : Z :=
  match f with
  | FL _ _ _ w _ => w
  | FR _ _ _ _ w => w
  end.

(** The weights along a context whose hole holds a tree of weight [wh], when
    the stored weights of the frames lag behind by [δ]: exact for [δ = 0],
    after a node was added below and before the weights are incremented for
    [δ = 1], after a node was removed for [δ = -1]. *)
Fixpoint ctx_weights (δ : Z) c (wh : Z) : Prop :=
  match c with
  | [] => True
  | f :: c' =>
      frame_weight f = wh - δ + tweight (frame_sibling f) ∧
      weights_ok (frame_sibling f) ∧
      ctx_weights δ c' (frame_weight f + δ)
  end.

(** The pairs before and after the hole, in symmetric order. *)
Fixpoint ctx_before c : list (K * V) :=
  match c with
  | [] => []
  | FL _ _ _ _ _ :: c' => ctx_before c'
  | FR _ l k v _ :: c' => ctx_before c' ++ inorder l ++ [(k, v)]
  end.
Fixpoint ctx_after c : list (K * V) :=
  match c with
  | [] => []
  | FL _ k v _ r :: c' => (k, v) :: inorder r ++ ctx_after c'
  | FR _ _ _ _ _ :: c' => ctx_after c'
  end.

(** ** Lemmas *)

Lemma weights_ok_fill f t :
  weights_ok (fill f t) ↔
  frame_weight f = tweight t + tweight (frame_sibling f) ∧
  weights_ok (frame_sibling f) ∧ weights_ok t.
Proof. destruct f; cbn; [tauto|]. split; intros (? & ? & ?); split_and!; try done; lia. Qed.

Lemma tweight_fill f t : tweight (fill f t) = frame_weight f.
Proof. by destruct f. Qed.

Lemma weights_ok_plug c t :
  weights_ok (plug c t) ↔ weights_ok t ∧ ctx_weights 0 c (tweight t).
Proof.
  revert t. induction c as [|f c IH]; intros t; cbn [plug ctx_weights]; [tauto|].
  rewrite IH, weights_ok_fill, tweight_fill, Z.sub_0_r, Z.add_0_r. tauto.
Qed.

Lemma ctx_weights_shift δ c wh : ctx_weights 0 c wh → ctx_weights δ c (wh + δ).
Proof.
  revert wh. induction c as [|f c IH]; intros wh; cbn [ctx_weights]; [done|].
  rewrite Z.add_0_r, Z.sub_0_r. intros (-> & ? & ?). split_and!; [lia|done|].
  by apply IH.
Qed.

Lemma inorder_fill f t :
  inorder (fill f t) =
  match f with
  | FL _ k v _ r => inorder t ++ (k, v) :: inorder r
  | FR _ l k v _ => inorder l ++ (k, v) :: inorder t
  end.
Proof. by destruct f. Qed.

Lemma inorder_plug c t :
  inorder (plug c t) = ctx_before c ++ inorder t ++ ctx_after c.
Proof.
  revert t. induction c as [|f c IH]; intros t; cbn [plug ctx_before ctx_after].
  - by rewrite app_nil_r.
  - rewrite IH. destruct f; cbn [fill inorder]; by rewrite <- ?app_assoc.
Qed.

Lemma nnodes_plug c t t' :
  nnodes t' = nnodes t → nnodes (plug c t') = nnodes (plug c t).
Proof.
  revert t t'. induction c as [|f c IH]; intros t t' H; cbn [plug]; [done|].
  apply IH. destruct f; cbn; lia.
Qed.

Lemma nnodes_plug_add c t :
  nnodes (plug c t) = (nnodes t + length (ctx_addrs c))%nat.
Proof. by rewrite <- !length_addrs, addrs_plug, length_app. Qed.

Lemma length_ctx_addrs c : (length c ≤ length (ctx_addrs c))%nat.
Proof.
  induction c as [|f c IH]; cbn [ctx_addrs length]; [done|].
  rewrite length_app. lia.
Qed.

End Zipper.
