(* ===== verification/WalkShape.v ===== *)
(** * Symmetric order with addresses

    The nodes of a shape in symmetric order, each with its address: the
    sequence that [node_min], [node_max], [node_next], [node_prev], the
    traversal [pr_tree_walk] and the cursor move along.  Every node of a tree
    is at a position (a context and a subtree), and with distinct addresses
    the sequence splits around a node in one way only, so that the successor
    and the predecessor of a node are determined by its address. *)

From Stdlib Require Import ZArith Lia.
From stdpp Require Import base tactics option list gmap.
From S2P Require Import Prelude Contract Node Shape Zipper.

#[local] Open Scope Z_scope.
#[local] Set Warnings "-clear-no-such-hyp".

Section WalkShape.
Context {K V : Type}.
Implicit Types (t l r : shape K V) (c : list (frame K V)) (f : frame K V).
Implicit Types (a b : addr) (e : addr * (K * V)).

(** ** Definitions *)

Fixpoint elems t : list (addr * (K * V)) :=
  match t with
  | Leaf => []
  | Bin a l k v _ r => elems l ++ (a, (k, v)) :: elems r
  end.

(** The nodes before and after the hole of a context. *)
Fixpoint ctx_elems_before c : list (addr * (K * V)) :=
  match c with
  | [] => []
  | FL _ _ _ _ _ :: c' => ctx_elems_before c'
  | FR a l k v _ :: c' => ctx_elems_before c' ++ elems l ++ [(a, (k, v))]
  end.
Fixpoint ctx_elems_after c : list (addr * (K * V)) :=
  match c with
  | [] => []
  | FL a k v _ r :: c' => (a, (k, v)) :: elems r ++ ctx_elems_after c'
  | FR _ _ _ _ _ :: c' => ctx_elems_after c'
  end.

(** [pr_tree_walk] on the sequence of pairs: the number of calls of the
    visitor, as an [unsigned], and the state the visitor leaves. *)
Fixpoint walk_s {S : Type} (visit : K → V → S → bool * S) (l : list (K * V))
    (n : Z) (s : S) : Z * S :=
  match l with
  | [] => (n, s)
  | (k, v) :: l =>
      let r := visit k v s in
      if negb (fst r) then (uint (n + 1), snd r)
      else walk_s visit l (uint (n + 1)) (snd r)
  end.

(** ** Lemmas *)

Lemma elems_addrs t : (elems t).*1 = addrs t.
Proof.
  induction t as [|a l IHl k v w r IHr]; cbn; [done|].
  by rewrite fmap_app, fmap_cons, IHl, IHr.
Qed.

Lemma elems_inorder t : (elems t).*2 = inorder t.
Proof.
  induction t as [|a l IHl k v w r IHr]; cbn; [done|].
  by rewrite fmap_app, fmap_cons, IHl, IHr.
Qed.

Lemma elems_nil t : elems t = [] ↔ t = Leaf.
Proof. destruct t as [|a l k v w r]; [done|]. cbn. by destruct (elems l). Qed.

Lemma elems_plug c t :
  elems (plug c t) = ctx_elems_before c ++ elems t ++ ctx_elems_after c.
Proof.
  revert t. induction c as [|f c IH]; intros t; cbn [plug ctx_elems_before ctx_elems_after].
  - by rewrite app_nil_r.
  - rewrite IH. destruct f; cbn [fill elems]; by rewrite <- ?app_assoc.
Qed.

(** Every node is at a position. *)
Lemma position_of t a :
  a ∈ addrs t → ∃ c l k v w r, t = plug c (Bin a l k v w r).
Proof.
  induction t as [|a0 l IHl k v w r IHr]; cbn [addrs]; [by intros ?%elem_of_nil|].
  rewrite elem_of_app, elem_of_cons. intros [Hin|[->|Hin]].
  - destruct (IHl Hin) as (c & l' & k' & v' & w' & r' & ->).
    exists (c ++ [FL a0 k v w r]), l', k', v', w', r'. by rewrite plug_app.
  - by exists [], l, k, v, w, r.
  - destruct (IHr Hin) as (c & l' & k' & v' & w' & r' & ->).
    exists (c ++ [FR a0 l k v w]), l', k', v', w', r'. by rewrite plug_app.
Qed.

(** A sequence without repeated addresses splits around an address in one
    way. *)
Lemma split_unique (p1 p2 s1 s2 : list (addr * (K * V))) e1 e2 :
  NoDup (p1 ++ e1 :: s1).*1 → p1 ++ e1 :: s1 = p2 ++ e2 :: s2 → e1.1 = e2.1 →
  p1 = p2 ∧ e1 = e2 ∧ s1 = s2.
Proof.
  revert p2. induction p1 as [|x p1 IH]; intros [|y p2]; cbn [app fmap list_fmap];
    intros Hnd [= Hx Heq] Ha.
  - by subst.
  - subst. apply NoDup_cons in Hnd as [Hnd _]. destruct Hnd. rewrite Ha.
    rewrite fmap_app, fmap_cons. set_solver.
  - subst. apply NoDup_cons in Hnd as [Hnd _]. destruct Hnd. rewrite <- Ha.
    rewrite fmap_app, fmap_cons. set_solver.
  - subst y. apply NoDup_cons in Hnd as [_ Hnd].
    by destruct (IH p2 Hnd Heq Ha) as (-> & -> & ->).
Qed.

(** The position of a node of a tree with distinct addresses, from the
    place of the node in the sequence. *)
Lemma position_split t pre a kv suf :
  NoDup (addrs t) → elems t = pre ++ (a, kv) :: suf →
  ∃ c l w r, t = plug c (Bin a l kv.1 kv.2 w r) ∧
    pre = ctx_elems_before c ++ elems l ∧ suf = elems r ++ ctx_elems_after c.
Proof.
  intros Hnd Heq. destruct (position_of t a) as (c & l & k & v & w & r & ->).
  { rewrite <- elems_addrs, Heq, fmap_app, fmap_cons. set_solver. }
  rewrite <- elems_addrs in Hnd. rewrite Heq in Hnd.
  rewrite elems_plug in Heq. cbn [elems] in Heq. rewrite <- !app_assoc in Heq.
  rewrite app_assoc in Heq. cbn [app] in Heq.
  destruct (split_unique _ _ _ _ _ _ Hnd (eq_sym Heq)) as (-> & [= ->] & ->); [done|].
  by exists c, l, w, r.
Qed.

(** With a visitor that never stops, the walk counts the pairs and folds the
    visitor over them. *)
Lemma walk_s_all {St} (visit : K → V → St → bool * St) (l : list (K * V)) : ∀ n s,
  (∀ k v s, (visit k v s).1 = true) → uint n = n →
  walk_s visit l n s =
  (uint (n + Z.of_nat (length l)), foldl (λ s kv, (visit kv.1 kv.2 s).2) s l).
Proof.
  induction l as [|[k v] l IH]; intros n s Hgo Hn.
  - cbn. by rewrite Z.add_0_r, Hn.
  - cbn [walk_s length foldl fst snd]. rewrite Hgo. cbn [negb].
    rewrite IH by (done || apply uint_uint). f_equal.
    replace (n + Z.of_nat (S (length l))) with (n + 1 + Z.of_nat (length l)) by lia.
    apply uint_add_proper; [apply uint_uint|done].
Qed.

End WalkShape.
