(* ===== verification/Dict.v ===== *)
(** * The generic dictionary interface

    libdict reaches every container through a table of function pointers:
    [dict_vtable] for the container, [itor_vtable] for its cursor.  The
    tables are records of operations over a state; [DictLaws] is the
    contract a table of dictionary operations promises to its callers, in
    terms of the abstract dictionary of [Assoc]: a relation [models] between
    states and sorted lists of pairs, and one law per entry.  The programs
    of the section [Client] are written against a table and proved against
    its laws alone; [DictProofs] shows that the table of pr_tree.c satisfies
    them. *)

From Stdlib Require Import ZArith Lia.
From stdpp Require Import base tactics option list.
From S2P Require Import Prelude Contract Assoc WalkShape.

#[local] Open Scope Z_scope.

(** ** The tables *)

(** [dict_vtable]: the entries in the order of the initialiser of
    [pr_tree_vtable], each named by the function type it is cast to.  [W] is
    the state the functions run on and [C] the cursor they make. *)
Record dict_vtable (W C K V : Type) : Type := mk_dict_vtable {
  inew_func : bool → M W (option C);
  destroy_func : M W Z;
  insert_func : K → V → Z → M W Z;
  probe_func : K → V → M W (Z * V);
  search_func : K → M W (option V);
  csearch_func : K → M W (option V);
  remove_func : K → M W Z;
  empty_func : M W Z;
  walk_func : ∀ St : Type, (K → V → St → bool * St) → St → M W (Z * St);
  count_func : M W Z
}.
Arguments mk_dict_vtable {W C K V}.
Arguments inew_func {W C K V}.
Arguments destroy_func {W C K V}.
Arguments insert_func {W C K V}.
Arguments probe_func {W C K V}.
Arguments search_func {W C K V}.
Arguments csearch_func {W C K V}.
Arguments remove_func {W C K V}.
Arguments empty_func {W C K V}.
Arguments walk_func {W C K V} _ {St}.
Arguments count_func {W C K V}.

(** [itor_vtable]: the entries of a cursor; an entry that is [NULL] in the
    table is [None]. *)
Record itor_vtable (W K V : Type) : Type := mk_itor_vtable {
  idestroy_func : M W unit;
  valid_func : M W Z;
  invalidate_func : M W unit;
  next_func : M W Z;
  prev_func : M W Z;
  nextn_func : Z → M W Z;
  prevn_func : Z → M W Z;
  first_func : M W Z;
  last_func : M W Z;
  key_func : M W (option K);
  data_func : M W (option V);
  cdata_func : M W (option V);
  dataset_func : V → bool → M W (Z * option V);
  iremove_func : option (M W Z);
  compare_func : option (W → M W Z)
}.
Arguments mk_itor_vtable {W K V}.
Arguments idestroy_func {W K V}.
Arguments valid_func {W K V}.
Arguments invalidate_func {W K V}.
Arguments next_func {W K V}.
Arguments prev_func {W K V}.
Arguments nextn_func {W K V}.
Arguments prevn_func {W K V}.
Arguments first_func {W K V}.
Arguments last_func {W K V}.
Arguments key_func {W K V}.
Arguments data_func {W K V}.
Arguments cdata_func {W K V}.
Arguments dataset_func {W K V}.
Arguments iremove_func {W K V}.
Arguments compare_func {W K V}.

(** ** Tables whose entries have fewer runs

    [vt ⊑ vt']: every run of an entry of [vt] that returns is a run of the
    same entry of [vt']. *)
Record dict_vtable_le {W C K V : Type} (vt vt' : dict_vtable W C K V) : Prop := {
  le_inew mem : inew_func vt mem ⊑ inew_func vt' mem;
  le_destroy : destroy_func vt ⊑ destroy_func vt';
  le_insert k v ow : insert_func vt k v ow ⊑ insert_func vt' k v ow;
  le_probe k v : probe_func vt k v ⊑ probe_func vt' k v;
  le_search k : search_func vt k ⊑ search_func vt' k;
  le_csearch k : csearch_func vt k ⊑ csearch_func vt' k;
  le_remove k : remove_func vt k ⊑ remove_func vt' k;
  le_empty : empty_func vt ⊑ empty_func vt';
  le_walk St (visit : K → V → St → bool * St) st :
    walk_func vt visit st ⊑ walk_func vt' visit st;
  le_count : count_func vt ⊑ count_func vt'
}.
#[export] Instance dict_vtable_sqsubseteq {W C K V} :
  SqSubsetEq (dict_vtable W C K V) := dict_vtable_le.

Record itor_vtable_le {W K V : Type} (vt vt' : itor_vtable W K V) : Prop := {
  le_idestroy : idestroy_func vt ⊑ idestroy_func vt';
  le_valid : valid_func vt ⊑ valid_func vt';
  le_invalidate : invalidate_func vt ⊑ invalidate_func vt';
  le_next : next_func vt ⊑ next_func vt';
  le_prev : prev_func vt ⊑ prev_func vt';
  le_nextn n : nextn_func vt n ⊑ nextn_func vt' n;
  le_prevn n : prevn_func vt n ⊑ prevn_func vt' n;
  le_first : first_func vt ⊑ first_func vt';
  le_last : last_func vt ⊑ last_func vt';
  le_key : key_func vt ⊑ key_func vt';
  le_data : data_func vt ⊑ data_func vt';
  le_cdata : cdata_func vt ⊑ cdata_func vt';
  le_dataset d old : dataset_func vt d old ⊑ dataset_func vt' d old;
  le_iremove : is_Some (iremove_func vt) ↔ is_Some (iremove_func vt');
  le_compare : is_Some (compare_func vt) ↔ is_Some (compare_func vt')
}.
#[export] Instance itor_vtable_sqsubseteq {W K V} :
  SqSubsetEq (itor_vtable W K V) := itor_vtable_le.

(** ** Tables whose entries keep a property of the state

    [dict_vtable_keeps T vt]: every entry of [vt], run in a state of [T],
    ends in a state of [T] when it returns, with a result in the range its C
    type and its documentation give it. *)
Definition is_unsigned (z : Z) : Prop := 0 ≤ z ≤ UINT_MAX.
Definition is_flag (z : Z) : Prop := z = 0 ∨ z = 1.
Definition is_status (z : Z) : Prop := z = -1 ∨ z = 0.
Definition is_tristate (z : Z) : Prop := z = -1 ∨ z = 0 ∨ z = 1.

Record dict_vtable_keeps {W C K V : Type} (T : W → Prop)
    (vt : dict_vtable W C K V) : Prop := {
  keeps_inew mem : keeps T (inew_func vt mem) (λ _, True);
  keeps_destroy : keeps T (destroy_func vt) is_unsigned;
  keeps_insert k v ow : keeps T (insert_func vt k v ow) is_tristate;
  keeps_probe k v : keeps T (probe_func vt k v) (λ r, is_tristate r.1);
  keeps_search k : keeps T (search_func vt k) (λ _, True);
  keeps_csearch k : keeps T (csearch_func vt k) (λ _, True);
  keeps_remove k : keeps T (remove_func vt k) is_status;
  keeps_empty : keeps T (empty_func vt) is_unsigned;
  keeps_walk St (visit : K → V → St → bool * St) st :
    keeps T (walk_func vt visit st) (λ r, is_unsigned r.1);
  keeps_count : keeps T (count_func vt) is_unsigned
}.

Record itor_vtable_keeps {W K V : Type} (T : W → Prop)
    (vt : itor_vtable W K V) : Prop := {
  keeps_idestroy : keeps T (idestroy_func vt) (λ _, True);
  keeps_valid : keeps T (valid_func vt) is_flag;
  keeps_invalidate : keeps T (invalidate_func vt) (λ _, True);
  keeps_next : keeps T (next_func vt) is_flag;
  keeps_prev : keeps T (prev_func vt) is_flag;
  keeps_nextn n : keeps T (nextn_func vt n) is_flag;
  keeps_prevn n : keeps T (prevn_func vt n) is_flag;
  keeps_first : keeps T (first_func vt) is_flag;
  keeps_last : keeps T (last_func vt) is_flag;
  keeps_key : keeps T (key_func vt) (λ _, True);
  keeps_data : keeps T (data_func vt) (λ _, True);
  keeps_cdata : keeps T (cdata_func vt) (λ _, True);
  keeps_dataset d old : keeps T (dataset_func vt d old) (λ r, is_status r.1)
}.

(** ** The contract of a dictionary *)

(** [models w l]: the state [w] holds the dictionary [l].  [room w l]: a
    pair with a new key can be added to it (memory, and whatever bound the
    container has on its size). *)
Class DictLaws {W C K V : Type} (cmp : dict_compare_func K)
    (vt : dict_vtable W C K V)
    (models : W → list (K * V) → Prop) (room : W → list (K * V) → Prop) : Prop := {
  law_sorted w l : models w l → sorted cmp l;
  law_search w l k :
    models w l → search_func vt k w = Some (assoc cmp k l, w);
  law_csearch w k : csearch_func vt k w = search_func vt k w;
  law_insert w l k v ow :
    models w l → (assoc cmp k l = None → room w l) →
    wp (insert_func vt k v ow) w (λ ret w',
      models w' (put_entry cmp k v (negb (ow =? 0)) l) ∧
      ret = if assoc cmp k l is Some _ then (if ow =? 0 then 1 else 0) else 0);
  law_probe w l k v :
    models w l → (assoc cmp k l = None → room w l) →
    wp (probe_func vt k v) w (λ ret w',
      models w' (put_entry cmp k v false l) ∧
      ret = if assoc cmp k l is Some v0 then (0, v0) else (1, v));
  law_remove w l k :
    models w l →
    wp (remove_func vt k) w (λ ret w',
      models w' (del_entry cmp k l) ∧
      ret = if assoc cmp k l is Some _ then 0 else -1);
  law_empty w l :
    models w l →
    wp (empty_func vt) w (λ ret w',
      models w' [] ∧ ret = uint (Z.of_nat (length l)));
  law_destroy w l :
    models w l →
    wp (destroy_func vt) w (λ ret _, ret = uint (Z.of_nat (length l)));
  law_walk {St} (visit : K → V → St → bool * St) st w l :
    models w l → walk_func vt visit st w = Some (walk_s visit l 0 st, w);
  law_count w l :
    models w l → count_func vt w = Some (uint (Z.of_nat (length l)), w);
  law_inew w l :
    models w l →
    (∃ i, inew_func vt true w = Some (Some i, w)) ∧
    inew_func vt false w = Some (None, w)
}.

(** ** The contract of a cursor *)

(** The pair at a position of a dictionary, and whether a position is one
    of its pairs. *)
Definition entry_at {K V} (l : list (K * V)) (z : Z) : option (K * V) :=
  if z <? 0 then None else l !! Z.to_nat z.
Definition inside {K V} (l : list (K * V)) (z : Z) : bool :=
  (0 <=? z) && (z <? Z.of_nat (length l)).
Definition flag (b : bool) : Z := if b then 1 else 0.

(** [at_ s l z]: the state [s] holds the dictionary [l] and a cursor at
    position [z] of it.  The positions of the pairs are 0 to [length l - 1];
    an invalid cursor is at the position before the first pair and at the
    position after the last. *)
Class ItorLaws {W K V : Type} (vt : itor_vtable W K V)
    (at_ : W → list (K * V) → Z → Prop) : Prop := {
  ilaw_range s l z : at_ s l z → -1 ≤ z ≤ Z.of_nat (length l);
  ilaw_ends s l : at_ s l (-1) ↔ at_ s l (Z.of_nat (length l));
  ilaw_valid s l z : at_ s l z → valid_func vt s = Some (flag (inside l z), s);
  ilaw_invalidate s l z :
    at_ s l z → wp (invalidate_func vt) s (λ _ s', at_ s' l (-1));
  ilaw_first s l z :
    at_ s l z →
    wp (first_func vt) s (λ ret s', at_ s' l 0 ∧ ret = flag (inside l 0));
  ilaw_last s l z :
    at_ s l z →
    wp (last_func vt) s (λ ret s',
      at_ s' l (Z.of_nat (length l) - 1) ∧
      ret = flag (inside l (Z.of_nat (length l) - 1)));
  ilaw_next s l z :
    at_ s l z → z < Z.of_nat (length l) →
    wp (next_func vt) s (λ ret s',
      at_ s' l (z + 1) ∧ ret = flag (inside l (z + 1)));
  ilaw_prev s l z :
    at_ s l z → 0 ≤ z →
    wp (prev_func vt) s (λ ret s',
      at_ s' l (z - 1) ∧ ret = flag (inside l (z - 1)));
  ilaw_nextn s l z count :
    at_ s l z → z < Z.of_nat (length l) → 0 ≤ count ≤ UINT_MAX →
    wp (nextn_func vt count) s (λ ret s',
      at_ s' l (Z.min (z + count) (Z.of_nat (length l))) ∧
      ret = flag (inside l (z + count)));
  ilaw_prevn s l z count :
    at_ s l z → 0 ≤ z → 0 ≤ count ≤ UINT_MAX →
    wp (prevn_func vt count) s (λ ret s',
      at_ s' l (Z.max (z - count) (-1)) ∧ ret = flag (inside l (z - count)));
  ilaw_key s l z :
    at_ s l z → key_func vt s = Some (fst <$> entry_at l z, s);
  ilaw_data s l z :
    at_ s l z → data_func vt s = Some (snd <$> entry_at l z, s);
  ilaw_cdata s : cdata_func vt s = data_func vt s;
  ilaw_dataset s l z d want_old :
    at_ s l z →
    wp (dataset_func vt d want_old) s (λ ret s',
      match entry_at l z with
      | None => ret = (-1, None) ∧ s' = s
      | Some (k, v) =>
          ret = (0, if want_old then Some v else None) ∧
          at_ s' (<[Z.to_nat z := (k, d)]> l) z
      end);
  ilaw_idestroy s : idestroy_func vt s = Some (tt, s)
}.

(** ** Calls and their answers *)

(** A call of an entry of the table that reads or changes the dictionary,
    and what it returns. *)
Inductive call (K V : Type) : Type :=
  | CInsert (k : K) (v : V) (overwrite : Z)
  | CProbe (k : K) (v : V)
  | CSearch (k : K)
  | CRemove (k : K)
  | CEmpty
  | CCount.
Arguments CInsert {K V}.
Arguments CProbe {K V}.
Arguments CSearch {K V}.
Arguments CRemove {K V}.
Arguments CEmpty {K V}.
Arguments CCount {K V}.

Inductive answer (V : Type) : Type :=
  | AInt (z : Z)
  | AProbe (z : Z) (v : V)
  | AData (o : option V).
Arguments AInt {V}.
Arguments AProbe {V}.
Arguments AData {V}.

(** An answer in the range of the entry that gave it. *)
Definition answer_ok {V} (a : answer V) : Prop :=
  match a with
  | AInt z => -1 ≤ z ≤ UINT_MAX
  | AProbe z _ => is_tristate z
  | AData _ => True
  end.

(** ** Programs written against a cursor table *)

Section CursorPrograms.
Context {W K V : Type} (vt : itor_vtable W K V).

(** The keys from the cursor on, in the order the cursor gives them. *)
Fixpoint itor_collect (fuel : nat) : M W (list K) :=
  match fuel with
  | O => mret []
  | S fuel =>
      o ← key_func vt;
      match o with
      | None => mret []
      | Some k => next_func vt;; ks ← itor_collect fuel; mret (k :: ks)
      end
  end.

(** The keys of the dictionary, read through the cursor. *)
Definition itor_keys (fuel : nat) : M W (list K) :=
  first_func vt;; itor_collect fuel.

End CursorPrograms.

(** ** Programs written against a table *)

Section Client.
Context {W C K V : Type} (cmp : dict_compare_func K) `{!Comparator cmp}.
Context (vt : dict_vtable W C K V).
Context (models : W → list (K * V) → Prop) (room : W → list (K * V) → Prop).
Context `{!DictLaws cmp vt models room}.

(** A call through the table, and a sequence of calls. *)
Definition do_call (c : call K V) : M W (answer V) :=
  match c with
  | CInsert k v ow => r ← insert_func vt k v ow; mret (AInt r)
  | CProbe k v => r ← probe_func vt k v; mret (AProbe r.1 r.2)
  | CSearch k => r ← search_func vt k; mret (AData r)
  | CRemove k => r ← remove_func vt k; mret (AInt r)
  | CEmpty => r ← empty_func vt; mret (AInt r)
  | CCount => r ← count_func vt; mret (AInt r)
  end.
Fixpoint do_calls (cs : list (call K V)) : M W (list (answer V)) :=
  match cs with
  | [] => mret []
  | c :: cs => a ← do_call c; rest ← do_calls cs; mret (a :: rest)
  end.

(** The same calls on the abstract dictionary. *)
Definition spec_call (c : call K V) (l : list (K * V)) : answer V * list (K * V) :=
  match c with
  | CInsert k v ow =>
      (AInt (if assoc cmp k l is Some _ then (if ow =? 0 then 1 else 0) else 0),
       put_entry cmp k v (negb (ow =? 0)) l)
  | CProbe k v =>
      (if assoc cmp k l is Some v0 then AProbe 0 v0 else AProbe 1 v,
       put_entry cmp k v false l)
  | CSearch k => (AData (assoc cmp k l), l)
  | CRemove k =>
      (AInt (if assoc cmp k l is Some _ then 0 else -1), del_entry cmp k l)
  | CEmpty => (AInt (uint (Z.of_nat (length l))), [])
  | CCount => (AInt (uint (Z.of_nat (length l))), l)
  end.
Fixpoint spec_calls (cs : list (call K V)) (l : list (K * V)) :
    list (answer V) * list (K * V) :=
  match cs with
  | [] => ([], l)
  | c :: cs =>
      let r := spec_call c l in
      let rs := spec_calls cs r.2 in
      (r.1 :: rs.1, rs.2)
  end.

(** The call needs memory: it adds a pair to the dictionary. *)
Definition new_key (c : call K V) (l : list (K * V)) : bool :=
  match c with
  | CInsert k _ _ | CProbe k _ => bool_decide (assoc cmp k l = None)
  | _ => false
  end.

(** The number of pairs, counted by a traversal. *)
Definition dict_size_by_walk : M W Z :=
  r ← walk_func vt (λ _ _ (s : unit), (true, s)) tt;
  mret r.1.

(** Move the datum under [k] to the key [k'], if there is one. *)
Definition dict_rename (k k' : K) : M W bool :=
  o ← search_func vt k;
  match o with
  | None => mret false
  | Some v => remove_func vt k;; insert_func vt k' v 1;; mret true
  end.

(** A call adds at most one pair. *)
Lemma length_spec_call c l : (length (spec_call c l).2 ≤ S (length l))%nat.
Proof.
  destruct c; cbn [spec_call snd length]; try lia.
  - apply length_put_entry.
  - apply length_put_entry.
  - pose proof (length_del_entry cmp k l). lia.
Qed.

(** A call through the table answers as the abstract dictionary does,
    when there is room for the pair it adds. *)
Lemma do_call_run c w l :
  models w l → (new_key c l = true → room w l) →
  wp (do_call c) w (λ a w', a = (spec_call c l).1 ∧ models w' (spec_call c l).2).
Proof.
  intros Hm Hroom. destruct c; cbn [do_call spec_call fst snd new_key] in *;
    rewrite ?bool_decide_eq_true in Hroom.
  - eapply wp_bind; [by apply law_insert|]. intros ? w' [? ->]. by apply wp_ret.
  - eapply wp_bind; [by apply law_probe|]. intros ? w' [? ->]. apply wp_ret.
    by destruct (assoc cmp k l).
  - eapply wp_bind_run; [by apply law_search|]. by apply wp_ret.
  - eapply wp_bind; [by apply law_remove|]. intros ? w' [? ->]. by apply wp_ret.
  - eapply wp_bind; [by apply law_empty|]. intros ? w' [? ->]. by apply wp_ret.
  - eapply wp_bind_run; [by apply law_count|]. by apply wp_ret.
Qed.

(** Inserting, then searching. *)
Lemma dict_insert_search w l k v ow k' :
  models w l → (assoc cmp k l = None → room w l) →
  wp (insert_func vt k v ow;; search_func vt k') w (λ ret w',
    ret = assoc cmp k' (put_entry cmp k v (negb (ow =? 0)) l) ∧
    models w' (put_entry cmp k v (negb (ow =? 0)) l)).
Proof.
  intros Hm Hroom. eapply wp_bind; [by apply law_insert|].
  intros ret w' [Hm' _]. eapply wp_run; [by apply law_search|done].
Qed.

(** Removing, then searching. *)
Lemma dict_remove_search w l k k' :
  models w l →
  wp (remove_func vt k;; search_func vt k') w (λ ret w',
    ret = (if cmp k' k =? 0 then None else assoc cmp k' l) ∧
    models w' (del_entry cmp k l)).
Proof.
  intros Hm. eapply wp_bind; [by apply law_remove|].
  intros ret w' [Hm' _]. eapply wp_run; [by apply law_search|]. split; [|done].
  pose proof (law_sorted _ _ Hm) as Hs. destruct (Z.eqb_spec (cmp k' k) 0) as [Hk|Hk].
  - rewrite (assoc_proper cmp k' k) by done. by apply assoc_del_entry_eq.
  - apply assoc_del_entry_ne; [done|]. intros Hk'. apply Hk. by apply (cmp_eq_sym cmp).
Qed.

(** So does every sequence of calls, while there is room. *)
Lemma do_calls_run cap cs : ∀ w l,
  (∀ w l, models w l → (length l < cap)%nat → room w l) →
  models w l → (length l + length cs ≤ cap)%nat →
  wp (do_calls cs) w (λ rs w',
    rs = (spec_calls cs l).1 ∧ models w' (spec_calls cs l).2).
Proof.
  induction cs as [|c cs IH]; intros w l Hroom Hm Hlen; [by apply wp_ret|].
  cbn [do_calls spec_calls length fst snd] in *.
  eapply wp_bind; [apply (do_call_run c w l Hm); intros _; apply Hroom; [done|lia]|].
  intros a w1 [-> Hm1].
  eapply wp_bind; [apply (IH w1 _ Hroom Hm1); pose proof (length_spec_call c l); lia|].
  intros rs w2 [-> Hm2]. by apply wp_ret.
Qed.

Lemma dict_size_by_walk_run w l :
  models w l → dict_size_by_walk w = count_func vt w.
Proof.
  intros Hm. unfold dict_size_by_walk.
  rewrite (bind_run _ _ _ _ _ (law_walk _ tt w l Hm)), (law_count w l Hm).
  by rewrite walk_s_all.
Qed.

Lemma dict_rename_run w l k k' :
  models w l →
  (∀ w', models w' (del_entry cmp k l) → room w' (del_entry cmp k l)) →
  wp (dict_rename k k') w (λ ret w',
    match assoc cmp k l with
    | None => ret = false ∧ w' = w
    | Some v => ret = true ∧ models w' (put_entry cmp k' v true (del_entry cmp k l))
    end).
Proof.
  intros Hm Hroom. unfold dict_rename.
  eapply wp_bind_run; [by apply law_search|].
  destruct (assoc cmp k l) as [v|]; [|by apply wp_ret].
  eapply wp_bind; [by apply law_remove|]. intros ? w1 [Hm1 _].
  eapply wp_bind; [apply (law_insert w1 _ k' v 1 Hm1); auto|].
  intros ? w2 [Hm2 _]. by apply wp_ret.
Qed.

End Client.

(** ** The programs written against a cursor table are correct *)

Section CursorClient.
Context {W K V : Type} (vt : itor_vtable W K V).
Context (at_ : W → list (K * V) → Z → Prop) `{!ItorLaws vt at_}.

Lemma entry_at_inside (l : list (K * V)) z :
  is_Some (entry_at l z) ↔ inside l z = true.
Proof.
  unfold entry_at, inside. rewrite andb_true_iff, Z.leb_le, Z.ltb_lt.
  destruct (Z.ltb_spec z 0); [split; [by intros []|lia]|].
  rewrite lookup_lt_is_Some. lia.
Qed.

Lemma itor_collect_run fuel : ∀ s l z,
  at_ s l z → 0 ≤ z → Z.of_nat (length l) - z < Z.of_nat fuel →
  wp (itor_collect vt fuel) s (λ ks s',
    ks = (drop (Z.to_nat z) l).*1 ∧ at_ s' l (Z.of_nat (length l))).
Proof.
  induction fuel as [|fuel IH]; intros s l z Hat Hz Hfuel.
  { pose proof (ilaw_range _ _ _ Hat). lia. }
  cbn [itor_collect]. eapply wp_bind_run; [by eapply ilaw_key|].
  pose proof (ilaw_range _ _ _ Hat) as Hr. unfold entry_at.
  destruct (Z.ltb_spec z 0); [lia|].
  destruct (l !! Z.to_nat z) as [[k v]|] eqn:Hl; cbn [fmap option_fmap option_map fst].
  - pose proof (lookup_lt_Some _ _ _ Hl).
    eapply wp_bind; [apply (ilaw_next s l z Hat); lia|]. intros ? s1 [Hat1 _].
    eapply wp_bind; [apply (IH s1 l (z + 1) Hat1); lia|]. intros ks s2 [-> Hat2].
    apply wp_ret. split; [|done].
    rewrite (drop_S l (k, v) (Z.to_nat z) Hl). cbn. do 3 f_equal. lia.
  - apply wp_ret. apply lookup_ge_None in Hl.
    rewrite drop_ge by done. assert (z = Z.of_nat (length l)) as -> by lia. done.
Qed.

(** Every traversal ends: from any position, repeating [next] reaches the
    end of the dictionary, where the cursor is invalid, and repeating
    [prev] reaches its start. *)
Lemma next_eventually_end s l z :
  at_ s l z →
  eventually (next_func vt)
    (λ s', at_ s' l (Z.of_nat (length l)) ∧ valid_func vt s' = Some (0, s')) s.
Proof.
  intros Hat. pose proof (ilaw_range _ _ _ Hat) as Hr.
  destruct (decide (z = -1)) as [->|Hz1].
  { apply eventually_now. split; [by apply ilaw_ends|].
    by rewrite (ilaw_valid _ _ _ Hat). }
  assert (0 ≤ z) as Hz by lia. clear Hz1.
  remember (Z.to_nat (Z.of_nat (length l) - z)) as n eqn:Hn.
  revert s z Hat Hz Hr Hn. induction n as [|n IH]; intros s z Hat Hz Hr Hn.
  - assert (z = Z.of_nat (length l)) as -> by lia. apply eventually_now.
    split; [done|]. rewrite (ilaw_valid _ _ _ Hat). unfold inside.
    by rewrite Z.ltb_irrefl, andb_false_r.
  - apply eventually_wp. eapply wp_mono; [apply (ilaw_next s l z Hat); lia|].
    intros ret s' [Hat' _]. apply (IH s' (z + 1)); [done|lia| |lia].
    apply (ilaw_range _ _ _ Hat').
Qed.

Lemma prev_eventually_start s l z :
  at_ s l z →
  eventually (prev_func vt)
    (λ s', at_ s' l (-1) ∧ valid_func vt s' = Some (0, s')) s.
Proof.
  intros Hat. pose proof (ilaw_range _ _ _ Hat) as Hr.
  destruct (decide (z = Z.of_nat (length l))) as [->|Hz1].
  { apply eventually_now. apply ilaw_ends in Hat. split; [done|].
    by rewrite (ilaw_valid _ _ _ Hat). }
  assert (z < Z.of_nat (length l)) as Hz by lia. clear Hz1.
  remember (Z.to_nat (z + 1)) as n eqn:Hn.
  revert s z Hat Hz Hr Hn. induction n as [|n IH]; intros s z Hat Hz Hr Hn.
  - assert (z = -1) as -> by lia. apply eventually_now.
    split; [done|]. by rewrite (ilaw_valid _ _ _ Hat).
  - apply eventually_wp. eapply wp_mono; [apply (ilaw_prev s l z Hat); lia|].
    intros ret s' [Hat' _]. apply (IH s' (z - 1)); [done|lia| |lia].
    apply (ilaw_range _ _ _ Hat').
Qed.

Lemma itor_keys_run s l z :
  at_ s l z →
  wp (itor_keys vt (S (length l))) s (λ ks s',
    ks = l.*1 ∧ at_ s' l (Z.of_nat (length l))).
Proof.
  intros Hat. unfold itor_keys.
  eapply wp_bind; [by eapply ilaw_first|]. intros ? s1 [Hat1 _].
  eapply wp_mono; [apply (itor_collect_run _ s1 l 0 Hat1); lia|].
  intros ks s' [-> ?]. done.
Qed.

End CursorClient.

(** ** The programs on a table with fewer runs *)

Section Monotone.
Context {W C K V : Type}.

Lemma do_call_le (vt vt' : dict_vtable W C K V) c :
  vt ⊑ vt' → do_call vt c ⊑ do_call vt' c.
Proof.
  intros Hvt. destruct c; cbn [do_call]; (apply bind_le; [apply Hvt|done]).
Qed.

Lemma do_calls_le (vt vt' : dict_vtable W C K V) cs :
  vt ⊑ vt' → do_calls vt cs ⊑ do_calls vt' cs.
Proof.
  intros Hvt. induction cs as [|c cs IH]; [done|]. cbn [do_calls].
  apply bind_le; [by apply do_call_le|]. intros a. by apply bind_le.
Qed.

Lemma dict_rename_le (vt vt' : dict_vtable W C K V) k k' :
  vt ⊑ vt' → dict_rename vt k k' ⊑ dict_rename vt' k k'.
Proof.
  intros Hvt. unfold dict_rename. apply bind_le; [apply Hvt|]. intros [v|]; [|done].
  apply bind_le; [apply Hvt|]. intros _. by apply bind_le; [apply Hvt|].
Qed.

Lemma itor_collect_le (vt vt' : itor_vtable W K V) fuel :
  vt ⊑ vt' → itor_collect vt fuel ⊑ itor_collect vt' fuel.
Proof.
  intros Hvt. induction fuel as [|fuel IH]; [done|]. cbn [itor_collect].
  apply bind_le; [apply Hvt|]. intros [k|]; [|done].
  apply bind_le; [apply Hvt|]. intros _. by apply bind_le.
Qed.

Lemma itor_keys_le (vt vt' : itor_vtable W K V) fuel :
  vt ⊑ vt' → itor_keys vt fuel ⊑ itor_keys vt' fuel.
Proof.
  intros Hvt. unfold itor_keys. apply bind_le; [apply Hvt|].
  intros _. by apply itor_collect_le.
Qed.

End Monotone.

(** ** The programs on a table that keeps a property *)

Section Keeping.
Context {W C K V : Type} (T : W → Prop).

Lemma answer_ok_AInt {V'} z :
  is_tristate z ∨ is_status z ∨ is_unsigned z → answer_ok (@AInt V' z).
Proof.
  assert (1 ≤ UINT_MAX) by (by vm_compute).
  unfold answer_ok, is_tristate, is_status, is_unsigned. lia.
Qed.

Lemma do_call_keeps (vt : dict_vtable W C K V) c :
  dict_vtable_keeps T vt → keeps T (do_call vt c) answer_ok.
Proof.
  intros Hvt. destruct c; cbn [do_call];
    (eapply keeps_bind; [apply Hvt|]); intros r Hr; apply keeps_ret;
    first [done | apply answer_ok_AInt; tauto].
Qed.

Lemma do_calls_keeps (vt : dict_vtable W C K V) cs :
  dict_vtable_keeps T vt → keeps T (do_calls vt cs) (Forall answer_ok).
Proof.
  intros Hvt. induction cs as [|c cs IH]; [by apply keeps_ret|]. cbn [do_calls].
  eapply keeps_bind; [by apply do_call_keeps|]. intros a Ha.
  eapply keeps_bind; [exact IH|]. intros rs Hrs. apply keeps_ret. by constructor.
Qed.

Lemma itor_collect_keeps (vt : itor_vtable W K V) fuel :
  itor_vtable_keeps T vt → keeps T (itor_collect vt fuel) (λ _, True).
Proof.
  intros Hvt. induction fuel as [|fuel IH]; [by apply keeps_ret|]. cbn [itor_collect].
  eapply keeps_bind; [apply Hvt|]. intros [k|] _; [|by apply keeps_ret].
  eapply keeps_bind; [apply Hvt|]. intros _ _.
  eapply keeps_bind; [exact IH|]. intros ? _. by apply keeps_ret.
Qed.

Lemma itor_keys_keeps (vt : itor_vtable W K V) fuel :
  itor_vtable_keeps T vt → keeps T (itor_keys vt fuel) (λ _, True).
Proof.
  intros Hvt. unfold itor_keys. eapply keeps_bind; [apply Hvt|].
  intros _ _. by apply itor_collect_keeps.
Qed.

End Keeping.
