(* ===== verification/Protocol.v ===== *)
(** * A dictionary and a cursor on it

    The caller of libdict holds a dictionary and cursors on it, and calls
    the entries of both tables in any order.  A cursor points into the
    container, which does not know of it: the specification says that a
    cursor is stale after a structural change and must be positioned again
    before it is used.  This file states that protocol and what a container
    must promise for it ([AliasLaws]), and proves a client that follows it
    correct against the laws alone.

    The caller sees a dictionary [l] and a [place]: a position of [l], or
    [Stale] once the pair under the cursor has been removed.  [spec_mcall]
    is what each call answers and where it leaves the cursor; it has no
    answer for a call that reads through a stale cursor.  A cursor follows
    its pair: after a call that changes the dictionary it is at the
    position its key has in the new dictionary ([follow]).  Positioning a
    stale cursor ([first], [last], [invalidate]) makes it usable again.

    The second part of the file has the same calls when memory may run
    out: the outcomes of a call, the laws of a container that is out of
    memory ([MemoryLaws]) and the client theorem for any allocator. *)

From Stdlib Require Import ZArith Lia.
From stdpp Require Import base tactics option list.
From S2P Require Import Prelude Contract Assoc WalkShape Dict.

#[local] Open Scope Z_scope.

(** ** Calls, answers, places *)

(** A call of an entry of the cursor table. *)
Inductive icall (V : Type) : Type :=
  | IValid
  | IInvalidate
  | IFirst
  | ILast
  | INext
  | IPrev
  | INextN (count : Z)
  | IPrevN (count : Z)
  | IKey
  | IData
  | ICData
  | ISetData (d : V) (want_old : bool).
Arguments IValid {V}.
Arguments IInvalidate {V}.
Arguments IFirst {V}.
Arguments ILast {V}.
Arguments INext {V}.
Arguments IPrev {V}.
Arguments INextN {V}.
Arguments IPrevN {V}.
Arguments ICData {V}.
Arguments IKey {V}.
Arguments IData {V}.
Arguments ISetData {V}.

(** A call of either table. *)
Inductive mcall (K V : Type) : Type :=
  | MDict (c : call K V)
  | MItor (c : icall V).
Arguments MDict {K V}.
Arguments MItor {K V}.

Inductive manswer (K V : Type) : Type :=
  | RDict (a : answer V)
  | RInt (z : Z)
  | RUnit
  | RKey (o : option K)
  | RData (o : option V)
  | RSet (z : Z) (o : option V).
Arguments RDict {K V}.
Arguments RInt {K V}.
Arguments RUnit {K V}.
Arguments RKey {K V}.
Arguments RData {K V}.
Arguments RSet {K V}.

(** Where the cursor is: at a position of the dictionary (the positions
    before the first and after the last pair are those of an invalid
    cursor), or on a pair that has been removed. *)
Inductive place : Type :=
  | Pos (z : Z)
  | Stale.

Section Protocol.
Context {W C K V : Type} (cmp : dict_compare_func K).
Context (vt : dict_vtable W C K V) (ivt : itor_vtable (W * C) K V).
Implicit Types (l : list (K * V)) (s : W * C) (p : place) (z : Z).

(** ** The calls through the tables *)

(** An entry of the dictionary table run in the state of a cursor. *)
Definition on_dict {A} (c : M W A) : M (W * C) A := λ s,
  match c s.1 with
  | Some (a, w') => Some (a, (w', s.2))
  | None => None
  end.

Definition do_icall (c : icall V) : M (W * C) (manswer K V) :=
  match c with
  | IValid => r ← valid_func ivt; mret (RInt r)
  | IInvalidate => invalidate_func ivt;; mret RUnit
  | IFirst => r ← first_func ivt; mret (RInt r)
  | ILast => r ← last_func ivt; mret (RInt r)
  | INext => r ← next_func ivt; mret (RInt r)
  | IPrev => r ← prev_func ivt; mret (RInt r)
  | INextN count => r ← nextn_func ivt count; mret (RInt r)
  | IPrevN count => r ← prevn_func ivt count; mret (RInt r)
  | IKey => r ← key_func ivt; mret (RKey r)
  | IData => r ← data_func ivt; mret (RData r)
  | ICData => r ← cdata_func ivt; mret (RData r)
  | ISetData d want_old => r ← dataset_func ivt d want_old; mret (RSet r.1 r.2)
  end.

Definition do_mcall (c : mcall K V) : M (W * C) (manswer K V) :=
  match c with
  | MDict c => a ← on_dict (do_call vt c); mret (RDict a)
  | MItor c => do_icall c
  end.

Fixpoint do_mcalls (cs : list (mcall K V)) : M (W * C) (list (manswer K V)) :=
  match cs with
  | [] => mret []
  | c :: cs => a ← do_mcall c; rest ← do_mcalls cs; mret (a :: rest)
  end.

(** ** The protocol *)

(** The position in [l'] of the pair that is at [z] in [l]. *)
Definition follow l l' z : Z :=
  match entry_at l z with
  | Some (k0, _) => from_option Z.of_nat (-1) (index_of cmp k0 l')
  | None => -1
  end.

(** The call removes the pair at [z]. *)
Definition frees (c : call K V) l z : bool :=
  match c, entry_at l z with
  | CRemove k, Some (k0, _) => cmp k k0 =? 0
  | CEmpty, Some _ => true
  | _, _ => false
  end.

(** The call needs memory. *)
Definition new_mkey (c : mcall K V) l : bool :=
  match c with
  | MDict c => new_key cmp c l
  | MItor _ => false
  end.

Definition spec_place (c : call K V) l p : place :=
  match p with
  | Stale => Stale
  | Pos z => if frees c l z then Stale else Pos (follow l (spec_call cmp c l).2 z)
  end.

Definition spec_icall (c : icall V) l p :
    option (manswer K V * (list (K * V) * place)) :=
  let last := Z.of_nat (length l) - 1 in
  let unsigned count := (0 <=? count) && (count <=? UINT_MAX) in
  match c, p with
  | IInvalidate, _ => Some (RUnit, (l, Pos (-1)))
  | IFirst, _ => Some (RInt (flag (inside l 0)), (l, Pos 0))
  | ILast, _ => Some (RInt (flag (inside l last)), (l, Pos last))
  | _, Stale => None
  | IValid, Pos z => Some (RInt (flag (inside l z)), (l, Pos z))
  | INext, Pos z =>
      let z' := (if inside l z then z else -1) + 1 in
      Some (RInt (flag (inside l z')), (l, Pos z'))
  | IPrev, Pos z =>
      let z' := (if inside l z then z else last + 1) - 1 in
      Some (RInt (flag (inside l z')), (l, Pos z'))
  | INextN count, Pos z =>
      let z' := (if inside l z then z else -1) + count in
      if unsigned count
      then Some (RInt (flag (inside l z')), (l, Pos (Z.min z' (last + 1))))
      else None
  | IPrevN count, Pos z =>
      let z' := (if inside l z then z else last + 1) - count in
      if unsigned count
      then Some (RInt (flag (inside l z')), (l, Pos (Z.max z' (-1))))
      else None
  | IKey, Pos z => Some (RKey (fst <$> entry_at l z), (l, Pos z))
  | IData, Pos z | ICData, Pos z => Some (RData (snd <$> entry_at l z), (l, Pos z))
  | ISetData d want_old, Pos z =>
      match entry_at l z with
      | None => Some (RSet (-1) None, (l, Pos z))
      | Some (k, v) =>
          Some (RSet 0 (if want_old then Some v else None),
                (<[Z.to_nat z := (k, d)]> l, Pos z))
      end
  end.

Definition spec_mcall (c : mcall K V) l p :
    option (manswer K V * (list (K * V) * place)) :=
  match c with
  | MDict c =>
      Some (RDict (spec_call cmp c l).1, ((spec_call cmp c l).2, spec_place c l p))
  | MItor c => spec_icall c l p
  end.

Fixpoint spec_mcalls (cs : list (mcall K V)) l p :
    option (list (manswer K V) * (list (K * V) * place)) :=
  match cs with
  | [] => Some ([], (l, p))
  | c :: cs =>
      r ← spec_mcall c l p;
      rs ← spec_mcalls cs r.2.1 r.2.2;
      Some (r.1 :: rs.1, rs.2)
  end.

(** After a call that left the state [w'], the cursor of [s] is on a pair
    of [l'] whose key compares equal to [k0]. *)
Definition tracked (at_ : W * C → list (K * V) → Z → Prop) s (w' : W) l' (k0 : K) : Prop :=
  ∃ z' k1 v1, at_ (w', s.2) l' z' ∧ entry_at l' z' = Some (k1, v1) ∧ keq cmp k1 k0.

(** The state holds the dictionary and the cursor is at the place. *)
Definition holds (models : W → list (K * V) → Prop)
    (at_ : W * C → list (K * V) → Z → Prop) s l p : Prop :=
  match p with
  | Pos z => at_ s l z
  | Stale => models s.1 l
  end.

End Protocol.

(** ** What the container promises *)

(** [AliasLaws]: a call that changes the dictionary leaves a cursor on its
    pair, unless it removes that pair; a cursor that is on no pair stays on
    none; and positioning a cursor does not read where it was. *)
Class AliasLaws {W C K V : Type} (cmp : dict_compare_func K)
    (vt : dict_vtable W C K V) (ivt : itor_vtable (W * C) K V)
    (models room : W → list (K * V) → Prop)
    (at_ : W * C → list (K * V) → Z → Prop) : Prop := {
  alias_models s l z : at_ s l z → models s.1 l;
  alias_outside s l z w' l' :
    at_ s l z → inside l z = false → models w' l' → at_ (w', s.2) l' (-1);
  alias_invalidate s l :
    models s.1 l → wp (invalidate_func ivt) s (λ _ s', at_ s' l (-1));
  alias_first s l :
    models s.1 l →
    wp (first_func ivt) s (λ ret s', at_ s' l 0 ∧ ret = flag (inside l 0));
  alias_last s l :
    models s.1 l →
    wp (last_func ivt) s (λ ret s',
      at_ s' l (Z.of_nat (length l) - 1) ∧
      ret = flag (inside l (Z.of_nat (length l) - 1)));
  alias_insert s l z k v ow k0 v0 :
    at_ s l z → entry_at l z = Some (k0, v0) → (assoc cmp k l = None → room s.1 l) →
    wp (insert_func vt k v ow) s.1 (λ _ w',
      tracked cmp at_ s w' (put_entry cmp k v (negb (ow =? 0)) l) k0);
  alias_probe s l z k v k0 v0 :
    at_ s l z → entry_at l z = Some (k0, v0) → (assoc cmp k l = None → room s.1 l) →
    wp (probe_func vt k v) s.1 (λ _ w',
      tracked cmp at_ s w' (put_entry cmp k v false l) k0);
  alias_remove s l z k k0 v0 :
    at_ s l z → entry_at l z = Some (k0, v0) → ¬ keq cmp k k0 →
    wp (remove_func vt k) s.1 (λ _ w', tracked cmp at_ s w' (del_entry cmp k l) k0)
}.

(** ** A client that follows the protocol *)

Section ProtocolClient.
Context {W C K V : Type} (cmp : dict_compare_func K) `{!Comparator cmp}.
Context (vt : dict_vtable W C K V) (ivt : itor_vtable (W * C) K V).
Context (models room : W → list (K * V) → Prop).
Context (at_ : W * C → list (K * V) → Z → Prop).
Context `{!DictLaws cmp vt models room} `{!ItorLaws ivt at_}.
Context `{!AliasLaws cmp vt ivt models room at_}.
Implicit Types (l : list (K * V)) (s : W * C) (p : place) (z : Z).

#[local] Abbreviation holds := (holds models at_).
#[local] Abbreviation tracked := (tracked cmp at_).

Lemma on_dict_wp {A} (c : M W A) s (Q : A → W * C → Prop) :
  wp c s.1 (λ a w', Q a (w', s.2)) → wp (on_dict c) s Q.
Proof.
  intros (a & w' & Hc & HQ). exists a, (w', s.2). unfold on_dict. by rewrite Hc.
Qed.

Lemma entry_at_Some l z k v :
  entry_at l z = Some (k, v) → 0 ≤ z ∧ l !! Z.to_nat z = Some (k, v).
Proof. unfold entry_at. by destruct (Z.ltb_spec z 0). Qed.

Lemma entry_at_None l z : entry_at l z = None ↔ inside l z = false.
Proof.
  rewrite <- not_true_iff_false, <- entry_at_inside, eq_None_not_Some. done.
Qed.

Lemma holds_models s l p : holds s l p → models s.1 l.
Proof. destruct p; [intros Hs; exact (alias_models _ _ _ Hs)|done]. Qed.

(** A cursor follows its pair to the position the key has afterwards. *)
Lemma tracked_follow s w' l l' z k0 v0 :
  entry_at l z = Some (k0, v0) → models w' l' → tracked s w' l' k0 →
  at_ (w', s.2) l' (follow cmp l l' z).
Proof.
  intros Hz Hm (z' & k1 & v1 & Hat & [Hz' Hl']%entry_at_Some & Hk).
  unfold follow. rewrite Hz.
  rewrite (index_of_lookup cmp k0 l' (Z.to_nat z') k1 v1);
    [|by eapply law_sorted|done|by symmetry].
  cbn. by rewrite Z2Nat.id.
Qed.

(** A position that holds a pair stays where it is when the dictionary
    does. *)
Lemma follow_same l z : sorted cmp l → inside l z = true → follow cmp l l z = z.
Proof.
  intros Hs [[k v] Hz]%entry_at_inside. unfold follow. rewrite Hz.
  apply entry_at_Some in Hz as [Hz Hl].
  rewrite (index_of_lookup cmp k l (Z.to_nat z) k v); [|done..].
  cbn. by rewrite Z2Nat.id.
Qed.

(** A call that does not remove the pair under the cursor leaves the
    cursor on it. *)
Lemma do_call_tracks c s l z k0 v0 :
  at_ s l z → entry_at l z = Some (k0, v0) → (new_key cmp c l = true → room s.1 l) →
  frees cmp c l z = false →
  wp (do_call vt c) s.1 (λ _ w', tracked s w' (spec_call cmp c l).2 k0).
Proof.
  intros Hat Hz Hroom Hfree. pose proof (alias_models _ _ _ Hat) as Hm.
  unfold frees in Hfree. rewrite Hz in Hfree.
  destruct c; cbn [do_call spec_call snd new_key] in *;
    rewrite ?bool_decide_eq_true in Hroom; try done.
  - eapply wp_bind; [by eapply alias_insert|]. intros. by apply wp_ret.
  - eapply wp_bind; [by eapply alias_probe|]. intros. by apply wp_ret.
  - eapply wp_bind_run; [by apply law_search|]. apply wp_ret.
    exists z, k0, v0. by rewrite <- surjective_pairing.
  - eapply wp_bind; [eapply alias_remove; [done..|]|intros; by apply wp_ret].
    unfold keq. by apply Z.eqb_neq.
  - eapply wp_bind_run; [by apply law_count|]. apply wp_ret.
    exists z, k0, v0. by rewrite <- surjective_pairing.
Qed.

(** A call of the dictionary table, with a cursor about. *)
Lemma do_dict_call_run c s l p :
  holds s l p → (new_key cmp c l = true → room s.1 l) →
  wp (on_dict (do_call vt c)) s (λ a s',
    a = (spec_call cmp c l).1 ∧ holds s' (spec_call cmp c l).2 (spec_place cmp c l p)).
Proof.
  intros Hs Hroom. pose proof (holds_models _ _ _ Hs) as Hm.
  pose proof (do_call_run cmp vt models room c s.1 l Hm Hroom) as Hrun.
  apply on_dict_wp. destruct p as [z|]; cbn [holds spec_place] in *; [|done].
  destruct (frees cmp c l z) eqn:Hfree; [done|].
  destruct (entry_at l z) as [[k0 v0]|] eqn:Hz.
  - eapply wp_mono; [exact (wp_and _ _ _ _ Hrun (do_call_tracks c s l z k0 v0 Hs Hz Hroom Hfree))|].
    intros a w' [[-> Hm'] Ht]. split; [done|]. by eapply tracked_follow.
  - eapply wp_mono; [exact Hrun|]. intros a w' [-> Hm']. split; [done|].
    unfold follow. rewrite Hz. eapply alias_outside; [done| |done].
    by apply entry_at_None.
Qed.

(** An invalid cursor is before the first pair. *)
Lemma at_outside s l z : at_ s l z → inside l z = false → at_ s l (-1).
Proof.
  intros Hat Hin. pose proof (ilaw_range _ _ _ Hat) as Hr.
  apply andb_false_iff in Hin. rewrite Z.leb_gt, Z.ltb_ge in Hin.
  destruct (decide (z = -1)) as [->|?]; [done|].
  apply ilaw_ends. by assert (z = Z.of_nat (length l)) as <- by lia.
Qed.

Lemma inside_lt l z : inside l z = true → 0 ≤ z < Z.of_nat (length l).
Proof. unfold inside. rewrite andb_true_iff, Z.leb_le, Z.ltb_lt. done. Qed.

(** The two moves, from a pair and from outside. *)
(** The start of a move: the position itself, or the end it wraps from. *)
Lemma at_start_next s l z :
  at_ s l z →
  let z0 := if inside l z then z else -1 in at_ s l z0 ∧ z0 < Z.of_nat (length l).
Proof.
  intros Hat. destruct (inside l z) eqn:Hin; cbn zeta.
  - apply inside_lt in Hin. split; [done|lia].
  - split; [by eapply at_outside|lia].
Qed.

Lemma at_start_prev s l z :
  at_ s l z →
  let z0 := if inside l z then z else Z.of_nat (length l) - 1 + 1 in
  at_ s l z0 ∧ 0 ≤ z0.
Proof.
  intros Hat. destruct (inside l z) eqn:Hin; cbn zeta.
  - apply inside_lt in Hin. split; [done|lia].
  - replace (Z.of_nat (length l) - 1 + 1) with (Z.of_nat (length l)) by lia.
    split; [by apply ilaw_ends, (at_outside s l z)|lia].
Qed.

Lemma do_next_run s l z :
  at_ s l z →
  let z' := (if inside l z then z else -1) + 1 in
  wp (next_func ivt) s (λ ret s', at_ s' l z' ∧ ret = flag (inside l z')).
Proof. intros [Hat ?]%at_start_next. by apply ilaw_next. Qed.

Lemma do_prev_run s l z :
  at_ s l z →
  let z' := (if inside l z then z else Z.of_nat (length l) - 1 + 1) - 1 in
  wp (prev_func ivt) s (λ ret s', at_ s' l z' ∧ ret = flag (inside l z')).
Proof. intros [Hat ?]%at_start_prev. by apply ilaw_prev. Qed.

Lemma do_nextn_run s l z count :
  at_ s l z → 0 ≤ count ≤ UINT_MAX →
  let z' := (if inside l z then z else -1) + count in
  wp (nextn_func ivt count) s (λ ret s',
    at_ s' l (Z.min z' (Z.of_nat (length l) - 1 + 1)) ∧ ret = flag (inside l z')).
Proof.
  intros [Hat ?]%at_start_next Hc.
  replace (Z.of_nat (length l) - 1 + 1) with (Z.of_nat (length l)) by lia.
  by apply ilaw_nextn.
Qed.

Lemma do_prevn_run s l z count :
  at_ s l z → 0 ≤ count ≤ UINT_MAX →
  let z' := (if inside l z then z else Z.of_nat (length l) - 1 + 1) - count in
  wp (prevn_func ivt count) s (λ ret s',
    at_ s' l (Z.max z' (-1)) ∧ ret = flag (inside l z')).
Proof. intros [Hat ?]%at_start_prev Hc. by apply ilaw_prevn. Qed.

Lemma unsigned_range count :
  (0 ≤ count ≤ UINT_MAX ∧ (0 <=? count) && (count <=? UINT_MAX) = true) ∨
  (0 <=? count) && (count <=? UINT_MAX) = false.
Proof.
  destruct (Z.leb_spec 0 count), (Z.leb_spec count UINT_MAX); cbn; auto.
Qed.

(** A call of the cursor table at a position. *)
Lemma do_icall_at c s l z a l' p' :
  at_ s l z → spec_icall c l (Pos z) = Some (a, (l', p')) →
  wp (do_icall ivt c) s (λ a' s', a' = a ∧ holds s' l' p').
Proof.
  intros Hat Hspec. destruct c; cbn [do_icall spec_icall] in *; simplify_eq.
  - eapply wp_bind_run; [by eapply ilaw_valid|]. by apply wp_ret.
  - eapply wp_bind; [by eapply ilaw_invalidate|]. intros. by apply wp_ret.
  - eapply wp_bind; [by eapply ilaw_first|]. intros ?? [? ->]. by apply wp_ret.
  - eapply wp_bind; [by eapply ilaw_last|]. intros ?? [? ->]. by apply wp_ret.
  - eapply wp_bind; [by apply do_next_run|]. intros ?? [? ->]. by apply wp_ret.
  - eapply wp_bind; [by apply do_prev_run|]. intros ?? [? ->]. by apply wp_ret.
  - destruct (unsigned_range count) as [[Hc Hu]|Hu]; rewrite Hu in Hspec; simplify_eq.
    eapply wp_bind; [by apply do_nextn_run|]. intros ?? [? ->]. by apply wp_ret.
  - destruct (unsigned_range count) as [[Hc Hu]|Hu]; rewrite Hu in Hspec; simplify_eq.
    eapply wp_bind; [by apply do_prevn_run|]. intros ?? [? ->]. by apply wp_ret.
  - eapply wp_bind_run; [by eapply ilaw_key|]. by apply wp_ret.
  - eapply wp_bind_run; [by eapply ilaw_data|]. by apply wp_ret.
  - eapply wp_bind_run; [rewrite ilaw_cdata; by eapply ilaw_data|]. by apply wp_ret.
  - eapply wp_bind; [by eapply (ilaw_dataset s l z d want_old)|]. intros r s' Hr.
    apply wp_ret. destruct (entry_at l z) as [[k v]|]; simplify_eq.
    + by destruct Hr as [-> ?].
    + by destruct Hr as [-> ->].
Qed.

(** A call of the cursor table, from any place the protocol allows. *)
Lemma do_icall_run c s l p a l' p' :
  holds s l p → spec_icall c l p = Some (a, (l', p')) →
  wp (do_icall ivt c) s (λ a' s', a' = a ∧ holds s' l' p').
Proof.
  destruct p as [z|]; [apply do_icall_at|]. intros Hm Hspec. cbn [Protocol.holds] in Hm.
  destruct c; cbn [do_icall spec_icall] in *; simplify_eq.
  - eapply wp_bind; [by eapply alias_invalidate|]. intros. by apply wp_ret.
  - eapply wp_bind; [by eapply alias_first|]. intros ?? [? ->]. by apply wp_ret.
  - eapply wp_bind; [by eapply alias_last|]. intros ?? [? ->]. by apply wp_ret.
Qed.

(** A call of either table answers as the protocol says, and leaves the
    cursor where it says. *)
Lemma do_mcall_run c s l p a l' p' :
  holds s l p → (new_mkey cmp c l = true → room s.1 l) →
  spec_mcall cmp c l p = Some (a, (l', p')) →
  wp (do_mcall vt ivt c) s (λ a' s', a' = a ∧ holds s' l' p').
Proof.
  intros Hs Hroom Hspec. destruct c as [c|c]; cbn [do_mcall spec_mcall] in *.
  - simplify_eq. eapply wp_bind; [by apply do_dict_call_run|].
    intros ?? [-> ?]. by apply wp_ret.
  - by eapply do_icall_run.
Qed.

(** A call adds at most one pair. *)
Lemma length_spec_mcall c l p a l' p' :
  spec_mcall cmp c l p = Some (a, (l', p')) → (length l' ≤ S (length l))%nat.
Proof.
  destruct c as [c|c]; cbn [spec_mcall]; [intros [= _ <- _]; apply length_spec_call|].
  destruct c, p; cbn [spec_icall]; intros ?; repeat case_match; simplify_eq;
    rewrite ?length_insert; lia.
Qed.

(** So does every sequence of calls the protocol allows, while there is
    room. *)
Lemma do_mcalls_run cap cs : ∀ s l p rs l' p',
  (∀ w l, models w l → (length l < cap)%nat → room w l) →
  holds s l p → (length l + length cs ≤ cap)%nat →
  spec_mcalls cmp cs l p = Some (rs, (l', p')) →
  wp (do_mcalls vt ivt cs) s (λ rs' s', rs' = rs ∧ holds s' l' p').
Proof.
  induction cs as [|c cs IH]; intros s l p rs l' p' Hroom Hs Hlen Hspec;
    cbn [do_mcalls spec_mcalls length] in *; [simplify_eq; by apply wp_ret|].
  destruct (spec_mcall cmp c l p) as [[a [l1 p1]]|] eqn:Hc; [|done].
  cbn [mbind option_bind fst snd] in Hspec.
  destruct (spec_mcalls cmp cs l1 p1) as [[rs1 [l2 p2]]|] eqn:Hcs; simplify_eq/=.
  eapply wp_bind.
  { apply (do_mcall_run c s l p a l1 p1 Hs); [|done].
    intros _. apply Hroom; [exact (holds_models _ _ _ Hs)|lia]. }
  intros ? s1 [-> Hs1]. pose proof (length_spec_mcall _ _ _ _ _ _ Hc).
  eapply wp_bind; [apply (IH s1 l1 p1 rs1 l' p' Hroom Hs1); [lia|done]|].
  intros ? s2 [-> Hs2]. by apply wp_ret.
Qed.

End ProtocolClient.

(** * Calls when memory may run out

    [pr_tree_insert] and [pr_tree_probe] of a new key allocate a node, and
    return -1 when there is no memory for it.  Whether there is depends on
    the allocator, which the caller does not see: to the caller a call that
    adds a pair has two outcomes, the one of [spec_mcall] and the failure
    that leaves the dictionary and the cursor as they were.

    [outcome] is this relation for one call and [outcomes] for a sequence;
    [allowed] says that a sequence follows the protocol along every
    outcome.  [MemoryLaws] is what a container promises when it is out of
    memory, and [do_mcalls_any] proves from the laws that every allowed
    sequence of calls returns, with answers that are outcomes of the calls,
    whatever the allocator does. *)

Section Outcomes.
Context {W C K V : Type} (cmp : dict_compare_func K).
Implicit Types (l : list (K * V)) (p : place) (c : mcall K V).

(** ** Definitions *)

(** The answer of a call that fails for lack of memory: the calls that
    add a pair, on a key the dictionary does not hold. *)
Definition may_fail c l : option (manswer K V) :=
  match c with
  | MDict (CInsert k _ _) =>
      if assoc cmp k l is None then Some (RDict (AInt (-1))) else None
  | MDict (CProbe k v) =>
      if assoc cmp k l is None then Some (RDict (AProbe (-1) v)) else None
  | _ => None
  end.

(** The outcomes of a call: what the protocol says, or the failure, which
    changes nothing. *)
Inductive outcome c l p : manswer K V → list (K * V) → place → Prop :=
  | outcome_done a l' p' :
      spec_mcall cmp c l p = Some (a, (l', p')) → outcome c l p a l' p'
  | outcome_failed a :
      may_fail c l = Some a → outcome c l p a l p.

Inductive outcomes :
    list (mcall K V) → list (K * V) → place →
    list (manswer K V) → list (K * V) → place → Prop :=
  | outcomes_nil l p : outcomes [] l p [] l p
  | outcomes_cons c cs l p a l1 p1 rs l2 p2 :
      outcome c l p a l1 p1 → outcomes cs l1 p1 rs l2 p2 →
      outcomes (c :: cs) l p (a :: rs) l2 p2.

(** The sequence follows the protocol whichever calls fail. *)
Fixpoint allowed (cs : list (mcall K V)) l p : bool :=
  match cs with
  | [] => true
  | c :: cs =>
      match spec_mcall cmp c l p with
      | None => false
      | Some (_, (l', p')) =>
          allowed cs l' p' && (if may_fail c l is Some _ then allowed cs l p else true)
      end
  end.

(** ** Lemmas *)

Lemma may_fail_new_mkey c l : is_Some (may_fail c l) ↔ new_mkey cmp c l = true.
Proof.
  destruct c as [[]|]; cbn [may_fail new_mkey new_key];
    rewrite ?bool_decide_eq_true; try (split; [by intros []|done]);
    destruct (assoc cmp k l); split; try done; by intros [].
Qed.

Lemma allowed_cons c cs l p :
  allowed (c :: cs) l p = true ↔
  ∃ a l' p', spec_mcall cmp c l p = Some (a, (l', p')) ∧ allowed cs l' p' = true ∧
             (is_Some (may_fail c l) → allowed cs l p = true).
Proof.
  cbn [allowed]. destruct (spec_mcall cmp c l p) as [[a [l' p']]|]; [|split; [done|]].
  - rewrite andb_true_iff. split.
    + intros [? Hf]. exists a, l', p'. split_and!; [done..|]. intros [? Hs]. by rewrite Hs in Hf.
    + intros (? & ? & ? & ? & ? & Hf). simplify_eq. split; [done|].
      destruct (may_fail c l); [by apply Hf|done].
  - by intros (? & ? & ? & ? & _).
Qed.

(** What the protocol says is one of the outcomes. *)
Lemma spec_outcomes cs : ∀ l p rs l' p',
  spec_mcalls cmp cs l p = Some (rs, (l', p')) → outcomes cs l p rs l' p'.
Proof.
  induction cs as [|c cs IH]; intros l p rs l' p' Hspec; cbn [spec_mcalls] in Hspec.
  { simplify_eq. constructor. }
  destruct (spec_mcall cmp c l p) as [[a [l1 p1]]|] eqn:Hc; [|done].
  cbn [mbind option_bind fst snd] in Hspec.
  destruct (spec_mcalls cmp cs l1 p1) as [[rs1 [l2 p2]]|] eqn:Hcs; simplify_eq/=.
  econstructor; [by constructor|by apply IH].
Qed.

(** An allowed sequence has an answer from the protocol. *)
Lemma allowed_spec cs : ∀ l p,
  allowed cs l p = true → is_Some (spec_mcalls cmp cs l p).
Proof.
  induction cs as [|c cs IH]; intros l p; [by eexists|].
  intros (a & l' & p' & Hc & [r Hcs]%IH & _)%allowed_cons.
  cbn [spec_mcalls]. rewrite Hc. cbn. rewrite Hcs. by eexists.
Qed.

Lemma allowed_outcome c cs l p a l' p' :
  allowed (c :: cs) l p = true → outcome c l p a l' p' → allowed cs l' p' = true.
Proof.
  intros (a0 & l0 & p0 & Hc & Hcs & Hf)%allowed_cons [a1 l1 p1 Hc'|a1 Hfail].
  - by simplify_eq.
  - apply Hf. by eexists.
Qed.

(** An outcome adds at most one pair. *)
Lemma length_outcome c l p a l' p' :
  outcome c l p a l' p' → (length l' ≤ S (length l))%nat.
Proof. intros [??? Hc|]; [by eapply length_spec_mcall|lia]. Qed.

End Outcomes.

(** ** What the container promises when it is out of memory *)

(** [full w]: the allocator has no memory in the state [w].  A call that
    adds a pair then returns -1 and changes nothing. *)
Class MemoryLaws {W C K V : Type} (cmp : dict_compare_func K)
    (vt : dict_vtable W C K V) (models : W → list (K * V) → Prop)
    (full : W → Prop) : Prop := {
  law_insert_full w l k v ow :
    models w l → assoc cmp k l = None → full w →
    insert_func vt k v ow w = Some (-1, w);
  law_probe_full w l k v :
    models w l → assoc cmp k l = None → full w →
    probe_func vt k v w = Some ((-1, v), w)
}.

(** ** A client that follows the protocol, with any allocator *)

Section OutcomesClient.
Context {W C K V : Type} (cmp : dict_compare_func K) `{!Comparator cmp}.
Context (vt : dict_vtable W C K V) (ivt : itor_vtable (W * C) K V).
Context (models room : W → list (K * V) → Prop) (full : W → Prop).
Context (at_ : W * C → list (K * V) → Z → Prop).
Context `{!DictLaws cmp vt models room} `{!ItorLaws ivt at_}.
Context `{!AliasLaws cmp vt ivt models room at_} `{!MemoryLaws cmp vt models full}.
Implicit Types (l : list (K * V)) (s : W * C) (p : place) (c : mcall K V).

#[local] Abbreviation holds := (Protocol.holds models at_).

(** A call that fails for lack of memory. *)
Lemma do_mcall_failed c s l p a :
  holds s l p → full s.1 → may_fail cmp c l = Some a →
  do_mcall vt ivt c s = Some (a, s).
Proof.
  intros Hm%(holds_models cmp vt ivt models room at_) Hfull Hfail. destruct s as [w it].
  destruct c as [[k v ow|k v| | | |]|]; cbn [may_fail] in Hfail; try done;
    destruct (assoc cmp k l) eqn:Hk; simplify_eq; cbn [do_mcall do_call];
    unfold on_dict, mbind, M_bind; cbn [fst snd] in *.
  - by rewrite (law_insert_full w l k v ow Hm Hk Hfull).
  - by rewrite (law_probe_full w l k v Hm Hk Hfull).
Qed.

(** A call that has the room it needs. *)
Lemma do_mcall_done c s l p a l' p' :
  holds s l p → (new_mkey cmp c l = true → room s.1 l) →
  spec_mcall cmp c l p = Some (a, (l', p')) →
  wp (do_mcall vt ivt c) s (λ a s', ∃ l' p', outcome cmp c l p a l' p' ∧ holds s' l' p').
Proof.
  intros Hs Hroom Hspec. eapply wp_mono; [by eapply do_mcall_run|].
  intros ? s' [-> ?]. exists l', p'. split; [by constructor|done].
Qed.

(** A call returns one of its outcomes. *)
Lemma do_mcall_any c s l p :
  holds s l p → room s.1 l ∨ full s.1 → is_Some (spec_mcall cmp c l p) →
  wp (do_mcall vt ivt c) s (λ a s', ∃ l' p', outcome cmp c l p a l' p' ∧ holds s' l' p').
Proof.
  intros Hs [Hroom|Hfull] [[a [l' p']] Hspec]; [by eapply do_mcall_done|].
  destruct (may_fail cmp c l) as [a'|] eqn:Hfail.
  - eapply wp_run; [by eapply do_mcall_failed|]. exists l, p. split; [by constructor|done].
  - eapply do_mcall_done; [done| |done]. intros Hn%may_fail_new_mkey.
    rewrite Hfail in Hn. by destruct Hn.
Qed.

(** Every allowed sequence of calls returns outcomes of its calls. *)
Lemma do_mcalls_any cap cs : ∀ s l p,
  (∀ w l, models w l → (length l < cap)%nat → room w l ∨ full w) →
  holds s l p → (length l + length cs ≤ cap)%nat → allowed cmp cs l p = true →
  wp (do_mcalls vt ivt cs) s (λ rs s',
    ∃ l' p', outcomes cmp cs l p rs l' p' ∧ holds s' l' p').
Proof.
  induction cs as [|c cs IH]; intros s l p Hmem Hs Hlen Hok; cbn [do_mcalls length] in *.
  { apply wp_ret. exists l, p. split; [constructor|done]. }
  pose proof Hok as (a0 & l0 & p0 & Hc & _)%allowed_cons.
  eapply wp_bind.
  { apply (do_mcall_any c s l p Hs); [|by eexists].
    apply Hmem; [exact (holds_models cmp vt ivt models room at_ _ _ _ Hs)|lia]. }
  intros a s1 (l1 & p1 & Ho & Hs1). pose proof (length_outcome _ _ _ _ _ _ _ Ho).
  eapply wp_bind;
    [apply (IH s1 l1 p1 Hmem Hs1); [lia|by eapply allowed_outcome]|].
  intros rs s2 (l2 & p2 & Hos & Hs2). apply wp_ret. exists l2, p2.
  split; [by econstructor|done].
Qed.

End OutcomesClient.
