(* ===== verification/Vtable.v ===== *)
(** * The tables of pr_tree.c and the handles that carry them

    [pr_tree_vtable] and [pr_tree_itor_vtable], the two static tables at the
    top of pr_tree.c, and the constructors [pr_dict_new] and
    [pr_dict_itor_new], which allocate a generic handle and store the table
    in it.  The state holds one tree, so that the [_object] field of the
    handle, the pointer to the tree, is not represented: a handle is the
    table it carries. *)

From Stdlib Require Import ZArith Lia.
From stdpp Require Import base tactics option list gmap.
From S2P Require Import Prelude Contract Node Rotate Tree Walk Itor Dict.

#[local] Open Scope Z_scope.

Section Vtable.
Context {build : Build} {K V : Type} `{!Allocator} `{!KeyPointer K}.

(** [static dict_vtable pr_tree_vtable]. *)
Definition pr_tree_vtable : dict_vtable (world K V) pr_itor K V :=
  mk_dict_vtable
    pr_itor_new
    pr_tree_destroy
    pr_tree_insert
    pr_tree_probe
    pr_tree_search
    pr_tree_csearch
    pr_tree_remove
    pr_tree_empty
    (@pr_tree_walk _ K V)
    pr_tree_count.

(** [static itor_vtable pr_tree_itor_vtable]; [pr_itor_remove] is not
    implemented and there is no compare function. *)
Definition pr_tree_itor_vtable : itor_vtable (world K V * pr_itor) K V :=
  mk_itor_vtable
    pr_itor_destroy
    pr_itor_valid
    pr_itor_invalidate
    pr_itor_next
    pr_itor_prev
    pr_itor_nextn
    pr_itor_prevn
    pr_itor_first
    pr_itor_last
    pr_itor_key
    pr_itor_data
    pr_itor_cdata
    pr_itor_set_data
    None
    None.

(** [struct dict] and [struct dict_itor]. *)
Record dict : Type := mk_dict {
  _vtable : dict_vtable (world K V) pr_itor K V
}.
Record dict_itor : Type := mk_dict_itor {
  _itor : pr_itor;
  _itor_vtable : itor_vtable (world K V * pr_itor) K V
}.

(** [pr_dict_new(key_cmp, del_func)]: [mem] says whether [MALLOC] gave
    memory for the handle and [mem_tree] whether it gave memory for the
    tree; [None] is the [NULL] returned when either failed, after the handle
    was freed. *)
Definition pr_dict_new (mem mem_tree : bool)
    (key_cmp : option (dict_compare_func K)) (del_func : bool) :
    M (world K V) (option dict) :=
  if negb mem then mret None
  else
    tree ← pr_tree_new mem_tree key_cmp del_func;
    if negb tree then mret None
    else mret (Some (mk_dict pr_tree_vtable)).

(** [pr_dict_itor_new(tree)]. *)
Definition pr_dict_itor_new (mem mem_itor : bool) :
    M (world K V) (option dict_itor) :=
  if negb mem then mret None
  else
    it ← pr_itor_new mem_itor;
    match it with
    | None => mret None
    | Some it => mret (Some (mk_dict_itor it pr_tree_itor_vtable))
    end.

End Vtable.
