(* ===== verification/Examples.v ===== *)
(** * Concrete worlds

    Small worlds with integer keys and data, on which the theorems of the
    development are instantiated.  Each comes with the shape it represents;
    that it does is decided by evaluation ([wf_dec]). *)

From Stdlib Require Import ZArith Lia.
From stdpp Require Import base tactics option list gmap.
From S2P Require Import Prelude Contract Node Shape.

#[local] Open Scope Z_scope.
#[local] Open Scope positive_scope.

(** The world with these cells, root and count, the comparator [Z_cmp], no
    deleter and an empty deletion log. *)
Definition world_of (cells : list (positive * pr_node Z Z)) (root : ptr)
    (count : Z) : world Z Z :=
  mk_world (list_to_map cells) (Some (mk_tree root count Z_cmp false)) [].

(** Two nodes, the second the right child of the first: what [rot_left]
    needs. *)
Definition right2 : world Z Z :=
  world_of [(1, mk_node 10%Z 100%Z NULL NULL (Some 2) 3%Z);
            (2, mk_node 20%Z 200%Z (Some 1) NULL NULL 2%Z)] (Some 1) 2.
Definition right2_s : shape Z Z :=
  Bin 1 Leaf 10%Z 100%Z 3%Z (Bin 2 Leaf 20%Z 200%Z 2%Z Leaf).

(** Its mirror image. *)
Definition left2 : world Z Z :=
  world_of [(1, mk_node 20%Z 200%Z NULL (Some 2) NULL 3%Z);
            (2, mk_node 10%Z 100%Z (Some 1) NULL NULL 2%Z)] (Some 1) 2.
Definition left2_s : shape Z Z :=
  Bin 1 (Bin 2 Leaf 10%Z 100%Z 2%Z Leaf) 20%Z 200%Z 3%Z Leaf.

(** A chain of three nodes to the right, with exact weights: [fixup] at its
    root makes a single left rotation. *)
Definition right3 : world Z Z :=
  world_of [(1, mk_node 10%Z 100%Z NULL NULL (Some 2) 4%Z);
            (2, mk_node 20%Z 200%Z (Some 1) NULL (Some 3) 3%Z);
            (3, mk_node 30%Z 300%Z (Some 2) NULL NULL 2%Z)] (Some 1) 3.
Definition right3_s : shape Z Z :=
  Bin 1 Leaf 10%Z 100%Z 4%Z
    (Bin 2 Leaf 20%Z 200%Z 3%Z (Bin 3 Leaf 30%Z 300%Z 2%Z Leaf)).

(** A zig-zag of three nodes: [fixup] at its root makes a double rotation. *)
Definition zigzag3 : world Z Z :=
  world_of [(1, mk_node 10%Z 100%Z NULL NULL (Some 2) 4%Z);
            (2, mk_node 30%Z 300%Z (Some 1) (Some 3) NULL 3%Z);
            (3, mk_node 20%Z 200%Z (Some 2) NULL NULL 2%Z)] (Some 1) 3.
Definition zigzag3_s : shape Z Z :=
  Bin 1 Leaf 10%Z 100%Z 4%Z
    (Bin 2 (Bin 3 Leaf 20%Z 200%Z 2%Z Leaf) 30%Z 300%Z 3%Z Leaf).

(** A balanced tree of three nodes. *)
Definition full3 : world Z Z :=
  world_of [(1, mk_node 20%Z 200%Z NULL (Some 2) (Some 3) 4%Z);
            (2, mk_node 10%Z 100%Z (Some 1) NULL NULL 2%Z);
            (3, mk_node 30%Z 300%Z (Some 1) NULL NULL 2%Z)] (Some 1) 3.
Definition full3_s : shape Z Z :=
  Bin 1 (Bin 2 Leaf 10%Z 100%Z 2%Z Leaf) 20%Z 200%Z 4%Z
    (Bin 3 Leaf 30%Z 300%Z 2%Z Leaf).

(** The empty tree. *)
Definition empty0 : world Z Z := world_of [] NULL 0.

(** ** They represent their shapes *)

Ltac decide_wf := apply (bool_decide_unpack _); vm_compute; exact I.

Lemma right2_wf : wf right2 right2_s.
Proof. decide_wf. Defined.

Lemma left2_wf : wf left2 left2_s.
Proof. decide_wf. Defined.

Lemma right3_wf : wf right3 right3_s.
Proof. decide_wf. Defined.

Lemma zigzag3_wf : wf zigzag3 zigzag3_s.
Proof. decide_wf. Defined.

Lemma full3_wf : wf full3 full3_s.
Proof. decide_wf. Defined.

Lemma empty0_wf : wf empty0 Leaf.
Proof. decide_wf. Defined.
