(* ===== verification/Bst.v ===== *)
(** * Search trees

    The descent of pr_tree.c ([pr_tree_search], and the first loop of
    [pr_tree_insert], [pr_tree_probe] and [pr_tree_remove]) as a function on
    shapes, [lookup_s], and what the order of the keys gives: on a search
    tree the descent finds the entry that [assoc] finds in the symmetric-order
    sequence. *)

From Stdlib Require Import ZArith Lia.
From stdpp Require Import base tactics option list sorting gmap.
From S2P Require Import Prelude Contract Assoc Node Shape.

#[local] Open Scope Z_scope.

Section Bst.
Context {K V : Type} (cmp : dict_compare_func K).
Implicit Types (k : K) (v : V) (t l r : shape K V).

(** ** Definitions *)

(** The loop of [pr_tree_search]: compare, go left or right, stop on equal. *)
Fixpoint lookup_s k t : option V :=
  match t with
  | Leaf => None
  | Bin _ l nk v _ r =>
      let rv := cmp k nk in
      if rv <? 0 then lookup_s k l
      else if rv >? 0 then lookup_s k r
      else Some v
  end.

(** ** Lemmas *)

Context `{!Comparator cmp}.

Lemma bst_sorted t : bst cmp t ↔ sorted cmp (inorder t).
Proof. done. Qed.

Lemma bst_Bin a l k v w r :
  bst cmp (Bin a l k v w r) ↔
  bst cmp l ∧ bst cmp r ∧
  Forall (λ x, klt cmp x k) (keys l) ∧ Forall (klt cmp k) (keys r).
Proof.
  unfold bst. rewrite keys_Bin, StronglySorted_app, StronglySorted_cons.
  rewrite !Forall_forall. split.
  - intros (Hlr & Hl & Hkr & Hr). split_and!; [done..| |done].
    intros x Hx. apply Hlr; [done|by left].
  - intros (Hl & Hr & Hlk & Hkr). split_and!; [|done..].
    intros x1 x2 Hx1 [->|Hx2]%elem_of_cons; [by apply Hlk|].
    trans k; [by apply Hlk | by apply Hkr].
Qed.

(** On a search tree the descent finds what [assoc] finds. *)
Lemma lookup_s_assoc k t : bst cmp t → lookup_s k t = assoc cmp k (inorder t).
Proof.
  induction t as [|a l IHl nk v w r IHr]; [done|].
  intros (Hl & Hr & Hlk & Hkr)%bst_Bin. cbn [lookup_s inorder].
  rewrite assoc_app. cbn [assoc]. rewrite Z.gtb_ltb.
  destruct (Z.eqb_spec (cmp k nk) 0) as [Heq|Hne];
    destruct (Z.ltb_spec (cmp k nk) 0) as [Hlt|Hge];
    destruct (Z.ltb_spec 0 (cmp k nk)) as [Hgt|Hle]; try lia.
  - rewrite (assoc_above cmp k (inorder l)); [done|].
    eapply Forall_impl; [exact Hlk|]. intros x Hx.
    eapply (cmp_lt_eq cmp); [exact Hx|]. by apply (cmp_eq_sym cmp).
  - rewrite IHl by done. destruct (assoc cmp k (inorder l)); [done|].
    symmetry. apply (assoc_below cmp).
    eapply Forall_impl; [exact Hkr|]. intros x Hx. by trans nk.
  - rewrite (assoc_above cmp k (inorder l)); [by apply IHr|].
    eapply Forall_impl; [exact Hlk|]. intros x Hx. trans nk; [done|].
    by apply (cmp_lt_gt cmp).
Qed.

End Bst.
