(* ===== verification/Inv.v ===== *)
(** * The representation invariant

    What every operation of pr_tree.c expects of a tree and leaves behind:
    the store holds a tree shape, rooted at [tree->root], with consistent
    parent pointers and no sharing ([wf]); the keys ascend strictly in
    symmetric order under [tree->key_cmp] ([bst]); each node's [weight] field
    is the number of nodes below it plus one ([weights_ok]) and does not
    overflow ([fits]); [tree->count], an [unsigned], is the number of nodes
    modulo 2^32.  The dictionary a tree represents is its symmetric-order
    sequence [inorder t]. *)

From Stdlib Require Import ZArith Lia.
From stdpp Require Import base tactics option list gmap.
From S2P Require Import Prelude Contract Assoc Node Tree Shape Examples Bst.

#[local] Open Scope Z_scope.

Section Inv.
Context {K V : Type}.
Implicit Types (t : shape K V) (w : world K V) (tr : pr_tree K).
Implicit Types (cmp : dict_compare_func K).

(** ** Definitions *)

Record inv cmp w t : Prop := mk_inv {
  inv_wf : wf w t;
  inv_bst : bst cmp t;
  inv_weights : weights_ok t;
  inv_fits : fits t;
  inv_cmp : key_cmp <$> tree w = Some cmp;
  inv_count : count <$> tree w = Some (uint (Z.of_nat (nnodes t)))
}.

(** ** Lemmas *)

(** The tree struct under the invariant. *)
Lemma inv_tree cmp w t :
  inv cmp w t →
  ∃ tr, tree w = Some tr ∧ root tr = ptr_of t ∧ key_cmp tr = cmp ∧
        count tr = uint (Z.of_nat (nnodes t)).
Proof.
  intros [Hwf _ _ _ Hcmp Hcount]. destruct (wf_tree _ _ Hwf) as (tr & Htr & ?).
  rewrite Htr in Hcmp, Hcount. exists tr. by simplify_eq/=.
Qed.

(** The invariant from its parts, with the tree struct at hand. *)
Lemma inv_intro cmp w t tr :
  wf w t → bst cmp t → weights_ok t → fits t →
  tree w = Some tr → key_cmp tr = cmp → count tr = uint (Z.of_nat (nnodes t)) →
  inv cmp w t.
Proof. intros ???? Htr <- Hc. split; try done; rewrite Htr; cbn; by f_equal. Qed.

(** The invariant reads the store, the root, the comparator and the count. *)
Lemma inv_ext cmp w w' t :
  nodes w' = nodes w → meta w' = meta w →
  root <$> tree w' = root <$> tree w → inv cmp w t → inv cmp w' t.
Proof.
  intros Hn Hm Hr [Hwf ? ? ? Hcmp Hcount].
  assert (key_cmp <$> tree w' = key_cmp <$> tree w ∧
          count <$> tree w' = count <$> tree w) as [Hk Hc].
  { unfold meta in Hm. destruct (tree w), (tree w'); simplify_eq/=; try done.
    split; congruence. }
  split; try done; [by eapply wf_ext|by rewrite Hk|by rewrite Hc].
Qed.

(** ** The theorems *)

(** C28: [pr_tree_new] on an empty store makes a tree that satisfies the
    invariant for the empty dictionary, with the comparator given or
    [dict_ptr_cmp] for [NULL]; without memory it returns [NULL] and changes
    nothing. *)
Theorem pr_tree_new_inv `{KeyPointer K} (mem : bool) key_cmp del_func w :
  nodes w = ∅ →
  wp (pr_tree_new mem key_cmp del_func) w (λ ret w',
    ret = mem ∧
    if mem then inv (default dict_ptr_cmp key_cmp) w' Leaf ∧
                Node.del_func <$> tree w' = Some del_func ∧
                del_log w' = del_log w
    else w' = w).
Proof.
  intros Hn. unfold pr_tree_new. destruct mem; [|by apply wp_ret].
  eapply wp_bind_run; [done|]. apply wp_ret. split_and!; try done.
  eapply inv_intro; try done; [|constructor].
  split; cbn; [done..|constructor|by rewrite Hn].
Qed.

End Inv.

(** ** Instances on concrete worlds *)

Ltac decide_inv_by tac :=
  split; [tac|unfold bst; vm_compute; repeat constructor
         |by vm_compute|by vm_compute|done|done].
Ltac decide_inv wf_lemma := decide_inv_by ltac:(exact wf_lemma).

Lemma full3_inv : inv Z_cmp full3 full3_s.
Proof. decide_inv full3_wf. Defined.

Lemma right2_inv : inv Z_cmp right2 right2_s.
Proof. decide_inv right2_wf. Defined.

Lemma empty0_inv : inv Z_cmp empty0 Leaf.
Proof. decide_inv empty0_wf. Defined.

Lemma pr_tree_new_inv_witness :
  wp (pr_tree_new true None true) (mk_world (K:=positive) (V:=Z) ∅ None [])
    (λ ret w', ret = true ∧ inv dict_ptr_cmp w' Leaf ∧
               Node.del_func <$> tree w' = Some true ∧ del_log w' = []).
Proof. by apply (pr_tree_new_inv true None true). Defined.
