(* ===== verification/ShapeOps.v ===== *)
(** * The operations on shapes

    The pure functions that say what the rotations and the rebalancing do to
    the tree: [rot_left_s], [rot_right_s], [fixup_s].  They follow the C
    branch by branch (same tests on the same stored weights, same recomputed
    weights with the same wrap-around), so that the refinement theorems of
    [RotateProofs] are equalities of shapes.  The lemmas of this file are the
    properties of the algorithm itself: rotations keep the symmetric order of
    addresses, keys and data; they keep the weights exact; every rotation
    that [fixup_s] makes lowers the internal path length, which bounds the
    fuel it needs. *)

From Stdlib Require Import ZArith Lia.
From stdpp Require Import base tactics option list gmap sorting.
From S2P Require Import Prelude Contract Node Shape.

#[local] Open Scope Z_scope.

Section ShapeOps.
Context {K V : Type}.
Implicit Types (t l r A C E : shape K V) (g : shape K V → shape K V).

(** ** Definitions *)

(** Apply a function to the left (right) child of the root. *)
Definition on_left g t : shape K V :=
  match t with
  | Leaf => Leaf
  | Bin a l k v w r => Bin a (g l) k v w r
  end.
Definition on_right g t : shape K V :=
  match t with
  | Leaf => Leaf
  | Bin a l k v w r => Bin a l k v w (g r)
  end.

(** [rot_left]: the right child replaces the root; both get their weights
    recomputed, the lower node first. *)
Definition rot_left_s t : shape K V :=
  match t with
  | Bin b A kb vb wb (Bin d C kd vd wd E) =>
      let wb' := ulong (tweight A + tweight C) in
      Bin d (Bin b A kb vb wb' C) kd vd (ulong (wb' + tweight E)) E
  | _ => t
  end.

Definition rot_right_s t : shape K V :=
  match t with
  | Bin d (Bin b A kb vb wb C) kd vd wd E =>
      let wd' := ulong (tweight C + tweight E) in
      Bin b A kb vb (ulong (tweight A + wd')) (Bin d C kd vd wd' E)
  | _ => t
  end.

(** The double rotations of [fixup]: [rot_right(temp); rot_left(node)] with
    [temp] the right child, and its mirror image. *)
Definition rot_rl_s t : shape K V := rot_left_s (on_right rot_right_s t).
Definition rot_lr_s t : shape K V := rot_right_s (on_left rot_left_s t).

(** [fixup]: after a single rotation the node examined is the left (right)
    child of the new root; after a double rotation the far grandchild on the
    side of the heavy subtree is rebalanced too. *)
Fixpoint fixup_s (fuel : nat) t : shape K V :=
  match fuel with
  | O => t
  | S fuel =>
      match t with
      | Leaf => Leaf
      | Bin b l kb vb wb r =>
          let wl := tweight l in
          let wr := tweight r in
          if wr >? wl then
            match r with
            | Leaf => t
            | Bin d rl kd vd wd rr =>
                if tweight rr >? wl then
                  on_left (fixup_s fuel) (rot_left_s t)
                else if tweight rl >? wl then
                  on_left (fixup_s fuel)
                    (on_right (on_right (fixup_s fuel)) (rot_rl_s t))
                else t
            end
          else if wl >? wr then
            match l with
            | Leaf => t
            | Bin d ll kd vd wd lr =>
                if tweight ll >? wr then
                  on_right (fixup_s fuel) (rot_right_s t)
                else if tweight lr >? wr then
                  on_right (fixup_s fuel)
                    (on_left (on_left (fixup_s fuel)) (rot_lr_s t))
                else t
            end
          else t
      end
  end.

(** [g] keeps the property [P] and the number of nodes, on shapes that fit. *)
Definition keeps_s (P : shape K V → Prop) g : Prop :=
  ∀ t, fits t → P t → P (g t) ∧ nnodes (g t) = nnodes t.

(** [g] does not make the paths of [t] longer, when the weights of [t] are
    exact. *)
Definition lowers g t : Prop :=
  fits t → weights_ok t → (ipl (g t) ≤ ipl t)%nat.

(** [g] leaves [t] as it is or makes its paths shorter. *)
Definition shortens g t : Prop :=
  fits t → weights_ok t → g t = t ∨ (ipl (g t) < ipl t)%nat.

(** The function that [fixup] computes when it is given the fuel it needs. *)
Definition rebalance t : shape K V := fixup_s (S (ipl t)) t.

(** ** What every function built from rotations keeps *)

Section Preserves.
Context {A : Type} (μ : shape K V → A).
Context (HcL : ∀ a l l' k v w r, μ l = μ l' → μ (Bin a l k v w r) = μ (Bin a l' k v w r)).
Context (HcR : ∀ a l k v w r r', μ r = μ r' → μ (Bin a l k v w r) = μ (Bin a l k v w r')).

Lemma preserves_on_left g : (∀ t, μ (g t) = μ t) → ∀ t, μ (on_left g t) = μ t.
Proof. intros Hg [|]; simpl; [done|]. by apply HcL. Qed.

Lemma preserves_on_right g : (∀ t, μ (g t) = μ t) → ∀ t, μ (on_right g t) = μ t.
Proof. intros Hg [|]; simpl; [done|]. by apply HcR. Qed.

Lemma preserves_fixup_s :
  (∀ t, μ (rot_left_s t) = μ t) → (∀ t, μ (rot_right_s t) = μ t) →
  ∀ fuel t, μ (fixup_s fuel t) = μ t.
Proof.
  intros HL HR. induction fuel as [|fuel IH]; intros t; [done|].
  destruct t as [|b l kb vb wb r]; [done|]. cbn [fixup_s]. unfold rot_rl_s, rot_lr_s.
  repeat case_match; try done;
    repeat first
      [ rewrite preserves_on_left by auto using preserves_on_left, preserves_on_right
      | rewrite preserves_on_right by auto using preserves_on_left, preserves_on_right
      | rewrite HL | rewrite HR ]; done.
Qed.

End Preserves.

(** ** Rotations keep the order, the nodes and the weights *)

Lemma addrs_rot_left_s t : addrs (rot_left_s t) = addrs t.
Proof.
  destruct t as [|b A kb vb wb [|d C kd vd wd E]]; simpl; try done.
  by rewrite <- app_assoc.
Qed.

Lemma addrs_rot_right_s t : addrs (rot_right_s t) = addrs t.
Proof.
  destruct t as [|d [|b A kb vb wb C] kd vd wd E]; simpl; try done.
  by rewrite <- app_assoc.
Qed.

Lemma inorder_rot_left_s t : inorder (rot_left_s t) = inorder t.
Proof.
  destruct t as [|b A kb vb wb [|d C kd vd wd E]]; simpl; try done.
  by rewrite <- app_assoc.
Qed.

Lemma inorder_rot_right_s t : inorder (rot_right_s t) = inorder t.
Proof.
  destruct t as [|d [|b A kb vb wb C] kd vd wd E]; simpl; try done.
  by rewrite <- app_assoc.
Qed.

Lemma nnodes_rot_left_s t : nnodes (rot_left_s t) = nnodes t.
Proof. by rewrite <- !length_addrs, addrs_rot_left_s. Qed.

Lemma nnodes_rot_right_s t : nnodes (rot_right_s t) = nnodes t.
Proof. by rewrite <- !length_addrs, addrs_rot_right_s. Qed.

Lemma weights_ok_rot_left_s t :
  fits t → weights_ok t → weights_ok (rot_left_s t).
Proof.
  unfold fits.
  destruct t as [|b A kb vb wb [|d C kd vd wd E]]; try done.
  cbn [weights_ok rot_left_s nnodes tweight].
  intros Hfit (-> & HA & -> & HC & HE).
  rewrite (weights_ok_tweight A), (weights_ok_tweight C), (weights_ok_tweight E) by done.
  unwrap. done.
Qed.

Lemma weights_ok_rot_right_s t :
  fits t → weights_ok t → weights_ok (rot_right_s t).
Proof.
  unfold fits.
  destruct t as [|d [|b A kb vb wb C] kd vd wd E]; try done.
  cbn [weights_ok rot_right_s nnodes tweight].
  intros Hfit (-> & (-> & HA & HC) & HE).
  rewrite (weights_ok_tweight A), (weights_ok_tweight C), (weights_ok_tweight E) by done.
  unwrap. done.
Qed.

(** A rotation changes the internal path length by the difference of the
    sizes of the two subtrees that change depth. *)
Lemma ipl_rot_left_s b A kb vb wb d C kd vd wd E :
  (ipl (rot_left_s (Bin b A kb vb wb (Bin d C kd vd wd E))) + nnodes E =
   ipl (Bin b A kb vb wb (Bin d C kd vd wd E)) + nnodes A)%nat.
Proof. simpl. lia. Qed.

Lemma ipl_rot_right_s b A kb vb wb d C kd vd wd E :
  (ipl (rot_right_s (Bin d (Bin b A kb vb wb C) kd vd wd E)) + nnodes A =
   ipl (Bin d (Bin b A kb vb wb C) kd vd wd E) + nnodes E)%nat.
Proof. simpl. lia. Qed.

(** ** [fixup_s] keeps the order and the nodes *)

Lemma addrs_fixup_s fuel t : addrs (fixup_s fuel t) = addrs t.
Proof.
  apply preserves_fixup_s; auto using addrs_rot_left_s, addrs_rot_right_s;
    intros; simpl; congruence.
Qed.

Lemma inorder_fixup_s fuel t : inorder (fixup_s fuel t) = inorder t.
Proof.
  apply preserves_fixup_s; auto using inorder_rot_left_s, inorder_rot_right_s;
    intros; simpl; congruence.
Qed.

Lemma nnodes_fixup_s fuel t : nnodes (fixup_s fuel t) = nnodes t.
Proof. by rewrite <- !length_addrs, addrs_fixup_s. Qed.

Lemma keys_fixup_s fuel t : keys (fixup_s fuel t) = keys t.
Proof. unfold keys. by rewrite inorder_fixup_s. Qed.

(** Rebalancing keeps a search tree a search tree. *)
Lemma bst_fixup_s cmp fuel t : bst cmp t → bst cmp (fixup_s fuel t).
Proof. unfold bst. by rewrite keys_fixup_s. Qed.

Lemma fixup_s_Leaf fuel : fixup_s fuel (@Leaf K V) = Leaf.
Proof. by destruct fuel. Qed.

Lemma fixup_s_not_Leaf fuel t : t ≠ Leaf → fixup_s fuel t ≠ Leaf.
Proof.
  intros Ht Heq. apply (f_equal nnodes) in Heq.
  rewrite nnodes_fixup_s in Heq. by destruct t.
Qed.

(** ** Invariants that [fixup_s] keeps *)

Lemma fits_l a l k v w r : fits (Bin a l k v w r) → fits l.
Proof. unfold fits. cbn [nnodes]. lia. Qed.

Lemma fits_r a l k v w r : fits (Bin a l k v w r) → fits r.
Proof. unfold fits. cbn [nnodes]. lia. Qed.

Section Keeps.
Context (P : shape K V → Prop).
Context (Hsub : ∀ a l k v w r, P (Bin a l k v w r) → P l ∧ P r).
Context (HrepL : ∀ a l l' k v w r,
  P (Bin a l k v w r) → P l' → nnodes l' = nnodes l → P (Bin a l' k v w r)).
Context (HrepR : ∀ a l k v w r r',
  P (Bin a l k v w r) → P r' → nnodes r' = nnodes r → P (Bin a l k v w r')).

Lemma keeps_s_on_left g : keeps_s P g → keeps_s P (on_left g).
Proof.
  intros Hg [|a l k v w r] Hfit HP; [done|]. cbn [on_left nnodes].
  destruct (Hg l (fits_l _ _ _ _ _ _ Hfit) (proj1 (Hsub _ _ _ _ _ _ HP))) as [? Hn].
  split; [by eapply HrepL | by rewrite Hn].
Qed.

Lemma keeps_s_on_right g : keeps_s P g → keeps_s P (on_right g).
Proof.
  intros Hg [|a l k v w r] Hfit HP; [done|]. cbn [on_right nnodes].
  destruct (Hg r (fits_r _ _ _ _ _ _ Hfit) (proj2 (Hsub _ _ _ _ _ _ HP))) as [? Hn].
  split; [by eapply HrepR | by rewrite Hn].
Qed.

Lemma keeps_s_compose g1 g2 : keeps_s P g1 → keeps_s P g2 → keeps_s P (g2 ∘ g1).
Proof.
  intros H1 H2 t Hfit HP. destruct (H1 t Hfit HP) as [HP1 Hn1].
  destruct (H2 (g1 t)) as [HP2 Hn2]; [by unfold fits; rewrite Hn1|done|].
  split; [done | by rewrite <- Hn1].
Qed.

Lemma keeps_s_id : keeps_s P id.
Proof. by intros t _ HP. Qed.

Lemma keeps_s_fixup :
  keeps_s P rot_left_s → keeps_s P rot_right_s → ∀ fuel, keeps_s P (fixup_s fuel).
Proof.
  intros HL HR. induction fuel as [|fuel IH]; [apply keeps_s_id|].
  intros [|b l kb vb wb r]; [done|]. cbn [fixup_s].
  repeat case_match; try apply keeps_s_id.
  - apply (keeps_s_compose rot_left_s (on_left (fixup_s fuel)));
      auto using keeps_s_on_left.
  - apply (keeps_s_compose (rot_left_s ∘ on_right rot_right_s)
             (on_left (fixup_s fuel) ∘ on_right (on_right (fixup_s fuel))));
      auto using keeps_s_compose, keeps_s_on_left, keeps_s_on_right.
  - apply (keeps_s_compose rot_right_s (on_right (fixup_s fuel)));
      auto using keeps_s_on_right.
  - apply (keeps_s_compose (rot_right_s ∘ on_left rot_left_s)
             (on_right (fixup_s fuel) ∘ on_left (on_left (fixup_s fuel))));
      auto using keeps_s_compose, keeps_s_on_left, keeps_s_on_right.
Qed.

End Keeps.

(** *** Exact weights *)

Lemma weights_ok_sub a l k v w r :
  weights_ok (Bin a l k v w r) → weights_ok l ∧ weights_ok r.
Proof. by intros (_ & ? & ?). Qed.

Lemma weights_ok_set_l a l l' k v w r :
  weights_ok (Bin a l k v w r) → weights_ok l' → nnodes l' = nnodes l →
  weights_ok (Bin a l' k v w r).
Proof. intros ? ? Hn. weigh. split_and!; [lia|done..]. Qed.

Lemma weights_ok_set_r a l k v w r r' :
  weights_ok (Bin a l k v w r) → weights_ok r' → nnodes r' = nnodes r →
  weights_ok (Bin a l k v w r').
Proof. intros ? ? Hn. weigh. split_and!; [lia|done..]. Qed.

Definition keeps_w_on_left :=
  keeps_s_on_left weights_ok weights_ok_sub weights_ok_set_l.
Definition keeps_w_on_right :=
  keeps_s_on_right weights_ok weights_ok_sub weights_ok_set_r.

Lemma keeps_w_rot_left : keeps_s weights_ok (rot_left_s).
Proof.
  intros t ??. split; [by apply weights_ok_rot_left_s | apply nnodes_rot_left_s].
Qed.

Lemma keeps_w_rot_right : keeps_s weights_ok (rot_right_s).
Proof.
  intros t ??. split; [by apply weights_ok_rot_right_s | apply nnodes_rot_right_s].
Qed.

Lemma keeps_w_rot_rl : keeps_s weights_ok (rot_rl_s).
Proof.
  apply (keeps_s_compose _ (on_right rot_right_s) rot_left_s);
    auto using keeps_w_on_right, keeps_w_rot_left, keeps_w_rot_right.
Qed.

Lemma keeps_w_rot_lr : keeps_s weights_ok (rot_lr_s).
Proof.
  apply (keeps_s_compose _ (on_left rot_left_s) rot_right_s);
    auto using keeps_w_on_left, keeps_w_rot_left, keeps_w_rot_right.
Qed.

Lemma keeps_w_fixup fuel : keeps_s weights_ok (fixup_s fuel).
Proof.
  apply (keeps_s_fixup weights_ok weights_ok_sub weights_ok_set_l weights_ok_set_r
           keeps_w_rot_left keeps_w_rot_right).
Qed.

(** Rebalancing keeps the weights exact. *)
Lemma weights_ok_fixup_s fuel t :
  fits t → weights_ok t → weights_ok (fixup_s fuel t).
Proof. intros Hfit Hok. by apply keeps_w_fixup. Qed.

Lemma tweight_fixup_s fuel t :
  fits t → weights_ok t → tweight (fixup_s fuel t) = tweight t.
Proof.
  intros Hfit Hok.
  rewrite !weights_ok_tweight, nnodes_fixup_s by auto using weights_ok_fixup_s.
  done.
Qed.

(** *** Path lengths *)

Lemma lowers_id t : lowers id t.
Proof. by intros ??. Qed.

Lemma lowers_compose g1 g2 t :
  keeps_s weights_ok g1 → lowers g1 t → lowers g2 (g1 t) → lowers (g2 ∘ g1) t.
Proof.
  intros Hk H1 H2 Hfit Hok. destruct (Hk t Hfit Hok) as [Hok1 Hn1].
  specialize (H1 Hfit Hok). cbn.
  assert (fits (g1 t)) as Hfit1 by (unfold fits; by rewrite Hn1).
  specialize (H2 Hfit1 Hok1). lia.
Qed.

Lemma lowers_on_left g :
  keeps_s weights_ok g → (∀ t, lowers g t) → ∀ t, lowers (on_left g) t.
Proof.
  intros Hk Hg [|a l k v w r] Hfit Hok; [done|]. destruct Hok as (_ & Hokl & _).
  apply fits_l in Hfit. destruct (Hk l Hfit Hokl) as [_ Hn].
  specialize (Hg l Hfit Hokl). cbn [on_left ipl]. lia.
Qed.

Lemma lowers_on_right g :
  keeps_s weights_ok g → (∀ t, lowers g t) → ∀ t, lowers (on_right g) t.
Proof.
  intros Hk Hg [|a l k v w r] Hfit Hok; [done|]. destruct Hok as (_ & _ & Hokr).
  apply fits_r in Hfit. destruct (Hk r Hfit Hokr) as [_ Hn].
  specialize (Hg r Hfit Hokr). cbn [on_right ipl]. lia.
Qed.

(** The rotations that [fixup] makes shorten the paths: a single rotation
    when the far grandchild is heavier than the sibling, a double rotation
    when the near grandchild is. *)
Lemma ipl_rot_left_lt b A kb vb wb d C kd vd wd E :
  let t := Bin b A kb vb wb (Bin d C kd vd wd E) in
  weights_ok t → tweight A < tweight E → (ipl (rot_left_s t) < ipl t)%nat.
Proof. intros t Hok Hlt. subst t. cbn [rot_left_s]. weigh. lia. Qed.

Lemma ipl_rot_right_lt b A kb vb wb d C kd vd wd E :
  let t := Bin d (Bin b A kb vb wb C) kd vd wd E in
  weights_ok t → tweight E < tweight A → (ipl (rot_right_s t) < ipl t)%nat.
Proof. intros t Hok Hlt. subst t. cbn [rot_right_s]. weigh. lia. Qed.

Lemma ipl_rot_rl_lt b A kb vb wb d C kd vd wd E :
  let t := Bin b A kb vb wb (Bin d C kd vd wd E) in
  weights_ok t → tweight A < tweight C → (ipl (rot_rl_s t) < ipl t)%nat.
Proof.
  intros t Hok Hlt. subst t. destruct C as [|c0 C1 kc vc wc C2]; [weigh; lia|].
  cbn [rot_rl_s rot_left_s rot_right_s on_right]. weigh. lia.
Qed.

Lemma ipl_rot_lr_lt b A kb vb wb d C kd vd wd E :
  let t := Bin d (Bin b A kb vb wb C) kd vd wd E in
  weights_ok t → tweight E < tweight C → (ipl (rot_lr_s t) < ipl t)%nat.
Proof.
  intros t Hok Hlt. subst t. destruct C as [|c0 C1 kc vc wc C2]; [weigh; lia|].
  cbn [rot_lr_s rot_left_s rot_right_s on_left]. weigh. lia.
Qed.

(** [fixup_s] is made of steps of one kind: a rotation [rot] that shortens
    the paths of this tree, then [fixup_s] below the new root. *)
Lemma shortens_lowers g t : shortens g t → lowers g t.
Proof. intros Hg Hfit Hok. destruct (Hg Hfit Hok) as [->|]; lia. Qed.

Lemma shortens_step rot g t :
  keeps_s weights_ok rot → (weights_ok t → (ipl (rot t) < ipl t)%nat) →
  (∀ t', lowers g t') → shortens (g ∘ rot) t.
Proof.
  intros Hk Hlt Hg Hfit Hok. right. destruct (Hk t Hfit Hok) as [Hok1 Hn1].
  assert (fits (rot t)) as Hfit1 by (unfold fits; by rewrite Hn1).
  specialize (Hg (rot t) Hfit1 Hok1). specialize (Hlt Hok). cbn. lia.
Qed.

(** [fixup_s] changes a tree only by shortening its paths. *)
Lemma shortens_fixup_s fuel t : shortens (fixup_s fuel) t.
Proof.
  revert t. induction fuel as [|fuel IH]; intros t; [by left|].
  destruct t as [|b l kb vb wb r]; [by left|].
  pose proof (keeps_w_fixup fuel) as HkF.
  pose proof (λ t', shortens_lowers _ _ (IH t')) as IH'.
  intros Hfit Hok. cbn [fixup_s].
  repeat case_match; try (by left); subst.
  - refine (shortens_step rot_left_s (on_left (fixup_s fuel)) _ _ _ _ Hfit Hok);
      auto using keeps_w_rot_left, lowers_on_left.
    intros ?. apply ipl_rot_left_lt; [done|lia].
  - refine (shortens_step rot_rl_s
              (on_left (fixup_s fuel) ∘ on_right (on_right (fixup_s fuel)))
              _ _ _ _ Hfit Hok);
      auto 6 using keeps_w_rot_rl, lowers_compose, lowers_on_left,
        lowers_on_right, keeps_w_on_right.
    intros ?. apply ipl_rot_rl_lt; [done|lia].
  - refine (shortens_step rot_right_s (on_right (fixup_s fuel)) _ _ _ _ Hfit Hok);
      auto using keeps_w_rot_right, lowers_on_right.
    intros ?. apply ipl_rot_right_lt; [done|lia].
  - refine (shortens_step rot_lr_s
              (on_right (fixup_s fuel) ∘ on_left (on_left (fixup_s fuel)))
              _ _ _ _ Hfit Hok);
      auto 6 using keeps_w_rot_lr, lowers_compose, lowers_on_left,
        lowers_on_right, keeps_w_on_left.
    intros ?. apply ipl_rot_lr_lt; [done|lia].
Qed.

Lemma lowers_fixup_s fuel t : lowers (fixup_s fuel) t.
Proof. apply shortens_lowers, shortens_fixup_s. Qed.

End ShapeOps.
