(* ===== verification/Fuel.v ===== *)
(** * The fuel that [fixup] needs

    [fixup] of pr_tree.c loops ([goto again]) and calls itself; the model
    gives it fuel.  On a tree with exact weights every rotation it makes
    shortens the internal path length [ipl], so fuel above [ipl t] is enough
    ([fixable]), the result does not depend on the fuel ([fixup_s_fuel]) and
    is the function [rebalance].  [ipl t] is at most the square of the number
    of nodes, which is what [fixup_fuel] gives. *)

From Stdlib Require Import ZArith Lia.
From stdpp Require Import base tactics option list gmap.
From S2P Require Import Prelude Contract Node Shape Examples ShapeOps.

#[local] Open Scope Z_scope.

Section Fuel.
Context {K V : Type}.
Implicit Types (t l r A C E : shape K V).

(** ** Definitions *)

(** The trees on which [fixup] with this fuel returns: the weights fit the
    word and are exact, and the fuel is above the path length. *)
Definition fixable (fuel : nat) t : Prop :=
  fits t ∧ weights_ok t ∧ (ipl t < fuel)%nat.

(** The node at [a] with key [k] and datum [v] is somewhere in [t], over a
    subtree with exact weights, and no rotation of [fixup] applies at it. *)
Definition settled (a : addr) (k : K) (v : V) t : Prop :=
  ∃ c l w r, t = plug c (Bin a l k v w r) ∧
    weights_ok (Bin a l k v w r) ∧ balanced_at l r = true.

(** ** Lemmas *)

Lemma fixable_l fuel a l k v wt r : fixable fuel (Bin a l k v wt r) → fixable fuel l.
Proof. intros (? & ? & ?). unfold fixable. weigh. split_and!; [lia|done|lia]. Qed.

Lemma fixable_r fuel a l k v wt r : fixable fuel (Bin a l k v wt r) → fixable fuel r.
Proof. intros (? & ? & ?). unfold fixable. weigh. split_and!; [lia|done|lia]. Qed.

(** A tree stays fixable, with one unit of fuel less, under a rotation that
    shortens its paths. *)
Lemma fixable_step fuel rot t :
  keeps_s weights_ok rot → (ipl (rot t) < ipl t)%nat →
  fixable (S fuel) t → fixable fuel (rot t).
Proof.
  intros Hk Hlt (Hfit & Hok & Hfuel). destruct (Hk t Hfit Hok) as [Hok' Hn].
  unfold fixable, fits in *. rewrite Hn. split_and!; [done..|lia].
Qed.

(** The four rotations of [fixup], under the tests that select them. *)
Lemma fixable_rot_left fuel b A kb vb wb d C kd vd wd E :
  let t := Bin b A kb vb wb (Bin d C kd vd wd E) in
  fixable (S fuel) t → (tweight E >? tweight A) = true →
  fixable fuel (rot_left_s t).
Proof.
  intros t Hfix Hlt. apply fixable_step; [apply keeps_w_rot_left| |done].
  apply ipl_rot_left_lt; [apply Hfix|lia].
Qed.

Lemma fixable_rot_right fuel b A kb vb wb d C kd vd wd E :
  let t := Bin d (Bin b A kb vb wb C) kd vd wd E in
  fixable (S fuel) t → (tweight A >? tweight E) = true →
  fixable fuel (rot_right_s t).
Proof.
  intros t Hfix Hlt. apply fixable_step; [apply keeps_w_rot_right| |done].
  apply ipl_rot_right_lt; [apply Hfix|lia].
Qed.

Lemma fixable_rot_rl fuel b A kb vb wb d C kd vd wd E :
  let t := Bin b A kb vb wb (Bin d C kd vd wd E) in
  fixable (S fuel) t → (tweight C >? tweight A) = true →
  fixable fuel (rot_rl_s t).
Proof.
  intros t Hfix Hlt. apply fixable_step; [apply keeps_w_rot_rl| |done].
  apply ipl_rot_rl_lt; [apply Hfix|lia].
Qed.

Lemma fixable_rot_lr fuel b A kb vb wb d C kd vd wd E :
  let t := Bin d (Bin b A kb vb wb C) kd vd wd E in
  fixable (S fuel) t → (tweight C >? tweight E) = true →
  fixable fuel (rot_lr_s t).
Proof.
  intros t Hfix Hlt. apply fixable_step; [apply keeps_w_rot_lr| |done].
  apply ipl_rot_lr_lt; [apply Hfix|lia].
Qed.

(** A subtree heavier than a tree with exact weights is not empty. *)
Lemma heavier_not_Leaf l t :
  weights_ok l → (tweight t >? tweight l) = true → t ≠ Leaf.
Proof. intros Hl Hgt ->. apply weights_ok_pos in Hl. cbn in Hgt. lia. Qed.

(** The path length is below the square of the number of nodes. *)
Lemma ipl_le_sq t : (ipl t ≤ nnodes t * nnodes t)%nat.
Proof. induction t as [|a l IHl k v w r IHr]; cbn [ipl nnodes]; nia. Qed.

Lemma fixable_sq fuel t :
  fits t → weights_ok t → (nnodes t * nnodes t < fuel)%nat → fixable fuel t.
Proof.
  intros ?? Hlt. split_and!; [done..|]. pose proof (ipl_le_sq t). lia.
Qed.

(** ** The result of [fixup_s] does not depend on the fuel *)

Lemma fixup_s_fuel fuel fuel' t :
  fixable fuel t → fixable fuel' t → fixup_s fuel t = fixup_s fuel' t.
Proof.
  revert fuel' t. induction fuel as [|fuel IH]; intros fuel' t Hf Hf';
    [destruct Hf as (_&_&?); lia|].
  destruct fuel' as [|fuel']; [destruct Hf' as (_&_&?); lia|].
  destruct t as [|b l kb vb wb r]; [done|]. cbn [fixup_s].
  pose proof Hf as (_ & Hok & _).
  repeat case_match; try done; subst.
  - apply fixable_rot_left in Hf, Hf'; try done. cbn [rot_left_s on_left] in *.
    f_equal. apply IH; by eapply fixable_l.
  - destruct s1 as [|c0 C1 kc vc wc C2]; [weigh; lia|].
    apply fixable_rot_rl in Hf, Hf'; try done.
    cbn [rot_rl_s rot_left_s rot_right_s on_left on_right] in *.
    f_equal; [|f_equal]; apply IH; eauto using fixable_l, fixable_r.
  - apply fixable_rot_right in Hf, Hf'; try done. cbn [rot_right_s on_right] in *.
    f_equal. apply IH; by eapply fixable_r.
  - destruct s2 as [|c0 C1 kc vc wc C2]; [weigh; lia|].
    apply fixable_rot_lr in Hf, Hf'; try done.
    cbn [rot_lr_s rot_left_s rot_right_s on_left on_right] in *.
    f_equal; [f_equal|]; apply IH; eauto using fixable_l, fixable_r.
Qed.

Lemma fixup_s_rebalance fuel t : fixable fuel t → fixup_s fuel t = rebalance t.
Proof.
  intros Hf. apply fixup_s_fuel; [done|].
  split_and!; [apply Hf..|lia].
Qed.

(** ** The node that [fixup] was given is settled when it returns *)

Lemma settled_here a l k v w r :
  weights_ok (Bin a l k v w r) → balanced_at l r = true →
  settled a k v (Bin a l k v w r).
Proof. intros. by exists [], l, w, r. Qed.

Lemma settled_fill f a k v t : settled a k v t → settled a k v (fill f t).
Proof.
  intros (c & l & w & r & -> & ? & ?). exists (c ++ [f]), l, w, r.
  by rewrite plug_app.
Qed.

(** The rotations stop at a node only where the path-reduction condition
    holds: every [goto again] of [fixup] examines the same node, which each
    rotation moves one level down. *)
Lemma fixup_s_settles fuel a l k v w r :
  fixable fuel (Bin a l k v w r) →
  settled a k v (fixup_s fuel (Bin a l k v w r)).
Proof.
  revert l w r. induction fuel as [|fuel IH]; intros l w r Hf;
    [destruct Hf as (_&_&?); lia|].
  pose proof Hf as (_ & Hok & _). cbn [fixup_s].
  repeat case_match; subst;
    try (apply settled_here; [done|unfold balanced_at; repeat case_match; lia]).
  - apply fixable_rot_left in Hf; [|done]. cbn [rot_left_s on_left] in *.
    apply (settled_fill (FL _ _ _ _ _)), IH. by eapply fixable_l.
  - destruct s1 as [|c0 C1 kc vc wc C2]; [weigh; lia|].
    apply fixable_rot_rl in Hf; [|done].
    cbn [rot_rl_s rot_left_s rot_right_s on_left on_right] in *.
    apply (settled_fill (FL _ _ _ _ _)), IH. by eapply fixable_l.
  - apply fixable_rot_right in Hf; [|done]. cbn [rot_right_s on_right] in *.
    apply (settled_fill (FR _ _ _ _ _)), IH. by eapply fixable_r.
  - destruct s2 as [|c0 C1 kc vc wc C2]; [weigh; lia|].
    apply fixable_rot_lr in Hf; [|done].
    cbn [rot_lr_s rot_left_s rot_right_s on_left on_right] in *.
    apply (settled_fill (FR _ _ _ _ _)), IH. by eapply fixable_r.
Qed.

Lemma rebalance_settles a l k v w r :
  let t := Bin a l k v w r in
  fits t → weights_ok t → settled a k v (rebalance t).
Proof. intros t ??. apply fixup_s_settles. split_and!; [done..|subst t; lia]. Qed.

(** Where no rotation applies, [fixup_s] changes nothing. *)
Lemma fixup_s_balanced_at fuel a l k v w r :
  balanced_at l r = true → fixup_s fuel (Bin a l k v w r) = Bin a l k v w r.
Proof.
  intros Hb. destruct fuel as [|fuel]; [done|]. cbn [fixup_s].
  unfold balanced_at in Hb.
  repeat case_match; try done; simplify_eq; apply andb_prop in Hb; lia.
Qed.

(** ** The theorems *)

(** C27: on a tree whose weights are exact and fit the word, rebalancing as
    [fixup] does keeps the weights exact, keeps the nodes and the sequence of
    keys and data in symmetric order, and changes the tree only by making
    its internal path length strictly shorter. *)
Theorem rebalance_keeps t :
  fits t → weights_ok t →
  weights_ok (rebalance t) ∧ addrs (rebalance t) = addrs t ∧
  inorder (rebalance t) = inorder t ∧
  (rebalance t = t ∨ (ipl (rebalance t) < ipl t)%nat).
Proof.
  intros Hfit Hok. unfold rebalance. split_and!.
  - by apply weights_ok_fixup_s.
  - apply addrs_fixup_s.
  - apply inorder_fixup_s.
  - by apply shortens_fixup_s.
Qed.

End Fuel.

(** ** Instances on concrete shapes *)

Lemma rebalance_keeps_witness :
  weights_ok (rebalance zigzag3_s) ∧ addrs (rebalance zigzag3_s) = addrs zigzag3_s ∧
  inorder (rebalance zigzag3_s) = inorder zigzag3_s ∧
  (rebalance zigzag3_s = zigzag3_s ∨ (ipl (rebalance zigzag3_s) < ipl zigzag3_s)%nat).
Proof. apply rebalance_keeps; by vm_compute. Defined.
