(* ===== verification/InsertShape.v ===== *)
(** * Insertion on shapes

    [pr_tree_insert] of pr_tree.c as a function on shapes: the descent
    [path], which ends at the node that compares equal to the key or at the
    empty place where the key belongs, and the walk back up [insert_up], which
    increments the weight of each ancestor and rebalances it.  On a search
    tree with exact weights the result is a search tree with exact weights
    whose symmetric-order sequence is [put_entry] of the sequence before. *)

From Stdlib Require Import ZArith Lia.
From stdpp Require Import base tactics option list gmap sorting.
From S2P Require Import Prelude Contract Assoc Node Shape Zipper Bst ShapeOps Fuel.

#[local] Open Scope Z_scope.

Section InsertShape.
Context {K V : Type} (cmp : dict_compare_func K).
Implicit Types (k : K) (v : V) (t l r : shape K V) (c : list (frame K V)).
Implicit Types (f : frame K V).

(** ** Definitions *)

(** The descent of [pr_tree_insert], [pr_tree_probe] and [pr_tree_remove]:
    the last comparison, the context of the node reached and the subtree
    there, which is a leaf when the key is not in the tree. *)
Fixpoint path k (rv : Z) c t : Z * list (frame K V) * shape K V :=
  match t with
  | Leaf => (rv, c, Leaf)
  | Bin a l nk v w r =>
      let rv := cmp k nk in
      if rv <? 0 then path k rv (FL a nk v w r :: c) l
      else if rv >? 0 then path k rv (FR a l nk v w :: c) r
      else (rv, c, t)
  end.

(** [node->weight++] *)
Definition bump t : shape K V :=
  match t with
  | Leaf => Leaf
  | Bin a l k v w r => Bin a l k v (ulong (w + 1)) r
  end.

(** The walk from the new node up to the root: each ancestor gets its weight
    incremented and is rebalanced. *)
Fixpoint insert_up c t : shape K V :=
  match c with
  | [] => t
  | f :: c' => insert_up c' (rebalance (bump (fill f t)))
  end.

(** [pr_tree_insert] on shapes; [a] is the address of the new node. *)
Definition insert_s k v (overwrite : bool) (a : addr) t : shape K V :=
  match path k 0 [] t with
  | (_, c, Leaf) => insert_up c (Bin a Leaf k v 2 Leaf)
  | (_, c, Bin a' l _ _ w r) =>
      if overwrite then plug c (Bin a' l k v w r) else t
  end.

(** The comparison that led into a frame has the sign of its side. *)
Definition rv_side (rv : Z) c : Prop :=
  match c with
  | [] => True
  | FL _ _ _ _ _ :: _ => rv < 0
  | FR _ _ _ _ _ :: _ => 0 < rv
  end.

(** ** Lemmas *)

Lemma path_plug k rv c t rv' c' t' :
  path k rv c t = (rv', c', t') → plug c' t' = plug c t.
Proof.
  revert rv c. induction t as [|a l IHl nk v w r IHr]; intros rv c; cbn [path].
  - by intros [= <- <- <-].
  - repeat case_match.
    + intros Hp%IHl. by rewrite Hp.
    + intros Hp%IHr. by rewrite Hp.
    + by intros [= <- <- <-].
Qed.

Lemma path_rv_side k rv c t rv' c' :
  path k rv c t = (rv', c', Leaf) → rv_side rv c → rv_side rv' c'.
Proof.
  revert rv c. induction t as [|a l IHl nk v w r IHr]; intros rv c; cbn [path].
  - by intros [= <- <-].
  - repeat case_bool; [| |done].
    + intros Hp%IHl _; [done|]. cbn. lia.
    + intros Hp%IHr _; [done|]. cbn. lia.
Qed.

(** The node found compares equal to the key. *)
Lemma path_found k rv c t rv' c' a l nk v w r :
  path k rv c t = (rv', c', Bin a l nk v w r) → cmp k nk = 0.
Proof.
  revert rv c. induction t as [|a0 l0 IHl nk0 v0 w0 r0 IHr]; intros rv c; cbn [path].
  - done.
  - repeat case_bool; [by intros Hp%IHl|by intros Hp%IHr|].
    intros [= _ _ _ _ <- _ _ _]. lia.
Qed.

Context `{!Comparator cmp}.

(** The keys before the hole are below [k], the keys after it above. *)
Definition ctx_bounds k c : Prop :=
  Forall (λ x, klt cmp x k) (ctx_before c).*1 ∧ Forall (klt cmp k) (ctx_after c).*1.

Lemma path_bounds k rv c t rv' c' t' :
  path k rv c t = (rv', c', t') → bst cmp t → ctx_bounds k c →
  ctx_bounds k c' ∧ bst cmp t'.
Proof.
  revert rv c. induction t as [|a l IHl nk v w r IHr]; intros rv c; cbn [path].
  - by intros [= <- <- <-].
  - intros Hp Hbst [Hb Ha].
    pose proof (proj1 (bst_Bin cmp _ _ _ _ _ _) Hbst) as (Hl & Hr & Hlk & Hkr).
    revert Hp. repeat case_bool.
    + intros Hp. eapply IHl; [done..|]. split; [done|]. cbn [ctx_after].
      rewrite fmap_cons, fmap_app. rewrite Forall_cons, Forall_app. split_and!; try done.
      eapply Forall_impl; [exact Hkr|]. intros x Hx. by trans nk.
    + intros Hp. eapply IHr; [done..|]. split; [|done]. cbn [ctx_before].
      rewrite !fmap_app. rewrite !Forall_app. split_and!; try done.
      * eapply Forall_impl; [exact Hlk|]. intros x Hx. trans nk; [done|].
        by apply (cmp_lt_gt cmp).
      * repeat constructor. by apply (cmp_lt_gt cmp).
    + intros [= <- <- <-]. split; [done|]. by apply bst_Bin.
Qed.

(** The descent ends at the entry of [k] in the symmetric-order sequence. *)
Lemma path_entry k t rv c t' :
  path k 0 [] t = (rv, c, t') → bst cmp t →
  entry cmp k (inorder t) =
  match t' with Leaf => None | Bin _ _ nk v _ _ => Some (nk, v) end.
Proof.
  intros Hp Hbst.
  destruct (path_bounds _ _ _ _ _ _ _ Hp Hbst) as [[Hb Ha] Hbst'];
    [by split; constructor|].
  pose proof (path_plug _ _ _ _ _ _ _ Hp) as Hplug. cbn [plug] in Hplug.
  rewrite <- Hplug, inorder_plug, entry_middle by done.
  destruct t' as [|a l nk v w r]; [done|].
  pose proof (path_found _ _ _ _ _ _ _ _ _ _ _ _ Hp) as Heq.
  pose proof (proj1 (bst_Bin cmp _ _ _ _ _ _) Hbst') as (_ & _ & Hlk & _).
  cbn [inorder]. rewrite entry_app. cbn [entry]. rewrite Heq. cbn.
  replace (entry cmp k (inorder l)) with (@None (K * V)); [done|].
  symmetry. apply entry_None, (assoc_above cmp).
  eapply Forall_impl; [exact Hlk|]. intros x Hx.
  eapply (cmp_lt_eq cmp); [exact Hx|]. by apply (cmp_eq_sym cmp).
Qed.

(** A new key: the descent ends at an empty place, on the side of the last
    comparison. *)
Lemma path_new k t :
  bst cmp t → entry cmp k (inorder t) = None →
  ∃ rv c, path k 0 [] t = (rv, c, Leaf) ∧ plug c Leaf = t ∧ rv_side rv c.
Proof.
  intros Hbst He. destruct (path k 0 [] t) as [[rv c] t'] eqn:Hp.
  rewrite (path_entry _ _ _ _ _ Hp Hbst) in He. destruct t'; [|done].
  exists rv, c. split_and!; [done| |].
  - apply (path_plug _ _ _ _ _ _ _ Hp).
  - by apply (path_rv_side _ _ _ _ _ _ Hp).
Qed.

(** A key of the tree: the descent ends at its node. *)
Lemma path_old k t k0 v0 :
  bst cmp t → entry cmp k (inorder t) = Some (k0, v0) →
  ∃ rv c a l wt r, path k 0 [] t = (rv, c, Bin a l k0 v0 wt r) ∧
                   plug c (Bin a l k0 v0 wt r) = t.
Proof.
  intros Hbst He. destruct (path k 0 [] t) as [[rv c] t'] eqn:Hp.
  rewrite (path_entry _ _ _ _ _ Hp Hbst) in He.
  destruct t' as [|a l nk v wt r]; [done|]. injection He as -> ->.
  exists rv, c, a, l, wt, r. split; [done|]. apply (path_plug _ _ _ _ _ _ _ Hp).
Qed.

(** *** The walk up *)

Lemma addrs_bump t : addrs (bump t) = addrs t.
Proof. by destruct t. Qed.

Lemma inorder_bump t : inorder (bump t) = inorder t.
Proof. by destruct t. Qed.

Lemma inorder_insert_up c t : inorder (insert_up c t) = inorder (plug c t).
Proof.
  revert t. induction c as [|f c IH]; intros t; cbn [insert_up plug]; [done|].
  rewrite IH. apply inorder_plug_ext. unfold rebalance.
  by rewrite inorder_fixup_s, inorder_bump.
Qed.

Lemma addrs_insert_up c t : addrs (insert_up c t) = addrs (plug c t).
Proof.
  revert t. induction c as [|f c IH]; intros t; cbn [insert_up plug]; [done|].
  rewrite IH. apply addrs_plug_ext. unfold rebalance.
  by rewrite addrs_fixup_s, addrs_bump.
Qed.

(** The increment makes the weight of an ancestor exact again. *)
Lemma weights_ok_bump f t :
  fits (fill f t) → weights_ok t →
  frame_weight f = tweight t - 1 + tweight (frame_sibling f) →
  weights_ok (frame_sibling f) →
  weights_ok (bump (fill f t)) ∧ tweight (bump (fill f t)) = frame_weight f + 1.
Proof.
  intros Hfit Hok Hw Hs. pose proof (weights_ok_tweight _ Hok).
  pose proof (weights_ok_tweight _ Hs).
  destruct f; unfold fits in Hfit; cbn in *; subst;
    rewrite ulong_small by (unfold ULONG_MAX, ULONG_BITS in *; lia);
    split_and!; try done; lia.
Qed.

Lemma nnodes_bump t : nnodes (bump t) = nnodes t.
Proof. by destruct t. Qed.

(** One turn of the walk up: after the increment the ancestor has its exact
    weight, so it can be rebalanced, and the rest of the context lags by one
    behind the rebalanced subtree. *)
Lemma insert_up_step f c t :
  fits (plug (f :: c) t) → weights_ok t → ctx_weights 1 (f :: c) (tweight t) →
  let t1 := bump (fill f t) in
  weights_ok t1 ∧ fits (plug c t1) ∧
  weights_ok (rebalance t1) ∧ fits (plug c (rebalance t1)) ∧
  ctx_weights 1 c (tweight (rebalance t1)).
Proof.
  intros Hfit Hok Hc t1. cbn [plug ctx_weights] in Hfit, Hc.
  destruct Hc as (Hw & Hs & Hc).
  assert (fits (fill f t)) as Hfit'.
  { pose proof (nnodes_plug_le c (fill f t)). unfold fits in *. lia. }
  destruct (weights_ok_bump f t) as [Hok' Htw]; [done..|]. fold t1 in Hok', Htw.
  assert (nnodes t1 = nnodes (fill f t)) as Hn by apply nnodes_bump.
  assert (fits t1) by (unfold fits in *; by rewrite Hn).
  assert (nnodes (plug c t1) = nnodes (plug c (fill f t))) as Hn1
    by (by apply nnodes_plug).
  assert (nnodes (plug c (rebalance t1)) = nnodes (plug c (fill f t))) as Hn2
    by (by apply nnodes_plug; unfold rebalance; rewrite nnodes_fixup_s).
  unfold fits in *. rewrite Hn1, Hn2. unfold rebalance.
  rewrite tweight_fixup_s, Htw by done.
  split_and!; try done. by apply weights_ok_fixup_s.
Qed.

Lemma weights_ok_insert_up c t :
  fits (plug c t) → weights_ok t → ctx_weights 1 c (tweight t) →
  weights_ok (insert_up c t).
Proof.
  revert t. induction c as [|f c IH]; intros t Hfit Hok Hc; [done|].
  destruct (insert_up_step f c t Hfit Hok Hc) as (_ & _ & ? & ? & ?).
  by apply IH.
Qed.

Lemma nnodes_insert_up c t : nnodes (insert_up c t) = nnodes (plug c t).
Proof. by rewrite <- !length_addrs, addrs_insert_up. Qed.

(** *** Insertion on the symmetric-order sequence *)

Lemma insert_s_inorder k v ow a t :
  bst cmp t → inorder (insert_s k v ow a t) = put_entry cmp k v ow (inorder t).
Proof.
  intros Hbst. unfold insert_s.
  destruct (path k 0 [] t) as [[rv c] t'] eqn:Hp.
  pose proof (path_plug _ _ _ _ _ _ _ Hp) as Hplug. cbn [plug] in Hplug.
  destruct (path_bounds _ _ _ _ _ _ _ Hp Hbst) as [[Hb Ha] Hbst'];
    [by split; constructor|].
  assert (inorder t = ctx_before c ++ inorder t' ++ ctx_after c) as Hin
    by (by rewrite <- Hplug, inorder_plug).
  destruct t' as [|a' l nk v' w r]; rewrite Hin, put_entry_app by done.
  - rewrite inorder_insert_up, inorder_plug. cbn [inorder app].
    by rewrite put_entry_below.
  - pose proof (path_found _ _ _ _ _ _ _ _ _ _ _ _ Hp) as Heq.
    pose proof (proj1 (bst_Bin cmp _ _ _ _ _ _) Hbst') as (_ & _ & Hlk & _).
    assert (Forall (λ x, klt cmp x k) (inorder l).*1) as Hl.
    { eapply Forall_impl; [exact Hlk|]. intros x Hx.
      eapply (cmp_lt_eq cmp); [exact Hx|]. by apply (cmp_eq_sym cmp). }
    cbn [inorder]. rewrite <- !app_assoc, put_entry_app by done.
    cbn [app]. rewrite put_entry_found by done. destruct ow; [|by rewrite Hin; cbn [inorder]; rewrite <- !app_assoc].
    rewrite inorder_plug. cbn [inorder]. by rewrite <- !app_assoc.
Qed.

(** *** The invariants after insertion *)

Lemma bst_insert_s k v ow a t : bst cmp t → bst cmp (insert_s k v ow a t).
Proof.
  intros Hbst. apply bst_sorted. rewrite insert_s_inorder by done.
  by apply put_entry_sorted.
Qed.

Lemma weights_ok_insert_s k v ow a t :
  fits (insert_s k v ow a t) → weights_ok t →
  weights_ok (insert_s k v ow a t).
Proof.
  unfold insert_s. intros Hfit Hok.
  destruct (path k 0 [] t) as [[rv c] t'] eqn:Hp.
  pose proof (path_plug _ _ _ _ _ _ _ Hp) as Hplug. cbn [plug] in Hplug.
  rewrite <- Hplug in Hok. apply weights_ok_plug in Hok as [Hok Hc].
  destruct t' as [|a' l nk v' w r].
  - apply weights_ok_insert_up; [|done|by apply (ctx_weights_shift 1 c 1)].
    unfold fits in *. by rewrite <- nnodes_insert_up.
  - destruct ow; [|by rewrite <- Hplug; apply weights_ok_plug].
    by apply weights_ok_plug.
Qed.

(** One node more when the key is new, and as many as before otherwise. *)
Lemma nnodes_insert_s k v ow a t :
  bst cmp t →
  nnodes (insert_s k v ow a t) =
  if entry cmp k (inorder t) is Some _ then nnodes t else S (nnodes t).
Proof.
  intros Hbst. unfold insert_s.
  destruct (path k 0 [] t) as [[rv c] t'] eqn:Hp.
  rewrite (path_entry _ _ _ _ _ Hp Hbst).
  pose proof (path_plug _ _ _ _ _ _ _ Hp) as Hplug. cbn [plug] in Hplug.
  destruct t' as [|a' l nk v' w r].
  - by rewrite nnodes_insert_up, <- Hplug, !nnodes_plug_add.
  - destruct ow; [|done]. rewrite <- Hplug. by apply nnodes_plug.
Qed.

(** Without [overwrite] a key of the tree leaves the tree as it is. *)
Lemma insert_s_keep k v a t e :
  bst cmp t → entry cmp k (inorder t) = Some e → insert_s k v false a t = t.
Proof.
  intros Hbst He. destruct e as [k0 v0]. unfold insert_s.
  by destruct (path_old k t k0 v0 Hbst He) as (? & ? & ? & ? & ? & ? & -> & _).
Qed.

(** The result fits when the tree did and has room for one more node if the
    key is new. *)
Lemma fits_insert_s k v ow a t :
  bst cmp t → fits t →
  (entry cmp k (inorder t) = None → Z.of_nat (S (nnodes t)) < ULONG_MAX) →
  fits (insert_s k v ow a t).
Proof.
  intros Hbst Hfit Hroom. unfold fits. rewrite nnodes_insert_s by done.
  destruct (entry cmp k (inorder t)); [done|by apply Hroom].
Qed.

End InsertShape.
