(* ===== verification/RemoveShape.v ===== *)
(** * Removal on shapes

    [pr_tree_remove] of pr_tree.c as a function on shapes.  The node that
    holds the key is moved down until it has at most one child: while it has
    two, its heavier child is lifted above it by a rotation, after a rotation
    of that child when the inner grandchild is the heavier one ([lift_left],
    [lift_right]).  Then its child takes its place and the weight of every
    ancestor is decremented ([drop]); nothing is rebalanced.  [remove_root]
    does this for the root of a subtree, [remove_s] for a key.  On a search
    tree with exact weights the result is a search tree with exact weights
    whose symmetric-order sequence is [del_entry] of the sequence before.
    The fuel of [remove_root] is the number of nodes of the subtree: every
    turn puts the node under a strictly smaller subtree. *)

From Stdlib Require Import ZArith Lia.
From stdpp Require Import base tactics option list gmap sorting.
From S2P Require Import Prelude Contract Assoc Node Shape Zipper Bst ShapeOps Fuel InsertShape.

#[local] Open Scope Z_scope.

Section RemoveShape.
Context {K V : Type}.
Implicit Types (k : K) (v : V) (t l r A C E : shape K V) (c : list (frame K V)).
Implicit Types (f : frame K V).

(** ** Definitions *)

(** One turn of the loop at a node with two children, the left one heavier:
    [if (WEIGHT(l->llink) < WEIGHT(l->rlink)) rot_left(l); rot_right(node)],
    and its mirror image. *)
Definition lift_left t : shape K V :=
  match t with
  | Bin _ (Bin _ A _ _ _ C) _ _ _ _ =>
      rot_right_s (if tweight A <? tweight C then on_left rot_left_s t else t)
  | _ => t
  end.
Definition lift_right t : shape K V :=
  match t with
  | Bin _ _ _ _ _ (Bin _ C _ _ _ E) =>
      rot_left_s (if tweight E <? tweight C then on_right rot_right_s t else t)
  | _ => t
  end.

(** [temp->weight--] *)
Definition drop t : shape K V :=
  match t with
  | Leaf => Leaf
  | Bin a l k v w r => Bin a l k v (ulong (w - 1)) r
  end.
Definition drop_frame f : frame K V :=
  match f with
  | FL a k v w r => FL a k v (ulong (w - 1)) r
  | FR a l k v w => FR a l k v (ulong (w - 1))
  end.

(** The loop at the node found, and the decrements on the way up to it. *)
Fixpoint remove_root (fuel : nat) t : shape K V :=
  match fuel with
  | O => t
  | S fuel =>
      match t with
      | Leaf => Leaf
      | Bin _ Leaf _ _ _ r => r
      | Bin _ l _ _ _ Leaf => l
      | Bin _ l _ _ _ r =>
          if tweight l >? tweight r
          then drop (on_right (remove_root fuel) (lift_left t))
          else drop (on_left (remove_root fuel) (lift_right t))
      end
  end.

(** ** Lemmas *)

(** The node is the right child after [lift_left]. *)
Lemma lift_left_Bin a l k v w r :
  let t := Bin a l k v w r in
  fits t → weights_ok t → l ≠ Leaf →
  ∃ b A kb vb wb C wa,
    lift_left t = Bin b A kb vb wb (Bin a C k v wa r) ∧
    weights_ok (lift_left t) ∧
    inorder l = inorder A ++ (kb, vb) :: inorder C ∧
    nnodes l = S (nnodes A + nnodes C).
Proof.
  intros t Hfit Hok Hl. subst t. destruct l as [|b A kb vb wb C]; [done|].
  cbn [lift_left]. destruct (Z.ltb_spec (tweight A) (tweight C)) as [Hlt|_].
  - destruct C as [|d C1 kd vd wd C2]; [weigh; lia|].
    cbn [on_left rot_left_s rot_right_s]. eexists _, _, _, _, _, _, _.
    split; [done|]. split_and!.
    + apply (weights_ok_rot_right_s (Bin a (rot_left_s (Bin b A kb vb wb (Bin d C1 kd vd wd C2))) k v w r)).
      * unfold fits in *. by cbn [nnodes rot_left_s] in *; lia.
      * eapply weights_ok_set_l; [done| |apply nnodes_rot_left_s].
        apply weights_ok_rot_left_s; [by eapply fits_l|]. by destruct Hok as (_&?&_).
    + cbn [inorder]. by rewrite <- !app_assoc.
    + cbn [nnodes]. lia.
  - cbn [rot_right_s]. eexists _, _, _, _, _, _, _. split; [done|]. split_and!; [|done..].
    by apply (weights_ok_rot_right_s (Bin a (Bin b A kb vb wb C) k v w r)).
Qed.


(** The node is the left child after [lift_right]. *)
Lemma lift_right_Bin a l k v w r :
  let t := Bin a l k v w r in
  fits t → weights_ok t → r ≠ Leaf →
  ∃ b C kb vb wb E wa,
    lift_right t = Bin b (Bin a l k v wa C) kb vb wb E ∧
    weights_ok (lift_right t) ∧
    inorder r = inorder C ++ (kb, vb) :: inorder E ∧
    nnodes r = S (nnodes C + nnodes E).
Proof.
  intros t Hfit Hok Hr. subst t. destruct r as [|b C kb vb wb E]; [done|].
  cbn [lift_right]. destruct (Z.ltb_spec (tweight E) (tweight C)) as [Hlt|_].
  - destruct C as [|d C1 kd vd wd C2]; [weigh; lia|].
    cbn [on_right rot_left_s rot_right_s]. eexists _, _, _, _, _, _, _.
    split; [done|]. split_and!.
    + apply (weights_ok_rot_left_s (Bin a l k v w (rot_right_s (Bin b (Bin d C1 kd vd wd C2) kb vb wb E)))).
      * unfold fits in *. by cbn [nnodes rot_right_s] in *; lia.
      * eapply weights_ok_set_r; [done| |apply nnodes_rot_right_s].
        apply weights_ok_rot_right_s; [by eapply fits_r|]. by destruct Hok as (_&_&?).
    + cbn [inorder]. by rewrite <- !app_assoc.
    + cbn [nnodes]. lia.
  - cbn [rot_left_s]. eexists _, _, _, _, _, _, _. split; [done|]. split_and!; [|done..].
    by apply (weights_ok_rot_left_s (Bin a l k v w (Bin b C kb vb wb E))).
Qed.

Lemma remove_root_unfold fuel a l k v w r :
  l ≠ Leaf → r ≠ Leaf →
  remove_root (S fuel) (Bin a l k v w r) =
  if tweight l >? tweight r
  then drop (on_right (remove_root fuel) (lift_left (Bin a l k v w r)))
  else drop (on_left (remove_root fuel) (lift_right (Bin a l k v w r))).
Proof. by destruct l, r. Qed.

(** Removing the root of a tree with exact weights, with enough fuel: the
    other pairs stay in order and the weights are exact again. *)
Lemma remove_root_spec fuel : ∀ a l k v w r,
  let t := Bin a l k v w r in
  fits t → weights_ok t → (nnodes t ≤ fuel)%nat →
  weights_ok (remove_root fuel t) ∧
  inorder (remove_root fuel t) = inorder l ++ inorder r ∧
  S (nnodes (remove_root fuel t)) = nnodes t.
Proof.
  induction fuel as [|fuel IH]; intros a l k v w r t Hfit Hok Hfuel; subst t;
    [cbn in Hfuel; lia|].
  destruct (Leaf_or_not l) as [->|Hl].
  { cbn. by destruct Hok as (_ & _ & ?). }
  destruct (Leaf_or_not r) as [->|Hr].
  { destruct l; [done|]. cbn [remove_root inorder nnodes].
    rewrite app_nil_r. split_and!; [by destruct Hok as (_ & ? & _)|done|lia]. }
  rewrite remove_root_unfold by done.
  destruct (tweight l >? tweight r).
  - destruct (lift_left_Bin a l k v w r Hfit Hok Hl)
      as (b & A & kb & vb & wb & C & wa & -> & Hok1 & Hin & Hn).
    cbn [on_right drop inorder nnodes] in *.
    destruct (IH a C k v wa r) as (Hok2 & Hin2 & Hn2);
      [unfold fits in *; cbn [nnodes] in *; lia|by destruct Hok1 as (_&_&?)|cbn [nnodes]; lia|].
    rewrite Hin2, Hin, <- !app_assoc. split_and!; [|done|cbn [nnodes] in *; lia].
    unfold fits in *. cbn [nnodes] in *. weigh.
    rewrite ulong_small by (unfold ULONG_MAX in *; lia).
    split_and!; [lia|done..].
  - destruct (lift_right_Bin a l k v w r Hfit Hok Hr)
      as (b & C & kb & vb & wb & E & wa & -> & Hok1 & Hin & Hn).
    cbn [on_left drop inorder nnodes] in *.
    destruct (IH a l k v wa C) as (Hok2 & Hin2 & Hn2);
      [unfold fits in *; cbn [nnodes] in *; lia|by destruct Hok1 as (_&?&_)|cbn [nnodes]; lia|].
    rewrite Hin2, Hin, <- !app_assoc. split_and!; [|done|cbn [nnodes] in *; lia].
    unfold fits in *. cbn [nnodes] in *. weigh.
    rewrite ulong_small by (unfold ULONG_MAX in *; lia).
    split_and!; [lia|done..].
Qed.


(** More fuel than nodes changes nothing. *)
Lemma remove_root_fuel fuel : ∀ fuel' t,
  fits t → weights_ok t → (nnodes t ≤ fuel)%nat → (nnodes t ≤ fuel')%nat →
  remove_root fuel t = remove_root fuel' t.
Proof.
  induction fuel as [|fuel IH]; intros fuel' t Hfit Hok Hf Hf'.
  { destruct t; [by destruct fuel'|cbn in Hf; lia]. }
  destruct t as [|a l k v w r]; [by destruct fuel'|].
  destruct fuel' as [|fuel']; [cbn in Hf'; lia|].
  destruct (Leaf_or_not l) as [->|Hl]; [done|].
  destruct (Leaf_or_not r) as [->|Hr]; [by destruct l|].
  rewrite !remove_root_unfold by done. cbn [nnodes] in *.
  destruct (tweight l >? tweight r).
  - destruct (lift_left_Bin a l k v w r Hfit Hok Hl)
      as (b & A & kb & vb & wb & C & wa & -> & Hok1 & _ & Hn).
    cbn [on_right drop]. f_equal.
    apply IH; [unfold fits in *; cbn [nnodes] in *; lia|by destruct Hok1 as (_&_&?)
              |cbn [nnodes]; lia..].
  - destruct (lift_right_Bin a l k v w r Hfit Hok Hr)
      as (b & C & kb & vb & wb & E & wa & -> & Hok1 & _ & Hn).
    cbn [on_left drop]. f_equal.
    apply IH; [unfold fits in *; cbn [nnodes] in *; lia|by destruct Hok1 as (_&?&_)
              |cbn [nnodes]; lia..].
Qed.

(** *** The decrements along the context *)

Lemma plug_drop_frame f c t :
  plug (drop_frame <$> (f :: c)) t = plug (drop_frame <$> c) (drop (fill f t)).
Proof. by destruct f. Qed.

Lemma ctx_before_drop c : ctx_before (drop_frame <$> c) = ctx_before c.
Proof. induction c as [|[] c IH]; cbn; by rewrite ?IH. Qed.

Lemma ctx_after_drop c : ctx_after (drop_frame <$> c) = ctx_after c.
Proof. induction c as [|[] c IH]; cbn; by rewrite ?IH. Qed.

Lemma ctx_addrs_drop c : ctx_addrs (drop_frame <$> c) = ctx_addrs c.
Proof. induction c as [|[] c IH]; cbn; by rewrite ?IH. Qed.

(** After a node is taken out below, the decrements make the weights
    exact. *)
Lemma weights_ok_plug_drop c : ∀ t t',
  fits (plug c t) → weights_ok (plug c t) →
  weights_ok t' → tweight t' = tweight t - 1 →
  weights_ok (plug (drop_frame <$> c) t').
Proof.
  induction c as [|f c IH]; intros t t' Hfit Hok Hok' Hw; [done|].
  rewrite plug_drop_frame. cbn [plug] in Hfit, Hok.
  pose proof (proj1 (proj1 (weights_ok_plug c _) Hok)) as Hokf.
  pose proof (nnodes_plug_le c (fill f t)) as Hle.
  apply (IH (fill f t)); [done..| |].
  - destruct f; unfold fits in *; cbn [fill drop nnodes weights_ok tweight] in *;
      weigh; (rewrite ulong_small by (unfold ULONG_MAX in *; lia));
      split_and!; try done; lia.
  - destruct f; unfold fits in *; cbn [fill drop nnodes weights_ok tweight] in *;
      weigh; (rewrite ulong_small by (unfold ULONG_MAX in *; lia)); lia.
Qed.

Lemma nnodes_plug_drop c t : nnodes (plug (drop_frame <$> c) t) = nnodes (plug c t).
Proof. by rewrite !nnodes_plug_add, ctx_addrs_drop. Qed.

End RemoveShape.

Section RemoveSpec.
Context {K V : Type} (cmp : dict_compare_func K) `{!Comparator cmp}.
Implicit Types (k : K) (v : V) (t l r : shape K V) (c : list (frame K V)).

(** [pr_tree_remove] on shapes. *)
Definition remove_s k t : shape K V :=
  match path cmp k 0 [] t with
  | (_, _, Leaf) => t
  | (_, c, n) => plug (drop_frame <$> c) (remove_root (nnodes n) n)
  end.

Lemma remove_s_absent k t :
  bst cmp t → entry cmp k (inorder t) = None → remove_s k t = t.
Proof.
  intros Hbst He. unfold remove_s.
  by destruct (path_new cmp k t Hbst He) as (? & ? & -> & _).
Qed.

Lemma remove_s_inorder k t :
  bst cmp t → weights_ok t → fits t →
  inorder (remove_s k t) = del_entry cmp k (inorder t).
Proof.
  intros Hbst Hok Hfit.
  destruct (entry cmp k (inorder t)) as [[k0 v0]|] eqn:He; cycle 1.
  { rewrite remove_s_absent, del_entry_absent by done || by apply entry_None. done. }
  unfold remove_s.
  destruct (path_old cmp k t k0 v0 Hbst He) as (rv & c & a & l & wt & r & Hp & Hplug).
  rewrite Hp. pose proof (path_found _ _ _ _ _ _ _ _ _ _ _ _ _ Hp) as Heq.
  destruct (path_bounds cmp _ _ _ _ _ _ _ Hp Hbst) as [[Hb Ha] Hbst'];
    [by split; constructor|].
  pose proof (proj1 (bst_Bin cmp _ _ _ _ _ _) Hbst') as (_ & _ & Hlk & _).
  rewrite <- Hplug in Hok, Hfit.
  destruct (remove_root_spec (nnodes (Bin a l k0 v0 wt r)) a l k0 v0 wt r)
    as (_ & Hin & _); [|by apply weights_ok_plug in Hok as [? _]|done|].
  { pose proof (nnodes_plug_le c (Bin a l k0 v0 wt r)). unfold fits in *. lia. }
  assert (Forall (λ x, klt cmp x k) (inorder l).*1) as Hl.
  { eapply Forall_impl; [exact Hlk|]. intros x Hx.
    eapply (cmp_lt_eq cmp); [exact Hx|]. by apply (cmp_eq_sym cmp). }
  rewrite <- Hplug, !inorder_plug, ctx_before_drop, ctx_after_drop, Hin.
  cbn [inorder]. rewrite del_entry_app by done. f_equal.
  rewrite <- !app_assoc, del_entry_app by done.
  cbn [app]. by rewrite del_entry_found.
Qed.

Lemma bst_remove_s k t :
  bst cmp t → weights_ok t → fits t → bst cmp (remove_s k t).
Proof.
  intros Hbst ??. apply bst_sorted. rewrite remove_s_inorder by done.
  by apply del_entry_sorted.
Qed.

Lemma weights_ok_remove_s k t :
  bst cmp t → weights_ok t → fits t → weights_ok (remove_s k t).
Proof.
  intros Hbst Hok Hfit.
  destruct (entry cmp k (inorder t)) as [[k0 v0]|] eqn:He;
    [|by rewrite remove_s_absent].
  unfold remove_s.
  destruct (path_old cmp k t k0 v0 Hbst He) as (rv & c & a & l & wt & r & -> & Hplug).
  rewrite <- Hplug in Hok, Hfit.
  pose proof (proj1 (proj1 (weights_ok_plug c _) Hok)) as Hokn.
  destruct (remove_root_spec (nnodes (Bin a l k0 v0 wt r)) a l k0 v0 wt r)
    as (Hok' & _ & Hn); [|done..|].
  { pose proof (nnodes_plug_le c (Bin a l k0 v0 wt r)). unfold fits in *. lia. }
  eapply weights_ok_plug_drop; [done..|].
  rewrite !weights_ok_tweight by done. lia.
Qed.

Lemma nnodes_remove_s k t :
  bst cmp t → weights_ok t → fits t →
  nnodes (remove_s k t) =
  if entry cmp k (inorder t) is Some _ then pred (nnodes t) else nnodes t.
Proof.
  intros Hbst Hok Hfit.
  destruct (entry cmp k (inorder t)) as [[k0 v0]|] eqn:He;
    [|by rewrite remove_s_absent].
  unfold remove_s.
  destruct (path_old cmp k t k0 v0 Hbst He) as (rv & c & a & l & wt & r & -> & Hplug).
  rewrite <- Hplug in Hok, Hfit |- *.
  pose proof (proj1 (proj1 (weights_ok_plug c _) Hok)) as Hokn.
  destruct (remove_root_spec (nnodes (Bin a l k0 v0 wt r)) a l k0 v0 wt r)
    as (_ & _ & Hn); [|done..|].
  { pose proof (nnodes_plug_le c (Bin a l k0 v0 wt r)). unfold fits in *. lia. }
  rewrite nnodes_plug_drop, !nnodes_plug_add. lia.
Qed.

End RemoveSpec.
