(* ===== verification/Exec.v ===== *)
(** * Running the model on a represented tree

    The lemmas and tactics with which the refinement proofs execute a C
    function on a store described by a shape:
    - [stable c]: the computation [c] allocates and frees nothing and leaves
      the count, the comparator, the deleter and the deletion log alone;
      closed under the constructs the rotations are written with;
    - [set_hole]: the store after a pointer is written into the hole of a
      context (a child field of the parent, or [tree->root]), which is what
      [replace_child] does;
    - [step] and [steps]: run the next statement (all statements) of a goal
      [(c ≫= k) w = r] or [wp (c ≫= k) w Q] when the cells it reads are
      known;
    - [lookup], [solve_rep], [solve_ctx]: the cell at an address, the subtree
      below it and the context above it, after writes at other addresses;
    - [wf_set_node], [wf_link_leaf]: writing the fields of a node and linking
      a new leaf keep the store well formed.
    The tactics read the hypothesis that states [NoDup] of the addresses of
    the tree (tactic [distinct] of the prelude). *)

From Stdlib Require Import ZArith Lia.
From stdpp Require Import base tactics option list gmap.
From S2P Require Import Prelude Contract Node Rotate Shape.

#[local] Open Scope Z_scope.
#[export] Set Warnings "-clear-no-such-hyp".

Section Exec.
Context {build : Build} {K V : Type}.
Implicit Types (t : shape K V) (w : world K V) (p : ptr).

(** ** Definitions *)

Definition stable {A} (c : M (world K V) A) : Prop :=
  ∀ w a w', c w = Some (a, w') →
    dom (nodes w') = dom (nodes w) ∧ meta w' = meta w.

(** The world after [x] is stored in the hole of the context [c]: in the
    child field of the innermost frame that holds the hole, or in
    [tree->root] when the context is empty. *)
Definition set_hole (c : list (frame K V)) (x : ptr) (w : world K V) : world K V :=
  match c with
  | [] => upd_tree (fmap (set_root x)) w
  | f :: c' => upd_nodes <[frame_addr f := frame_cell f (ctx_parent c') x]> w
  end.

(** ** Reads of weights and roots of represented shapes *)

Lemma WEIGHT_rep w p t :
  rep (nodes w) p t → WEIGHT (ptr_of t) w = Some (tweight t, w).
Proof.
  destruct t as [|a l k v wt r]; [done|]. intros (Ha & _).
  exact (WEIGHT_run _ _ _ Ha).
Qed.

Lemma rd_tree_root_wf w t : wf w t → rd_tree root w = Some (ptr_of t, w).
Proof.
  intros (tr & Htr & <-)%wf_tree. by rewrite (rd_tree_run _ _ _ Htr).
Qed.

(** ** [stable] *)

Lemma stable_ret {A} (a : A) : stable (mret a).
Proof. by intros w a' w' [= <- <-]. Qed.

Lemma stable_bind {A B} (c : M (world K V) A) (f : A → M (world K V) B) :
  stable c → (∀ a, stable (f a)) → stable (c ≫= f).
Proof.
  intros Hc Hf w b w' (a & w1 & H1 & H2)%bind_Some.
  destruct (Hc _ _ _ H1) as [Hd Hm]. destruct (Hf _ _ _ _ H2) as [Hd' Hm'].
  split; congruence.
Qed.

Lemma stable_rd {A} (f : pr_node K V → A) p : stable (rd f p).
Proof. by intros w a w' (? & ? & _ & _ & _ & ->)%rd_Some. Qed.

Lemma stable_wr f p : stable (wr f p).
Proof.
  intros w [] w' (a & n & -> & Hn & ->)%wr_Some. split; [|done].
  cbn [nodes upd_nodes]. apply dom_insert_lookup_L. eauto.
Qed.

Lemma stable_WEIGHT p : stable (WEIGHT p).
Proof. destruct p; [apply stable_rd | apply stable_ret]. Qed.

Lemma stable_gets {A} (f : world K V → A) : stable (gets f).
Proof. by intros w a w' [= <- <-]. Qed.

Lemma stable_when b (c : M (world K V) unit) : stable c → stable (when_ b c).
Proof. destruct b; [done | intros _; apply stable_ret]. Qed.

Lemma stable_set_root x : stable (wr_tree (set_root x)).
Proof.
  intros w [] w'. unfold wr_tree, meta. destruct (tree w) as [tr|]; [|done].
  by intros [= <-].
Qed.

Lemma stable_stuck {A} : stable (@stuck (world K V) A).
Proof. by intros w a w'. Qed.

Lemma stable_ASSERT (e : M (world K V) bool) : readonly e → stable (ASSERT e).
Proof.
  intros He w [] w' [[_ [= <-]]|(w1 & Hw1 & [= <-])]%ASSERT_Some; [done|].
  by rewrite (He _ _ _ Hw1).
Qed.

Lemma readonly_rd {A} (f : pr_node K V → A) p : readonly (rd f p).
Proof. by intros w a w' (? & ? & _ & _ & _ & ->)%rd_Some. Qed.

Lemma readonly_rd_tree {A} (f : pr_tree K → A) : readonly (rd_tree (V:=V) f).
Proof.
  intros w a w'. unfold rd_tree. destruct (tree w); [|done]. by intros [= _ <-].
Qed.

Lemma wp_stable {A} (c : M (world K V) A) w (Q : A → world K V → Prop) :
  stable c → wp c w Q →
  wp c w (λ a w', Q a w' ∧ dom (nodes w') = dom (nodes w) ∧ meta w' = meta w).
Proof. intros Hc (a & w' & Hrun & HQ). exists a, w'. eauto. Qed.

End Exec.

(** Prove that an asserted expression has no side effect. *)
Ltac solve_readonly :=
  repeat first
    [ apply readonly_ret | apply readonly_rd | apply readonly_rd_tree
    | apply readonly_bind; [|intros ?] ].

(** Prove [stable] for a computation made of these constructs. *)
Ltac solve_stable :=
  repeat first
    [ solve [auto]
    | apply stable_ASSERT; solve_readonly
    | apply stable_ret | apply stable_rd | apply stable_wr | apply stable_WEIGHT
    | apply stable_gets | apply stable_set_root | apply stable_stuck
    | apply stable_when
    | apply stable_bind; [|intros ?]
    | match goal with |- stable (if ?b then _ else _) => destruct b end
    | match goal with |- stable (match ?x with _ => _ end) => destruct x end ].

Section Stable.
Context {build : Build} {K V : Type}.

Lemma stable_REWEIGH (p : ptr) : stable (REWEIGH (K:=K) (V:=V) p).
Proof. unfold REWEIGH. solve_stable. Qed.

Lemma stable_replace_child (pp node x : ptr) :
  stable (replace_child (K:=K) (V:=V) pp node x).
Proof. unfold replace_child. solve_stable. Qed.

Lemma stable_rot_left (p : ptr) : stable (rot_left (K:=K) (V:=V) p).
Proof.
  unfold rot_left.
  pose proof stable_REWEIGH. pose proof stable_replace_child. solve_stable.
Qed.

Lemma stable_rot_right (p : ptr) : stable (rot_right (K:=K) (V:=V) p).
Proof.
  unfold rot_right.
  pose proof stable_REWEIGH. pose proof stable_replace_child. solve_stable.
Qed.

Lemma stable_fixup fuel (p : ptr) : stable (fixup (K:=K) (V:=V) fuel p).
Proof.
  revert p. induction fuel as [|fuel IH]; intros p; cbn [fixup]; [apply stable_stuck|].
  pose proof stable_rot_left. pose proof stable_rot_right. solve_stable.
Qed.

(** [fixup] on [NULL]: the assertion fails, or the first read faults. *)
Lemma fixup_NULL fuel (w : world K V) : fixup fuel NULL w = None.
Proof.
  destruct fuel; [done|]. cbn [fixup]. unfold ASSERT.
  destruct NDEBUG; reflexivity.
Qed.

(** The expansion of the macro [FIXUP] runs as the function [fixup] does. *)
Lemma FIXUP_again_fixup fuel : ∀ (n : ptr) (w : world K V),
  FIXUP_again fuel n w = fixup fuel n w.
Proof.
  induction fuel as [|fuel IH]; intros n w; [done|].
  destruct n as [a|]; [|rewrite fixup_NULL; reflexivity].
  cbn [FIXUP_again fixup]. erewrite (bind_run (ASSERT _)); [|by apply ASSERT_run].
  repeat first
    [ apply IH
    | apply bind_ext; intros ? ?
    | match goal with
      | |- (if ?b then _ else _) _ = (if ?b then _ else _) _ => destruct b
      end
    | reflexivity ].
Qed.

Lemma FIXUP_fixup (n : ptr) (w : world K V) :
  FIXUP n w = fixup (fixup_fuel w) n w.
Proof. unfold FIXUP. erewrite bind_run; [|reflexivity]. apply FIXUP_again_fixup. Qed.

Lemma stable_FIXUP (p : ptr) : stable (FIXUP (K:=K) (V:=V) p).
Proof.
  intros w a w'. rewrite FIXUP_fixup. apply stable_fixup.
Qed.

End Stable.

(** ** The hole of a context *)

Section Hole.
Context {build : Build} {K V : Type}.
Implicit Types (t : shape K V) (w : world K V) (c : list (frame K V)).

Lemma lookup_set_hole_ne w c x a :
  a ∉ ctx_addrs c → nodes (set_hole c x w) !! a = nodes w !! a.
Proof.
  destruct c as [|f c']; [done|]. cbn [set_hole nodes upd_nodes ctx_addrs].
  intros Ha. apply lookup_insert_ne. intros Heq. apply Ha. rewrite <- Heq. by left.
Qed.

Lemma rep_set_hole w c x p t :
  NoDup (addrs t ++ ctx_addrs c) →
  rep (nodes w) p t → rep (nodes (set_hole c x w)) p t.
Proof.
  intros Hnd. apply rep_frame. intros a Ha. apply lookup_set_hole_ne.
  by eapply NoDup_app_disj.
Qed.

Lemma rep_ctx_set_hole w c hole x :
  NoDup (ctx_addrs c) →
  rep_ctx (nodes w) c hole → rep_ctx (nodes (set_hole c x w)) c x.
Proof.
  destruct c as [|f c']; [done|]. cbn [set_hole nodes upd_nodes rep_ctx ctx_addrs].
  intros (Hf & Hnd)%NoDup_cons (_ & Hs & Hc). split_and!.
  - by rewrite lookup_insert_eq.
  - apply rep_insert_ne; [|done]. intros ?. apply Hf. set_solver.
  - apply rep_ctx_insert_ne; [|done]. intros ?. apply Hf. set_solver.
Qed.

Lemma root_set_hole w c hole x :
  root <$> tree w = Some (ctx_root c hole) →
  root <$> tree (set_hole c x w) = Some (ctx_root c x).
Proof. destruct c as [|f c']; [|done]. cbn. by destruct (tree w). Qed.

(** [replace_child] stores [x] in the hole that holds [b]. *)
Lemma replace_child_run w c b x :
  is_Some (tree w) → rep_ctx (nodes w) c (Some b) → b ∉ ctx_addrs c →
  replace_child (ctx_parent c) (Some b) x w = Some (tt, set_hole c x w).
Proof.
  intros [tr Htr] Hctx Hb. unfold replace_child.
  destruct c as [|[pa pk pv pw ps|pa ps pk pv pw] c'];
    cbn [ctx_parent nonnull frame_addr].
  - rewrite (wr_tree_run _ _ _ Htr). unfold set_hole, upd_tree. by rewrite Htr.
  - destruct Hctx as (Hpa & _).
    rewrite (bind_run _ _ _ _ _ (rd_run llink _ _ _ Hpa)). cbn [frame_cell llink].
    rewrite ptr_eqb_refl. by rewrite (wr_run _ _ _ _ Hpa).
  - destruct Hctx as (Hpa & _).
    rewrite (bind_run _ _ _ _ _ (rd_run llink _ _ _ Hpa)). cbn [frame_cell llink].
    assert (Hne : ptr_eqb (ptr_of ps) (Some b) = false).
    { apply ptr_eqb_false. intros Heq%ptr_of_elem_of. apply Hb. cbn. set_solver. }
    rewrite Hne. by rewrite (wr_run _ _ _ _ Hpa).
Qed.

Lemma dom_set_hole w c hole x :
  rep_ctx (nodes w) c hole → dom (nodes (set_hole c x w)) = dom (nodes w).
Proof.
  destruct c as [|f c']; [done|]. intros (Hf & _). cbn [set_hole nodes upd_nodes].
  apply dom_insert_lookup_L. eauto.
Qed.

End Hole.

(** ** Tactics *)

(** The cell at an address of the current store. *)
Ltac lookup :=
  repeat first [ progress cbn [nodes upd_nodes upd_tree upd_del_log tree]
               | rewrite lookup_insert_eq
               | rewrite lookup_insert_ne by distinct
               | rewrite lookup_set_hole_ne by distinct ];
  first [reflexivity | eassumption].

(** A subtree that no write touched is still represented. *)
Ltac solve_rep :=
  repeat first [ progress cbn [nodes upd_nodes upd_tree upd_del_log tree]
               | apply rep_insert_ne; [distinct|]
               | apply rep_set_hole; [distinct|] ];
  eassumption.

(** So is a context, whose hole a [replace_child] may have changed. *)
Ltac solve_ctx :=
  repeat first [ progress cbn [nodes upd_nodes upd_tree upd_del_log tree]
               | apply rep_ctx_insert_ne; [distinct|] ];
  first [ eassumption | eapply rep_ctx_set_hole; [distinct|solve_ctx] ].

(** The root pointer after a [replace_child]. *)
Ltac solve_root :=
  cbn [tree upd_nodes]; eapply root_set_hole; cbn [tree upd_nodes];
  first [ eassumption
        | match goal with H : tree _ = Some _ |- _ => rewrite H; eassumption end ].

Ltac solve_tree :=
  cbn [nodes upd_nodes upd_tree upd_del_log tree]; first [reflexivity | eassumption].

(** The run [e w = Some (true, w)] of an asserted expression that holds: a
    test of a local variable, or of one field read through a pointer. *)
Ltac run_expr :=
  lazymatch goal with
  | |- (rd _ (Some _) ≫= _) _ = _ =>
      erewrite bind_run; [|apply rd_run; lookup]; reflexivity
  | |- (rd_tree _ ≫= _) _ = _ =>
      erewrite bind_run; [|apply rd_tree_run; solve_tree]; reflexivity
  | |- mret (nonnull (ptr_of ?t)) _ = _ =>
      first [reflexivity | rewrite (proj2 (nonnull_ptr_of t)) by done; reflexivity]
  | |- _ => reflexivity
  end.

(** The run [c w = Some (?a, ?w')] of one statement whose cells are known. *)
Ltac run_stmt c :=
  lazymatch c with
  | rd _ (Some _) => apply rd_run; lookup
  | wr _ (Some _) => apply wr_run; lookup
  | WEIGHT (Some _) => apply WEIGHT_run; lookup
  | WEIGHT None => apply WEIGHT_NULL
  | WEIGHT (ptr_of _) => eapply WEIGHT_rep; solve_rep
  | rd_tree _ => apply rd_tree_run; solve_tree
  | wr_tree _ => apply wr_tree_run; solve_tree
  | gets _ => reflexivity
  | mret _ => reflexivity
  | when_ false _ => apply when_false
  | ASSERT _ => apply ASSERT_run; run_expr
  | replace_child (ctx_parent ?c) _ _ =>
      apply (replace_child_run _ c); [by eexists | solve_ctx | distinct]
  end.

(** Run the next statement of a goal [c w = r] or [wp c w Q]. *)
Ltac step :=
  lazymatch goal with
  | |- ((_ ≫= _) ≫= _) _ = _ => rewrite bind_assoc
  | |- wp ((_ ≫= _) ≫= _) _ _ => apply wp_bind_assoc
  | |- (when_ true _ ≫= _) _ = _ => unfold when_ at 1
  | |- wp (when_ true _ ≫= _) _ _ => unfold when_ at 1
  | |- when_ true _ _ = _ => unfold when_
  | |- wp (when_ true _) _ _ => unfold when_
  | |- (?c ≫= _) _ = _ => erewrite bind_run; [|run_stmt c]
  | |- wp (?c ≫= _) _ _ => eapply wp_bind_run; [run_stmt c|]
  | |- wp ?c _ _ => eapply wp_run; [run_stmt c|]
  | |- ?c _ = Some _ => run_stmt c
  end;
  cbn [nonnull ptr_of tweight key datum parent llink rlink weight
       set_key set_datum set_parent set_llink set_rlink set_weight].

Ltac steps := repeat step.

(** ** Changes of the store that keep it well formed *)

Section Update.
Context {build : Build} {K V : Type}.
Implicit Types (t l r : shape K V) (w : world K V) (c : list (frame K V)).

(** Writing the key, the datum and the weight of a node. *)
Lemma wf_set_node w c a l k v wt r k' v' wt' :
  wf w (plug c (Bin a l k v wt r)) →
  wf (upd_nodes <[a := mk_node k' v' (ctx_parent c) (ptr_of l) (ptr_of r) wt']> w)
     (plug c (Bin a l k' v' wt' r)).
Proof.
  intros Hwf.
  pose proof Hwf as (Hroot & Hctx & (Ha & Hl & Hr) & Hnd & Hdom)%wf_plug.
  cbn [addrs] in Hnd.
  eapply wf_replug; [exact Hwf| |done|done| |].
  - cbn [nodes upd_nodes]. apply dom_insert_lookup_L. eauto.
  - solve_ctx.
  - cbn [rep]. split_and!; [lookup|solve_rep..].
Qed.

(** Linking a new leaf at an empty place. *)
Lemma wf_link_leaf w c a k v wt :
  wf w (plug c Leaf) → nodes w !! a = None →
  wf (set_hole c (Some a)
        (upd_nodes <[a := mk_node k v (ctx_parent c) NULL NULL wt]> w))
     (plug c (Bin a Leaf k v wt Leaf)).
Proof.
  intros (Hroot & Hctx & _ & Hnd & Hdom)%wf_plug Ha. cbn [addrs app] in *.
  assert (a ∉ ctx_addrs c) as Hac.
  { intros Hin. apply not_elem_of_dom in Ha. apply Ha. rewrite Hdom.
    by apply elem_of_list_to_set. }
  assert (NoDup (a :: ctx_addrs c)) as Hnd' by (by constructor).
  apply wf_plug. cbn [addrs app ptr_of rep]. split_and!; try done.
  - by eapply root_set_hole.
  - eapply rep_ctx_set_hole; [distinct|]. by apply rep_ctx_insert_ne.
  - rewrite lookup_set_hole_ne by done. cbn [nodes upd_nodes].
    by rewrite lookup_insert_eq.
  - rewrite (dom_set_hole _ _ NULL) by (by apply rep_ctx_insert_ne).
    cbn [nodes upd_nodes]. by rewrite dom_insert_L, Hdom.
Qed.

End Update.
