(* ===== verification/RotateProofs.v ===== *)
(** * The rotations refine the rotations of shapes

    [rot_left] and [rot_right] of pr_tree.c, run on a world that represents a
    tree at the position of the rotated node, return, and the world they leave
    represents the tree with [rot_left_s] ([rot_right_s]) applied at that
    position: every pointer they write (child links, parent links, the link
    in the parent or [tree->root]) and both recomputed weights are as the
    shape says.  A rotation towards a side without child dereferences [NULL]:
    the model faults. *)

From Stdlib Require Import ZArith Lia.
From stdpp Require Import base tactics option list gmap.
From S2P Require Import Prelude Contract Node Rotate Shape Examples ShapeOps Exec.

#[local] Open Scope Z_scope.

(** Run a rotation on the cells named in the context and check the three
    parts of the representation after it. *)
Ltac rot_exec :=
  cbn [rep ptr_of addrs rot_left_s rot_right_s tweight] in *; destruct_and?;
  unfold rot_left, rot_right, REWEIGH; steps; cbv beta;
  split_and!; first [lookup | solve_rep | solve_ctx | solve_root].

Section RotateProofs.
Context {build : Build} {K V : Type}.
Implicit Types (t l r A C E : shape K V) (w : world K V) (c : list (frame K V)).

(** ** The cells after a rotation *)

Lemma rot_left_cells w c b A kb vb wb d C kd vd wd E :
  let t := Bin b A kb vb wb (Bin d C kd vd wd E) in
  wf w (plug c t) →
  wp (rot_left (Some b)) w (λ _ w',
    root <$> tree w' = Some (ctx_root c (Some d)) ∧
    rep_ctx (nodes w') c (Some d) ∧
    rep (nodes w') (ctx_parent c) (rot_left_s t)).
Proof.
  intros t (Hroot & Hctx & Ht & Hnd & Hdom)%wf_plug. subst t.
  destruct (tree w) as [tr|] eqn:Htr; [|done].
  destruct C as [|c0 C1 kc vc wc C2]; rot_exec.
Qed.

Lemma rot_right_cells w c b A kb vb wb d C kd vd wd E :
  let t := Bin d (Bin b A kb vb wb C) kd vd wd E in
  wf w (plug c t) →
  wp (rot_right (Some d)) w (λ _ w',
    root <$> tree w' = Some (ctx_root c (Some b)) ∧
    rep_ctx (nodes w') c (Some b) ∧
    rep (nodes w') (ctx_parent c) (rot_right_s t)).
Proof.
  intros t (Hroot & Hctx & Ht & Hnd & Hdom)%wf_plug. subst t.
  destruct (tree w) as [tr|] eqn:Htr; [|done].
  destruct C as [|c0 C1 kc vc wc C2]; rot_exec.
Qed.

(** ** The rotations on well-formed worlds *)

Lemma rot_left_run w c b A kb vb wb d C kd vd wd E :
  let t := Bin b A kb vb wb (Bin d C kd vd wd E) in
  wf w (plug c t) →
  wp (rot_left (Some b)) w (λ _ w',
    wf w' (plug c (rot_left_s t)) ∧ meta w' = meta w).
Proof.
  intros t Hwf.
  eapply wp_mono; [by apply wp_stable, rot_left_cells; [apply stable_rot_left|]|].
  intros [] w' ((? & ? & ?) & Hdom & Hmeta). split; [|done].
  by eapply wf_replug; [done|done|apply addrs_rot_left_s|..].
Qed.

Lemma rot_right_run w c b A kb vb wb d C kd vd wd E :
  let t := Bin d (Bin b A kb vb wb C) kd vd wd E in
  wf w (plug c t) →
  wp (rot_right (Some d)) w (λ _ w',
    wf w' (plug c (rot_right_s t)) ∧ meta w' = meta w).
Proof.
  intros t Hwf.
  eapply wp_mono; [by apply wp_stable, rot_right_cells; [apply stable_rot_right|]|].
  intros [] w' ((? & ? & ?) & Hdom & Hmeta). split; [|done].
  by eapply wf_replug; [done|done|apply addrs_rot_right_s|..].
Qed.

(** A rotation towards a side without a child fails its assertion, or reads
    a field of [NULL] when the build does not check it. *)
Lemma rot_left_NULL w c b A kb vb wb :
  wf w (plug c (Bin b A kb vb wb Leaf)) → rot_left (Some b) w = None.
Proof.
  intros (_ & _ & (Hb & _) & _)%wf_plug. unfold rot_left.
  erewrite bind_run; [|by apply ASSERT_run].
  by apply ASSERT_fails; rewrite (bind_run _ _ _ _ _ (rd_run rlink _ _ _ Hb)).
Qed.

Lemma rot_right_NULL w c d kd vd wd E :
  wf w (plug c (Bin d Leaf kd vd wd E)) → rot_right (Some d) w = None.
Proof.
  intros (_ & _ & (Hd & _) & _)%wf_plug. unfold rot_right.
  erewrite bind_run; [|by apply ASSERT_run].
  by apply ASSERT_fails; rewrite (bind_run _ _ _ _ _ (rd_run llink _ _ _ Hd)).
Qed.

(** ** The theorems *)

(** C9: [rot_left] on a node [b] with right child [d], anywhere in a
    well-formed tree, returns; the world it leaves is well formed for the
    tree with [d] in the place of [b], [b] the left child of [d] and the
    former left subtree of [d] the right subtree of [b], with the weights of
    [b] and [d] recomputed in this order; the count, the comparator, the
    deleter and the deletion log are unchanged, and so is the sequence of
    keys and data in symmetric order. *)
Theorem rot_left_refines w c b A kb vb wb d C kd vd wd E :
  let t := Bin b A kb vb wb (Bin d C kd vd wd E) in
  wf w (plug c t) →
  wp (rot_left (ptr_of t)) w (λ _ w',
    wf w' (plug c (rot_left_s t)) ∧ meta w' = meta w) ∧
  rot_left_s t =
    Bin d (Bin b A kb vb (ulong (tweight A + tweight C)) C) kd vd
      (ulong (ulong (tweight A + tweight C) + tweight E)) E ∧
  inorder (plug c (rot_left_s t)) = inorder (plug c t).
Proof.
  intros t Hwf. split_and!; [by apply rot_left_run|done|].
  apply inorder_plug_ext, inorder_rot_left_s.
Qed.

(** C10: [rot_right] on a node [d] with left child [b], anywhere in a
    well-formed tree, returns; the world it leaves is well formed for the
    tree with [b] in the place of [d], [d] the right child of [b] and the
    former right subtree of [b] the left subtree of [d], with the weights of
    [d] and [b] recomputed in this order; nothing else changes, and the
    symmetric order is kept. *)
Theorem rot_right_refines w c b A kb vb wb d C kd vd wd E :
  let t := Bin d (Bin b A kb vb wb C) kd vd wd E in
  wf w (plug c t) →
  wp (rot_right (ptr_of t)) w (λ _ w',
    wf w' (plug c (rot_right_s t)) ∧ meta w' = meta w) ∧
  rot_right_s t =
    Bin b A kb vb (ulong (tweight A + ulong (tweight C + tweight E)))
      (Bin d C kd vd (ulong (tweight C + tweight E)) E) ∧
  inorder (plug c (rot_right_s t)) = inorder (plug c t).
Proof.
  intros t Hwf. split_and!; [by apply rot_right_run|done|].
  apply inorder_plug_ext, inorder_rot_right_s.
Qed.

(** C38: a rotation towards a side on which the node has no child has no
    result: [rot_left] on a node without right child and [rot_right] on a
    node without left child fail their assertion in a build that checks it
    and read a field of [NULL] in a build that does not, whatever the rest of
    the tree. *)
Theorem rot_without_child_faults w c a l k v wt r :
  wf w (plug c (Bin a l k v wt r)) →
  (r = Leaf → rot_left (Some a) w = None) ∧
  (l = Leaf → rot_right (Some a) w = None).
Proof.
  intros Hwf. split; intros ->; [by eapply rot_left_NULL | by eapply rot_right_NULL].
Qed.

End RotateProofs.

(** ** Instances on concrete worlds *)

#[local] Existing Instance debug_build.

Lemma rot_left_refines_witness :
  wp (rot_left (Some 1%positive)) right2 (λ _ w',
    wf w' (rot_left_s right2_s) ∧ meta w' = meta right2) ∧
  rot_left_s right2_s =
    Bin 2 (Bin 1 Leaf 10 100 2 Leaf) 20 200 3 Leaf ∧
  inorder (rot_left_s right2_s) = inorder right2_s.
Proof.
  exact (rot_left_refines right2 [] 1 Leaf 10 100 3 2 Leaf 20 200 2 Leaf right2_wf).
Defined.

Lemma rot_right_refines_witness :
  wp (rot_right (Some 1%positive)) left2 (λ _ w',
    wf w' (rot_right_s left2_s) ∧ meta w' = meta left2) ∧
  rot_right_s left2_s =
    Bin 2 Leaf 10 100 3 (Bin 1 Leaf 20 200 2 Leaf) ∧
  inorder (rot_right_s left2_s) = inorder left2_s.
Proof.
  exact (rot_right_refines left2 [] 2 Leaf 10 100 2 1 Leaf 20 200 3 Leaf left2_wf).
Defined.

Lemma rot_without_child_faults_witness :
  (@Leaf Z Z = Leaf → rot_left (Some 2%positive) right2 = None) ∧
  (@Leaf Z Z = Leaf → rot_right (Some 2%positive) right2 = None).
Proof.
  exact (rot_without_child_faults right2 [FR 1 Leaf 10 100 3] 2 Leaf 20 200 2 Leaf
           right2_wf).
Defined.
