(* ===== verification/FixupProofs.v ===== *)
(** * [fixup] refines [fixup_s]

    [fixup] of pr_tree.c, called on the node at a position of a well-formed
    tree whose subtree there has exact weights, returns when its fuel is above
    the internal path length of the subtree, and leaves a world that
    represents the tree with [fixup_s] applied at that position.  The proof
    follows the code: one lemma per rotation branch, which runs the rotations
    with the lemmas of [RotateProofs] and the recursive calls with the
    induction hypothesis [fixup_spec] at the position of the node they are
    given. *)

From Stdlib Require Import ZArith Lia.
From stdpp Require Import base tactics option list gmap.
From S2P Require Import Prelude Contract Node Rotate Shape Examples ShapeOps.
From S2P Require Import Fuel Exec RotateProofs.

#[local] Open Scope Z_scope.

Section FixupProofs.
Context {build : Build} {K V : Type}.
Implicit Types (t l r A C E : shape K V) (w : world K V) (c : list (frame K V)).

(** ** Definitions *)

(** What [fixup] with this fuel does at every position of every tree. *)
Definition fixup_spec (fuel : nat) : Prop :=
  ∀ w c t, wf w (plug c t) → t ≠ Leaf → fixable fuel t →
    wp (fixup fuel (ptr_of t)) w (λ _ w',
      wf w' (plug c (fixup_s fuel t)) ∧ meta w' = meta w).

(** ** Reads of the links of a node of a well-formed tree *)

Lemma rd_llink_wf w c a l k v wt r :
  wf w (plug c (Bin a l k v wt r)) → rd llink (Some a) w = Some (ptr_of l, w).
Proof. intros (_ & _ & (Ha & _) & _)%wf_plug. by rewrite (rd_run _ _ _ _ Ha). Qed.

Lemma rd_rlink_wf w c a l k v wt r :
  wf w (plug c (Bin a l k v wt r)) → rd rlink (Some a) w = Some (ptr_of r, w).
Proof. intros (_ & _ & (Ha & _) & _)%wf_plug. by rewrite (rd_run _ _ _ _ Ha). Qed.

(** ** The recursive calls *)

Lemma fixup_spec_left fuel w c a b A kb vb wb C k v wt r :
  let l := Bin b A kb vb wb C in
  fixup_spec fuel → wf w (plug c (Bin a l k v wt r)) → fixable fuel l →
  wp (fixup fuel (Some b)) w (λ _ w',
    wf w' (plug c (on_left (fixup_s fuel) (Bin a l k v wt r)))
    ∧ meta w' = meta w).
Proof. intros l IH Hwf ?. by apply (IH w (FL a k v wt r :: c) l). Qed.

Lemma fixup_spec_right fuel w c a l k v wt b A kb vb wb C :
  let r := Bin b A kb vb wb C in
  fixup_spec fuel → wf w (plug c (Bin a l k v wt r)) → fixable fuel r →
  wp (fixup fuel (Some b)) w (λ _ w',
    wf w' (plug c (on_right (fixup_s fuel) (Bin a l k v wt r)))
    ∧ meta w' = meta w).
Proof. intros r IH Hwf ?. by apply (IH w (FR a l k v wt :: c) r). Qed.

(** [if (t) fixup(tree, t)] *)
Lemma fixup_spec_when fuel w c t :
  fixup_spec fuel → wf w (plug c t) → fixable fuel t →
  wp (when_ (nonnull (ptr_of t)) (fixup fuel (ptr_of t))) w (λ _ w',
    wf w' (plug c (fixup_s fuel t)) ∧ meta w' = meta w).
Proof.
  intros IH Hwf Hfix. destruct t as [|a l k v wt r].
  - apply wp_ret. by rewrite fixup_s_Leaf.
  - by apply IH.
Qed.

(** ** The rotation branches *)

Lemma fixup_single_left fuel w c b l kb vb wb d rl kd vd wd rr :
  let t := Bin b l kb vb wb (Bin d rl kd vd wd rr) in
  fixup_spec fuel → wf w (plug c t) → fixable (S fuel) t →
  (tweight rr >? tweight l) = true →
  wp (rot_left (Some b);; fixup fuel (Some b)) w (λ _ w',
    wf w' (plug c (on_left (fixup_s fuel) (rot_left_s t))) ∧ meta w' = meta w).
Proof.
  intros t IH Hwf Hfix Hlt. subst t.
  eapply wp_bind; [by apply rot_left_run|]. intros [] w1 [Hwf1 Hm1].
  apply fixable_rot_left, fixable_l in Hfix; [|done].
  cbn [rot_left_s] in *.
  eapply wp_mono; [by eapply (fixup_spec_left fuel w1 c)|].
  intros [] w2 [Hwf2 Hm2]. split; [exact Hwf2|congruence].
Qed.

Lemma fixup_single_right fuel w c b ll kb vb wb d lr kd vd wd r :
  let t := Bin d (Bin b ll kb vb wb lr) kd vd wd r in
  fixup_spec fuel → wf w (plug c t) → fixable (S fuel) t →
  (tweight ll >? tweight r) = true →
  wp (rot_right (Some d);; fixup fuel (Some d)) w (λ _ w',
    wf w' (plug c (on_right (fixup_s fuel) (rot_right_s t))) ∧ meta w' = meta w).
Proof.
  intros t IH Hwf Hfix Hlt. subst t.
  eapply wp_bind; [by apply rot_right_run|]. intros [] w1 [Hwf1 Hm1].
  apply fixable_rot_right, fixable_r in Hfix; [|done].
  cbn [rot_right_s] in *.
  eapply wp_mono; [by eapply (fixup_spec_right fuel w1 c)|].
  intros [] w2 [Hwf2 Hm2]. split; [exact Hwf2|congruence].
Qed.

Lemma fixup_double_left fuel w c b l kb vb wb d C kd vd wd rr :
  let t := Bin b l kb vb wb (Bin d C kd vd wd rr) in
  fixup_spec fuel → wf w (plug c t) → fixable (S fuel) t →
  (tweight C >? tweight l) = true →
  wp (rot_right (Some d);; rot_left (Some b);;
      tr ← rd rlink (Some d);
      when_ (nonnull tr) (fixup fuel tr);; fixup fuel (Some b)) w (λ _ w',
    wf w' (plug c (on_left (fixup_s fuel)
                     (on_right (on_right (fixup_s fuel)) (rot_rl_s t))))
    ∧ meta w' = meta w).
Proof.
  intros t IH Hwf Hfix Hlt. subst t.
  pose proof (heavier_not_Leaf _ _ (proj1 (weights_ok_sub _ _ _ _ _ _
    (proj1 (proj2 Hfix)))) Hlt) as HC.
  apply fixable_rot_rl in Hfix; [|done].
  destruct C as [|c0 C1 kc vc wc C2]; [done|].
  cbn [rot_rl_s rot_right_s rot_left_s on_right on_left] in *.
  eapply wp_bind; [by apply (rot_right_run w (FR b l kb vb wb :: c))|].
  intros [] w1 [Hwf1 Hm1]. cbn [rot_right_s plug fill] in Hwf1.
  eapply wp_bind; [by apply rot_left_run|].
  intros [] w2 [Hwf2 Hm2]. cbn [rot_left_s tweight] in Hwf2.
  eapply wp_bind_run; [by eapply (rd_rlink_wf w2 (FR _ _ _ _ _ :: c))|].
  eapply wp_bind.
  { eapply (fixup_spec_when fuel w2 (FR _ _ _ _ _ :: FR _ _ _ _ _ :: c));
      [done|exact Hwf2|]. eapply fixable_r, fixable_r, Hfix. }
  intros [] w3 [Hwf3 Hm3]. cbn [plug fill] in Hwf3.
  eapply wp_mono; [eapply (fixup_spec_left fuel w3 c); [done|exact Hwf3|]|].
  { eapply fixable_l, Hfix. }
  intros [] w4 [Hwf4 Hm4]. split; [exact Hwf4|congruence].
Qed.

Lemma fixup_double_right fuel w c b ll kb vb wb d C kd vd wd r :
  let t := Bin d (Bin b ll kb vb wb C) kd vd wd r in
  fixup_spec fuel → wf w (plug c t) → fixable (S fuel) t →
  (tweight C >? tweight r) = true →
  wp (rot_left (Some b);; rot_right (Some d);;
      tl ← rd llink (Some b);
      when_ (nonnull tl) (fixup fuel tl);; fixup fuel (Some d)) w (λ _ w',
    wf w' (plug c (on_right (fixup_s fuel)
                     (on_left (on_left (fixup_s fuel)) (rot_lr_s t))))
    ∧ meta w' = meta w).
Proof.
  intros t IH Hwf Hfix Hlt. subst t.
  pose proof (heavier_not_Leaf _ _ (proj2 (weights_ok_sub _ _ _ _ _ _
    (proj1 (proj2 Hfix)))) Hlt) as HC.
  apply fixable_rot_lr in Hfix; [|done].
  destruct C as [|c0 C1 kc vc wc C2]; [done|].
  cbn [rot_lr_s rot_right_s rot_left_s on_right on_left] in *.
  eapply wp_bind; [by apply (rot_left_run w (FL d kd vd wd r :: c))|].
  intros [] w1 [Hwf1 Hm1]. cbn [rot_left_s plug fill] in Hwf1.
  eapply wp_bind; [by apply rot_right_run|].
  intros [] w2 [Hwf2 Hm2]. cbn [rot_right_s tweight] in Hwf2.
  eapply wp_bind_run; [by eapply (rd_llink_wf w2 (FL _ _ _ _ _ :: c))|].
  eapply wp_bind.
  { eapply (fixup_spec_when fuel w2 (FL _ _ _ _ _ :: FL _ _ _ _ _ :: c));
      [done|exact Hwf2|]. eapply fixable_l, fixable_l, Hfix. }
  intros [] w3 [Hwf3 Hm3]. cbn [plug fill] in Hwf3.
  eapply wp_mono; [eapply (fixup_spec_right fuel w3 c); [done|exact Hwf3|]|].
  { eapply fixable_r, Hfix. }
  intros [] w4 [Hwf4 Hm4]. split; [exact Hwf4|congruence].
Qed.

(** ** [fixup] *)

Lemma fixup_run fuel : fixup_spec fuel.
Proof.
  induction fuel as [|fuel IH]; intros w c t Hwf Hne Hfix;
    [destruct Hfix as (_&_&?); lia|].
  destruct t as [|b l kb vb wb r]; [done|]. clear Hne.
  pose proof Hwf as (Hroot & Hctx & (Hb & Hl & Hr) & Hnd & Hdom)%wf_plug.
  pose proof Hfix as (Hfit & Hok & _).
  cbn [fixup fixup_s ptr_of]. do 5 step.
  destruct (tweight r >? tweight l) eqn:H1.
  - destruct r as [|d rl kd vd wd rr]; [weigh; lia|]. destruct Hr as (Hd & Hrl & Hrr).
    cbn [ptr_of] in *. do 2 step. destruct (tweight rr >? tweight l) eqn:H2.
    + by apply fixup_single_left.
    + do 2 step. destruct (tweight rl >? tweight l) eqn:H3; [|by apply wp_ret].
      step. by apply fixup_double_left.
  - destruct (tweight l >? tweight r) eqn:H2; [|by apply wp_ret].
    destruct l as [|d ll kd vd wd lr]; [weigh; lia|]. destruct Hl as (Hd & Hll & Hlr).
    cbn [ptr_of] in *. do 2 step. destruct (tweight ll >? tweight r) eqn:H3.
    + by apply fixup_single_right.
    + do 2 step. destruct (tweight lr >? tweight r) eqn:H4; [|by apply wp_ret].
      step. by apply fixup_double_right.
Qed.

(** The macro [FIXUP] gives enough fuel: on the subtree at a position of a
    well-formed tree it computes [rebalance]. *)
Lemma FIXUP_run w c t :
  wf w (plug c t) → t ≠ Leaf → fits (plug c t) → weights_ok t →
  wp (FIXUP (ptr_of t)) w (λ _ w',
    wf w' (plug c (rebalance t)) ∧ meta w' = meta w).
Proof.
  intros Hwf Hne Hfit Hok.
  assert (fixable (fixup_fuel w) t) as Hfix.
  { pose proof (nnodes_plug_le c t). unfold fits in Hfit.
    apply fixable_sq; [unfold fits; lia|done|].
    unfold fixup_fuel. rewrite (wf_size _ _ Hwf). nia. }
  destruct (fixup_run _ w c t Hwf Hne Hfix) as (a & w' & Hrun & HQ).
  exists a, w'. by rewrite FIXUP_fixup, <- (fixup_s_rebalance _ _ Hfix).
Qed.

Lemma FIXUP_run_Bin w c a l k v wt r :
  let t := Bin a l k v wt r in
  wf w (plug c t) → fits (plug c t) → weights_ok t →
  wp (FIXUP (Some a)) w (λ _ w',
    wf w' (plug c (rebalance t)) ∧ meta w' = meta w).
Proof. intros t ???. by apply (FIXUP_run w c t). Qed.

(** At a settled node [fixup] reads the weights and returns: it writes
    nothing. *)
Lemma fixup_settled fuel w c a l k v wt r :
  wf w (plug c (Bin a l k v wt r)) → weights_ok (Bin a l k v wt r) →
  balanced_at l r = true →
  fixup (S fuel) (Some a) w = Some (tt, w).
Proof.
  intros Hwf Hok Hbal.
  cut (wp (fixup (S fuel) (Some a)) w (λ _ w', w' = w)).
  { by intros ([] & w' & -> & ->). }
  pose proof Hwf as (Hroot & Hctx & (Hb & Hl & Hr) & Hnd & Hdom)%wf_plug.
  unfold balanced_at in Hbal. cbn [fixup]. do 5 step.
  destruct (tweight r >? tweight l) eqn:H1.
  - destruct r as [|d rl kd vd wd rr]; [weigh; lia|]. destruct Hr as (Hd & Hrl & Hrr).
    apply andb_prop in Hbal. cbn [ptr_of] in *. do 2 step.
    destruct (tweight rr >? tweight l) eqn:H2; [lia|]. do 2 step.
    destruct (tweight rl >? tweight l) eqn:H3; [lia|]. by apply wp_ret.
  - destruct (tweight l >? tweight r) eqn:H2; [|by apply wp_ret].
    destruct l as [|d ll kd vd wd lr]; [weigh; lia|]. destruct Hl as (Hd & Hll & Hlr).
    apply andb_prop in Hbal. cbn [ptr_of] in *. do 2 step.
    destruct (tweight ll >? tweight r) eqn:H3; [lia|]. do 2 step.
    destruct (tweight lr >? tweight r) eqn:H4; [lia|]. by apply wp_ret.
Qed.

(** ** The theorems *)

(** C5: [fixup], called with fuel above the internal path length of the
    subtree at the node, on a well-formed tree whose subtree there has exact
    weights that fit the word, returns: it does not run out of fuel and
    dereferences no [NULL].  The world it leaves is well formed for the tree
    with [rebalance] applied at the node; the count, the comparator, the
    deleter and the deletion log are unchanged. *)
Theorem fixup_refines fuel w c t :
  wf w (plug c t) → t ≠ Leaf → fits t → weights_ok t → (ipl t < fuel)%nat →
  wp (fixup fuel (ptr_of t)) w (λ _ w',
    wf w' (plug c (rebalance t)) ∧ meta w' = meta w).
Proof.
  intros Hwf Hne Hfit Hok Hfuel.
  assert (fixable fuel t) as Hfix by done.
  rewrite <- (fixup_s_rebalance _ _ Hfix). by apply fixup_run.
Qed.

(** C8: the fuel that the macro [FIXUP] takes from the size of the store is
    enough at every node of every well-formed tree: [FIXUP] returns a world
    that is well formed for the tree rebalanced at the node, with the same
    nodes, keys and data in the same symmetric order. *)
Theorem FIXUP_total w c t :
  wf w (plug c t) → t ≠ Leaf → fits (plug c t) → weights_ok t →
  ∃ w', FIXUP (ptr_of t) w = Some (tt, w') ∧
    wf w' (plug c (rebalance t)) ∧ meta w' = meta w ∧
    inorder (plug c (rebalance t)) = inorder (plug c t).
Proof.
  intros Hwf Hne Hfit Hok.
  destruct (FIXUP_run w c t) as ([] & w' & Hrun & Hwf' & Hmeta); [done..|].
  exists w'. split_and!; [done..|]. apply inorder_plug_ext, inorder_fixup_s.
Qed.

(** C13: when [FIXUP] returns, the node it was given is settled: it is in
    the tree with the key and the datum it had, over a subtree with exact
    weights, and neither a single nor a double rotation applies at it (the
    heavier child has no subtree heavier than the lighter child).  [FIXUP]
    at the node again reads the weights and changes nothing. *)
Theorem FIXUP_settles w c a l k v wt r :
  let t := Bin a l k v wt r in
  wf w (plug c t) → fits (plug c t) → weights_ok t →
  ∃ w', FIXUP (Some a) w = Some (tt, w') ∧
    (∃ c' l' wt' r', wf w' (plug c' (Bin a l' k v wt' r')) ∧
       weights_ok (Bin a l' k v wt' r') ∧ balanced_at l' r' = true) ∧
    FIXUP (Some a) w' = Some (tt, w').
Proof.
  intros t Hwf Hfit Hok. subst t.
  destruct (FIXUP_run_Bin w c a l k v wt r) as ([] & w' & Hrun & Hwf' & _); [done..|].
  destruct (rebalance_settles a l k v wt r) as (c1 & l' & wt' & r' & Ht & Hok' & Hbal);
    [pose proof (nnodes_plug_le c (Bin a l k v wt r)); unfold fits in *; lia|done|].
  rewrite Ht, <- plug_app in Hwf'.
  exists w'. split_and!; [done|by exists (c1 ++ c), l', wt', r'|].
  rewrite FIXUP_fixup. by eapply fixup_settled.
Qed.

(** C12: the macro [FIXUP], which repeats the body of [fixup] where it is
    used, and the function [fixup] are the same computation: on every node
    and every state, well formed or not, and in every build, the expansion
    of the macro returns what the function returns with the same fuel and
    has no result where the function has none (the assertion of the
    function, which the macro does not repeat, fails only where the macro
    reads a field of [NULL]), and [FIXUP] is [fixup] with the fuel taken
    from the size of the store. *)
Theorem FIXUP_expands_fixup (fuel : nat) (node : ptr) (w : world K V) :
  FIXUP_again fuel node w = fixup fuel node w ∧
  FIXUP node w = fixup (fixup_fuel w) node w.
Proof. split; [apply FIXUP_again_fixup|apply FIXUP_fixup]. Qed.

End FixupProofs.

(** ** Instances on concrete worlds *)

#[local] Existing Instance debug_build.

Lemma fixup_refines_witness :
  wp (fixup 4 (Some 1%positive)) zigzag3 (λ _ w',
    wf w' (Bin 3 (Bin 1 Leaf 10 100 2 Leaf) 20 200 4 (Bin 2 Leaf 30 300 2 Leaf))
    ∧ meta w' = meta zigzag3).
Proof.
  apply (fixup_refines 4 zigzag3 [] zigzag3_s zigzag3_wf); [done|..].
  - by vm_compute.
  - by vm_compute.
  - vm_compute. lia.
Defined.

Lemma FIXUP_settles_witness :
  ∃ w', FIXUP (Some 1%positive) right3 = Some (tt, w') ∧
    (∃ c' l' wt' r', wf w' (plug c' (Bin 1 l' 10 100 wt' r')) ∧
       weights_ok (Bin 1 l' 10 100 wt' r') ∧ balanced_at l' r' = true) ∧
    FIXUP (Some 1%positive) w' = Some (tt, w').
Proof.
  apply (FIXUP_settles right3 [] 1 Leaf 10 100 4
           (Bin 2 Leaf 20 200 3 (Bin 3 Leaf 30 300 2 Leaf)) right3_wf);
    by vm_compute.
Defined.

Lemma FIXUP_total_witness :
  ∃ w', FIXUP (Some 2%positive) right3 = Some (tt, w') ∧
    wf w' (Bin 1 Leaf 10 100 4 (Bin 2 Leaf 20 200 3 (Bin 3 Leaf 30 300 2 Leaf)))
    ∧ meta w' = meta right3 ∧
    inorder right3_s = inorder right3_s.
Proof.
  apply (FIXUP_total right3 [FR 1 Leaf 10 100 4]
           (Bin 2 Leaf 20 200 3 (Bin 3 Leaf 30 300 2 Leaf)) right3_wf); [done|..].
  - by vm_compute.
  - by vm_compute.
Defined.
