(* ===== verification/SearchProofs.v ===== *)
(** * [pr_tree_search] finds the entry

    [pr_tree_search] and [pr_tree_csearch] of pr_tree.c, on a well-formed
    tree, return what the descent [lookup_s] finds and change nothing; the
    fuel taken from the size of the store is enough.  On a search tree this
    is the datum of the entry of the abstract dictionary equal to the key. *)

From Stdlib Require Import ZArith Lia.
From stdpp Require Import base tactics option list gmap.
From S2P Require Import Prelude Contract Assoc Node Rotate Tree Shape Examples.
From S2P Require Import Bst Exec.

#[local] Open Scope Z_scope.

Section SearchProofs.
Context {build : Build} {K V : Type}.
Implicit Types (k : K) (t : shape K V) (w : world K V) (tr : pr_tree K).

Lemma search_loop_run fuel k w p t tr :
  tree w = Some tr → rep (nodes w) p t → (nnodes t < fuel)%nat →
  search_loop fuel k (ptr_of t) w = Some (lookup_s (key_cmp tr) k t, w).
Proof.
  intros Htr. revert p t. induction fuel as [|fuel IH]; intros p t Hrep Hlt; [lia|].
  destruct t as [|a l nk v wt r]; [done|]. destruct Hrep as (Ha & Hl & Hr).
  cbn [search_loop ptr_of nonnull lookup_s nnodes] in *. do 2 step.
  destruct (key_cmp tr k nk <? 0); [step; eapply IH; [done|lia]|].
  destruct (key_cmp tr k nk >? 0); [step; eapply IH; [done|lia]|].
  by step.
Qed.

Lemma pr_tree_search_run k w t tr :
  wf w t → tree w = Some tr →
  pr_tree_search k w = Some (lookup_s (key_cmp tr) k t, w).
Proof.
  intros Hwf Htr. unfold pr_tree_search.
  rewrite (bind_run _ _ _ _ _ (rd_tree_root_wf _ _ Hwf)). step.
  eapply search_loop_run; [done|apply Hwf|].
  unfold path_fuel. rewrite (wf_size _ _ Hwf). lia.
Qed.

(** ** The theorems *)

(** C4: on a well-formed search tree [pr_tree_search] returns the datum of
    the entry that compares equal to the key, and [NULL] when there is none;
    it returns with the fuel it takes and leaves the world as it was.
    [pr_tree_csearch] is the same function. *)
Theorem pr_tree_search_correct cmp `{!Comparator cmp} k w t :
  wf w t → key_cmp <$> tree w = Some cmp → bst cmp t →
  pr_tree_search k w = Some (assoc cmp k (inorder t), w) ∧
  pr_tree_csearch k w = pr_tree_search k w.
Proof.
  intros Hwf Hcmp Hbst. split; [|done].
  destruct (tree w) as [tr|] eqn:Htr; [|done]. injection Hcmp as <-.
  rewrite (pr_tree_search_run k w t tr Hwf Htr). by rewrite lookup_s_assoc.
Qed.

End SearchProofs.

(** ** Instances on concrete worlds *)

#[local] Existing Instance debug_build.

Lemma pr_tree_search_correct_witness :
  pr_tree_search 30 full3 = Some (Some 300, full3) ∧
  pr_tree_csearch 30 full3 = pr_tree_search 30 full3.
Proof.
  apply (pr_tree_search_correct Z_cmp 30 full3 full3_s full3_wf); [done|].
  unfold bst. vm_compute. repeat constructor.
Defined.
