(* ===== verification/InsertProofs.v ===== *)
(** * [pr_tree_insert] inserts

    [pr_tree_insert] of pr_tree.c on a tree that satisfies the invariant:
    the descent ends where [path] ends, an existing key is left alone or
    overwritten (with the deleter called on the old pair), a new key gets a
    node from the allocator, linked under the last node of the descent, and
    the loop back to the root increments the weights and rebalances each
    ancestor as [insert_up] does.  The result satisfies the invariant and
    represents [put_entry] of the dictionary before; the fuel taken from the
    size of the store is enough for both loops. *)

From Stdlib Require Import ZArith Lia.
From stdpp Require Import base tactics option list gmap sorting.
From S2P Require Import Prelude Contract Assoc Node Rotate Tree Shape Zipper Examples Bst Inv.
From S2P Require Import ShapeOps Fuel InsertShape Exec RotateProofs FixupProofs SearchProofs.
#[local] Open Scope Z_scope.

Section InsertProofs.
Context {build : Build} {K V : Type}.
Implicit Types (k : K) (v d : V) (t l r : shape K V) (c : list (frame K V)).
Implicit Types (f : frame K V) (w : world K V) (tr : pr_tree K).

(** ** The descent *)

Lemma insert_loop_run k d ow w tr fuel : ∀ c t rv,
  tree w = Some tr → rep (nodes w) (ctx_parent c) t → (nnodes t < fuel)%nat →
  insert_loop fuel k d ow rv (ctx_parent c) (ptr_of t) w =
  match path (key_cmp tr) k rv c t with
  | (rv', c', Leaf) => Some (inr (rv', ctx_parent c'), w)
  | (_, _, Bin a _ _ _ _ _) =>
      if ow =? 0 then Some (inl 1, w)
      else (call_del_func (Some a);; wr (set_key k) (Some a);;
            wr (set_datum d) (Some a);; mret (inl 0)) w
  end.
Proof.
  induction fuel as [|fuel IH]; intros c t rv Htr Hrep Hlt; [lia|].
  destruct t as [|a l nk v wt r]; [done|]. destruct Hrep as (Ha & Hl & Hr).
  cbn [insert_loop ptr_of nonnull path nnodes] in *. do 2 step.
  destruct (key_cmp tr k nk <? 0).
  { step. by apply (IH (FL a nk v wt r :: c)); [..|lia]. }
  destruct (key_cmp tr k nk >? 0).
  { step. by apply (IH (FR a l nk v wt :: c)); [..|lia]. }
  by destruct (ow =? 0).
Qed.

(** The descent from the root, with the fuel [pr_tree_insert] takes. *)
Lemma insert_descent_run k d ow w t tr :
  wf w t → tree w = Some tr →
  insert_loop (path_fuel w) k d ow 0 NULL (ptr_of t) w =
  match path (key_cmp tr) k 0 [] t with
  | (rv', c', Leaf) => Some (inr (rv', ctx_parent c'), w)
  | (_, _, Bin a _ _ _ _ _) =>
      if ow =? 0 then Some (inl 1, w)
      else (call_del_func (Some a);; wr (set_key k) (Some a);;
            wr (set_datum d) (Some a);; mret (inl 0)) w
  end.
Proof.
  intros Hwf Htr. apply (insert_loop_run k d ow w tr _ [] t 0 Htr); [apply Hwf|].
  unfold path_fuel. rewrite (wf_size _ _ Hwf). lia.
Qed.

(** ** The key is there and [overwrite] is set *)

Lemma insert_overwrite_run w c a l nk v wt r k d tr :
  wf w (plug c (Bin a l nk v wt r)) → tree w = Some tr →
  wp (call_del_func (Some a);; wr (set_key k) (Some a);;
      wr (set_datum d) (Some a);; mret (inl 0 : Z + Z * ptr)) w (λ ret w',
    ret = inl 0 ∧ wf w' (plug c (Bin a l k d wt r)) ∧ tree w' = tree w ∧
    del_log w' = del_log w ++ if del_func tr then [(nk, v)] else []).
Proof.
  intros Hwf Htr. pose proof Hwf as (_ & _ & (Ha & _) & _)%wf_plug.
  eapply wp_bind_run; [by eapply call_del_func_run|].
  set (w0 := if del_func tr then _ else w).
  assert (nodes w0 = nodes w ∧ tree w0 = tree w ∧
          del_log w0 = del_log w ++ if del_func tr then [(nk, v)] else [])
    as (Hn0 & Ht0 & Hl0).
  { subst w0. destruct (del_func tr); [done|]. by rewrite app_nil_r. }
  assert (wf w0 (plug c (Bin a l nk v wt r))) as Hwf0
    by (eapply wf_ext; [done|by rewrite Ht0|done]).
  rewrite <- Hn0 in Ha. steps. split_and!; [done| |done..].
  apply (wf_set_node _ c a l k v wt r k d wt).
  by apply (wf_set_node _ c a l nk v wt r k v wt).
Qed.

(** ** The walk up *)

Lemma insert_fixup_loop_run c : ∀ fuel t w,
  wf w (plug c t) → fits (plug c t) → weights_ok t →
  ctx_weights 1 c (tweight t) → (length c < fuel)%nat →
  wp (insert_fixup_loop fuel (ctx_parent c)) w (λ _ w',
    wf w' (insert_up c t) ∧ meta w' = meta w).
Proof.
  induction c as [|f c IH]; intros fuel t w Hwf Hfit Hok Hc Hlen;
    (destruct fuel as [|fuel]; [cbn in Hlen; lia|]).
  { by apply wp_ret. }
  destruct (insert_up_step f c t Hfit Hok Hc) as (Hok1 & Hfit1 & Hok2 & Hfit2 & Hc2).
  cbn [insert_fixup_loop ctx_parent nonnull insert_up plug length] in *.
  destruct f as [a k v wt r|a l k v wt]; cbn [fill frame_addr bump] in *;
    pose proof Hwf as (_ & _ & (Hcell & _) & _)%wf_plug;
    do 3 step;
    (eapply wp_bind; [eapply (FIXUP_run_Bin _ c); [by eapply wf_set_node|done..]|]);
    intros [] w1 [Hwf1 Hm1];
    (eapply wp_mono; [by apply IH; [..|lia]|]);
    intros [] w2 [? Hm2]; (split; [done|by rewrite Hm2, Hm1]).
Qed.

(** The walk up from the parent of a new node, with the fuel taken from the
    store. *)
Lemma insert_walk_up_run w f c t :
  wf w (plug (f :: c) t) → fits (plug (f :: c) t) → weights_ok t →
  ctx_weights 1 (f :: c) (tweight t) →
  wp (insert_fixup_loop (path_fuel w) (Some (frame_addr f))) w (λ _ w',
    wf w' (insert_up (f :: c) t) ∧ meta w' = meta w).
Proof.
  intros Hwf ???. apply (insert_fixup_loop_run (f :: c)); [done..|].
  unfold path_fuel. rewrite (wf_size _ _ Hwf), nnodes_plug_add.
  pose proof (length_ctx_addrs (f :: c)). lia.
Qed.

(** ** Linking the new node *)

Lemma link_child_run w f c hole x rv :
  rep_ctx (nodes w) (f :: c) hole → rv_side rv (f :: c) →
  (if rv <? 0 then wr (set_llink x) (Some (frame_addr f))
   else wr (set_rlink x) (Some (frame_addr f))) w = Some (tt, set_hole (f :: c) x w).
Proof.
  intros (Hf & _) Hrv. destruct f; cbn in Hrv, Hf |- *.
  - destruct (Z.ltb_spec rv 0); [|lia]. by rewrite (wr_run _ _ _ _ Hf).
  - destruct (Z.ltb_spec rv 0); [lia|]. by rewrite (wr_run _ _ _ _ Hf).
Qed.

(** The frames of a context are not touched by a write to a fresh address. *)
Lemma rep_ctx_fresh w c a n :
  wf w (plug c Leaf) → nodes w !! a = None →
  rep_ctx (<[a:=n]> (nodes w)) c NULL.
Proof.
  intros Hwf Hfresh. pose proof Hwf as (_ & Hctx & _)%wf_plug.
  apply rep_ctx_insert_ne; [|done]. intros Hin.
  apply (wf_lookup_elem _ _ a) in Hwf as [_ Hwf].
  destruct Hwf as [? Hwf]; [rewrite addrs_plug; set_solver|congruence].
Qed.

Section Alloc.
Context `{!Allocator}.

Lemma link_new_node_NULL k d rv p found w :
  MALLOC (dom (nodes w)) = None → link_new_node k d rv p found w = Some (-1, w).
Proof.
  intros Hm. unfold link_new_node.
  by rewrite (bind_run _ _ _ _ _ (node_new_NULL _ _ _ Hm)).
Qed.

(** The first node of a tree. *)
Lemma link_new_node_root k d rv found w tr a :
  MALLOC (dom (nodes w)) = Some a → wf w Leaf → tree w = Some tr →
  count tr = 0 →
  wp (link_new_node k d rv NULL found) w (λ ret w',
    ret = found ∧ wf w' (Bin a Leaf k d 2 Leaf) ∧
    meta w' = meta (upd_tree (fmap (set_count 1)) w)).
Proof.
  intros Hm Hwf Htr Hcount. unfold link_new_node.
  destruct (node_new_Some k d w a Hm) as [Hnew Hfresh].
  eapply wp_bind_run; [exact Hnew|]. cbn [nonnull negb]. step.
  rewrite upd_nodes_insert_insert.
  pose proof (wf_link_leaf w [] a k d 2 Hwf Hfresh) as Hwf1.
  cbn [ctx_parent nonnull negb set_hole] in *.
  eapply wp_bind_run.
  { apply ASSERT_run. erewrite bind_run; [|by apply rd_tree_run]. by rewrite Hcount. }
  steps. unfold upd_tree at 1 2.
  cbn [tree nodes del_log upd_nodes].
  split_and!; [done| |by unfold meta, upd_tree; cbn; rewrite Htr].
  eapply wf_ext; [| |exact Hwf1]; [done|]. cbn. by rewrite Htr.
Qed.

(** A node under a parent. *)
Lemma link_new_node_child k d rv f c found w tr a :
  let t := Bin a Leaf k d 2 Leaf in
  MALLOC (dom (nodes w)) = Some a →
  wf w (plug (f :: c) Leaf) → tree w = Some tr → rv_side rv (f :: c) →
  weights_ok (plug (f :: c) Leaf) → fits (plug (f :: c) t) →
  wp (link_new_node k d rv (Some (frame_addr f)) found) w (λ ret w',
    ret = found ∧ wf w' (insert_up (f :: c) t) ∧
    meta w' = meta (upd_tree (fmap (set_count (uint (count tr + 1)))) w)).
Proof.
  intros t Hm Hwf Htr Hrv Hok Hfit. unfold link_new_node.
  destruct (node_new_Some k d w a Hm) as [Hnew Hfresh].
  eapply wp_bind_run; [exact Hnew|]. cbn [nonnull negb]. step.
  rewrite upd_nodes_insert_insert.
  pose proof (wf_link_leaf w (f :: c) a k d 2 Hwf Hfresh) as Hwf1.
  eapply wp_bind_run.
  { apply (link_child_run _ f c NULL); [|done]. by apply rep_ctx_fresh. }
  step. eapply wp_bind.
  { apply (insert_walk_up_run _ f c t); [exact Hwf1|done|done|].
    apply (ctx_weights_shift 1 _ 1). by apply weights_ok_plug in Hok as [_ ?]. }
  intros [] w2 [Hwf2 Hm2]. cbn beta.
  destruct (meta_tree _ w2 tr Hm2) as (tr2 & Htr2 & Hc2 & ? & ? & ?); [done|].
  steps. split_and!; [done| |].
  { apply (wf_ext w2); [done| |exact Hwf2]. cbn. by rewrite Htr2. }
  revert Hm2. unfold meta. cbn. rewrite ?Htr, ?Htr2. cbn. by intros [= -> -> -> ->].
Qed.

End Alloc.

(** [link_new_node] under the place the descent ended at. *)
Lemma link_new_node_run `{!Allocator} k d rv c found w tr a :
  let t := Bin a Leaf k d 2 Leaf in
  MALLOC (dom (nodes w)) = Some a →
  wf w (plug c Leaf) → tree w = Some tr → rv_side rv c →
  weights_ok (plug c Leaf) → fits (plug c t) → (c = [] → count tr = 0) →
  wp (link_new_node k d rv (ctx_parent c) found) w (λ ret w',
    ret = found ∧ wf w' (insert_up c t) ∧
    meta w' = meta (upd_tree (fmap (set_count
                (if c is [] then 1 else uint (count tr + 1)))) w)).
Proof.
  intros t ?????? Hcount. destruct c as [|f c].
  - eapply link_new_node_root; [done..|]. by apply Hcount.
  - by apply link_new_node_child.
Qed.

Section Spec.
Context (cmp : dict_compare_func K) `{!Comparator cmp} `{!Allocator}.

(** The count after a node is added. *)
Lemma count_succ c (cnt : Z) :
  cnt = uint (Z.of_nat (nnodes (plug c (Leaf : shape K V)))) →
  (if c is [] then 1 else uint (cnt + 1)) =
  uint (Z.of_nat (S (nnodes (plug c (Leaf : shape K V))))).
Proof.
  intros ->. destruct c as [|f c]; [done|]. unfold uint.
  rewrite wrap_add_l. f_equal. lia.
Qed.

(** The new node, linked where the descent ended. *)
Lemma link_new_node_inv k d ow rv c found w t a :
  inv cmp w t → path cmp k 0 [] t = (rv, c, Leaf) →
  MALLOC (dom (nodes w)) = Some a → Z.of_nat (S (nnodes t)) < ULONG_MAX →
  wp (link_new_node k d rv (ctx_parent c) found) w (λ ret w',
    ret = found ∧ inv cmp w' (insert_s cmp k d ow a t) ∧
    del_func <$> tree w' = del_func <$> tree w ∧ del_log w' = del_log w).
Proof.
  intros Hinv Hp Hm Hroom.
  destruct (inv_tree _ _ _ Hinv) as (tr & Htr & Hroot & Hcmp & Hcount).
  destruct Hinv as [Hwf Hbst Hok Hfit _ _].
  pose proof (path_entry cmp _ _ _ _ _ Hp Hbst) as He.
  set (t' := insert_s _ _ _ _ _ _).
  assert (fits t') as Hfit' by (by apply fits_insert_s).
  assert (nnodes t' = S (nnodes t)) as Hn
    by (unfold t'; by rewrite nnodes_insert_s, He).
  pose proof (bst_insert_s cmp k d ow a t Hbst) as Hbst'.
  pose proof (weights_ok_insert_s cmp k d _ a t Hfit' Hok) as Hok'.
  fold t' in Hbst', Hok'. revert Hfit' Hn Hbst' Hok'. subst t'.
  unfold insert_s. rewrite Hp. intros Hfit' Hn Hbst' Hok'.
  pose proof (path_rv_side _ _ _ _ _ _ _ Hp I) as Hside.
  apply path_plug in Hp. cbn [plug] in Hp. subst t.
  eapply wp_mono; [apply (link_new_node_run k d rv c found w tr a)|]; try done.
  { unfold fits in *. by rewrite <- nnodes_insert_up. }
  { intros ->. by rewrite Hcount. }
  intros ret w' (-> & Hwf' & Hm').
  destruct (meta_tree _ w' (set_count (if c is [] then 1 else uint (count tr + 1)) tr) Hm')
    as (tr' & Htr' & Hc' & Hk' & Hd' & Hl'); [by cbn; rewrite Htr|].
  split_and!; [done| |by rewrite Htr', Htr; cbn; f_equal|done].
  eapply inv_intro; try done; [by rewrite Hk'|].
  rewrite Hc', Hn. by apply count_succ.
Qed.

Lemma pr_tree_insert_new_run k d ow w t a :
  inv cmp w t → entry cmp k (inorder t) = None →
  MALLOC (dom (nodes w)) = Some a → Z.of_nat (S (nnodes t)) < ULONG_MAX →
  wp (pr_tree_insert k d ow) w (λ ret w',
    ret = 0 ∧ inv cmp w' (insert_s cmp k d (negb (ow =? 0)) a t) ∧
    del_func <$> tree w' = del_func <$> tree w ∧ del_log w' = del_log w).
Proof.
  intros Hinv He Hm Hroom.
  destruct (inv_tree _ _ _ Hinv) as (tr & Htr & Hroot & Hcmp & Hcount).
  destruct (path_new cmp k t (inv_bst _ _ _ Hinv) He) as (rv & c & Hp & _ & _).
  unfold pr_tree_insert.
  eapply wp_bind_run; [by eapply rd_tree_root_wf, inv_wf|]. step.
  eapply wp_bind_run.
  { rewrite (insert_descent_run _ _ _ _ _ _ (inv_wf _ _ _ Hinv) Htr).
    by rewrite Hcmp, Hp. }
  by apply link_new_node_inv.
Qed.

Lemma pr_tree_insert_keep_run k d w t e :
  inv cmp w t → entry cmp k (inorder t) = Some e →
  pr_tree_insert k d 0 w = Some (1, w).
Proof.
  intros Hinv He. destruct e as [k0 v0].
  destruct (inv_tree _ _ _ Hinv) as (tr & Htr & Hroot & Hcmp & Hcount).
  destruct Hinv as [Hwf Hbst _ _ _ _].
  destruct (path_old cmp k t k0 v0 Hbst He) as (rv & c & a & l & wt & r & Hp & _).
  unfold pr_tree_insert. rewrite (bind_run _ _ _ _ _ (rd_tree_root_wf _ _ Hwf)).
  step. rewrite (bind_run _ _ _ (inl 1) w); [done|].
  rewrite (insert_descent_run _ _ _ _ _ _ Hwf Htr). by rewrite Hcmp, Hp.
Qed.

Lemma pr_tree_insert_overwrite_run k d ow w t a0 k0 v0 (df : bool) :
  inv cmp w t → entry cmp k (inorder t) = Some (k0, v0) → ow ≠ 0 →
  del_func <$> tree w = Some df →
  wp (pr_tree_insert k d ow) w (λ ret w',
    ret = 0 ∧ inv cmp w' (insert_s cmp k d true a0 t) ∧
    tree w' = tree w ∧ del_log w' = del_log w ++ if df then [(k0, v0)] else []).
Proof.
  intros Hinv He How Hdf.
  destruct (inv_tree _ _ _ Hinv) as (tr & Htr & Hroot & Hcmp & Hcount).
  destruct Hinv as [Hwf Hbst Hok Hfit _ _].
  assert (fits (insert_s cmp k d true a0 t)) as Hfit'
    by (by apply fits_insert_s; [..|rewrite He]).
  pose proof (bst_insert_s cmp k d true a0 t Hbst) as Hbst'.
  pose proof (weights_ok_insert_s cmp k d _ a0 t Hfit' Hok) as Hok'.
  pose proof (nnodes_insert_s cmp k d true a0 t Hbst) as Hn. rewrite He in Hn.
  revert Hfit' Hbst' Hok' Hn. unfold insert_s.
  destruct (path_old cmp k t k0 v0 Hbst He) as (rv & c & a & l & wt & r & Hp & Hplug).
  rewrite Hp. intros Hfit' Hbst' Hok' Hn. unfold pr_tree_insert.
  eapply wp_bind_run; [by apply rd_tree_root_wf|]. step.
  eapply wp_bind.
  { unfold wp. rewrite (insert_descent_run _ _ _ _ _ _ Hwf Htr), Hcmp, Hp.
    apply Z.eqb_neq in How as ->. rewrite <- Hplug in Hwf.
    apply (insert_overwrite_run _ _ _ _ _ _ _ _ k d tr Hwf Htr). }
  intros ? w' (-> & Hwf' & Htr' & Hlog). apply wp_ret.
  rewrite Htr in Hdf. injection Hdf as <-. split_and!; [done| |done..].
  rewrite <- Htr' in Htr. eapply inv_intro; try done. by rewrite Hn.
Qed.

Lemma pr_tree_insert_NULL_run k d ow w t :
  inv cmp w t → entry cmp k (inorder t) = None →
  MALLOC (dom (nodes w)) = None →
  pr_tree_insert k d ow w = Some (-1, w).
Proof.
  intros Hinv He Hm.
  destruct (inv_tree _ _ _ Hinv) as (tr & Htr & Hroot & Hcmp & Hcount).
  destruct Hinv as [Hwf Hbst _ _ _ _].
  destruct (path_new cmp k t Hbst He) as (rv & c & Hp & _ & _).
  unfold pr_tree_insert. rewrite (bind_run _ _ _ _ _ (rd_tree_root_wf _ _ Hwf)).
  step. rewrite (bind_run _ _ _ (inr (rv, ctx_parent c)) w).
  - by apply link_new_node_NULL.
  - rewrite (insert_descent_run _ _ _ _ _ _ Hwf Htr). by rewrite Hcmp, Hp.
Qed.

(** [pr_tree_insert] refines insertion on shapes, on every branch that
    returns 0 or 1.  [a] is the address the allocator gives when the key is
    new. *)
Lemma pr_tree_insert_run k d ow w t a (df : bool) :
  inv cmp w t → del_func <$> tree w = Some df →
  (entry cmp k (inorder t) = None →
   MALLOC (dom (nodes w)) = Some a ∧ Z.of_nat (S (nnodes t)) < ULONG_MAX) →
  wp (pr_tree_insert k d ow) w (λ ret w',
    inv cmp w' (insert_s cmp k d (negb (ow =? 0)) a t) ∧
    ret = (if entry cmp k (inorder t) is Some _ then if ow =? 0 then 1 else 0
           else 0) ∧
    del_func <$> tree w' = Some df ∧
    del_log w' = del_log w ++
      if negb (ow =? 0) && df then option_list (entry cmp k (inorder t)) else []).
Proof.
  intros Hinv Hdf Hnew. destruct (entry cmp k (inorder t)) as [[k0 v0]|] eqn:He.
  - destruct (Z.eqb_spec ow 0) as [->|How]; cbn [negb andb option_list].
    + eapply wp_run; [by eapply pr_tree_insert_keep_run|].
      rewrite app_nil_r, (insert_s_keep cmp _ _ _ _ _ (inv_bst _ _ _ Hinv) He).
      done.
    + eapply wp_mono; [by eapply (pr_tree_insert_overwrite_run _ _ _ _ _ a)|].
      intros ret w' (-> & ? & -> & ->). by destruct df.
  - destruct Hnew as [Hm Hroom]; [done|].
    eapply wp_mono; [by eapply pr_tree_insert_new_run|].
    intros ret w' (-> & ? & Hd & ->). rewrite Hd.
    split_and!; try done. by destruct (negb _ && _); rewrite app_nil_r.
Qed.

(** The address of the new node, if one is needed. *)
Lemma new_node_address k w t :
  (entry cmp k (inorder t) = None →
   is_Some (MALLOC (dom (nodes w))) ∧ Z.of_nat (S (nnodes t)) < ULONG_MAX) →
  ∃ a, entry cmp k (inorder t) = None →
       MALLOC (dom (nodes w)) = Some a ∧ Z.of_nat (S (nnodes t)) < ULONG_MAX.
Proof.
  intros Hnew. destruct (entry cmp k (inorder t)); [by exists 1%positive|].
  destruct Hnew as [[a Ha] ?]; [done|]. by exists a.
Qed.

(** ** The theorems *)

(** C2: [pr_tree_insert] on a tree that satisfies the invariant returns, and
    leaves a tree that satisfies the invariant and represents the dictionary
    with the pair put in: a new key is added at its place (given memory for a
    node and a node count that stays below 2^64 - 1), a key of the tree gets
    the new key and datum when [overwrite] is set, after the deleter was
    called on the old pair, and is left alone otherwise.  The result is 1 for
    a key left alone and 0 otherwise. *)
Theorem pr_tree_insert_refines k d ow w t (df : bool) :
  inv cmp w t → del_func <$> tree w = Some df →
  (entry cmp k (inorder t) = None →
   is_Some (MALLOC (dom (nodes w))) ∧ Z.of_nat (S (nnodes t)) < ULONG_MAX) →
  wp (pr_tree_insert k d ow) w (λ ret w',
    (∃ t', inv cmp w' t' ∧
           inorder t' = put_entry cmp k d (negb (ow =? 0)) (inorder t)) ∧
    ret = (if entry cmp k (inorder t) is Some _ then if ow =? 0 then 1 else 0
           else 0) ∧
    del_func <$> tree w' = Some df ∧
    del_log w' = del_log w ++
      if negb (ow =? 0) && df then option_list (entry cmp k (inorder t)) else []).
Proof.
  intros Hinv Hdf Hnew.
  destruct (new_node_address k w t Hnew) as [a Ha].
  eapply wp_mono; [by apply (pr_tree_insert_run k d ow w t a df)|].
  intros ret w' (Hinv' & ? & ? & ?). split_and!; try done.
  eexists. split; [exact Hinv'|]. apply insert_s_inorder; [done|apply Hinv].
Qed.

(** C6: [pr_tree_search] after [pr_tree_insert] finds the datum inserted
    under the key inserted (the datum that was there when the key is in the
    tree and [overwrite] is 0), and under every other key what it found
    before. *)
Theorem pr_tree_insert_search k d ow k' w t (df : bool) :
  inv cmp w t → del_func <$> tree w = Some df →
  (entry cmp k (inorder t) = None →
   is_Some (MALLOC (dom (nodes w))) ∧ Z.of_nat (S (nnodes t)) < ULONG_MAX) →
  wp (pr_tree_insert k d ow;; pr_tree_search k') w (λ ret _,
    ret = if cmp k' k =? 0
          then Some (if ow =? 0 then default d (assoc cmp k (inorder t)) else d)
          else assoc cmp k' (inorder t)).
Proof.
  intros Hinv Hdf Hnew.
  destruct (new_node_address k w t Hnew) as [a Ha].
  eapply wp_bind; [by apply (pr_tree_insert_run k d ow w t a df)|].
  intros ret w' ([Hwf' Hbst' _ _ Hcmp' _] & _). cbn beta.
  destruct (tree w') as [tr'|] eqn:Htr'; [|done]. injection Hcmp' as Hcmp'.
  eapply wp_run; [by eapply pr_tree_search_run|]. cbn beta.
  pose proof (inv_bst _ _ _ Hinv) as Hbst.
  rewrite Hcmp', lookup_s_assoc, insert_s_inorder by done.
  destruct (Z.eqb_spec (cmp k' k) 0) as [Heq|Hne].
  - rewrite (assoc_proper cmp k' k), assoc_put_entry_eq by done.
    by destruct (ow =? 0).
  - by apply assoc_put_entry_ne.
Qed.

(** [pr_tree_insert] of a key of the tree with [overwrite] 0 returns 1
    and changes nothing: neither the tree nor the log of the deleter. *)
Theorem pr_tree_insert_existing k d w t e :
  inv cmp w t → entry cmp k (inorder t) = Some e →
  pr_tree_insert k d 0 w = Some (1, w).
Proof. apply pr_tree_insert_keep_run. Qed.

End Spec.
End InsertProofs.

(** ** Instances on concrete worlds *)

#[local] Existing Instance debug_build.

Lemma pr_tree_insert_refines_witness :
  wp (pr_tree_insert 25 250 0) full3 (λ ret w',
    (∃ t', inv Z_cmp w' t' ∧
           inorder t' = [(10, 100); (20, 200); (25, 250); (30, 300)]) ∧
    ret = 0 ∧ del_func <$> tree w' = Some false ∧ del_log w' = []).
Proof.
  apply (pr_tree_insert_refines Z_cmp 25 250 0 full3 full3_s false full3_inv);
    [done|]. intros _. split; [by eexists|done].
Defined.

Lemma pr_tree_insert_search_witness :
  wp (pr_tree_insert 25 250 0;; pr_tree_search 25) full3 (λ ret _,
    ret = Some 250).
Proof.
  apply (pr_tree_insert_search Z_cmp 25 250 0 25 full3 full3_s false full3_inv);
    [done|]. intros _. split; [by eexists|done].
Defined.

Lemma pr_tree_insert_existing_witness :
  pr_tree_insert 20 999 0 full3 = Some (1, full3).
Proof.
  by apply (pr_tree_insert_existing Z_cmp 20 999 full3 full3_s (20, 200) full3_inv).
Defined.
