(* ===== verification/ProbeProofs.v ===== *)
(** * [pr_tree_probe] finds or inserts

    [pr_tree_probe] of pr_tree.c on a tree that satisfies the invariant: a
    key of the tree gives its datum through [*datum], result 0, and nothing
    changes; a new key is inserted with the datum [*datum] held on entry, as
    [pr_tree_insert] does, result 1; without memory the result is -1 and
    nothing changes. *)

From Stdlib Require Import ZArith Lia.
From stdpp Require Import base tactics option list gmap sorting.
From S2P Require Import Prelude Contract Assoc Node Rotate Tree Shape Zipper Examples Bst Inv.
From S2P Require Import ShapeOps Fuel InsertShape Exec InsertProofs.

#[local] Open Scope Z_scope.

Section ProbeProofs.
Context {build : Build} {K V : Type}.
Implicit Types (k : K) (v d : V) (t l r : shape K V) (c : list (frame K V)).
Implicit Types (w : world K V) (tr : pr_tree K).

(** ** The descent *)

Lemma probe_loop_run k w tr fuel : ∀ c t rv,
  tree w = Some tr → rep (nodes w) (ctx_parent c) t → (nnodes t < fuel)%nat →
  probe_loop fuel k rv (ctx_parent c) (ptr_of t) w =
  Some (match path (key_cmp tr) k rv c t with
        | (rv', c', Leaf) => inr (rv', ctx_parent c')
        | (_, _, Bin _ _ _ v _ _) => inl v
        end, w).
Proof.
  induction fuel as [|fuel IH]; intros c t rv Htr Hrep Hlt; [lia|].
  destruct t as [|a l nk v wt r]; [done|]. destruct Hrep as (Ha & Hl & Hr).
  cbn [probe_loop ptr_of nonnull path nnodes] in *. do 2 step.
  destruct (key_cmp tr k nk <? 0).
  { step. by apply (IH (FL a nk v wt r :: c)); [..|lia]. }
  destruct (key_cmp tr k nk >? 0).
  { step. by apply (IH (FR a l nk v wt :: c)); [..|lia]. }
  by step.
Qed.

Section Spec.
Context (cmp : dict_compare_func K) `{!Comparator cmp} `{!Allocator}.

(** The descent from the root, with the fuel [pr_tree_probe] takes. *)
Lemma probe_descent_run k d w t :
  inv cmp w t →
  pr_tree_probe k d w =
  match path cmp k 0 [] t with
  | (rv, c, Leaf) =>
      (ret ← link_new_node k d rv (ctx_parent c) 1; mret (ret, d)) w
  | (_, _, Bin _ _ _ v _ _) => Some ((0, v), w)
  end.
Proof.
  intros Hinv. destruct (inv_tree _ _ _ Hinv) as (tr & Htr & _ & Hcmp & _).
  pose proof (inv_wf _ _ _ Hinv) as Hwf. unfold pr_tree_probe.
  rewrite (bind_run _ _ _ _ _ (rd_tree_root_wf _ _ Hwf)). step.
  erewrite bind_run; cycle 1.
  { apply (probe_loop_run k w tr _ [] t 0 Htr); [apply Hwf|].
    unfold path_fuel. rewrite (wf_size _ _ Hwf). lia. }
  rewrite Hcmp. by destruct (path cmp k 0 [] t) as [[rv c] [|a l nk v wt r]].
Qed.

Lemma pr_tree_probe_found_run k d w t k0 v0 :
  inv cmp w t → entry cmp k (inorder t) = Some (k0, v0) →
  pr_tree_probe k d w = Some ((0, v0), w).
Proof.
  intros Hinv He. rewrite (probe_descent_run k d w t Hinv).
  by destruct (path_old cmp k t k0 v0 (inv_bst _ _ _ Hinv) He)
    as (rv & c & a & l & wt & r & -> & _).
Qed.

Lemma pr_tree_probe_NULL_run k d w t :
  inv cmp w t → entry cmp k (inorder t) = None →
  MALLOC (dom (nodes w)) = None →
  pr_tree_probe k d w = Some ((-1, d), w).
Proof.
  intros Hinv He Hm. rewrite (probe_descent_run k d w t Hinv).
  destruct (path_new cmp k t (inv_bst _ _ _ Hinv) He) as (rv & c & -> & _ & _).
  by rewrite (bind_run _ _ _ _ _ (link_new_node_NULL _ _ _ _ _ _ Hm)).
Qed.

Lemma pr_tree_probe_new_run k d w t a :
  inv cmp w t → entry cmp k (inorder t) = None →
  MALLOC (dom (nodes w)) = Some a → Z.of_nat (S (nnodes t)) < ULONG_MAX →
  wp (pr_tree_probe k d) w (λ ret w',
    ret = (1, d) ∧ inv cmp w' (insert_s cmp k d false a t) ∧
    del_func <$> tree w' = del_func <$> tree w ∧ del_log w' = del_log w).
Proof.
  intros Hinv He Hm Hroom. unfold wp. rewrite (probe_descent_run k d w t Hinv).
  destruct (path_new cmp k t (inv_bst _ _ _ Hinv) He) as (rv & c & Hp & _ & _).
  rewrite Hp. eapply wp_bind; [by apply (link_new_node_inv cmp k d false)|].
  intros ret w' (-> & ?). by apply wp_ret.
Qed.

(** ** The theorems *)

(** C11: [pr_tree_probe] on a tree that satisfies the invariant returns; the
    tree after it satisfies the invariant and represents the dictionary with
    the pair put in without overwriting.  For a key of the tree the result is
    0 with the datum of the tree, and the world is as before; for a new key,
    given memory for a node, the result is 1 with the datum passed in. *)
Theorem pr_tree_probe_refines k d w t :
  inv cmp w t →
  (entry cmp k (inorder t) = None →
   is_Some (MALLOC (dom (nodes w))) ∧ Z.of_nat (S (nnodes t)) < ULONG_MAX) →
  wp (pr_tree_probe k d) w (λ ret w',
    (∃ t', inv cmp w' t' ∧ inorder t' = put_entry cmp k d false (inorder t)) ∧
    ret = (if assoc cmp k (inorder t) is Some v then (0, v) else (1, d)) ∧
    (is_Some (assoc cmp k (inorder t)) → w' = w) ∧
    del_func <$> tree w' = del_func <$> tree w ∧ del_log w' = del_log w).
Proof.
  intros Hinv Hnew. pose proof (inv_bst _ _ _ Hinv) as Hbst.
  rewrite assoc_entry.
  destruct (entry cmp k (inorder t)) as [[k0 v0]|] eqn:He; cbn [fmap option_fmap option_map snd].
  - eapply wp_run; [by eapply pr_tree_probe_found_run|]. split_and!; try done.
    exists t. split; [done|].
    by rewrite <- (insert_s_inorder cmp k d false 1%positive),
      (insert_s_keep cmp _ _ _ _ _ Hbst He).
  - destruct Hnew as [[a Hm] Hroom]; [done|].
    eapply wp_mono; [by eapply pr_tree_probe_new_run|].
    intros ret w' (-> & Hinv' & ? & ?). split_and!; try done.
    eexists. split; [exact Hinv'|]. by apply insert_s_inorder.
Qed.

(** C25: [pr_tree_insert] and [pr_tree_probe] of a new key return -1 when
    [MALLOC] returns [NULL]; the tree is as it was, and so is [*datum] of
    the probe. *)
Theorem pr_tree_no_memory k d ow w t :
  inv cmp w t → entry cmp k (inorder t) = None →
  MALLOC (dom (nodes w)) = None →
  pr_tree_insert k d ow w = Some (-1, w) ∧
  pr_tree_probe k d w = Some ((-1, d), w).
Proof.
  intros Hinv He Hm.
  split; [by eapply pr_tree_insert_NULL_run|by eapply pr_tree_probe_NULL_run].
Qed.

End Spec.
End ProbeProofs.

(** ** Instances on concrete worlds *)

#[local] Existing Instance debug_build.

Lemma pr_tree_probe_refines_witness :
  wp (pr_tree_probe 20 999) full3 (λ ret w',
    (∃ t', inv Z_cmp w' t' ∧ inorder t' = [(10, 100); (20, 200); (30, 300)]) ∧
    ret = (0, 200) ∧ (is_Some (Some 200) → w' = full3) ∧
    del_func <$> tree w' = Some false ∧ del_log w' = []).
Proof.
  apply (pr_tree_probe_refines Z_cmp 20 999 full3 full3_s full3_inv). done.
Defined.

Lemma pr_tree_no_memory_witness :
  pr_tree_insert (H:=bounded_allocator 3) 25 250 1 full3 = Some (-1, full3) ∧
  pr_tree_probe (H:=bounded_allocator 3) 25 250 full3 = Some ((-1, 250), full3).
Proof.
  by apply (pr_tree_no_memory (H:=bounded_allocator 3) Z_cmp 25 250 1
              full3 full3_s full3_inv).
Defined.
