(* ===== verification/RemoveProofs.v ===== *)
(** * [pr_tree_remove] removes

    [pr_tree_remove] of pr_tree.c on a tree that satisfies the invariant.
    The loop first descends to the node that holds the key; at that node,
    while it has two children, it rotates the heavier child above it
    ([lift_left_run], [lift_right_run], with the rotation lemmas of
    [RotateProofs]); then the child takes the place of the node
    ([splice_out_run]: the parent pointer of the child, the child pointer of
    the parent or the root, the deleter, [FREE], the decrements of the
    weights up to the root, the count).  The world it leaves holds
    [remove_s] of the tree, which represents [del_entry] of the dictionary;
    the fuel taken from the size of the store is enough. *)

From Stdlib Require Import ZArith Lia.
From stdpp Require Import base tactics option list gmap sorting.
From S2P Require Import Prelude Contract Assoc Node Rotate Tree Shape Zipper Examples Bst Inv.
From S2P Require Import ShapeOps Fuel InsertShape RemoveShape Exec RotateProofs FixupProofs SearchProofs InsertProofs.
#[local] Open Scope Z_scope.

Section RemoveProofs.
Context {build : Build} {K V : Type}.
Implicit Types (k : K) (v d : V) (t l r : shape K V) (c : list (frame K V)).
Implicit Types (f : frame K V) (w : world K V) (tr : pr_tree K).

(** ** The decrements *)

Lemma weight_dec_loop_run c : ∀ fuel t w,
  wf w (plug c t) → (length c < fuel)%nat →
  wp (weight_dec_loop fuel (ctx_parent c)) w (λ _ w',
    wf w' (plug (drop_frame <$> c) t) ∧ meta w' = meta w).
Proof.
  induction c as [|f c IH]; intros fuel t w Hwf Hlen;
    (destruct fuel as [|fuel]; [cbn in Hlen; lia|]).
  { by apply wp_ret. }
  rewrite plug_drop_frame.
  cbn [weight_dec_loop ctx_parent nonnull plug length] in *.
  destruct f as [a k v wt r|a l k v wt]; cbn [fill frame_addr drop] in *;
    pose proof Hwf as (_ & _ & (Hcell & _) & _)%wf_plug;
    do 3 step;
    (eapply wp_mono; [apply IH; [by eapply wf_set_node|lia]|]);
    by intros [] w2 [? ->].
Qed.

(** ** Unlinking a node with at most one child *)

(** The store after the root of [out] got the parent [p]. *)
Definition reparent (p : ptr) (out : shape K V) (w : world K V) : world K V :=
  match out with
  | Leaf => w
  | Bin b l k v wt r => upd_nodes <[b := mk_node k v p (ptr_of l) (ptr_of r) wt]> w
  end.

Lemma wf_unlink w c a l k v wt r out :
  wf w (plug c (Bin a l k v wt r)) →
  (l = Leaf ∧ out = r) ∨ (r = Leaf ∧ out = l) →
  wf (upd_nodes (delete a) (set_hole c (ptr_of out) (reparent (ctx_parent c) out w)))
     (plug c out).
Proof.
  intros (Hroot & Hctx & (Ha & Hl & Hr) & Hnd & Hdom)%wf_plug Hout.
  assert (rep (nodes w) (Some a) out ∧ addrs (Bin a l k v wt r) ≡ₚ a :: addrs out)
    as [Hrep Hperm].
  { destruct Hout as [[-> ->]|[-> ->]]; (split; [done|]); cbn [addrs app]; [done|].
    by rewrite Permutation_app_comm. }
  rewrite Hperm in Hnd. cbn [app] in Hnd. apply NoDup_cons in Hnd as [Ha' Hnd].
  assert ((a ∉ addrs out) ∧ (a ∉ ctx_addrs c)) as [Hao Hac]
    by (by apply not_elem_of_app).
  set (w1 := reparent (ctx_parent c) out w).
  assert (rep_ctx (nodes w1) c (Some a) ∧ rep (nodes w1) (ctx_parent c) out ∧
          dom (nodes w1) = dom (nodes w) ∧ tree w1 = tree w) as (Hctx1 & Hrep1 & Hdom1 & Htr1).
  { subst w1. destruct out as [|b bl bk bv bwt br]; [done|]. cbn [reparent nodes upd_nodes].
    destruct Hrep as (Hb & Hbl & Hbr). cbn [addrs] in *. split_and!.
    - apply rep_ctx_insert_ne; [|done]. intros Hin.
      apply NoDup_app in Hnd as (_ & Hdisj & _). eapply Hdisj; [|done]. set_solver.
    - cbn [rep]. rewrite lookup_insert_eq. split_and!; [done|..];
        (apply rep_insert_ne; [|done]); apply NoDup_app_l in Hnd;
        apply NoDup_app in Hnd as (_ & Hd & (? & _)%NoDup_cons); [|done].
      intros Hin. by eapply Hd; [|left].
    - apply dom_insert_lookup_L. eauto.
    - done. }
  apply wf_plug. split_and!; [|..|done|].
  - cbn [tree upd_nodes]. eapply root_set_hole. by rewrite Htr1.
  - cbn [nodes upd_nodes]. apply rep_ctx_delete_ne; [done|].
    eapply rep_ctx_set_hole; [by eapply NoDup_app_r|done].
  - cbn [nodes upd_nodes]. apply rep_delete_ne; [done|]. by apply rep_set_hole.
  - cbn [nodes upd_nodes]. rewrite dom_delete_L, (dom_set_hole _ _ (Some a)) by done.
    rewrite Hdom1, Hdom. apply set_eq. intros x.
    rewrite elem_of_difference, !elem_of_list_to_set, Hperm. cbn [app].
    rewrite elem_of_cons, elem_of_singleton. split; [naive_solver|].
    intros Hx. split; [by right|]. intros ->. by apply Ha'.
Qed.


Lemma reparent_run w p p' out :
  rep (nodes w) p out →
  when_ (nonnull (ptr_of out)) (wr (set_parent p') (ptr_of out)) w =
  Some (tt, reparent p' out w).
Proof.
  destruct out as [|b bl bk bv bwt br]; [done|]. intros (Hb & _).
  cbn [ptr_of nonnull when_ reparent]. by rewrite (wr_run _ _ _ _ Hb).
Qed.

Lemma lookup_reparent_ne w p out a :
  a ∉ addrs out → nodes (reparent p out w) !! a = nodes w !! a.
Proof.
  destruct out as [|b bl bk bv bwt br]; [done|]. cbn [reparent nodes upd_nodes addrs].
  intros Ha. apply lookup_insert_ne. intros ->. apply Ha. set_solver.
Qed.

(** The tree struct after a relinking. *)
Lemma tree_unlink w c x p out tr :
  tree w = Some tr →
  ∃ tr', tree (set_hole c x (reparent p out w)) = Some tr' ∧
         count tr' = count tr ∧ key_cmp tr' = key_cmp tr ∧ del_func tr' = del_func tr.
Proof.
  intros Htr. assert (tree (reparent p out w) = Some tr) as Htr1 by (by destruct out).
  destruct c as [|f c]; cbn [set_hole tree upd_tree upd_nodes]; rewrite Htr1; eauto.
Qed.

(** The end of both unlinking branches: the weights above the hole and the
    count go down by one. *)
Lemma splice_out_finish w c out tr :
  wf w (plug c out) → tree w = Some tr →
  wp (weight_dec_loop (path_fuel w) (ctx_parent c);;
      n ← rd_tree count; wr_tree (set_count (uint (n - 1)));; mret 0) w (λ ret w',
    ret = 0 ∧ wf w' (plug (drop_frame <$> c) out) ∧
    meta w' = (Some (uint (count tr - 1), key_cmp tr, del_func tr), del_log w)).
Proof.
  intros Hwf Htr. eapply wp_bind.
  { apply (weight_dec_loop_run c _ out w Hwf). unfold path_fuel.
    rewrite (wf_size _ _ Hwf), nnodes_plug_add.
    pose proof (length_ctx_addrs c). lia. }
  intros [] w5 [Hwf5 Hm5]. cbn beta.
  destruct (meta_tree _ w5 tr Hm5 Htr) as (tr5 & Htr5 & Hc5 & Hk5 & Hd5 & Hl5).
  steps. split_and!; [done| |].
  - apply (wf_ext w5); [done| |done]. cbn. by rewrite Htr5.
  - unfold meta. cbn. rewrite Hl5. cbn. by rewrite Hc5, Hk5, Hd5.
Qed.

Lemma splice_out_run w c a l k v wt r out tr :
  wf w (plug c (Bin a l k v wt r)) → tree w = Some tr →
  (l = Leaf ∧ out = r) ∨ (r = Leaf ∧ out = l) →
  wp (splice_out (Some a) (ptr_of out)) w (λ ret w',
    ret = 0 ∧ wf w' (plug (drop_frame <$> c) out) ∧
    meta w' = (Some (uint (count tr - 1), key_cmp tr, del_func tr),
               del_log w ++ if del_func tr then [(k, v)] else [])).
Proof.
  intros Hwf Htr Hout. pose proof (wf_unlink w c a l k v wt r out Hwf Hout) as Hwf'.
  pose proof Hwf as (Hroot & Hctx & (Ha & Hl & Hr) & Hnd & Hdom)%wf_plug.
  assert (rep (nodes w) (Some a) out ∧ NoDup (a :: addrs out ++ ctx_addrs c))
    as (Hrep & Hnd').
  { cbn [addrs] in Hnd. destruct Hout as [[-> ->]|[-> ->]]; (split; [done|distinct]). }
  assert ((a ∉ addrs out) ∧ (a ∉ ctx_addrs c)) as [Hao Hac] by (split; distinct).
  destruct (tree_unlink w c (ptr_of out) (ctx_parent c) out tr Htr)
    as (tr2 & Htr2 & Hc2 & Hk2 & Hd2).
  set (w2 := set_hole c (ptr_of out) (reparent (ctx_parent c) out w)) in *.
  assert (nodes w2 !! a = nodes w !! a) as Ha2.
  { unfold w2. by rewrite lookup_set_hole_ne, lookup_reparent_ne. }
  unfold splice_out. step.
  eapply wp_bind_run; [eapply reparent_run, Hrep|].
  eapply wp_bind_run; [apply rd_run; rewrite lookup_reparent_ne by done; exact Ha|].
  cbn [parent].
  eapply wp_bind_run.
  { apply (replace_child_run _ c); [by destruct out; eexists| |done].
    destruct out; [done|]. cbn [addrs] in Hnd'. apply rep_ctx_insert_ne; [distinct|done]. }
  fold w2. rewrite <- Ha2 in Ha.
  eapply wp_bind_run; [by apply rd_run|]. cbn [parent].
  eapply wp_bind_run; [by eapply call_del_func_run|]. cbn [key datum].
  set (w3 := if del_func tr2 then _ else w2).
  assert (nodes w3 = nodes w2 ∧ tree w3 = tree w2 ∧
          del_log w3 = del_log w ++ if del_func tr then [(k, v)] else [])
    as (Hn3 & Ht3 & Hl3).
  { subst w3. rewrite Hd2. destruct (del_func tr); [by destruct out, c|].
    rewrite app_nil_r. by destruct out, c. }
  eapply wp_bind_run; [eapply FREE_run; rewrite Hn3; exact Ha|]. step.
  set (w4 := upd_nodes (delete a) w3).
  assert (wf w4 (plug c out)) as Hwf4.
  { apply (wf_ext (upd_nodes (delete a) w2)); [|by cbn; rewrite Ht3|done].
    cbn. by rewrite Hn3. }
  eapply wp_mono; [apply (splice_out_finish w4 c out tr2 Hwf4); by cbn; rewrite Ht3|].
  intros ret w5 (-> & Hwf5 & ->). split_and!; [done..|]. subst w4. cbn.
  by rewrite Hl3, Hc2, Hk2, Hd2.
Qed.


(** ** One turn of the loop at a node with two children *)

Lemma lift_left_run {R} w c a b A kb vb wb C k v wt r
    (kont : ptr → M (world K V) R) (Q : R → world K V → Prop) :
  let t := Bin a (Bin b A kb vb wb C) k v wt r in
  wf w (plug c t) → fits t → weights_ok t →
  (∀ w', wf w' (plug c (lift_left t)) → meta w' = meta w → wp (kont (Some a)) w' Q) →
  wp (ll ← rd llink (Some b); wll ← WEIGHT ll;
      lr ← rd rlink (Some b); wlr ← WEIGHT lr;
      when_ (wll <? wlr) (rot_left (Some b));;
      out ← rd llink (Some a); rot_right (Some a);;
      next ← rd rlink out; kont next) w Q.
Proof.
  intros t Hwf Hfit Hok Hk. subst t.
  pose proof Hwf as (_ & _ & (Ha & (Hb & HA & HC) & Hr) & Hnd & _)%wf_plug.
  cbn [addrs] in Hnd. cbn [lift_left] in Hk. do 4 step.
  destruct (Z.ltb_spec (tweight A) (tweight C)) as [Hlt|_].
  - destruct C as [|d C1 kd vd wd C2]; [weigh; lia|].
    eapply wp_bind; [by apply (rot_left_run w (FL a k v wt r :: c))|].
    intros [] w1 [Hwf1 Hm1]. cbn [rot_left_s plug fill on_left] in *.
    eapply wp_bind_run; [by eapply (rd_llink_wf w1 c)|].
    eapply wp_bind; [by apply rot_right_run|].
    intros [] w2 [Hwf2 Hm2]. cbn [rot_right_s ptr_of] in *.
    eapply wp_bind_run; [by eapply (rd_rlink_wf w2 c)|].
    apply Hk; [done|congruence].
  - step.
    eapply wp_bind_run; [by eapply (rd_llink_wf w c)|].
    eapply wp_bind; [by apply rot_right_run|].
    intros [] w2 [Hwf2 Hm2]. cbn [rot_right_s ptr_of] in *.
    eapply wp_bind_run; [by eapply (rd_rlink_wf w2 c)|].
    by apply Hk.
Qed.

Lemma lift_right_run {R} w c a l k v wt b C kb vb wb E
    (kont : ptr → M (world K V) R) (Q : R → world K V → Prop) :
  let t := Bin a l k v wt (Bin b C kb vb wb E) in
  wf w (plug c t) → fits t → weights_ok t →
  (∀ w', wf w' (plug c (lift_right t)) → meta w' = meta w → wp (kont (Some a)) w' Q) →
  wp (rr ← rd rlink (Some b); wrr ← WEIGHT rr;
      rl ← rd llink (Some b); wrl ← WEIGHT rl;
      when_ (wrr <? wrl) (rot_right (Some b));;
      out ← rd rlink (Some a); rot_left (Some a);;
      next ← rd llink out; kont next) w Q.
Proof.
  intros t Hwf Hfit Hok Hk. subst t.
  pose proof Hwf as (_ & _ & (Ha & Hl & (Hb & HC & HE)) & Hnd & _)%wf_plug.
  cbn [addrs] in Hnd. cbn [lift_right] in Hk. do 4 step.
  destruct (Z.ltb_spec (tweight E) (tweight C)) as [Hlt|_].
  - destruct C as [|d C1 kd vd wd C2]; [weigh; lia|].
    eapply wp_bind; [by apply (rot_right_run w (FR a l k v wt :: c))|].
    intros [] w1 [Hwf1 Hm1]. cbn [rot_right_s plug fill on_right] in *.
    eapply wp_bind_run; [by eapply (rd_rlink_wf w1 c)|].
    eapply wp_bind; [by apply rot_left_run|].
    intros [] w2 [Hwf2 Hm2]. cbn [rot_left_s ptr_of] in *.
    eapply wp_bind_run; [by eapply (rd_llink_wf w2 c)|].
    apply Hk; [done|congruence].
  - step.
    eapply wp_bind_run; [by eapply (rd_rlink_wf w c)|].
    eapply wp_bind; [by apply rot_left_run|].
    intros [] w2 [Hwf2 Hm2]. cbn [rot_left_s ptr_of] in *.
    eapply wp_bind_run; [by eapply (rd_llink_wf w2 c)|].
    by apply Hk.
Qed.


(** ** The loop at the node found *)

Lemma remove_at_run k cnt cmp df log fuel : ∀ w c a l k0 v0 wt r,
  let t := Bin a l k0 v0 wt r in
  wf w (plug c t) → meta w = (Some (cnt, cmp, df), log) → cmp k k0 = 0 →
  fits t → weights_ok t → (nnodes t ≤ fuel)%nat →
  wp (remove_loop fuel k (Some a)) w (λ ret w',
    ret = 0 ∧ wf w' (plug (drop_frame <$> c) (remove_root fuel t)) ∧
    meta w' = (Some (uint (cnt - 1), cmp, df),
               log ++ if df then [(k0, v0)] else [])).
Proof.
  induction fuel as [|fuel IH]; intros w c a l k0 v0 wt r t Hwf Hm Heq Hfit Hok Hfuel;
    subst t; [cbn in Hfuel; lia|].
  destruct (meta_Some _ _ _ _ _ Hm) as (tr & Htr & <- & <- & <- & <-).
  pose proof Hwf as (_ & _ & (Ha & Hl & Hr) & Hnd & _)%wf_plug.
  cbn [remove_loop nonnull]. do 2 step. rewrite Heq. cbn [Z.eqb negb]. step.
  destruct (Leaf_or_not l) as [->|Hl'].
  { cbn [ptr_of nonnull negb]. step. apply (splice_out_run w c a Leaf k0 v0 wt r r tr); auto. }
  destruct (Leaf_or_not r) as [->|Hr'].
  { destruct l as [|b A kb vb wb C]; [done|]. cbn [ptr_of nonnull negb]. step.
    cbn [negb]. step.
    apply (splice_out_run w c a (Bin b A kb vb wb C) k0 v0 wt Leaf
             (Bin b A kb vb wb C) tr); auto. }
  rewrite remove_root_unfold by done. cbn [nnodes] in Hfuel.
  destruct l as [|b A kb vb wb C], r as [|d C' kd vd wd E]; try done.
  destruct Hl as (Hb & _), Hr as (Hd & _).
  cbn [ptr_of nonnull negb]. step. cbn [negb]. do 2 step.
  destruct (wb >? wd).
  - apply (lift_left_run w c a b A kb vb wb C k0 v0 wt (Bin d C' kd vd wd E)
             (remove_loop fuel k));
      [done..|]. intros w1 Hwf1 Hm1.
    destruct (lift_left_Bin a _ k0 v0 wt _ Hfit Hok Hl')
      as (b1 & A1 & kb1 & vb1 & wb1 & C1 & wa & Hlift & Hok1 & _ & Hn).
    rewrite Hlift in Hwf1, Hok1 |- *. cbn [on_right drop].
    apply (IH w1 (FR b1 A1 kb1 vb1 wb1 :: c)); [done|congruence|done|..].
    + unfold fits in *. cbn [nnodes] in *. lia.
    + by destruct Hok1 as (_ & _ & ?).
    + cbn [nnodes] in *. lia.
  - apply (lift_right_run w c a (Bin b A kb vb wb C) k0 v0 wt d C' kd vd wd E
             (remove_loop fuel k));
      [done..|]. intros w1 Hwf1 Hm1.
    destruct (lift_right_Bin a _ k0 v0 wt _ Hfit Hok Hr')
      as (b1 & C1 & kb1 & vb1 & wb1 & E1 & wa & Hlift & Hok1 & _ & Hn).
    rewrite Hlift in Hwf1, Hok1 |- *. cbn [on_left drop].
    apply (IH w1 (FL b1 kb1 vb1 wb1 E1 :: c)); [done|congruence|done|..].
    + unfold fits in *. cbn [nnodes] in *. lia.
    + by destruct Hok1 as (_ & ? & _).
    + cbn [nnodes] in *. lia.
Qed.


(** ** The descent *)

Lemma remove_loop_run k cnt cmp df log fuel : ∀ w c t rv,
  wf w (plug c t) → meta w = (Some (cnt, cmp, df), log) →
  fits t → weights_ok t → (nnodes t < fuel)%nat →
  wp (remove_loop fuel k (ptr_of t)) w (λ ret w',
    match path cmp k rv c t with
    | (_, _, Leaf) => ret = -1 ∧ w' = w
    | (_, c', Bin a l k0 v0 wt r as n) =>
        ret = 0 ∧
        wf w' (plug (drop_frame <$> c') (remove_root (nnodes n) n)) ∧
        meta w' = (Some (uint (cnt - 1), cmp, df),
                   log ++ if df then [(k0, v0)] else [])
    end).
Proof.
  induction fuel as [|fuel IH]; intros w c t rv Hwf Hm Hfit Hok Hfuel; [lia|].
  destruct t as [|a l nk v wt r]; [by apply wp_ret|].
  destruct (meta_Some _ _ _ _ _ Hm) as (tr & Htr & _ & Hcmp & _).
  pose proof Hwf as (_ & _ & (Ha & Hl & Hr) & _)%wf_plug.
  cbn [path ptr_of nnodes] in *.
  destruct (Z.ltb_spec (cmp k nk) 0) as [Hlt|Hge];
    [|destruct (Z.gtb_spec (cmp k nk) 0) as [Hgt|Hle]].
  - cbn [remove_loop nonnull]. do 2 step. rewrite Hcmp.
    destruct (Z.eqb_spec (cmp k nk) 0); [lia|]. cbn [negb].
    destruct (Z.ltb_spec (cmp k nk) 0); [|lia]. step.
    apply (IH w (FL a nk v wt r :: c)); [done..|by eapply fits_l| |lia].
    by destruct Hok as (_ & ? & _).
  - cbn [remove_loop nonnull]. do 2 step. rewrite Hcmp.
    destruct (Z.eqb_spec (cmp k nk) 0); [lia|]. cbn [negb].
    destruct (Z.ltb_spec (cmp k nk) 0); [lia|]. step.
    apply (IH w (FR a l nk v wt :: c)); [done..|by eapply fits_r| |lia].
    by destruct Hok as (_ & _ & ?).
  - rewrite (remove_root_fuel _ (S fuel)) by (done || cbn [nnodes]; lia).
    apply remove_at_run; [done..|lia| | |cbn [nnodes]; lia]; done.
Qed.


Section Spec.
Context (cmp : dict_compare_func K) `{!Comparator cmp}.

(** The count after a node is removed. *)
Lemma count_pred (n : nat) : (0 < n)%nat →
  uint (uint (Z.of_nat n) - 1) = uint (Z.of_nat (pred n)).
Proof. intros ?. unfold uint. rewrite wrap_sub_l. f_equal. lia. Qed.

(** [pr_tree_remove] refines removal on shapes. *)
Lemma pr_tree_remove_run k w t (df : bool) :
  inv cmp w t → del_func <$> tree w = Some df →
  wp (pr_tree_remove k) w (λ ret w',
    inv cmp w' (remove_s cmp k t) ∧
    ret = (if entry cmp k (inorder t) is Some _ then 0 else -1) ∧
    del_func <$> tree w' = Some df ∧
    del_log w' = del_log w ++
      (if df then option_list (entry cmp k (inorder t)) else []) ∧
    (entry cmp k (inorder t) = None → w' = w)).
Proof.
  intros Hinv Hdf.
  destruct (inv_tree _ _ _ Hinv) as (tr & Htr & Hroot & Hcmp & Hcount).
  pose proof Hinv as [Hwf Hbst Hok Hfit _ _].
  pose proof (bst_remove_s cmp k t Hbst Hok Hfit) as Hbst'.
  pose proof (weights_ok_remove_s cmp k t Hbst Hok Hfit) as Hok'.
  pose proof (nnodes_remove_s cmp k t Hbst Hok Hfit) as Hn.
  rewrite Htr in Hdf. injection Hdf as Hdf.
  unfold pr_tree_remove. eapply wp_bind_run; [by apply rd_tree_root_wf|]. step.
  eapply wp_mono.
  { apply (remove_loop_run k (count tr) cmp df (del_log w) _ w [] t 0); try done.
    - unfold meta. rewrite Htr. cbn. by rewrite Hcmp, Hdf.
    - unfold sweep_fuel. rewrite (wf_size _ _ Hwf). lia. }
  intros ret w'. revert Hbst' Hok' Hn. unfold remove_s.
  destruct (entry cmp k (inorder t)) as [[k0 v0]|] eqn:He.
  - destruct (path_old cmp k t k0 v0 Hbst He) as (rv & c & a & l & wt & r & -> & Hplug).
    intros Hbst' Hok' Hn (-> & Hwf' & Hm').
    destruct (meta_Some _ _ _ _ _ Hm') as (tr' & Htr' & Hc' & Hk' & Hd' & Hl').
    split_and!; [|done|by rewrite Htr'; cbn; rewrite Hd'|by destruct df|done].
    eapply inv_intro; try done.
    + unfold fits in *. lia.
    + rewrite Hc', Hn, Hcount. apply count_pred.
      rewrite <- Hplug, nnodes_plug_add. cbn [nnodes]. lia.
  - destruct (path_new cmp k t Hbst He) as (rv & c & -> & _ & _).
    intros _ _ _ [-> ->]. rewrite Htr. cbn. rewrite Hdf.
    split_and!; try done. by destruct df; rewrite app_nil_r.
Qed.


(** ** The theorems *)

(** C3: [pr_tree_remove] on a tree that satisfies the invariant returns,
    with the fuel it takes, and leaves a tree that satisfies the invariant
    and represents the dictionary without the key.  The result is 0 when the
    key was in the tree, and then the deleter, if there is one, was called
    once, on the pair removed; it is -1 when the key was not there. *)
Theorem pr_tree_remove_refines k w t (df : bool) :
  inv cmp w t → del_func <$> tree w = Some df →
  wp (pr_tree_remove k) w (λ ret w',
    (∃ t', inv cmp w' t' ∧ inorder t' = del_entry cmp k (inorder t)) ∧
    ret = (if entry cmp k (inorder t) is Some _ then 0 else -1) ∧
    del_func <$> tree w' = Some df ∧
    del_log w' = del_log w ++
      (if df then option_list (entry cmp k (inorder t)) else [])).
Proof.
  intros Hinv Hdf. eapply wp_mono; [by apply pr_tree_remove_run|].
  intros ret w' (Hinv' & ? & ? & ? & _). split_and!; try done.
  eexists. split; [exact Hinv'|]. by apply remove_s_inorder; destruct Hinv.
Qed.

(** [pr_tree_remove] of a key that is not in the tree returns -1 and
    changes nothing. *)
Theorem pr_tree_remove_absent k w t :
  inv cmp w t → assoc cmp k (inorder t) = None →
  pr_tree_remove k w = Some (-1, w).
Proof.
  intros Hinv He%entry_None.
  destruct (inv_tree _ _ _ Hinv) as (tr & Htr & _).
  destruct (pr_tree_remove_run k w t (del_func tr) Hinv)
    as (ret & w' & Hrun & _ & -> & _ & _ & Hw); [by rewrite Htr|].
  by rewrite Hrun, He, (Hw He).
Qed.

(** C7: [pr_tree_search] after [pr_tree_remove] finds nothing under the key
    removed, and under every other key what it found before. *)
Theorem pr_tree_remove_search k k' w t :
  inv cmp w t →
  wp (pr_tree_remove k;; pr_tree_search k') w (λ ret _,
    ret = if cmp k' k =? 0 then None else assoc cmp k' (inorder t)).
Proof.
  intros Hinv. destruct (inv_tree _ _ _ Hinv) as (tr & Htr & _).
  pose proof Hinv as [_ Hbst Hok Hfit _ _].
  eapply wp_bind; [by apply (pr_tree_remove_run k w t (del_func tr)); [|rewrite Htr]|].
  intros ret w' ([Hwf' Hbst' _ _ Hcmp' _] & _). cbn beta.
  destruct (tree w') as [tr'|] eqn:Htr'; [|done]. injection Hcmp' as Hcmp'.
  eapply wp_run; [by eapply pr_tree_search_run|]. cbn beta.
  rewrite Hcmp', lookup_s_assoc, remove_s_inorder by done.
  destruct (Z.eqb_spec (cmp k' k) 0) as [Heq|Hne].
  - by rewrite (assoc_proper cmp k' k), assoc_del_entry_eq.
  - by apply assoc_del_entry_ne.
Qed.

End Spec.
End RemoveProofs.

(** ** Instances on concrete worlds *)

#[local] Existing Instance debug_build.

Lemma pr_tree_remove_refines_witness :
  wp (pr_tree_remove 20) full3 (λ ret w',
    (∃ t', inv Z_cmp w' t' ∧ inorder t' = [(10, 100); (30, 300)]) ∧
    ret = 0 ∧ del_func <$> tree w' = Some false ∧ del_log w' = []).
Proof.
  by apply (pr_tree_remove_refines Z_cmp 20 full3 full3_s false full3_inv).
Defined.

Lemma pr_tree_remove_absent_witness :
  pr_tree_remove 25 full3 = Some (-1, full3).
Proof. by apply (pr_tree_remove_absent Z_cmp 25 full3 full3_s full3_inv). Defined.

Lemma pr_tree_remove_search_witness :
  wp (pr_tree_remove 20;; pr_tree_search 20) full3 (λ ret _, ret = None).
Proof. exact (pr_tree_remove_search Z_cmp 20 20 full3 full3_s full3_inv). Defined.
