(* ===== verification/EmptyProofs.v ===== *)
(** * Emptying and destroying a tree

    [pr_tree_empty] and [pr_tree_destroy] of pr_tree.c.  The loop of
    [pr_tree_empty] goes down to a node without children, calls the deleter
    on it, frees it, clears the link of its parent and goes on at the parent:
    the nodes are freed in post-order ([postorder]), left subtree first.  A
    tree of n nodes takes 2n - 1 iterations and one more test, which the fuel
    of [pr_tree_empty] covers.  While the loop runs [tree->root] keeps its
    old value: [held] is well-formedness without the root pointer. *)

From Stdlib Require Import ZArith Lia.
From stdpp Require Import base tactics option list gmap.
From S2P Require Import Prelude Contract Assoc Node Rotate Tree Shape Zipper Examples Bst Inv.
From S2P Require Import Exec.

#[local] Open Scope Z_scope.

Section EmptyProofs.
Context {build : Build} {K V : Type}.
Implicit Types (k : K) (v : V) (t l r : shape K V) (w : world K V).
Implicit Types (f : frame K V) (c : list (frame K V)) (tr : pr_tree K).

(** ** Definitions *)

(** The pairs of a shape, children before their parent. *)
Fixpoint postorder t : list (K * V) :=
  match t with
  | Leaf => []
  | Bin _ l k v _ r => postorder l ++ postorder r ++ [(k, v)]
  end.

(** The store holds [t] in the hole of [c] and nothing else. *)
Definition held w c t : Prop :=
  rep_ctx (nodes w) c (ptr_of t) ∧ rep (nodes w) (ctx_parent c) t ∧
  NoDup (addrs t ++ ctx_addrs c) ∧
  dom (nodes w) = list_to_set (addrs t ++ ctx_addrs c).

(** The frame goes to the child in its hole first: the hole is the left
    child, or there is no left child. *)
Definition first_child f : Prop :=
  match f with
  | FL _ _ _ _ _ => True
  | FR _ l _ _ _ => l = Leaf
  end.

(** The world after [pr_tree_empty]. *)
Definition emptied w tr t : world K V :=
  mk_world ∅ (Some (set_count 0 (set_root NULL tr)))
    (del_log w ++ if del_func tr then postorder t else []).

(** The result of emptying the subtree [t] in the hole of [c]: the loop is
    at the parent of [t] in the world [w'], for any fuel left. *)
Definition empties (steps : nat) w c t tr w' : Prop :=
  (∀ fuel, empty_loop (steps + fuel) (ptr_of t) w = empty_loop fuel (ctx_parent c) w') ∧
  held w' c Leaf ∧ tree w' = tree w ∧
  del_log w' = del_log w ++ if del_func tr then postorder t else [].

(** ** Lemmas *)

Lemma postorder_inorder t : postorder t ≡ₚ inorder t.
Proof.
  induction t as [|a l IHl k v wt r IHr]; [done|]. cbn [postorder inorder].
  rewrite IHl, IHr. f_equiv. symmetry. apply Permutation_cons_append.
Qed.

Lemma postorder_fill f t :
  first_child f → postorder (fill f t) = postorder t ++ postorder (fill f Leaf).
Proof. destruct f; cbn; [done|]. by intros ->. Qed.

Lemma nnodes_fill f t : nnodes (fill f t) = (nnodes t + nnodes (fill f Leaf))%nat.
Proof. destruct f; cbn; lia. Qed.

Lemma nnodes_pos t : t ≠ Leaf → (1 ≤ nnodes t)%nat.
Proof. destruct t; [done|]. cbn. lia. Qed.

Lemma wf_held w t : wf w t → held w [] t.
Proof. intros (_ & ? & ? & ? & ?)%(wf_plug w []). done. Qed.

(** Moving the focus between a node and its child. *)
Lemma held_fill w f c t : held w (f :: c) t ↔ held w c (fill f t).
Proof.
  assert (addrs t ++ ctx_addrs (f :: c) ≡ₚ addrs (fill f t) ++ ctx_addrs c) as Hp.
  { destruct f; cbn [ctx_addrs frame_addr frame_sibling fill addrs]; solve_Permutation. }
  assert (list_to_set (C:=gset addr) (addrs t ++ ctx_addrs (f :: c))
          = list_to_set (addrs (fill f t) ++ ctx_addrs c)) as Hs.
  { apply set_eq. intros a. by rewrite !elem_of_list_to_set, Hp. }
  unfold held. rewrite Hs, Hp, ptr_of_fill.
  destruct f; cbn [rep_ctx rep fill frame_addr frame_sibling frame_cell ctx_parent]; tauto.
Qed.

(** ** The loop of [pr_tree_empty] *)

(** A node with a child: the loop goes to the child it empties first. *)
Lemma empty_loop_down w f c t fuel :
  t ≠ Leaf → first_child f → held w (f :: c) t →
  empty_loop (S fuel) (Some (frame_addr f)) w = empty_loop fuel (ptr_of t) w.
Proof.
  intros Ht%nonnull_ptr_of Hf ((Ha & _) & _). cbn [empty_loop nonnull].
  rewrite (bind_run _ _ _ _ _ (rd_run llink _ _ _ Ha)).
  rewrite (bind_run _ _ _ _ _ (rd_run rlink _ _ _ Ha)).
  destruct f; cbn [frame_cell llink rlink first_child] in *.
  - by rewrite Ht.
  - subst. cbn [ptr_of nonnull orb]. by rewrite Ht.
Qed.

(** A node without children: it is freed and the link to it cleared. *)
Lemma empty_loop_leaf w c a k v wt tr :
  tree w = Some tr → held w c (Bin a Leaf k v wt Leaf) →
  ∃ w', empties 1 w c (Bin a Leaf k v wt Leaf) tr w'.
Proof.
  intros Htr (Hctx & (Ha & _) & Hnd & Hdom). cbn [addrs app ptr_of] in *.
  set (w1 := if del_func tr then upd_del_log (λ log, log ++ [(k, v)]) w else w).
  assert (nodes w1 = nodes w ∧ tree w1 = tree w ∧
          del_log w1 = del_log w ++ if del_func tr then [(k, v)] else [])
    as (Hn1 & Ht1 & Hl1).
  { subst w1. destruct (del_func tr); [done|]. by rewrite app_nil_r. }
  set (w2 := upd_nodes (delete a) w1).
  exists (match c with [] => w2 | _ => set_hole c NULL w2 end).
  assert (a ∉ ctx_addrs c) as Hac by distinct.
  assert (rep_ctx (nodes w2) c (Some a)) as Hctx2.
  { cbn. rewrite Hn1. by apply rep_ctx_delete_ne. }
  split_and!.
  - intros fuel. cbn [Nat.add empty_loop nonnull ptr_of].
    rewrite (bind_run _ _ _ _ _ (rd_run llink _ _ _ Ha)).
    rewrite (bind_run _ _ _ _ _ (rd_run rlink _ _ _ Ha)).
    cbn [llink rlink nonnull orb].
    rewrite (bind_run _ _ _ _ _ (call_del_func_run _ _ _ _ Htr Ha)).
    cbn [key datum]. fold w1. rewrite <- Hn1 in Ha.
    rewrite (bind_run _ _ _ _ _ (rd_run parent _ _ _ Ha)).
    rewrite (bind_run _ _ _ _ _ (FREE_run _ _ _ Ha)). fold w2. cbn [parent].
    destruct c as [|f c']; [done|]. cbn [ctx_parent nonnull]. unfold when_.
    erewrite bind_run; [done|].
    pose proof (replace_child_run w2 (f :: c') a NULL) as Hrun.
    unfold replace_child in Hrun. cbn [ctx_parent nonnull] in Hrun.
    apply Hrun; [by cbn; rewrite Ht1, Htr|done..].
  - assert (dom (nodes w2) = list_to_set (ctx_addrs c)) as Hd2.
    { cbn. rewrite Hn1, dom_delete_L, Hdom. set_solver. }
    destruct c as [|f c']; [by split_and!; [..|constructor|]|].
    split_and!; [|done|distinct|by erewrite dom_set_hole].
    eapply rep_ctx_set_hole; [distinct|done].
  - by destruct c.
  - by destruct c.
Qed.

(** A node with a child: the child first, then the node without it. *)
Lemma empties_fill n1 n2 w w1 w2 f c t tr :
  t ≠ Leaf → first_child f → held w (f :: c) t →
  empties n1 w (f :: c) t tr w1 →
  empties n2 w1 c (fill f Leaf) tr w2 →
  empties (S (n1 + n2)) w c (fill f t) tr w2.
Proof.
  intros Ht Hf Hh (Hrun1 & _ & Ht1 & Hl1) (Hrun2 & Hh2 & Ht2 & Hl2). split_and!.
  - intros fuel. rewrite ptr_of_fill. cbn [Nat.add].
    rewrite (empty_loop_down w f c t) by done.
    rewrite <- Nat.add_assoc, Hrun1. cbn [ctx_parent].
    rewrite <- (ptr_of_fill f Leaf). apply Hrun2.
  - done.
  - congruence.
  - rewrite Hl2, Hl1, <- app_assoc, (postorder_fill f t) by done. by destruct (del_func tr).
Qed.

Lemma empty_loop_fill n f t c w tr :
  (∀ t c w, (nnodes t ≤ n)%nat → t ≠ Leaf → tree w = Some tr → held w c t →
            ∃ w', empties (2 * nnodes t - 1) w c t tr w') →
  (nnodes (fill f t) ≤ S n)%nat → t ≠ Leaf → first_child f →
  tree w = Some tr → held w c (fill f t) →
  ∃ w', empties (2 * nnodes (fill f t) - 1) w c (fill f t) tr w'.
Proof.
  intros IH Hn Ht Hf Htr Hh. rewrite nnodes_fill in Hn. pose proof (nnodes_pos t Ht).
  assert (1 ≤ nnodes (fill f Leaf))%nat by (destruct f; cbn; lia).
  apply held_fill in Hh.
  destruct (IH t (f :: c) w) as (w1 & H1); [lia|done..|].
  destruct (IH (fill f Leaf) c w1) as (w2 & H2); [lia|by destruct f|..].
  { destruct H1 as (_ & _ & -> & _). done. }
  { apply held_fill, H1. }
  exists w2.
  replace (2 * nnodes (fill f t) - 1)%nat
    with (S ((2 * nnodes t - 1) + (2 * nnodes (fill f Leaf) - 1)))
    by (rewrite (nnodes_fill f t); lia).
  by eapply empties_fill.
Qed.

(** The loop on a subtree: after 2n - 1 iterations its n nodes are freed,
    the deleter has seen its pairs in post-order and the loop is at its
    parent. *)
Lemma empty_loop_subtree tr n : ∀ t c w,
  (nnodes t ≤ n)%nat → t ≠ Leaf → tree w = Some tr → held w c t →
  ∃ w', empties (2 * nnodes t - 1) w c t tr w'.
Proof.
  induction n as [|n IH]; intros t c w Hn Ht Htr Hh.
  { apply nnodes_pos in Ht. lia. }
  destruct t as [|a l k v wt r]; [done|].
  destruct (Leaf_or_not l) as [->|Hl].
  - destruct (Leaf_or_not r) as [->|Hr]; [by eapply empty_loop_leaf|].
    by apply (empty_loop_fill n (FR a Leaf k v wt) r).
  - by apply (empty_loop_fill n (FL a k v wt r) l).
Qed.

(** The whole loop: the store is empty. *)
Lemma empty_loop_run w t tr :
  wf w t → tree w = Some tr →
  empty_loop (sweep_fuel w) (ptr_of t) w =
  Some (tt, mk_world ∅ (Some tr)
              (del_log w ++ if del_func tr then postorder t else [])).
Proof.
  intros Hwf Htr. unfold sweep_fuel. rewrite (wf_size _ _ Hwf).
  pose proof (wf_held _ _ Hwf) as Hh.
  destruct (Leaf_or_not t) as [->|Ht].
  - destruct Hh as (_ & _ & _ & Hd%dom_empty_inv_L). cbn in *.
    destruct w as [m ? log]. cbn in *. subst. by destruct (del_func tr); rewrite app_nil_r.
  - destruct (empty_loop_subtree tr (nnodes t) t [] w) as (w' & Hrun & Hh' & Ht' & Hl');
      [done..|].
    pose proof (nnodes_pos t Ht).
    replace (S (2 * nnodes t)) with (2 * nnodes t - 1 + 2)%nat by lia.
    rewrite Hrun. cbn. destruct Hh' as (_ & _ & _ & Hd%dom_empty_inv_L).
    destruct w' as [m ? log]. cbn in *. subst. by rewrite Htr.
Qed.

(** ** [pr_tree_empty] and [pr_tree_destroy] *)

Lemma pr_tree_empty_run w t tr :
  wf w t → tree w = Some tr →
  pr_tree_empty w = Some (count tr, emptied w tr t).
Proof.
  intros Hwf Htr. unfold pr_tree_empty.
  rewrite (bind_run _ _ _ _ _ (rd_tree_run _ _ _ Htr)).
  rewrite (bind_run _ _ _ _ _ (rd_tree_root_wf _ _ Hwf)).
  erewrite bind_run; [|reflexivity].
  rewrite (bind_run _ _ _ _ _ (empty_loop_run _ _ _ Hwf Htr)).
  done.
Qed.

Lemma pr_tree_destroy_run w t tr :
  wf w t → tree w = Some tr →
  pr_tree_destroy w =
  Some (if nonnull (ptr_of t) then count tr else 0,
        mk_world ∅ None (del_log w ++ if del_func tr then postorder t else [])).
Proof.
  intros Hwf Htr. unfold pr_tree_destroy.
  rewrite (bind_run _ _ _ _ _ (rd_tree_root_wf _ _ Hwf)).
  destruct t as [|a l k v wt r]; cbn [ptr_of nonnull].
  - destruct (wf_held _ _ Hwf) as (_ & _ & _ & Hd%dom_empty_inv_L). cbn in *.
    destruct w as [m ? log]. cbn in *. subst. by destruct (del_func tr); rewrite app_nil_r.
  - by rewrite (bind_run _ _ _ _ _ (pr_tree_empty_run _ _ _ Hwf Htr)).
Qed.

Lemma emptied_inv cmp w t tr :
  key_cmp tr = cmp → inv cmp (emptied w tr t) Leaf.
Proof.
  intros Hcmp. apply (inv_intro cmp _ Leaf (set_count 0 (set_root NULL tr)));
    try done; [|constructor].
  split; [done..|constructor|]. cbn. by rewrite dom_empty_L.
Qed.

(** ** The theorems *)

(** C20: [pr_tree_empty] frees every node, calls the deleter, when there is
    one, once on every pair of the dictionary, children before their parent,
    and returns the number of pairs (modulo 2^32); the tree it leaves is the
    empty dictionary with the same comparator and deleter. *)
Theorem pr_tree_empty_correct cmp w t (df : bool) :
  inv cmp w t → del_func <$> tree w = Some df →
  wp pr_tree_empty w (λ ret w',
    ret = uint (Z.of_nat (length (inorder t))) ∧
    inv cmp w' Leaf ∧ nodes w' = ∅ ∧ del_func <$> tree w' = Some df ∧
    del_log w' = del_log w ++ (if df then postorder t else [])) ∧
  postorder t ≡ₚ inorder t.
Proof.
  intros Hinv Hdf. split; [|apply postorder_inorder].
  destruct (inv_tree _ _ _ Hinv) as (tr & Htr & _ & Hcmp & Hc).
  rewrite Htr in Hdf. injection Hdf as <-.
  eapply wp_run; [by apply pr_tree_empty_run, Htr; apply Hinv|].
  split_and!; [by rewrite Hc, length_inorder|by apply emptied_inv|done..].
Qed.

(** C29: [pr_tree_destroy] does the same and frees the tree struct: no
    node and no tree are left, whatever the tree held. *)
Theorem pr_tree_destroy_correct cmp w t (df : bool) :
  inv cmp w t → del_func <$> tree w = Some df →
  pr_tree_destroy w =
  Some (uint (Z.of_nat (length (inorder t))),
        mk_world ∅ None (del_log w ++ if df then postorder t else [])).
Proof.
  intros Hinv Hdf. destruct (inv_tree _ _ _ Hinv) as (tr & Htr & _ & Hcmp & Hc).
  rewrite Htr in Hdf. injection Hdf as <-.
  rewrite (pr_tree_destroy_run w t tr) by (done || apply Hinv).
  rewrite Hc, length_inorder. by destruct t.
Qed.

End EmptyProofs.

(** ** Instances on concrete worlds *)

#[local] Existing Instance debug_build.

Lemma pr_tree_empty_correct_witness :
  wp pr_tree_empty full3 (λ ret w',
    ret = 3 ∧ inv Z_cmp w' Leaf ∧ nodes w' = ∅ ∧ del_func <$> tree w' = Some false ∧
    del_log w' = del_log full3 ++ []) ∧
  [(10, 100); (30, 300); (20, 200)] ≡ₚ [(10, 100); (20, 200); (30, 300)].
Proof. by apply (pr_tree_empty_correct Z_cmp full3 full3_s false full3_inv). Defined.

Lemma pr_tree_destroy_correct_witness :
  pr_tree_destroy full3 = Some (3, mk_world ∅ None (del_log full3 ++ [])).
Proof. by apply (pr_tree_destroy_correct Z_cmp full3 full3_s false full3_inv). Defined.

