(* ===== verification/WalkProofs.v ===== *)
(** * Extremes, neighbours and the traversal

    [pr_tree_min], [pr_tree_max], [node_next], [node_prev] and
    [pr_tree_walk] of pr_tree.c on a well-formed tree, in terms of the
    sequence of the nodes in symmetric order ([elems]): the extremes are its
    ends, [node_next] and [node_prev] at a node give the node after and the
    node before it ([NULL] at the ends), and [pr_tree_walk] calls the visitor
    on the pairs in that order until the visitor returns 0.  The loops along
    [llink], [rlink] and [parent] pointers have enough fuel with the size of
    the store. *)

From Stdlib Require Import ZArith Lia.
From stdpp Require Import base tactics option list gmap.
From S2P Require Import Prelude Contract Assoc Node Rotate Tree Walk Shape Zipper Examples Bst Inv.
From S2P Require Import WalkShape Exec.
From stdpp Require Import sorting.

#[local] Open Scope Z_scope.

Section WalkProofs.
Context {build : Build} {K V : Type}.
Implicit Types (k : K) (v : V) (t l r : shape K V) (c : list (frame K V)).
Implicit Types (f : frame K V) (w : world K V) (a b : addr).

(** ** The cells of the nodes *)

Lemma rep_elem (m : gmap addr (pr_node K V)) p t a k v :
  rep m p t → (a, (k, v)) ∈ elems t →
  ∃ n, m !! a = Some n ∧ key n = k ∧ datum n = v.
Proof.
  revert p. induction t as [|a0 l IHl k0 v0 w0 r IHr]; intros p; cbn [rep elems];
    [by intros _ ?%elem_of_nil|].
  intros (Ha & Hl & Hr). rewrite elem_of_app, elem_of_cons.
  intros [Hin|[[= -> -> ->]|Hin]]; [by eapply IHl| |by eapply IHr].
  eexists. by split_and!.
Qed.

(** ** Leftmost and rightmost nodes *)

Lemma head_addrs a l k v wt r :
  head (addrs (Bin a l k v wt r)) = if l is Leaf then Some a else head (addrs l).
Proof.
  cbn [addrs]. destruct l as [|b bl bk bv bw br]; [done|]. cbn [addrs].
  by destruct (addrs bl).
Qed.

Lemma last_addrs a l k v wt r :
  last (addrs (Bin a l k v wt r)) = if r is Leaf then Some a else last (addrs r).
Proof.
  destruct r as [|b bl bk bv bw br]; cbn [addrs]; [by rewrite last_snoc|].
  rewrite last_app_cons, last_cons, (last_app_cons (addrs bl)), last_cons.
  by destruct (last (addrs br)).
Qed.

Lemma llink_loop_run w fuel : ∀ p t,
  rep (nodes w) p t → t ≠ Leaf → (nnodes t ≤ fuel)%nat →
  llink_loop fuel (ptr_of t) w = Some (head (addrs t), w).
Proof.
  induction fuel as [|fuel IH]; intros p [|a l k v wt r] Hrep Hne Hfuel; try done;
    [cbn in Hfuel; lia|].
  destruct Hrep as (Ha & Hl & _). rewrite head_addrs.
  cbn [llink_loop ptr_of nnodes] in *. step.
  destruct l as [|b bl bk bv bw br]; [done|].
  apply (IH (Some a) (Bin b bl bk bv bw br)); [done..|lia].
Qed.

Lemma rlink_loop_run w fuel : ∀ p t,
  rep (nodes w) p t → t ≠ Leaf → (nnodes t ≤ fuel)%nat →
  rlink_loop fuel (ptr_of t) w = Some (last (addrs t), w).
Proof.
  induction fuel as [|fuel IH]; intros p [|a l k v wt r] Hrep Hne Hfuel; try done;
    [cbn in Hfuel; lia|].
  destruct Hrep as (Ha & _ & Hr). rewrite last_addrs.
  cbn [rlink_loop ptr_of nnodes] in *. step.
  destruct r as [|b bl bk bv bw br]; [done|].
  apply (IH (Some a) (Bin b bl bk bv bw br)); [done..|lia].
Qed.


(** ** Successor and predecessor *)

(** The climb of [node_next]: up while the node is a right child. *)
Lemma next_up_loop_run w : ∀ c fuel a,
  rep_ctx (nodes w) c (Some a) → NoDup (a :: ctx_addrs c) → (length c < fuel)%nat →
  next_up_loop fuel (Some a) (ctx_parent c) w =
  Some (head (ctx_elems_after c).*1, w).
Proof.
  induction c as [|f c IH]; intros fuel a Hctx Hnd Hlen;
    (destruct fuel as [|fuel]; [cbn in Hlen; lia|]); [done|].
  destruct Hctx as (Hf & _ & Hctx).
  cbn [next_up_loop ctx_parent nonnull length ctx_addrs] in *.
  destruct f as [b k v wt r|b l k v wt]; cbn [frame_addr frame_cell frame_sibling] in *;
    step; cbn [ctx_elems_after fmap list_fmap head].
  - destruct (ptr_eqb (ptr_of r) (Some a)) eqn:Heq; [|done].
    apply ptr_eqb_true, ptr_of_elem_of in Heq.
    apply NoDup_cons in Hnd as [Hnd _]. destruct Hnd. set_solver.
  - rewrite ptr_eqb_refl. step. apply IH; [done| |lia].
    distinct.
Qed.

(** The climb of [node_prev]: up while the node is a left child. *)
Lemma prev_up_loop_run w : ∀ c fuel a,
  rep_ctx (nodes w) c (Some a) → NoDup (a :: ctx_addrs c) → (length c < fuel)%nat →
  prev_up_loop fuel (Some a) (ctx_parent c) w =
  Some (last (ctx_elems_before c).*1, w).
Proof.
  induction c as [|f c IH]; intros fuel a Hctx Hnd Hlen;
    (destruct fuel as [|fuel]; [cbn in Hlen; lia|]); [done|].
  destruct Hctx as (Hf & _ & Hctx).
  cbn [prev_up_loop ctx_parent nonnull length ctx_addrs] in *.
  destruct f as [b k v wt r|b l k v wt]; cbn [frame_addr frame_cell frame_sibling] in *;
    step; cbn [ctx_elems_before].
  - rewrite ptr_eqb_refl. step. apply IH; [done| |lia].
    distinct.
  - rewrite !fmap_app, app_assoc. cbn [fmap list_fmap fst]. rewrite last_snoc.
    destruct (ptr_eqb (ptr_of l) (Some a)) eqn:Heq; [|done].
    apply ptr_eqb_true, ptr_of_elem_of in Heq.
    apply NoDup_cons in Hnd as [Hnd _]. destruct Hnd. set_solver.
Qed.

Lemma node_next_run w c a l k v wt r :
  wf w (plug c (Bin a l k v wt r)) →
  node_next (Some a) w = Some (head (elems r ++ ctx_elems_after c).*1, w).
Proof.
  intros Hwf.
  pose proof Hwf as (_ & Hctx & (Ha & _ & Hr) & Hnd & _)%wf_plug.
  pose proof (wf_size _ _ Hwf) as Hsize. rewrite nnodes_plug_add in Hsize.
  pose proof (length_ctx_addrs c). cbn [addrs nnodes] in *.
  unfold node_next. do 3 step. rewrite fmap_app, head_app, elems_addrs.
  destruct r as [|b bl bk bv bw br]; cbn [ptr_of nonnull].
  - step. apply next_up_loop_run; [done|distinct|unfold path_fuel; lia].
  - rewrite (llink_loop_run w _ (Some a) (Bin b bl bk bv bw br)); [|done..|].
    + by destruct (head (addrs (Bin b bl bk bv bw br))) eqn:Hh;
        [|apply head_None in Hh; cbn in Hh; destruct (addrs bl)].
    + unfold path_fuel. cbn [nnodes] in *. lia.
Qed.

Lemma node_prev_run w c a l k v wt r :
  wf w (plug c (Bin a l k v wt r)) →
  node_prev (Some a) w = Some (last (ctx_elems_before c ++ elems l).*1, w).
Proof.
  intros Hwf.
  pose proof Hwf as (_ & Hctx & (Ha & Hl & _) & Hnd & _)%wf_plug.
  pose proof (wf_size _ _ Hwf) as Hsize. rewrite nnodes_plug_add in Hsize.
  pose proof (length_ctx_addrs c). cbn [addrs nnodes] in *.
  unfold node_prev. do 3 step. rewrite fmap_app, last_app, elems_addrs.
  destruct l as [|b bl bk bv bw br]; cbn [ptr_of nonnull].
  - step. apply prev_up_loop_run; [done|distinct|unfold path_fuel; lia].
  - rewrite (rlink_loop_run w _ (Some a) (Bin b bl bk bv bw br)); [|done..|].
    + by destruct (last (addrs (Bin b bl bk bv bw br))) eqn:Hh;
        [|apply last_None in Hh; cbn in Hh; destruct (addrs bl)].
    + unfold path_fuel. cbn [nnodes] in *. lia.
Qed.

(** In terms of the sequence of the tree. *)
Lemma node_next_elem w t pre a kv suf :
  wf w t → elems t = pre ++ (a, kv) :: suf →
  node_next (Some a) w = Some (head suf.*1, w).
Proof.
  intros Hwf Heq.
  destruct (position_split t pre a kv suf (wf_nodup _ _ Hwf) Heq)
    as (c & l & wt & r & -> & _ & ->).
  by eapply node_next_run.
Qed.

Lemma node_prev_elem w t pre a kv suf :
  wf w t → elems t = pre ++ (a, kv) :: suf →
  node_prev (Some a) w = Some (last pre.*1, w).
Proof.
  intros Hwf Heq.
  destruct (position_split t pre a kv suf (wf_nodup _ _ Hwf) Heq)
    as (c & l & wt & r & -> & -> & _).
  by eapply node_prev_run.
Qed.


(** ** [pr_tree_min] and [pr_tree_max] *)

Lemma rd_key_elem w t a k v :
  wf w t → (a, (k, v)) ∈ elems t → rd key (Some a) w = Some (k, w).
Proof.
  intros Hwf Hin. destruct (rep_elem _ _ _ _ _ _ (wf_rep _ _ Hwf) Hin) as (n & Hn & <- & _).
  by apply rd_run.
Qed.

Lemma rd_datum_elem w t a k v :
  wf w t → (a, (k, v)) ∈ elems t → rd datum (Some a) w = Some (v, w).
Proof.
  intros Hwf Hin. destruct (rep_elem _ _ _ _ _ _ (wf_rep _ _ Hwf) Hin) as (n & Hn & _ & <-).
  by apply rd_run.
Qed.

Lemma pr_tree_min_run w t :
  wf w t → pr_tree_min w = Some (fst <$> head (inorder t), w).
Proof.
  intros Hwf. unfold pr_tree_min.
  rewrite (bind_run _ _ _ _ _ (rd_tree_root_wf _ _ Hwf)).
  destruct (Leaf_or_not t) as [->|Hne]; [done|].
  rewrite (proj2 (nonnull_ptr_of t) Hne). cbn [negb]. step.
  rewrite (bind_run _ _ _ _ _ (llink_loop_run w (path_fuel w) NULL t (wf_rep _ _ Hwf) Hne
    ltac:(unfold path_fuel; rewrite (wf_size _ _ Hwf); lia))).
  rewrite <- elems_addrs, <- elems_inorder.
  destruct (elems t) as [|[a [k v]] es] eqn:He; [by apply elems_nil in He|].
  cbn [fmap list_fmap head option_fmap option_map fst snd].
  rewrite (bind_run _ _ _ _ _ (rd_key_elem w t a k v Hwf ltac:(rewrite He; by left))).
  done.
Qed.

Lemma pr_tree_max_run w t :
  wf w t → pr_tree_max w = Some (fst <$> last (inorder t), w).
Proof.
  intros Hwf. unfold pr_tree_max.
  rewrite (bind_run _ _ _ _ _ (rd_tree_root_wf _ _ Hwf)).
  destruct (Leaf_or_not t) as [->|Hne]; [done|].
  rewrite (proj2 (nonnull_ptr_of t) Hne). cbn [negb]. step.
  rewrite (bind_run _ _ _ _ _ (rlink_loop_run w (path_fuel w) NULL t (wf_rep _ _ Hwf) Hne
    ltac:(unfold path_fuel; rewrite (wf_size _ _ Hwf); lia))).
  rewrite <- elems_addrs, <- elems_inorder.
  destruct (last (elems t)) as [[a [k v]]|] eqn:He;
    [|by apply last_None, elems_nil in He].
  apply last_Some in He as [es He]. rewrite He, !fmap_app.
  cbn [fmap list_fmap fst snd]. rewrite !last_snoc. cbn [fmap option_fmap option_map fst].
  rewrite (bind_run _ _ _ _ _ (rd_key_elem w t a k v Hwf ltac:(rewrite He; set_solver))).
  done.
Qed.

(** ** [pr_tree_walk] *)

Lemma walk_loop_run {St} (visit : K → V → St → bool * St) w t : ∀ suf pre fuel n s,
  wf w t → elems t = pre ++ suf → (length suf < fuel)%nat →
  walk_loop fuel visit (head suf.*1) n s w = Some (walk_s visit suf.*2 n s, w).
Proof.
  induction suf as [|[a [k v]] suf IH]; intros pre fuel n s Hwf Heq Hlen;
    (destruct fuel as [|fuel]; [cbn in Hlen; lia|]); [done|].
  cbn [fmap list_fmap head fst snd walk_loop nonnull walk_s length] in *.
  assert ((a, (k, v)) ∈ elems t) as Hin by (rewrite Heq; set_solver).
  rewrite (bind_run _ _ _ _ _ (rd_key_elem w t a k v Hwf Hin)).
  rewrite (bind_run _ _ _ _ _ (rd_datum_elem w t a k v Hwf Hin)).
  destruct (visit k v s) as [[] s']; cbn [fst snd negb]; [|done].
  rewrite (bind_run _ _ _ _ _ (node_next_elem w t pre a (k, v) suf Hwf Heq)).
  apply (IH (pre ++ [(a, (k, v))])); [done|by rewrite <- app_assoc|lia].
Qed.

Lemma pr_tree_walk_run {St} (visit : K → V → St → bool * St) s w t :
  wf w t → pr_tree_walk visit s w = Some (walk_s visit (inorder t) 0 s, w).
Proof.
  intros Hwf. unfold pr_tree_walk.
  rewrite (bind_run _ _ _ _ _ (rd_tree_root_wf _ _ Hwf)).
  destruct (Leaf_or_not t) as [->|Hne]; [done|].
  rewrite (proj2 (nonnull_ptr_of t) Hne). cbn [negb]. step. unfold node_min. do 4 step.
  rewrite (bind_run _ _ _ _ _ (llink_loop_run w (path_fuel w) NULL t (wf_rep _ _ Hwf) Hne
    ltac:(unfold path_fuel; rewrite (wf_size _ _ Hwf); lia))).
  rewrite <- elems_addrs, <- elems_inorder.
  apply (walk_loop_run visit w t (elems t) []); [done..|].
  unfold path_fuel. rewrite (wf_size _ _ Hwf), <- length_addrs, <- elems_addrs.
  rewrite length_fmap. lia.
Qed.



(** ** The theorems *)

(** C21: [pr_tree_walk] calls the visitor on the pairs of the tree in
    symmetric order, from the first one on, until the visitor returns 0; it
    returns the number of calls and changes nothing.  With a visitor that
    never returns 0 that is the number of nodes (modulo 2^32) and the visitor
    has seen every pair. *)
Theorem pr_tree_walk_correct {St} (visit : K → V → St → bool * St) s w t :
  wf w t →
  pr_tree_walk visit s w = Some (walk_s visit (inorder t) 0 s, w) ∧
  ((∀ k v s, (visit k v s).1 = true) →
   walk_s visit (inorder t) 0 s =
   (uint (Z.of_nat (nnodes t)), foldl (λ s kv, (visit kv.1 kv.2 s).2) s (inorder t))).
Proof.
  intros Hwf. split; [by apply pr_tree_walk_run|]. intros Hgo.
  by rewrite walk_s_all, length_inorder.
Qed.

(** C30: [pr_tree_min] and [pr_tree_max] return the first and the last key
    of the symmetric order, [NULL] on an empty tree; on a search tree no key
    is below the first nor above the last. *)
Theorem pr_tree_min_max_correct cmp `{!Comparator cmp} w t :
  wf w t → bst cmp t →
  pr_tree_min w = Some (head (keys t), w) ∧
  pr_tree_max w = Some (last (keys t), w) ∧
  (∀ k0 k, head (keys t) = Some k0 → k ∈ keys t → k = k0 ∨ klt cmp k0 k) ∧
  (∀ k1 k, last (keys t) = Some k1 → k ∈ keys t → k = k1 ∨ klt cmp k k1).
Proof.
  intros Hwf Hbst. unfold keys, bst, keys in *.
  rewrite (pr_tree_min_run w t Hwf), (pr_tree_max_run w t Hwf), <- fmap_last.
  split_and!; [by destruct (inorder t)|done| |].
  - intros k0 k Hh Hin. destruct ((inorder t).*1) as [|x l]; simplify_eq/=.
    apply StronglySorted_cons in Hbst as [Hall _].
    apply elem_of_cons in Hin as [->|Hin]; [by left|right].
    by eapply Forall_forall in Hall.
  - intros k1 k [l Hl]%last_Some Hin. rewrite Hl in Hbst, Hin.
    apply StronglySorted_app in Hbst as (Hall & _).
    apply elem_of_app in Hin as [Hin|Hin]; [right|left].
    + apply Hall; [done|by left].
    + by apply list_elem_of_singleton in Hin.
Qed.

(** [node_next] at a node returns the node after it in symmetric order
    and [node_prev] the node before it, [NULL] when there is none; neither
    changes anything. *)
Theorem node_next_prev_correct w t pre a suf :
  wf w t → addrs t = pre ++ a :: suf →
  node_next (Some a) w = Some (head suf, w) ∧
  node_prev (Some a) w = Some (last pre, w).
Proof.
  intros Hwf Heq. rewrite <- elems_addrs in Heq.
  apply fmap_app_inv in Heq as (pre' & suf' & -> & Heq & Ht).
  symmetry in Heq. apply fmap_cons_inv in Heq as ([a' kv] & suf'' & [= ->] & -> & ->).
  split; [by eapply node_next_elem|by eapply node_prev_elem].
Qed.

End WalkProofs.

(** ** Instances on concrete worlds *)

#[local] Existing Instance debug_build.

Lemma pr_tree_walk_correct_witness :
  pr_tree_walk (λ k _ s, (true, s ++ [k])) [] full3 = Some ((3, [10; 20; 30]), full3) ∧
  ((∀ (k v : Z) (s : list Z), (true, s ++ [k]).1 = true) →
   (3, [10; 20; 30]) = (3, [10; 20; 30])).
Proof.
  exact (pr_tree_walk_correct (λ k _ s, (true, s ++ [k])) [] full3 full3_s full3_wf).
Defined.

Lemma pr_tree_min_max_correct_witness :
  pr_tree_min full3 = Some (Some 10, full3) ∧
  pr_tree_max full3 = Some (Some 30, full3) ∧
  (∀ k0 k, Some 10 = Some k0 → k ∈ [10; 20; 30] → k = k0 ∨ klt Z_cmp k0 k) ∧
  (∀ k1 k, Some 30 = Some k1 → k ∈ [10; 20; 30] → k = k1 ∨ klt Z_cmp k k1).
Proof.
  apply (pr_tree_min_max_correct Z_cmp full3 full3_s full3_wf).
  unfold bst. vm_compute. repeat constructor.
Defined.

Lemma node_next_prev_correct_witness :
  node_next (Some 1%positive) full3 = Some (Some 3%positive, full3) ∧
  node_prev (Some 1%positive) full3 = Some (Some 2%positive, full3).
Proof.
  by apply (node_next_prev_correct full3 full3_s [2%positive] 1%positive
              [3%positive] full3_wf).
Defined.
