(* ===== verification/MetricsProofs.v ===== *)
(** * Metrics

    [pr_tree_height], [pr_tree_mheight], [pr_tree_pathlen] and
    [pr_tree_count] of pr_tree.c.  The recursions of [node_height],
    [node_mheight] and [node_pathlen] have enough fuel with the size of the
    store.  Heights are computed in [unsigned] arithmetic under [MAX] and
    [MIN], which wrap-around does not commute with: the theorems on them
    assume at most 2^32 - 1 nodes.  [node_pathlen] only adds, so that its
    result is the path length modulo 2^32 whatever the size. *)

From Stdlib Require Import ZArith Lia.
From stdpp Require Import base tactics option list gmap.
From S2P Require Import Prelude Contract Assoc Node Rotate Tree Walk Shape Balance Zipper.
From S2P Require Import Examples Bst Inv.
From S2P Require Import WalkShape Exec WalkProofs.

#[local] Open Scope Z_scope.

Section MetricsProofs.
Context {build : Build} {K V : Type}.
Implicit Types (k : K) (v : V) (t l r : shape K V) (w : world K V).

(** ** Metrics *)

Lemma height_s_bound t : 0 ≤ height_s t ≤ Z.of_nat (nnodes t).
Proof.
  induction t as [|a l IHl k v wt r IHr]; [done|]. cbn [height_s nnodes].
  destruct l, r; cbn [ptr_of nonnull nnodes] in *; lia.
Qed.

Lemma mheight_s_bound t : 0 ≤ mheight_s t ≤ Z.of_nat (nnodes t).
Proof.
  induction t as [|a l IHl k v wt r IHr]; [done|]. cbn [mheight_s nnodes].
  destruct l, r; cbn [ptr_of nonnull nnodes] in *; lia.
Qed.

Lemma mheight_s_le_height_s t : mheight_s t ≤ height_s t.
Proof.
  induction t as [|a l IHl k v wt r IHr]; [done|]. cbn [height_s mheight_s].
  destruct (nonnull (ptr_of l)), (nonnull (ptr_of r)); lia.
Qed.

(** The term for one child in [node_height], [node_mheight]: [child ?
    f(child) + 1 : 0]. *)
Lemma child_metric_run w (node_f : ptr → M (world K V) Z) (f_s : shape K V → Z) t :
  (t ≠ Leaf → node_f (ptr_of t) w = Some (f_s t, w)) →
  0 ≤ f_s t < UINT_MAX →
  (if nonnull (ptr_of t) then h ← node_f (ptr_of t); mret (uint (h + 1))
   else mret 0) w =
  Some (if nonnull (ptr_of t) then f_s t + 1 else 0, w).
Proof.
  intros Hf Hb. destruct t as [|a l k v wt r]; [done|]. cbn [ptr_of nonnull].
  rewrite (bind_run _ _ _ _ _ (Hf ltac:(done))). by rewrite uint_small by lia.
Qed.

Lemma node_height_run w : ∀ fuel p t,
  rep (nodes w) p t → t ≠ Leaf → (nnodes t ≤ fuel)%nat →
  Z.of_nat (nnodes t) ≤ UINT_MAX →
  node_height fuel (ptr_of t) w = Some (height_s t, w).
Proof.
  induction fuel as [|fuel IH]; intros p [|a l k v wt r] Hrep Hne Hfuel Hmax; try done;
    [cbn in Hfuel; lia|].
  destruct Hrep as (Ha & Hl & Hr). cbn [node_height ptr_of height_s nnodes] in *.
  pose proof (height_s_bound l). pose proof (height_s_bound r). do 2 step.
  rewrite (bind_run _ _ _ _ _ (child_metric_run w (node_height fuel) height_s l
    ltac:(intros; eapply IH; [done..|lia|lia]) ltac:(lia))).
  step.
  rewrite (bind_run _ _ _ _ _ (child_metric_run w (node_height fuel) height_s r
    ltac:(intros; eapply IH; [done..|lia|lia]) ltac:(lia))).
  by rewrite MAX_max.
Qed.

Lemma node_mheight_run w : ∀ fuel p t,
  rep (nodes w) p t → t ≠ Leaf → (nnodes t ≤ fuel)%nat →
  Z.of_nat (nnodes t) ≤ UINT_MAX →
  node_mheight fuel (ptr_of t) w = Some (mheight_s t, w).
Proof.
  induction fuel as [|fuel IH]; intros p [|a l k v wt r] Hrep Hne Hfuel Hmax; try done;
    [cbn in Hfuel; lia|].
  destruct Hrep as (Ha & Hl & Hr). cbn [node_mheight ptr_of mheight_s nnodes] in *.
  pose proof (mheight_s_bound l). pose proof (mheight_s_bound r). do 2 step.
  rewrite (bind_run _ _ _ _ _ (child_metric_run w (node_mheight fuel) mheight_s l
    ltac:(intros; eapply IH; [done..|lia|lia]) ltac:(lia))).
  step.
  rewrite (bind_run _ _ _ _ _ (child_metric_run w (node_mheight fuel) mheight_s r
    ltac:(intros; eapply IH; [done..|lia|lia]) ltac:(lia))).
  by rewrite MIN_min.
Qed.

Lemma child_pathlen_run w fuel t (n lv lv' : Z) :
  (∀ lv2 lv2', uint lv2' = uint lv2 → t ≠ Leaf →
     node_pathlen fuel (ptr_of t) lv2' w = Some (uint (pathlen_s t lv2), w)) →
  uint lv' = uint lv →
  (if nonnull (ptr_of t) then
     p ← node_pathlen fuel (ptr_of t) (uint (lv' + 1));
     mret (uint (n + uint (lv' + p)))
   else mret n) w =
  Some (if nonnull (ptr_of t) then uint (n + (lv + pathlen_s t (lv + 1))) else n, w).
Proof.
  intros Hf Hlv. destruct t as [|a l k v wt r]; [done|]. cbn [ptr_of nonnull].
  rewrite (bind_run _ _ _ _ _ (Hf (lv + 1) (uint (lv' + 1))
    ltac:(rewrite uint_uint; by apply uint_add_proper) ltac:(done))).
  apply (f_equal (λ x, Some (x, w))).
  apply uint_add_proper; [done|]. rewrite uint_uint.
  apply uint_add_proper; [done|]. by rewrite uint_uint.
Qed.


Lemma node_pathlen_run w : ∀ fuel p t (lv lv' : Z),
  rep (nodes w) p t → t ≠ Leaf → (nnodes t ≤ fuel)%nat → uint lv' = uint lv →
  node_pathlen fuel (ptr_of t) lv' w = Some (uint (pathlen_s t lv), w).
Proof.
  induction fuel as [|fuel IH]; intros p [|a l k v wt r] lv lv' Hrep Hne Hfuel Hlv;
    try done; [cbn in Hfuel; lia|].
  destruct Hrep as (Ha & Hl & Hr). cbn [node_pathlen ptr_of pathlen_s nnodes] in *.
  do 2 step.
  rewrite (bind_run _ _ _ _ _ (child_pathlen_run w fuel l 0 lv lv'
    ltac:(intros; eapply IH; [done..|lia|done]) Hlv)).
  step.
  rewrite (bind_run _ _ _ _ _ (child_pathlen_run w fuel r _ lv lv'
    ltac:(intros; eapply IH; [done..|lia|done]) Hlv)).
  apply (f_equal (λ x, Some (x, w))).
  destruct (nonnull (ptr_of l)), (nonnull (ptr_of r)); cbn [Z.add];
    rewrite ?Z.add_0_r; try done.
  by apply uint_add_proper; [rewrite uint_uint|].
Qed.

(** ** The entry points *)

Lemma pr_tree_height_run w t :
  wf w t → Z.of_nat (nnodes t) ≤ UINT_MAX →
  pr_tree_height w = Some (height_s t, w) ∧
  pr_tree_mheight w = Some (mheight_s t, w).
Proof.
  intros Hwf Hmax. unfold pr_tree_height, pr_tree_mheight.
  rewrite !(bind_run _ _ _ _ _ (rd_tree_root_wf _ _ Hwf)).
  destruct (Leaf_or_not t) as [->|Hne]; [done|].
  rewrite (proj2 (nonnull_ptr_of t) Hne).
  assert (nnodes t ≤ path_fuel w)%nat
    by (unfold path_fuel; rewrite (wf_size _ _ Hwf); lia).
  split; step; [eapply node_height_run|eapply node_mheight_run];
    first [done|apply Hwf].
Qed.

Lemma pr_tree_pathlen_run w t :
  wf w t → pr_tree_pathlen w = Some (uint (pathlen_s t 1), w).
Proof.
  intros Hwf. unfold pr_tree_pathlen.
  rewrite (bind_run _ _ _ _ _ (rd_tree_root_wf _ _ Hwf)).
  destruct (Leaf_or_not t) as [->|Hne]; [done|].
  rewrite (proj2 (nonnull_ptr_of t) Hne). step.
  eapply node_pathlen_run; [apply Hwf|done| |done].
  unfold path_fuel. rewrite (wf_size _ _ Hwf). lia.
Qed.


(** ** The theorems *)

(** C36: on a well-formed tree of at most 2^32 - 1 nodes [pr_tree_height] is
    the number of edges of the longest branch and [pr_tree_mheight] of the
    shortest branch to a node without a left or without a right child, 0
    for the empty tree; nothing changes.  Both are at most the number of
    nodes, and where the weights are exact and the path-reduction condition
    holds at every node the height [h] of a tree of [n] nodes satisfies
    [2 ^ ((h + 1) / 2) ≤ n + 1]: it is at most [2 * log2 (n + 1)]. *)
Theorem pr_tree_height_correct w t :
  wf w t → Z.of_nat (nnodes t) ≤ UINT_MAX →
  pr_tree_height w = Some (height_s t, w) ∧
  pr_tree_mheight w = Some (mheight_s t, w) ∧
  0 ≤ mheight_s t ≤ height_s t ≤ Z.of_nat (nnodes t) ∧
  (weights_ok t → balanced t = true →
   2 ^ ((height_s t + 1) / 2) ≤ Z.of_nat (nnodes t) + 1).
Proof.
  intros Hwf Hmax. destruct (pr_tree_height_run w t Hwf Hmax) as [-> ->].
  split_and!; [done..|apply mheight_s_bound|apply mheight_s_le_height_s
              |apply height_s_bound|apply balanced_height_s].
Qed.

(** C37: [pr_tree_pathlen] returns, modulo 2^32, the sum over the nodes
    other than the root of their depth, the children of the root being at
    depth 1; 0 for the empty tree. *)
Theorem pr_tree_pathlen_correct w t :
  wf w t →
  pr_tree_pathlen w = Some (uint (pathlen_s t 1), w) ∧
  pathlen_s t 1 = Z.of_nat (ipl t).
Proof.
  intros Hwf. split; [by apply pr_tree_pathlen_run|].
  enough (∀ lv, pathlen_s t lv = Z.of_nat (ipl t) + (lv - 1) * Z.of_nat (pred (nnodes t)))
    as -> by lia.
  clear. induction t as [|a l IHl k v wt r IHr]; intros lv; [cbn; lia|].
  cbn [pathlen_s ipl nnodes]. rewrite IHl, IHr.
  destruct l, r; cbn [ptr_of nonnull nnodes ipl pred]; lia.
Qed.

(** Under the representation invariant [pr_tree_count] returns the
    number of pairs of the dictionary modulo 2^32. *)
Theorem pr_tree_count_correct cmp w t :
  inv cmp w t →
  pr_tree_count w = Some (uint (Z.of_nat (length (inorder t))), w).
Proof.
  intros (tr & Htr & _ & _ & Hc)%inv_tree. unfold pr_tree_count.
  by rewrite (rd_tree_run _ _ _ Htr), Hc, length_inorder.
Qed.

End MetricsProofs.

(** ** Instances on concrete worlds *)

#[local] Existing Instance debug_build.

Lemma pr_tree_height_correct_witness :
  (pr_tree_height right3 = Some (2, right3) ∧
   pr_tree_mheight right3 = Some (0, right3) ∧
   0 ≤ 0 ≤ 2 ≤ 3) ∧
  (pr_tree_height full3 = Some (1, full3) ∧ 2 ^ ((1 + 1) / 2) ≤ 3 + 1).
Proof.
  destruct (pr_tree_height_correct right3 right3_s right3_wf) as (Hh & Hm & Hb & _);
    [done|].
  destruct (pr_tree_height_correct full3 full3_s (inv_wf _ _ _ full3_inv))
    as (Hh' & _ & _ & Hlog); [done|].
  split; [done|]. split; [exact Hh'|]. by apply Hlog.
Defined.

Lemma pr_tree_pathlen_correct_witness :
  pr_tree_pathlen right3 = Some (3, right3) ∧ 3 = 3.
Proof. exact (pr_tree_pathlen_correct right3 right3_s right3_wf). Defined.

Lemma pr_tree_count_correct_witness :
  pr_tree_count full3 = Some (3, full3).
Proof. exact (pr_tree_count_correct Z_cmp full3 full3_s full3_inv). Defined.
