(* ===== verification/ItorProofs.v ===== *)
(** * The cursor over the dictionary

    The functions on [struct pr_itor] of pr_tree.c on a well-formed tree.
    The cursor is at a position of the sequence of the nodes in symmetric
    order, or invalid ([itor->node == NULL]): [at_pos t z] is the node at
    position [z], and [NULL] for a position before the first or after the
    last node.  The stepping functions move the position; an invalid cursor
    counts as the position before the first node for the functions that go
    forward and as the position after the last for those that go back. *)

From Stdlib Require Import ZArith Lia.
From stdpp Require Import base tactics option list gmap.
From S2P Require Import Prelude Contract Assoc Node Rotate Tree Walk Itor Shape Zipper.
From S2P Require Import WalkShape Examples Bst Inv InsertShape Exec WalkProofs.

#[local] Open Scope Z_scope.

Section ItorProofs.
Context {build : Build} {K V : Type}.
Implicit Types (k : K) (v : V) (t l r : shape K V) (w : world K V).
Implicit Types (it : pr_itor) (z : Z) (p : ptr).

(** ** Definitions *)

(** The node at a position of the symmetric order. *)
Definition at_pos t z : ptr :=
  if z <? 0 then NULL else addrs t !! Z.to_nat z.

(** The pair at a position. *)
Definition pair_at t z : option (K * V) :=
  if z <? 0 then None else inorder t !! Z.to_nat z.

(** The value [RETVALID] returns. *)
Definition validity p : Z := if nonnull p then 1 else 0.

(** ** Lemmas *)

Lemma at_pos_before t z : z < 0 → at_pos t z = NULL.
Proof. unfold at_pos. by destruct (Z.ltb_spec z 0); [|lia]. Qed.

Lemma at_pos_after t z : Z.of_nat (nnodes t) ≤ z → at_pos t z = NULL.
Proof.
  intros Hz. unfold at_pos. destruct (z <? 0); [done|].
  apply lookup_ge_None. rewrite length_addrs. lia.
Qed.

Lemma at_pos_lookup t z : 0 ≤ z → at_pos t z = addrs t !! Z.to_nat z.
Proof. unfold at_pos. by destruct (Z.ltb_spec z 0); [lia|]. Qed.

Lemma at_pos_Some t z a : at_pos t z = Some a → 0 ≤ z < Z.of_nat (nnodes t).
Proof.
  unfold at_pos. destruct (Z.ltb_spec z 0); [done|].
  intros Hl%lookup_lt_Some. rewrite length_addrs in Hl. lia.
Qed.

Lemma at_pos_first t : at_pos t 0 = head (addrs t).
Proof. by rewrite head_lookup. Qed.

Lemma at_pos_last t : at_pos t (Z.of_nat (nnodes t) - 1) = last (addrs t).
Proof.
  rewrite last_lookup, length_addrs. destruct (nnodes t) as [|n] eqn:Hn.
  - rewrite at_pos_before by lia. symmetry. apply lookup_ge_None.
    rewrite length_addrs. lia.
  - rewrite at_pos_lookup by lia. f_equal. lia.
Qed.

(** The pair at the position of a node. *)
Lemma pair_at_elem t z a :
  at_pos t z = Some a → ∃ kv, pair_at t z = Some kv ∧ elems t !! Z.to_nat z = Some (a, kv).
Proof.
  unfold at_pos, pair_at. destruct (z <? 0); [done|].
  rewrite <- elems_addrs, <- elems_inorder, !list_lookup_fmap.
  destruct (elems t !! Z.to_nat z) as [[b kv]|]; [|done]. intros [= ->]. by exists kv.
Qed.

(** The position of a node from its place in the sequence. *)
Lemma elems_lookup_pos t i a kv :
  elems t !! i = Some (a, kv) →
  at_pos t (Z.of_nat i) = Some a ∧ pair_at t (Z.of_nat i) = Some kv.
Proof.
  intros He. unfold at_pos, pair_at. destruct (Z.ltb_spec (Z.of_nat i) 0); [lia|].
  rewrite Nat2Z.id, <- elems_addrs, <- elems_inorder, !list_lookup_fmap, He. done.
Qed.

Lemma pair_at_None t z : at_pos t z = NULL → pair_at t z = None.
Proof.
  unfold at_pos, pair_at. destruct (z <? 0); [done|].
  rewrite !lookup_ge_None, length_addrs, length_inorder. done.
Qed.

(** The position of the node in the hole of a context. *)
Lemma plug_pos c a l k v wt r :
  elems (plug c (Bin a l k v wt r)) !! length (ctx_elems_before c ++ elems l)
  = Some (a, (k, v)).
Proof.
  rewrite elems_plug. cbn [elems]. rewrite <- !app_assoc, (app_assoc (ctx_elems_before c)).
  by apply list_lookup_middle.
Qed.

(** *** Running tree functions from the cursor *)

Lemma on_tree_run {A} (c : M (world K V) A) w it a w' :
  c w = Some (a, w') → on_tree c (w, it) = Some (a, (w', it)).
Proof. unfold on_tree. cbn. by intros ->. Qed.

Lemma rd_itor_run w it : rd_itor (w, it) = Some (node it, (w, it)).
Proof. done. Qed.

Lemma wr_itor_run w it p : wr_itor p (w, it) = Some (tt, (w, mk_itor p)).
Proof. done. Qed.

Lemma RETVALID_run w it : RETVALID (w, it) = Some (validity (node it), (w, it)).
Proof. done. Qed.

(** *** Steps *)

Lemma node_next_pos w t z a :
  wf w t → at_pos t z = Some a → node_next (Some a) w = Some (at_pos t (z + 1), w).
Proof.
  intros Hwf Ha. pose proof (at_pos_Some _ _ _ Ha) as Hz.
  destruct (pair_at_elem _ _ _ Ha) as (kv & _ & He).
  rewrite (node_next_elem w t _ a kv _ Hwf (eq_sym (take_drop_middle _ _ _ He))).
  rewrite fmap_drop, head_drop_lookup, elems_addrs, at_pos_lookup by lia.
  do 3 f_equal. lia.
Qed.

Lemma node_prev_pos w t z a :
  wf w t → at_pos t z = Some a → node_prev (Some a) w = Some (at_pos t (z - 1), w).
Proof.
  intros Hwf Ha. pose proof (at_pos_Some _ _ _ Ha) as Hz.
  destruct (pair_at_elem _ _ _ Ha) as (kv & _ & He).
  rewrite (node_prev_elem w t _ a kv _ Hwf (eq_sym (take_drop_middle _ _ _ He))).
  rewrite fmap_take, elems_addrs. do 2 f_equal.
  destruct (Z.to_nat z) as [|i] eqn:Hi.
  - by rewrite at_pos_before by lia.
  - rewrite last_take_lookup by (rewrite length_addrs; lia).
    rewrite at_pos_lookup by lia. f_equal. lia.
Qed.

(** ** The ends *)

Lemma node_min_run w t :
  wf w t → t ≠ Leaf → node_min (ptr_of t) w = Some (head (addrs t), w).
Proof.
  intros Hwf Hne. unfold node_min. step.
  apply (llink_loop_run w (path_fuel w) NULL t (wf_rep _ _ Hwf) Hne).
  unfold path_fuel. rewrite (wf_size _ _ Hwf). lia.
Qed.

Lemma node_max_run w t :
  wf w t → t ≠ Leaf → node_max (ptr_of t) w = Some (last (addrs t), w).
Proof.
  intros Hwf Hne. unfold node_max. step.
  apply (rlink_loop_run w (path_fuel w) NULL t (wf_rep _ _ Hwf) Hne).
  unfold path_fuel. rewrite (wf_size _ _ Hwf). lia.
Qed.

Lemma pr_itor_first_run w t it :
  wf w t →
  pr_itor_first (w, it) = Some (validity (at_pos t 0), (w, mk_itor (at_pos t 0))).
Proof.
  intros Hwf. unfold pr_itor_first. rewrite at_pos_first.
  rewrite (bind_run _ _ _ _ _ (on_tree_run _ _ it _ _ (rd_tree_root_wf _ _ Hwf))).
  destruct (Leaf_or_not t) as [->|Hne]; [done|].
  rewrite (proj2 (nonnull_ptr_of t) Hne). cbn [negb]. rewrite bind_assoc.
  by rewrite (bind_run _ _ _ _ _ (on_tree_run _ _ it _ _ (node_min_run _ _ Hwf Hne))).
Qed.

Lemma pr_itor_last_run w t it :
  wf w t →
  pr_itor_last (w, it) =
  Some (validity (at_pos t (Z.of_nat (nnodes t) - 1)),
        (w, mk_itor (at_pos t (Z.of_nat (nnodes t) - 1)))).
Proof.
  intros Hwf. unfold pr_itor_last. rewrite at_pos_last.
  rewrite (bind_run _ _ _ _ _ (on_tree_run _ _ it _ _ (rd_tree_root_wf _ _ Hwf))).
  destruct (Leaf_or_not t) as [->|Hne]; [done|].
  rewrite (proj2 (nonnull_ptr_of t) Hne). cbn [negb]. rewrite bind_assoc.
  by rewrite (bind_run _ _ _ _ _ (on_tree_run _ _ it _ _ (node_max_run _ _ Hwf Hne))).
Qed.

(** ** One step *)

Lemma pr_itor_next_run w t it z :
  wf w t → node it = at_pos t z → -1 ≤ z < Z.of_nat (nnodes t) →
  pr_itor_next (w, it) =
  Some (validity (at_pos t (z + 1)), (w, mk_itor (at_pos t (z + 1)))).
Proof.
  intros Hwf Hit Hz. unfold pr_itor_next. rewrite (bind_run _ _ _ _ _ (rd_itor_run w it)), Hit. destruct (at_pos t z) as [a|] eqn:Ha; cbn [nonnull negb].
  - rewrite bind_assoc.
    by rewrite (bind_run _ _ _ _ _ (on_tree_run _ _ it _ _ (node_next_pos _ _ _ _ Hwf Ha))).
  - assert (z = -1) as ->.
    { destruct (Z.ltb_spec z 0); [lia|]. rewrite at_pos_lookup in Ha by lia.
      apply lookup_ge_None in Ha. rewrite length_addrs in Ha. lia. }
    rewrite bind_assoc. by rewrite (bind_run _ _ _ _ _ (pr_itor_first_run _ _ it Hwf)).
Qed.

Lemma pr_itor_prev_run w t it z :
  wf w t → node it = at_pos t z → 0 ≤ z ≤ Z.of_nat (nnodes t) →
  pr_itor_prev (w, it) =
  Some (validity (at_pos t (z - 1)), (w, mk_itor (at_pos t (z - 1)))).
Proof.
  intros Hwf Hit Hz. unfold pr_itor_prev. rewrite (bind_run _ _ _ _ _ (rd_itor_run w it)), Hit. destruct (at_pos t z) as [a|] eqn:Ha; cbn [nonnull negb].
  - rewrite bind_assoc.
    by rewrite (bind_run _ _ _ _ _ (on_tree_run _ _ it _ _ (node_prev_pos _ _ _ _ Hwf Ha))).
  - assert (z = Z.of_nat (nnodes t)) as ->.
    { rewrite at_pos_lookup in Ha by lia.
      apply lookup_ge_None in Ha. rewrite length_addrs in Ha. lia. }
    rewrite bind_assoc. by rewrite (bind_run _ _ _ _ _ (pr_itor_last_run _ _ it Hwf)).
Qed.

(** ** Several steps *)

Lemma nextn_loop_run w t n : ∀ it z,
  wf w t → node it = at_pos t z → 0 ≤ z →
  nextn_loop n (w, it) = Some (tt, (w, mk_itor (at_pos t (z + Z.of_nat n)))).
Proof.
  induction n as [|n IH]; intros [p] z Hwf Hit Hz; cbn [node] in Hit; subst p.
  { by rewrite Z.add_0_r. }
  cbn [nextn_loop]. rewrite (bind_run _ _ _ _ _ (rd_itor_run _ _)). cbn [node].
  destruct (at_pos t z) as [a|] eqn:Ha; cbn [nonnull].
  - rewrite (bind_run _ _ _ _ _ (on_tree_run _ _ _ _ _ (node_next_pos _ _ _ _ Hwf Ha))).
    rewrite (bind_run _ _ _ _ _ (wr_itor_run _ _ _)), (IH _ (z + 1)) by (done || lia).
    by replace (z + Z.of_nat (S n)) with (z + 1 + Z.of_nat n) by lia.
  - rewrite at_pos_after; [done|]. rewrite at_pos_lookup in Ha by done.
    apply lookup_ge_None in Ha. rewrite length_addrs in Ha. lia.
Qed.

Lemma prevn_loop_run w t n : ∀ it z,
  wf w t → node it = at_pos t z → z < Z.of_nat (nnodes t) →
  prevn_loop n (w, it) = Some (tt, (w, mk_itor (at_pos t (z - Z.of_nat n)))).
Proof.
  induction n as [|n IH]; intros [p] z Hwf Hit Hz; cbn [node] in Hit; subst p.
  { by rewrite Z.sub_0_r. }
  cbn [prevn_loop]. rewrite (bind_run _ _ _ _ _ (rd_itor_run _ _)). cbn [node].
  destruct (at_pos t z) as [a|] eqn:Ha; cbn [nonnull].
  - rewrite (bind_run _ _ _ _ _ (on_tree_run _ _ _ _ _ (node_prev_pos _ _ _ _ Hwf Ha))).
    rewrite (bind_run _ _ _ _ _ (wr_itor_run _ _ _)), (IH _ (z - 1)) by (done || lia).
    by replace (z - Z.of_nat (S n)) with (z - 1 - Z.of_nat n) by lia.
  - rewrite at_pos_before; [done|]. destruct (Z.ltb_spec z 0); [lia|].
    rewrite at_pos_lookup in Ha by done.
    apply lookup_ge_None in Ha. rewrite length_addrs in Ha. lia.
Qed.

Lemma pr_itor_nextn_run w t it z count :
  wf w t → node it = at_pos t z → -1 ≤ z < Z.of_nat (nnodes t) →
  0 ≤ count ≤ UINT_MAX →
  pr_itor_nextn count (w, it) =
  Some (validity (at_pos t (z + count)), (w, mk_itor (at_pos t (z + count)))).
Proof.
  intros Hwf Hit Hz Hc. unfold pr_itor_nextn.
  destruct (Z.eqb_spec count 0) as [->|Hne]; cbn [negb].
  { destruct it as [p]. cbn in *. subst p. by rewrite Z.add_0_r. }
  rewrite !bind_assoc, (bind_run _ _ _ _ _ (rd_itor_run w it)), Hit.
  destruct (at_pos t z) as [a|] eqn:Ha; cbn [nonnull negb].
  - rewrite bind_assoc, ret_bind.
    erewrite bind_run;
      [|apply (nextn_loop_run w t _ it z); [done|by rewrite Ha|apply (at_pos_Some t z a Ha)]].
    rewrite Z2Nat.id by lia. done.
  - assert (z = -1) as ->.
    { destruct (Z.ltb_spec z 0); [lia|]. rewrite at_pos_lookup in Ha by lia.
      apply lookup_ge_None in Ha. rewrite length_addrs in Ha. lia. }
    rewrite !bind_assoc, (bind_run _ _ _ _ _ (pr_itor_first_run _ _ it Hwf)), ret_bind.
    erewrite bind_run; [|by apply (nextn_loop_run w t _ _ 0)].
    rewrite uint_small, Z2Nat.id by lia.
    by replace (0 + (count - 1)) with (-1 + count) by lia.
Qed.

Lemma pr_itor_prevn_run w t it z count :
  wf w t → node it = at_pos t z → 0 ≤ z ≤ Z.of_nat (nnodes t) →
  0 ≤ count ≤ UINT_MAX →
  pr_itor_prevn count (w, it) =
  Some (validity (at_pos t (z - count)), (w, mk_itor (at_pos t (z - count)))).
Proof.
  intros Hwf Hit Hz Hc. unfold pr_itor_prevn.
  destruct (Z.eqb_spec count 0) as [->|Hne]; cbn [negb].
  { destruct it as [p]. cbn in *. subst p. by rewrite Z.sub_0_r. }
  rewrite !bind_assoc, (bind_run _ _ _ _ _ (rd_itor_run w it)), Hit.
  destruct (at_pos t z) as [a|] eqn:Ha; cbn [nonnull negb].
  - rewrite bind_assoc, ret_bind.
    erewrite bind_run;
      [|apply (prevn_loop_run w t _ it z); [done|by rewrite Ha|apply (at_pos_Some t z a Ha)]].
    rewrite Z2Nat.id by lia. done.
  - assert (z = Z.of_nat (nnodes t)) as ->.
    { rewrite at_pos_lookup in Ha by lia.
      apply lookup_ge_None in Ha. rewrite length_addrs in Ha. lia. }
    rewrite !bind_assoc, (bind_run _ _ _ _ _ (pr_itor_last_run _ _ it Hwf)), ret_bind.
    erewrite bind_run;
      [|by apply (prevn_loop_run w t _ _ (Z.of_nat (nnodes t) - 1)); [..|lia]].
    rewrite uint_small, Z2Nat.id by lia.
    by replace (Z.of_nat (nnodes t) - 1 - (count - 1)) with (Z.of_nat (nnodes t) - count)
      by lia.
Qed.

(** ** [pr_itor_search] *)

Lemma itor_search_loop_run cmp k w fuel : ∀ c t rv,
  rep (nodes w) (ctx_parent c) t → (nnodes t < fuel)%nat →
  itor_search_loop fuel cmp k (ptr_of t) w = Some (ptr_of (path cmp k rv c t).2, w).
Proof.
  induction fuel as [|fuel IH]; intros c t rv Hrep Hlt; [lia|].
  destruct t as [|a l nk v wt r]; [done|]. destruct Hrep as (Ha & Hl & Hr).
  cbn [itor_search_loop ptr_of nonnull path nnodes] in *. step.
  destruct (cmp k nk <? 0).
  { step. by apply (IH (FL a nk v wt r :: c)); [|lia]. }
  destruct (cmp k nk >? 0).
  { step. by apply (IH (FR a l nk v wt :: c)); [|lia]. }
  done.
Qed.

Lemma pr_itor_search_run cmp `{!Comparator cmp} k w t it :
  wf w t → bst cmp t → key_cmp <$> tree w = Some cmp →
  ∃ z, pr_itor_search k (w, it) =
       Some (validity (at_pos t z), (w, mk_itor (at_pos t z))) ∧
       pair_at t z = entry cmp k (inorder t) ∧ -1 ≤ z < Z.of_nat (nnodes t).
Proof.
  intros Hwf Hbst Hcmp. destruct (wf_tree _ _ Hwf) as (tr & Htr & _).
  rewrite Htr in Hcmp. injection Hcmp as <-.
  destruct (path (key_cmp tr) k 0 [] t) as [[rv c] t'] eqn:Hp.
  pose proof (path_plug _ _ _ _ _ _ _ _ Hp) as Hplug. cbn [plug] in Hplug.
  pose proof (path_entry _ _ _ _ _ _ Hp Hbst) as He.
  assert (pr_itor_search k (w, it) = Some (validity (ptr_of t'), (w, mk_itor (ptr_of t'))))
    as ->.
  { unfold pr_itor_search.
    rewrite (bind_run _ _ _ _ _ (on_tree_run _ _ it _ _ (rd_tree_run key_cmp _ _ Htr))).
    rewrite (bind_run _ _ _ _ _ (on_tree_run _ _ it _ _ (rd_tree_root_wf _ _ Hwf))).
    erewrite bind_run; [|by apply on_tree_run].
    erewrite bind_run; [|apply on_tree_run, (itor_search_loop_run _ k w _ [] t 0);
      [apply Hwf|unfold path_fuel; rewrite (wf_size _ _ Hwf); lia]].
    by rewrite Hp. }
  destruct t' as [|a l nk v wt r].
  - exists (-1). rewrite He. split_and!; [done..|lia| lia].
  - exists (Z.of_nat (length (ctx_elems_before c ++ elems l))).
    pose proof (plug_pos c a l nk v wt r) as Hpos. rewrite Hplug in Hpos.
    destruct (elems_lookup_pos _ _ _ _ Hpos) as [-> ->].
    apply lookup_lt_Some in Hpos.
    rewrite <- (length_addrs t), <- elems_addrs, length_fmap. by split_and!; [..|lia|lia].
Qed.

(** ** Reading and writing at the cursor *)

Lemma pr_itor_key_run w t it z :
  wf w t → node it = at_pos t z →
  pr_itor_key (w, it) = Some (fst <$> pair_at t z, (w, it)).
Proof.
  intros Hwf Hit. unfold pr_itor_key. rewrite (bind_run _ _ _ _ _ (rd_itor_run w it)), Hit.
  destruct (at_pos t z) as [a|] eqn:Ha; [|by rewrite pair_at_None].
  destruct (pair_at_elem _ _ _ Ha) as ([k v] & -> & He%list_elem_of_lookup_2).
  cbn [nonnull]. by rewrite (bind_run _ _ _ _ _ (on_tree_run _ _ it _ _ (rd_key_elem _ _ _ _ _ Hwf He))).
Qed.

Lemma pr_itor_data_run w t it z :
  wf w t → node it = at_pos t z →
  pr_itor_data (w, it) = Some (snd <$> pair_at t z, (w, it)).
Proof.
  intros Hwf Hit. unfold pr_itor_data. rewrite (bind_run _ _ _ _ _ (rd_itor_run w it)), Hit.
  destruct (at_pos t z) as [a|] eqn:Ha; [|by rewrite pair_at_None].
  destruct (pair_at_elem _ _ _ Ha) as ([k v] & -> & He%list_elem_of_lookup_2).
  cbn [nonnull]. by rewrite (bind_run _ _ _ _ _ (on_tree_run _ _ it _ _ (rd_datum_elem _ _ _ _ _ Hwf He))).
Qed.

(** The tree after the datum of a node is replaced. *)
Lemma elems_set_datum c a l k v wt r d :
  elems (plug c (Bin a l k d wt r)) =
  <[length (ctx_elems_before c ++ elems l) := (a, (k, d))]>
    (elems (plug c (Bin a l k v wt r))).
Proof.
  rewrite !elems_plug. cbn [elems].
  rewrite <- !app_assoc, !(app_assoc (ctx_elems_before c)).
  by rewrite <- (Nat.add_0_r (length _)), insert_app_r.
Qed.

Lemma inv_set_datum cmp w c a l k v wt r d :
  inv cmp w (plug c (Bin a l k v wt r)) →
  inv cmp (upd_nodes <[a := mk_node k d (ctx_parent c) (ptr_of l) (ptr_of r) wt]> w)
    (plug c (Bin a l k d wt r)).
Proof.
  intros [Hwf Hbst Hw Hf Hc Hn].
  assert (nnodes (plug c (Bin a l k d wt r)) = nnodes (plug c (Bin a l k v wt r))) as Hnn
    by by apply nnodes_plug.
  split; [by eapply wf_set_node| | |by unfold fits; rewrite Hnn|done|by rewrite Hnn].
  - unfold bst, keys in *. rewrite inorder_plug in *. cbn [inorder] in *.
    by rewrite !fmap_app, fmap_cons in *.
  - destruct (proj1 (weights_ok_plug c (Bin a l k v wt r)) Hw) as [Ht Hctx].
    by apply (weights_ok_plug c (Bin a l k d wt r)).
Qed.

Lemma pr_itor_set_data_run w c a l k v wt r it d (want_old : bool) :
  wf w (plug c (Bin a l k v wt r)) → node it = Some a →
  pr_itor_set_data d want_old (w, it) =
  Some ((0, if want_old then Some v else None),
        (upd_nodes <[a := mk_node k d (ctx_parent c) (ptr_of l) (ptr_of r) wt]> w, it)).
Proof.
  intros (_ & _ & (Ha & _) & _)%wf_plug Hit. unfold pr_itor_set_data.
  rewrite (bind_run _ _ _ _ _ (rd_itor_run w it)), Hit. cbn [nonnull negb].
  destruct want_old.
  - rewrite bind_assoc.
    rewrite (bind_run _ _ _ _ _ (on_tree_run _ _ it _ _ (rd_run datum _ _ _ Ha))).
    rewrite ret_bind.
    by rewrite (bind_run _ _ _ _ _ (on_tree_run _ _ it _ _ (wr_run _ _ _ _ Ha))).
  - rewrite ret_bind.
    by rewrite (bind_run _ _ _ _ _ (on_tree_run _ _ it _ _ (wr_run _ _ _ _ Ha))).
Qed.

Lemma pr_itor_set_data_at cmp w t it z d (want_old : bool) :
  inv cmp w t → node it = at_pos t z →
  wp (pr_itor_set_data d want_old) (w, it) (λ ret s,
    s.2 = it ∧
    match pair_at t z with
    | None => ret = (-1, None) ∧ s.1 = w
    | Some (k, v) =>
        ret = (0, if want_old then Some v else None) ∧ meta s.1 = meta w ∧
        ∃ t', inv cmp s.1 t' ∧ addrs t' = addrs t ∧
              inorder t' = <[Z.to_nat z := (k, d)]> (inorder t)
    end).
Proof.
  intros Hinv Hit. destruct (at_pos t z) as [a|] eqn:Ha.
  - destruct (pair_at_elem _ _ _ Ha) as ([k v] & Hp & He). rewrite Hp.
    destruct (position_split t _ a (k, v) _ (wf_nodup _ _ (inv_wf _ _ _ Hinv))
                (eq_sym (take_drop_middle _ _ _ He))) as (c & l & wt & r & -> & Hpre & _).
    cbn [fst snd] in *.
    eapply wp_run; [by eapply pr_itor_set_data_run; [apply Hinv|]|].
    split_and!; [done..|]. eexists. split; [exact (inv_set_datum cmp w c a l k v wt r d Hinv)|].
    assert (length (ctx_elems_before c ++ elems l) = Z.to_nat z) as Hlen.
    { rewrite <- Hpre, length_take_le; [done|]. apply lookup_lt_Some in He. lia. }
    rewrite <- !elems_inorder, <- !elems_addrs, (elems_set_datum c a l k v wt r d), Hlen.
    rewrite !list_fmap_insert. split; [|done].
    apply list_insert_id. by rewrite list_lookup_fmap, He.
  - rewrite pair_at_None by done. unfold pr_itor_set_data.
    eapply wp_bind_run; [apply rd_itor_run|]. rewrite Hit. by apply wp_ret.
Qed.

(** ** The theorems *)

(** C32: [pr_itor_first] puts the cursor on the first node of the symmetric
    order and [pr_itor_last] on the last one; on an empty tree the cursor is
    invalid.  Each returns whether the cursor is valid and leaves the tree
    as it was.  [pr_itor_new] makes a cursor on the first node, or returns
    [NULL] without memory. *)
Theorem pr_itor_first_last_correct w t it :
  wf w t →
  pr_itor_first (w, it) = Some (validity (head (addrs t)), (w, mk_itor (head (addrs t)))) ∧
  pr_itor_last (w, it) = Some (validity (last (addrs t)), (w, mk_itor (last (addrs t)))) ∧
  pr_itor_new true w = Some (Some (mk_itor (head (addrs t))), w) ∧
  pr_itor_new false w = Some (None, w).
Proof.
  intros Hwf. unfold pr_itor_new. rewrite <- at_pos_first, <- at_pos_last.
  by rewrite !(pr_itor_first_run w t _ Hwf), (pr_itor_last_run w t it Hwf).
Qed.

(** C22: [pr_itor_next] moves a cursor at position [z] to position [z + 1]
    and [pr_itor_prev] to position [z - 1]; the cursor becomes invalid when
    it leaves the sequence.  From an invalid cursor [pr_itor_next] goes to
    the first node and [pr_itor_prev] to the last. *)
Theorem pr_itor_next_prev_correct w t it z :
  wf w t → node it = at_pos t z →
  (-1 ≤ z < Z.of_nat (nnodes t) →
   pr_itor_next (w, it) =
   Some (validity (at_pos t (z + 1)), (w, mk_itor (at_pos t (z + 1))))) ∧
  (0 ≤ z ≤ Z.of_nat (nnodes t) →
   pr_itor_prev (w, it) =
   Some (validity (at_pos t (z - 1)), (w, mk_itor (at_pos t (z - 1))))).
Proof.
  intros Hwf Hit. split; intros Hz; [by apply pr_itor_next_run|by apply pr_itor_prev_run].
Qed.

(** C31: [pr_itor_nextn] with a count that fits an [unsigned] moves the
    cursor [count] positions forward and [pr_itor_prevn] [count] positions
    back, an invalid cursor counting as the position before the first node
    and after the last node; a count of 0 moves nothing. *)
Theorem pr_itor_nextn_prevn_correct w t it z count :
  wf w t → node it = at_pos t z → 0 ≤ count ≤ UINT_MAX →
  (-1 ≤ z < Z.of_nat (nnodes t) →
   pr_itor_nextn count (w, it) =
   Some (validity (at_pos t (z + count)), (w, mk_itor (at_pos t (z + count))))) ∧
  (0 ≤ z ≤ Z.of_nat (nnodes t) →
   pr_itor_prevn count (w, it) =
   Some (validity (at_pos t (z - count)), (w, mk_itor (at_pos t (z - count))))).
Proof.
  intros Hwf Hit Hc.
  split; intros Hz; [by apply pr_itor_nextn_run|by apply pr_itor_prevn_run].
Qed.

(** C23: [pr_itor_search] on a search tree leaves the tree as it was and the
    cursor on the entry whose key compares equal, where [pr_itor_key] and
    [pr_itor_data] return its key and datum; it returns 1.  Without such an
    entry the cursor is invalid, the result is 0 and both return [NULL]. *)
Theorem pr_itor_search_correct cmp `{!Comparator cmp} k w t it :
  wf w t → bst cmp t → key_cmp <$> tree w = Some cmp →
  wp (pr_itor_search k) (w, it) (λ ret s,
    s.1 = w ∧
    ret = (if entry cmp k (inorder t) is Some _ then 1 else 0) ∧
    pr_itor_key s = Some (fst <$> entry cmp k (inorder t), s) ∧
    pr_itor_data s = Some (assoc cmp k (inorder t), s)).
Proof.
  intros Hwf Hbst Hcmp.
  destruct (pr_itor_search_run cmp k w t it Hwf Hbst Hcmp) as (z & Hrun & He & Hz).
  eapply wp_run; [exact Hrun|]. rewrite assoc_entry, <- He.
  rewrite (pr_itor_key_run w t _ z), (pr_itor_data_run w t _ z) by done.
  split_and!; [done| |done..]. unfold validity.
  destruct (at_pos t z) as [a|] eqn:Ha; [|by rewrite pair_at_None].
  by destruct (pair_at_elem _ _ _ Ha) as (kv & -> & _).
Qed.

(** At a cursor at position [z], [pr_itor_key] and [pr_itor_data]
    return the key and the datum of the pair at that position of the
    dictionary, [NULL] at an invalid cursor; [pr_itor_cdata] is
    [pr_itor_data]. *)
Theorem pr_itor_key_data_correct w t it z :
  wf w t → node it = at_pos t z →
  pr_itor_key (w, it) = Some (fst <$> pair_at t z, (w, it)) ∧
  pr_itor_data (w, it) = Some (snd <$> pair_at t z, (w, it)) ∧
  pr_itor_cdata (w, it) = pr_itor_data (w, it).
Proof.
  intros Hwf Hit. split_and!; [by apply pr_itor_key_run|by apply pr_itor_data_run|done].
Qed.

(** C24: [pr_itor_set_data] at a valid cursor replaces the datum of the pair
    under the cursor, keeps the invariant, returns 0 and stores the old
    datum when asked for it: the dictionary is the one before with the
    datum of that key overwritten.  The deleter is not called.  At an
    invalid cursor it returns -1 and changes nothing. *)
Theorem pr_itor_set_data_correct cmp `{!Comparator cmp} w t it z d (want_old : bool) :
  inv cmp w t → node it = at_pos t z →
  wp (pr_itor_set_data d want_old) (w, it) (λ ret s,
    s.2 = it ∧
    match pair_at t z with
    | None => ret = (-1, None) ∧ s.1 = w
    | Some (k, v) =>
        ret = (0, if want_old then Some v else None) ∧ meta s.1 = meta w ∧
        ∃ t', inv cmp s.1 t' ∧ addrs t' = addrs t ∧
              inorder t' = <[Z.to_nat z := (k, d)]> (inorder t) ∧
              inorder t' = put_entry cmp k d true (inorder t)
    end).
Proof.
  intros Hinv Hit. eapply wp_mono; [by apply (pr_itor_set_data_at cmp)|].
  intros ret s [Hs Hr]. split; [done|].
  destruct (pair_at t z) as [[k v]|] eqn:Hp; [|done].
  destruct Hr as (? & ? & t' & ? & ? & Hin). split_and!; [done..|].
  exists t'. split_and!; [done..|]. rewrite Hin. symmetry.
  apply (put_entry_insert cmp k v); [apply (inv_bst _ _ _ Hinv)|].
  revert Hp. unfold pair_at. by destruct (z <? 0).
Qed.

End ItorProofs.

(** ** Instances on concrete worlds *)

#[local] Existing Instance debug_build.

Lemma pr_itor_first_last_correct_witness :
  pr_itor_first (full3, mk_itor NULL) = Some (1, (full3, mk_itor (Some 2%positive))) ∧
  pr_itor_last (full3, mk_itor NULL) = Some (1, (full3, mk_itor (Some 3%positive))) ∧
  pr_itor_new true full3 = Some (Some (mk_itor (Some 2%positive)), full3) ∧
  pr_itor_new false full3 = Some (None, full3).
Proof. exact (pr_itor_first_last_correct full3 full3_s (mk_itor NULL) full3_wf). Defined.

Lemma pr_itor_next_prev_correct_witness :
  pr_itor_next (full3, mk_itor (Some 1%positive)) =
    Some (1, (full3, mk_itor (Some 3%positive))) ∧
  pr_itor_prev (full3, mk_itor (Some 1%positive)) =
    Some (1, (full3, mk_itor (Some 2%positive))).
Proof.
  destruct (pr_itor_next_prev_correct full3 full3_s (mk_itor (Some 1%positive)) 1 full3_wf)
    as [Hn Hp]; [done|].
  split; [apply Hn|apply Hp]; cbn; lia.
Defined.

Lemma pr_itor_nextn_prevn_correct_witness :
  pr_itor_nextn 2 (full3, mk_itor (Some 2%positive)) =
    Some (1, (full3, mk_itor (Some 3%positive))) ∧
  pr_itor_prevn 1 (full3, mk_itor (Some 2%positive)) = Some (0, (full3, mk_itor NULL)).
Proof.
  destruct (pr_itor_nextn_prevn_correct full3 full3_s (mk_itor (Some 2%positive)) 0 2
              full3_wf) as [Hn _]; [done|done|].
  destruct (pr_itor_nextn_prevn_correct full3 full3_s (mk_itor (Some 2%positive)) 0 1
              full3_wf) as [_ Hp]; [done|done|].
  split; [apply Hn|apply Hp]; cbn; lia.
Defined.

Lemma pr_itor_search_correct_witness :
  wp (pr_itor_search 30) (full3, mk_itor NULL) (λ ret s,
    s.1 = full3 ∧ ret = 1 ∧
    pr_itor_key s = Some (Some 30, s) ∧ pr_itor_data s = Some (Some 300, s)).
Proof.
  apply (pr_itor_search_correct Z_cmp 30 full3 full3_s (mk_itor NULL) full3_wf); [|done].
  apply full3_inv.
Defined.

Lemma pr_itor_key_data_correct_witness :
  pr_itor_key (full3, mk_itor (Some 1%positive)) =
    Some (Some 20, (full3, mk_itor (Some 1%positive))) ∧
  pr_itor_data (full3, mk_itor (Some 1%positive)) =
    Some (Some 200, (full3, mk_itor (Some 1%positive))) ∧
  pr_itor_cdata (full3, mk_itor (Some 1%positive)) =
    pr_itor_data (full3, mk_itor (Some 1%positive)).
Proof.
  by apply (pr_itor_key_data_correct full3 full3_s (mk_itor (Some 1%positive)) 1 full3_wf).
Defined.

Lemma pr_itor_set_data_correct_witness :
  wp (pr_itor_set_data 999 true) (full3, mk_itor (Some 1%positive)) (λ ret s,
    s.2 = mk_itor (Some 1%positive) ∧
    ret = (0, Some 200) ∧ meta s.1 = meta full3 ∧
    ∃ t', inv Z_cmp s.1 t' ∧ addrs t' = [2; 1; 3]%positive ∧
          inorder t' = [(10, 100); (20, 999); (30, 300)] ∧
          inorder t' = [(10, 100); (20, 999); (30, 300)]).
Proof.
  by apply (pr_itor_set_data_correct Z_cmp full3 full3_s (mk_itor (Some 1%positive)) 1
              999 true full3_inv).
Defined.

