(* ===== verification/DictProofs.v ===== *)
(** * pr_tree.c implements the dictionary interface

    The table [pr_tree_vtable] satisfies the contract [DictLaws] of a
    dictionary, with [tree_models]: the state satisfies the representation
    invariant for a tree whose symmetric order is the dictionary; the table
    [pr_tree_itor_vtable] satisfies the contract [ItorLaws] of a cursor.
    The programs written against the interface therefore run on
    path-reduction trees with the results the interface promises. *)

From Stdlib Require Import ZArith Lia.
From stdpp Require Import base tactics option list gmap sorting.
From S2P Require Import Prelude Contract Assoc Node Rotate Tree Walk Itor Shape Zipper.
From S2P Require Import WalkShape Dict Vtable Examples Bst Inv InsertShape RemoveShape Exec.
From S2P Require Import SearchProofs InsertProofs ProbeProofs RemoveProofs EmptyProofs.
From S2P Require Import WalkProofs ItorProofs.

#[local] Open Scope Z_scope.

Section DictProofs.
Context {build : Build} {K V : Type} (cmp : dict_compare_func K) `{!Comparator cmp} `{!Allocator}.
Implicit Types (k : K) (v : V) (t : shape K V) (w : world K V) (l : list (K * V)).
Implicit Types (it : pr_itor) (z : Z).

(** ** Definitions *)

(** The state holds a tree for the dictionary [l]. *)
Definition tree_models w l : Prop := ∃ t, inv cmp w t ∧ inorder t = l.

(** There is memory for a node and the weights stay below 2^64 - 1. *)
Definition tree_room w l : Prop :=
  is_Some (MALLOC (dom (nodes w))) ∧ Z.of_nat (S (length l)) < ULONG_MAX.

(** The state holds a tree for [l] and a cursor at position [z]. *)
Definition cursor_at (s : world K V * pr_itor) l z : Prop :=
  ∃ t, inv cmp s.1 t ∧ inorder t = l ∧ node s.2 = at_pos t z ∧
       -1 ≤ z ≤ Z.of_nat (length l).

(** ** The table of the tree *)

Lemma tree_models_insert w t k v ow :
  inv cmp w t → (assoc cmp k (inorder t) = None → tree_room w (inorder t)) →
  wp (pr_tree_insert k v ow) w (λ ret w',
    tree_models w' (put_entry cmp k v (negb (ow =? 0)) (inorder t)) ∧
    ret = if assoc cmp k (inorder t) is Some _ then (if ow =? 0 then 1 else 0) else 0).
Proof.
  intros Hinv Hroom. destruct (inv_tree _ _ _ Hinv) as (tr & Htr & _).
  destruct (new_node_address cmp k w t) as [a Ha].
  { intros He%entry_None. rewrite <- (length_inorder t). by apply Hroom. }
  eapply wp_mono; [apply (pr_tree_insert_run cmp k v ow w t a (del_func tr) Hinv);
                   [by rewrite Htr|done]|].
  intros ret w' (Hinv' & -> & _). rewrite assoc_entry. split; [|by destruct (entry _ _ _)].
  eexists. split; [exact Hinv'|]. apply insert_s_inorder; [done|apply Hinv].
Qed.

Lemma tree_models_probe w t k v :
  inv cmp w t → (assoc cmp k (inorder t) = None → tree_room w (inorder t)) →
  wp (pr_tree_probe k v) w (λ ret w',
    tree_models w' (put_entry cmp k v false (inorder t)) ∧
    ret = if assoc cmp k (inorder t) is Some v0 then (0, v0) else (1, v)).
Proof.
  intros Hinv Hroom. pose proof (inv_bst _ _ _ Hinv) as Hbst.
  pose proof (entry_None cmp k (inorder t)) as HeN. rewrite assoc_entry in *.
  destruct (entry cmp k (inorder t)) as [[k0 v0]|] eqn:He.
  - eapply wp_run; [by eapply pr_tree_probe_found_run|]. split; [|done].
    exists t. split; [done|].
    by rewrite <- (insert_s_inorder cmp k v false 1%positive),
      (insert_s_keep cmp _ _ _ _ _ Hbst He).
  - destruct Hroom as [[a Hm] Hr]; [done|]. rewrite length_inorder in Hr.
    eapply wp_mono; [by eapply pr_tree_probe_new_run|].
    intros ret w' (-> & Hinv' & _). split; [|done].
    eexists. split; [exact Hinv'|]. by apply insert_s_inorder.
Qed.

Lemma tree_models_remove w t k :
  inv cmp w t →
  wp (pr_tree_remove k) w (λ ret w',
    tree_models w' (del_entry cmp k (inorder t)) ∧
    ret = if assoc cmp k (inorder t) is Some _ then 0 else -1).
Proof.
  intros Hinv. destruct (inv_tree _ _ _ Hinv) as (tr & Htr & _).
  eapply wp_mono; [apply (pr_tree_remove_run cmp k w t (del_func tr) Hinv);
                   by rewrite Htr|].
  intros ret w' (Hinv' & -> & _). rewrite assoc_entry. split; [|by destruct (entry _ _ _)].
  eexists. split; [exact Hinv'|]. by apply remove_s_inorder; destruct Hinv.
Qed.

Lemma pr_tree_laws : DictLaws cmp pr_tree_vtable tree_models tree_room.
Proof.
  split; cbn [pr_tree_vtable inew_func destroy_func insert_func probe_func search_func
              csearch_func remove_func empty_func walk_func count_func].
  - intros w l (t & Hinv & <-). apply Hinv.
  - intros w l k (t & Hinv & <-). destruct (inv_tree _ _ _ Hinv) as (tr & Htr & _ & <- & _).
    rewrite (pr_tree_search_run k w t tr (inv_wf _ _ _ Hinv) Htr).
    by rewrite (lookup_s_assoc _ _ _ (inv_bst _ _ _ Hinv)).
  - done.
  - intros w l k v ow (t & Hinv & <-). by apply tree_models_insert.
  - intros w l k v (t & Hinv & <-). by apply tree_models_probe.
  - intros w l k (t & Hinv & <-). by apply tree_models_remove.
  - intros w l (t & Hinv & <-). destruct (inv_tree _ _ _ Hinv) as (tr & Htr & _ & Hc & Hn).
    eapply wp_run; [apply (pr_tree_empty_run w t tr (inv_wf _ _ _ Hinv) Htr)|].
    split; [|by rewrite Hn, length_inorder]. exists Leaf. split; [|done].
    by apply emptied_inv.
  - intros w l (t & Hinv & <-). destruct (inv_tree _ _ _ Hinv) as (tr & Htr & _ & Hc & Hn).
    eapply wp_run; [apply (pr_tree_destroy_run w t tr (inv_wf _ _ _ Hinv) Htr)|].
    rewrite Hn, length_inorder. by destruct t.
  - intros St visit st w l (t & Hinv & <-). apply pr_tree_walk_run, Hinv.
  - intros w l (t & Hinv & <-). destruct (inv_tree _ _ _ Hinv) as (tr & Htr & _ & Hc & Hn).
    unfold pr_tree_count. by rewrite (rd_tree_run _ _ _ Htr), Hn, length_inorder.
  - intros w l (t & Hinv & <-). unfold pr_itor_new.
    rewrite (pr_itor_first_run w t _ (inv_wf _ _ _ Hinv)). eauto.
Qed.

(** ** The table of the cursor *)

Lemma validity_at_pos t z : validity (at_pos t z) = flag (inside (inorder t) z).
Proof.
  unfold validity, at_pos, inside, flag. rewrite length_inorder, <- (length_addrs t).
  destruct (Z.ltb_spec z 0), (Z.leb_spec 0 z); try lia; [done|]. cbn [andb].
  destruct (Z.ltb_spec z (Z.of_nat (length (addrs t)))).
  - by destruct (lookup_lt_is_Some_2 (addrs t) (Z.to_nat z)) as [a ->]; [lia|].
  - by rewrite lookup_ge_None_2 by lia.
Qed.

(** Beyond the ends the cursor is invalid, wherever it is. *)
Lemma at_pos_min t z : at_pos t (Z.min z (Z.of_nat (nnodes t))) = at_pos t z.
Proof.
  destruct (Z.min_spec z (Z.of_nat (nnodes t))) as [[_ ->]|[? ->]]; [done|].
  by rewrite !at_pos_after by lia.
Qed.

Lemma at_pos_max t z : at_pos t (Z.max z (-1)) = at_pos t z.
Proof.
  destruct (Z.max_spec z (-1)) as [[? ->]|[_ ->]]; [|done].
  by rewrite !at_pos_before by lia.
Qed.

(** The state of a cursor function that moved the cursor. *)
Lemma cursor_at_moved w t z :
  inv cmp w t → -1 ≤ z ≤ Z.of_nat (length (inorder t)) →
  cursor_at (w, mk_itor (at_pos t z)) (inorder t) z.
Proof. intros Hinv Hz. by exists t. Qed.

(** A cursor function that leaves the cursor at position [z]. *)
Lemma cursor_moves (c : M (world K V * pr_itor) Z) w t it z z' :
  inv cmp w t →
  c (w, it) = Some (validity (at_pos t z), (w, mk_itor (at_pos t z))) →
  at_pos t z' = at_pos t z → -1 ≤ z' ≤ Z.of_nat (nnodes t) →
  wp c (w, it) (λ ret s',
    cursor_at s' (inorder t) z' ∧ ret = flag (inside (inorder t) z)).
Proof.
  intros Hinv Hrun Heq Hz. eapply wp_run; [exact Hrun|].
  split; [|apply validity_at_pos]. rewrite <- Heq. apply cursor_at_moved; [done|].
  by rewrite length_inorder.
Qed.

Lemma cursor_at_ends s l : cursor_at s l (-1) ↔ cursor_at s l (Z.of_nat (length l)).
Proof.
  split; intros (t & Hinv & <- & Hit & Hz); exists t;
    (split_and!; [done|done| |lia|lia]); rewrite Hit;
    by rewrite (at_pos_before t (-1)), (at_pos_after t (Z.of_nat (length (inorder t))))
      by (rewrite ?length_inorder; lia).
Qed.

Lemma cursor_at_set_data s l z d (want_old : bool) :
  cursor_at s l z →
  wp (pr_itor_set_data d want_old) s (λ ret s',
    match entry_at l z with
    | None => ret = (-1, None) ∧ s' = s
    | Some (k, v) =>
        ret = (0, if want_old then Some v else None) ∧
        cursor_at s' (<[Z.to_nat z := (k, d)]> l) z
    end).
Proof.
  destruct s as [w it]. intros (t & Hinv & <- & Hit & Hz). cbn in Hit.
  eapply wp_mono; [by apply (pr_itor_set_data_at cmp w t it z d want_old)|].
  intros ret [w' it'] [Hs Hr]. cbn [fst snd] in *. subst it'.
  change (entry_at (inorder t) z) with (pair_at t z).
  destruct (pair_at t z) as [[k v]|]; [|by destruct Hr as [-> ->]].
  destruct Hr as (-> & _ & t' & Hinv' & Ha & Hin). split; [done|].
  exists t'. cbn [fst snd]. split_and!; [done..| |lia|].
  - unfold at_pos in *. by rewrite Ha.
  - rewrite length_insert. lia.
Qed.

Lemma pr_tree_itor_laws : ItorLaws pr_tree_itor_vtable cursor_at.
Proof.
  split; cbn [pr_tree_itor_vtable idestroy_func valid_func invalidate_func next_func
              prev_func nextn_func prevn_func first_func last_func key_func data_func
              cdata_func dataset_func];
    [|apply cursor_at_ends|..|done|apply cursor_at_set_data|done];
    intros [w it] l z; [| | | | | | |intros count|intros count| |];
    intros (t & Hinv & <- & Hit & Hz); cbn [fst snd] in *;
    pose proof (inv_wf _ _ _ Hinv) as Hwf; rewrite ?length_inorder in *.
  - done.
  - unfold pr_itor_valid. by rewrite RETVALID_run, Hit, validity_at_pos.
  - eapply wp_run; [reflexivity|]. exists t. rewrite at_pos_before, length_inorder by lia.
    split_and!; [done..|lia|lia].
  - apply (cursor_moves _ w t it 0); [done|by apply pr_itor_first_run|done|lia].
  - apply (cursor_moves _ w t it); [done|by apply pr_itor_last_run|done|lia].
  - intros Hlt.
    apply (cursor_moves _ w t it); [done|apply (pr_itor_next_run w t it z); [done..|lia]|done|lia].
  - intros Hge.
    apply (cursor_moves _ w t it); [done|apply (pr_itor_prev_run w t it z); [done..|lia]|done|lia].
  - intros Hlt Hc.
    apply (cursor_moves _ w t it (z + count));
      [done|apply (pr_itor_nextn_run w t it z count); [done..|lia|done]|apply at_pos_min|lia].
  - intros Hge Hc.
    apply (cursor_moves _ w t it (z - count));
      [done|apply (pr_itor_prevn_run w t it z count); [done..|lia|done]|apply at_pos_max|lia].
  - by apply (pr_itor_key_run w t it z).
  - by apply (pr_itor_data_run w t it z).
Qed.

#[local] Existing Instance pr_tree_laws.
#[local] Existing Instance pr_tree_itor_laws.

(** Every sequence of calls of [pr_tree_insert], [pr_tree_probe],
    [pr_tree_search], [pr_tree_remove], [pr_tree_empty] and [pr_tree_count]
    through the table, on a state that holds a dictionary, returns, with the
    answers the abstract dictionary gives to the same calls, and leaves a
    state that holds the dictionary the abstract calls leave.  The
    allocator is one that does not fail, and the pairs and calls together
    are fewer than 2^64 - 1. *)
Lemma pr_tree_calls_run w l cs :
  tree_models w l → (∀ used, is_Some (MALLOC used)) →
  Z.of_nat (length l + length cs) < ULONG_MAX →
  wp (do_calls pr_tree_vtable cs) w (λ rs w',
    rs = (spec_calls cmp cs l).1 ∧ tree_models w' (spec_calls cmp cs l).2).
Proof.
  intros Hm Hmem Hlen.
  apply (do_calls_run cmp pr_tree_vtable tree_models tree_room
           (Z.to_nat (ULONG_MAX - 1)) cs w l); [|done|lia].
  intros w0 l0 _ Hl0. split; [apply Hmem|lia].
Qed.

(** ** The theorems *)

(** C33: [pr_dict_new] returns a handle when [MALLOC] gives memory for the
    handle and for the tree: the table of the handle is [pr_tree_vtable],
    which satisfies the contract of a dictionary, and the state holds the
    empty dictionary.  When either allocation fails it returns [NULL] and
    leaves the state as it was. *)
Theorem pr_dict_new_correct `{!KeyPointer K} (mem mem_tree : bool) key_cmp
    (del_func : bool) w :
  nodes w = ∅ → default dict_ptr_cmp key_cmp = cmp →
  wp (pr_dict_new mem mem_tree key_cmp del_func) w (λ ret w',
    match ret with
    | Some d =>
        mem = true ∧ mem_tree = true ∧ _vtable d = pr_tree_vtable ∧
        DictLaws cmp (_vtable d) tree_models tree_room ∧ tree_models w' []
    | None => mem && mem_tree = false ∧ w' = w
    end).
Proof.
  intros Hn Hcmp. unfold pr_dict_new, pr_tree_new.
  destruct mem, mem_tree; cbn [negb andb]; try by apply wp_ret.
  eapply wp_bind_run; [done|]. apply wp_ret.
  split_and!; [done..|apply pr_tree_laws|]. exists Leaf. split; [|done].
  eapply inv_intro; try done; [|constructor].
  split; cbn; [done..|constructor|by rewrite Hn].
Qed.

(** C34: [pr_dict_itor_new] on a tree returns a cursor handle when [MALLOC]
    gives memory for the handle and for the cursor: its table is
    [pr_tree_itor_vtable], which satisfies the contract of a cursor, and the
    cursor is on the first pair of the dictionary.  When either allocation
    fails it returns [NULL].  The tree is as it was. *)
Theorem pr_dict_itor_new_correct (mem mem_itor : bool) w l :
  tree_models w l →
  wp (pr_dict_itor_new mem mem_itor) w (λ ret w',
    w' = w ∧
    match ret with
    | Some di =>
        mem = true ∧ mem_itor = true ∧ _itor_vtable di = pr_tree_itor_vtable ∧
        ItorLaws (_itor_vtable di) cursor_at ∧ cursor_at (w, _itor di) l 0
    | None => mem && mem_itor = false
    end).
Proof.
  intros (t & Hinv & <-). unfold pr_dict_itor_new, pr_itor_new.
  destruct mem, mem_itor; cbn [negb andb]; try by apply wp_ret.
  eapply wp_bind_run; [by rewrite (pr_itor_first_run w t _ (inv_wf _ _ _ Hinv))|].
  apply wp_ret. split_and!; [done..|apply pr_tree_itor_laws|].
  apply cursor_at_moved; [done|lia].
Qed.

(** C35: a program that reads the keys through the cursor table, from
    [pr_itor_first] on with [pr_itor_key] and [pr_itor_next] until the
    cursor is invalid, returns the keys of the tree in ascending order,
    whatever the cursor was before. *)
Theorem pr_tree_itor_keys w t it z :
  inv cmp w t → node it = at_pos t z → -1 ≤ z ≤ Z.of_nat (nnodes t) →
  wp (itor_keys pr_tree_itor_vtable (S (nnodes t))) (w, it) (λ ks s',
    ks = keys t ∧ StronglySorted (klt cmp) ks ∧
    cursor_at s' (inorder t) (Z.of_nat (nnodes t))).
Proof.
  intros Hinv Hit Hz. rewrite <- (length_inorder t) in *.
  eapply wp_mono; [apply (itor_keys_run _ cursor_at (w, it) (inorder t) z); by exists t|].
  intros ks s' [-> Hat]. split_and!; [done| |done]. apply (inv_bst _ _ _ Hinv).
Qed.

(** C16: every traversal ends.  From a cursor anywhere in a tree that
    satisfies the invariant, valid or not, repeating [pr_itor_next] reaches
    the state in which the cursor is past the last pair and
    [pr_itor_valid] returns 0, and repeating [pr_itor_prev] reaches the
    state in which it is before the first pair: every call on the way
    returns, and the tree holds the same dictionary throughout. *)
Theorem pr_itor_traversal_ends (s : world K V * pr_itor) l z :
  cursor_at s l z →
  eventually pr_itor_next
    (λ s', cursor_at s' l (Z.of_nat (length l)) ∧ pr_itor_valid s' = Some (0, s')) s ∧
  eventually pr_itor_prev
    (λ s', cursor_at s' l (-1) ∧ pr_itor_valid s' = Some (0, s')) s.
Proof.
  intros Hat. split.
  - by apply (next_eventually_end pr_tree_itor_vtable cursor_at s l z).
  - by apply (prev_eventually_start pr_tree_itor_vtable cursor_at s l z).
Qed.

End DictProofs.

#[export] Existing Instance pr_tree_laws.
#[export] Existing Instance pr_tree_itor_laws.

(** ** Instances on concrete worlds *)

#[local] Existing Instance debug_build.

Lemma pr_dict_new_correct_witness :
  wp (pr_dict_new (K:=positive) (V:=Z) true true None true) (mk_world ∅ None []) (λ ret w',
    match ret with
    | Some d =>
        true = true ∧ true = true ∧ _vtable d = pr_tree_vtable ∧
        DictLaws dict_ptr_cmp (_vtable d) (tree_models dict_ptr_cmp) tree_room ∧
        tree_models dict_ptr_cmp w' []
    | None => true && true = false ∧ w' = mk_world ∅ None []
    end).
Proof. by apply (pr_dict_new_correct dict_ptr_cmp true true None true). Defined.

Lemma pr_dict_itor_new_correct_witness :
  wp (pr_dict_itor_new true true) full3 (λ ret w',
    w' = full3 ∧
    match ret with
    | Some di =>
        true = true ∧ true = true ∧ _itor_vtable di = pr_tree_itor_vtable ∧
        ItorLaws (_itor_vtable di) (cursor_at Z_cmp) ∧
        cursor_at Z_cmp (full3, _itor di) [(10, 100); (20, 200); (30, 300)] 0
    | None => true && true = false
    end).
Proof.
  apply (pr_dict_itor_new_correct Z_cmp true true full3). exists full3_s.
  split; [apply full3_inv|done].
Defined.

Lemma pr_tree_itor_keys_witness :
  wp (itor_keys pr_tree_itor_vtable 4) (full3, mk_itor (Some 3%positive)) (λ ks s',
    ks = [10; 20; 30] ∧ StronglySorted (klt Z_cmp) ks ∧
    cursor_at Z_cmp s' [(10, 100); (20, 200); (30, 300)] 3).
Proof.
  by apply (pr_tree_itor_keys Z_cmp full3 full3_s (mk_itor (Some 3%positive)) 2 full3_inv).
Defined.

Lemma pr_itor_traversal_ends_witness :
  eventually pr_itor_next
    (λ s', cursor_at Z_cmp s' [(10, 100); (20, 200); (30, 300)] 3 ∧
           pr_itor_valid s' = Some (0, s')) (full3, mk_itor (Some 3%positive)) ∧
  eventually pr_itor_prev
    (λ s', cursor_at Z_cmp s' [(10, 100); (20, 200); (30, 300)] (-1) ∧
           pr_itor_valid s' = Some (0, s')) (full3, mk_itor (Some 3%positive)).
Proof.
  apply (pr_itor_traversal_ends Z_cmp (full3, mk_itor (Some 3%positive))
           [(10, 100); (20, 200); (30, 300)] 2).
  exists full3_s. split_and!; [apply full3_inv|done..].
Defined.

Lemma pr_tree_calls_run_example :
  wp (do_calls pr_tree_vtable
        [CInsert 25 250 0; CRemove 20; CSearch 25; CProbe 10 0; CInsert 30 333 1;
         CCount; CSearch 20; CEmpty; CSearch 10]) full3
    (λ rs w',
      rs = [AInt 0; AInt 0; AData (Some 250); AProbe 0 100; AInt 0; AInt 3;
            AData None; AInt 3; AData None] ∧
      tree_models Z_cmp w' []).
Proof.
  apply (pr_tree_calls_run Z_cmp full3 [(10, 100); (20, 200); (30, 300)]).
  - exists full3_s. split; [apply full3_inv|done].
  - intros used. by eexists.
  - by vm_compute.
Defined.
