(* ===== verification/Builds.v ===== *)
(** * The builds of pr_tree.c

    [ASSERT] is compiled out when [NDEBUG] is defined.  This file compares
    the code in two builds [B ⊑ B'], of which [B'] checks no assertion that
    [B] compiles out.  Every expression the code asserts is free of side
    effects, so that every run of a function in the build [B] that returns
    is a run of the same function in the build [B'] ([⊑] on computations):
    the lemmas follow the call graph of pr_tree.c from the rotations to the
    two tables.  On a state that holds a dictionary no assertion fails, and
    the builds agree on every sequence of calls. *)

From Stdlib Require Import ZArith Lia.
From stdpp Require Import base tactics option list gmap.
From S2P Require Import Prelude Contract Assoc Node Rotate Tree Walk Itor Shape.
From S2P Require Import Dict Vtable Examples Inv Exec DictProofs.

#[local] Open Scope Z_scope.

(** [c ⊑ c'] for two copies of the same code in the builds [B ⊑ B']: the
    assertions by [ASSERT_le], the calls by the lemmas of the database
    [builds], the rest by the structure of the code. *)
Create HintDb builds discriminated.
#[export] Hint Constants Opaque : builds.

Ltac solve_le :=
  repeat match goal with
  | |- ?c ⊑ ?d => constr_eq c d; reflexivity
  | |- ASSERT _ ⊑ _ => apply ASSERT_le; [assumption|solve_readonly]
  | |- mbind _ _ ⊑ _ => apply bind_le; [|intros ?]
  | |- when_ _ _ ⊑ _ => apply when_le
  | |- (if ?b then _ else _) ⊑ _ => destruct b
  | |- (match ?x with _ => _ end) ⊑ _ => destruct x
  | |- _ => solve [auto with builds nocore]
  end.

(** ** Definitions *)

(** A state outside the invariant: no node, and a count of 5. *)
Definition stale_count : world Z Z :=
  mk_world ∅ (Some (mk_tree NULL 5 Z_cmp false)) [].

Section Builds.
Context {K V : Type} (B B' : Build) (HB : B ⊑ B').
Implicit Types (node : ptr) (w : world K V).

(** ** Rotations and rebalancing *)

Lemma rot_left_le node :
  rot_left (build := B) (K := K) (V := V) node ⊑ rot_left (build := B') node.
Proof. unfold rot_left. solve_le. Qed.

Lemma rot_right_le node :
  rot_right (build := B) (K := K) (V := V) node ⊑ rot_right (build := B') node.
Proof. unfold rot_right. solve_le. Qed.

#[local] Hint Resolve rot_left_le rot_right_le : builds.

Lemma fixup_le fuel : ∀ node,
  fixup (build := B) (K := K) (V := V) fuel node ⊑ fixup (build := B') fuel node.
Proof. induction fuel as [|fuel IH]; intros node; [done|]. cbn [fixup]. solve_le. Qed.

#[local] Hint Resolve fixup_le : builds.

Lemma FIXUP_again_le fuel : ∀ node,
  FIXUP_again (build := B) (K := K) (V := V) fuel node ⊑
  FIXUP_again (build := B') fuel node.
Proof.
  induction fuel as [|fuel IH]; intros node; [done|]. cbn [FIXUP_again]. solve_le.
Qed.

#[local] Hint Resolve FIXUP_again_le : builds.

Lemma FIXUP_le node :
  FIXUP (build := B) (K := K) (V := V) node ⊑ FIXUP (build := B') node.
Proof. unfold FIXUP. solve_le. Qed.

#[local] Hint Resolve FIXUP_le : builds.

(** ** Insertion, probing and removal *)

Lemma insert_fixup_loop_le fuel : ∀ node,
  insert_fixup_loop (build := B) (K := K) (V := V) fuel node ⊑
  insert_fixup_loop (build := B') fuel node.
Proof.
  induction fuel as [|fuel IH]; intros node; [done|]. cbn [insert_fixup_loop].
  solve_le.
Qed.

#[local] Hint Resolve insert_fixup_loop_le : builds.

Lemma link_new_node_le `{!Allocator} (k : K) (d : V) rv node found :
  link_new_node (build := B) k d rv node found ⊑
  link_new_node (build := B') k d rv node found.
Proof. unfold link_new_node. solve_le. Qed.

#[local] Hint Resolve link_new_node_le : builds.

Lemma pr_tree_insert_le `{!Allocator} (k : K) (d : V) ow :
  pr_tree_insert (build := B) k d ow ⊑ pr_tree_insert (build := B') k d ow.
Proof. unfold pr_tree_insert. solve_le. Qed.

Lemma pr_tree_probe_le `{!Allocator} (k : K) (d : V) :
  pr_tree_probe (build := B) k d ⊑ pr_tree_probe (build := B') k d.
Proof. unfold pr_tree_probe. solve_le. Qed.

Lemma remove_loop_le fuel (k : K) : ∀ node,
  remove_loop (build := B) (V := V) fuel k node ⊑ remove_loop (build := B') fuel k node.
Proof.
  induction fuel as [|fuel IH]; intros node; [done|]. cbn [remove_loop]. solve_le.
Qed.

#[local] Hint Resolve remove_loop_le : builds.

Lemma pr_tree_remove_le (k : K) :
  pr_tree_remove (build := B) (V := V) k ⊑ pr_tree_remove (build := B') k.
Proof. unfold pr_tree_remove. solve_le. Qed.

(** ** Traversal and metrics *)

Lemma node_min_le node :
  node_min (build := B) (K := K) (V := V) node ⊑ node_min (build := B') node.
Proof. unfold node_min. solve_le. Qed.

Lemma node_max_le node :
  node_max (build := B) (K := K) (V := V) node ⊑ node_max (build := B') node.
Proof. unfold node_max. solve_le. Qed.

Lemma node_next_le node :
  node_next (build := B) (K := K) (V := V) node ⊑ node_next (build := B') node.
Proof. unfold node_next. solve_le. Qed.

Lemma node_prev_le node :
  node_prev (build := B) (K := K) (V := V) node ⊑ node_prev (build := B') node.
Proof. unfold node_prev. solve_le. Qed.

#[local] Hint Resolve node_min_le node_max_le node_next_le node_prev_le : builds.

Lemma walk_loop_le {St} fuel (visit : K → V → St → bool * St) : ∀ node n s,
  walk_loop (build := B) fuel visit node n s ⊑ walk_loop (build := B') fuel visit node n s.
Proof.
  induction fuel as [|fuel IH]; intros node n s; [done|]. cbn [walk_loop]. solve_le.
Qed.

#[local] Hint Resolve walk_loop_le : builds.

Lemma pr_tree_walk_le {St} (visit : K → V → St → bool * St) s :
  pr_tree_walk (build := B) visit s ⊑ pr_tree_walk (build := B') visit s.
Proof. unfold pr_tree_walk. solve_le. Qed.

Lemma node_height_le fuel : ∀ node,
  node_height (build := B) (K := K) (V := V) fuel node ⊑
  node_height (build := B') fuel node.
Proof.
  induction fuel as [|fuel IH]; intros node; [done|]. cbn [node_height]. solve_le.
Qed.

Lemma node_mheight_le fuel : ∀ node,
  node_mheight (build := B) (K := K) (V := V) fuel node ⊑
  node_mheight (build := B') fuel node.
Proof.
  induction fuel as [|fuel IH]; intros node; [done|]. cbn [node_mheight]. solve_le.
Qed.

Lemma node_pathlen_le fuel : ∀ node level,
  node_pathlen (build := B) (K := K) (V := V) fuel node level ⊑
  node_pathlen (build := B') fuel node level.
Proof.
  induction fuel as [|fuel IH]; intros node level; [done|]. cbn [node_pathlen].
  solve_le.
Qed.

#[local] Hint Resolve node_height_le node_mheight_le node_pathlen_le : builds.

Lemma pr_tree_height_le :
  pr_tree_height (build := B) (K := K) (V := V) ⊑ pr_tree_height (build := B').
Proof. unfold pr_tree_height. solve_le. Qed.

Lemma pr_tree_mheight_le :
  pr_tree_mheight (build := B) (K := K) (V := V) ⊑ pr_tree_mheight (build := B').
Proof. unfold pr_tree_mheight. solve_le. Qed.

Lemma pr_tree_pathlen_le :
  pr_tree_pathlen (build := B) (K := K) (V := V) ⊑ pr_tree_pathlen (build := B').
Proof. unfold pr_tree_pathlen. solve_le. Qed.

(** ** The cursor *)

Lemma on_tree_le {A} (c c' : M (world K V) A) : c ⊑ c' → on_tree c ⊑ on_tree c'.
Proof.
  intros Hc [w it] r. unfold on_tree. cbn [fst snd].
  destruct (c w) as [[a w']|] eqn:Hw; [|done]. by rewrite (Hc _ _ Hw).
Qed.

#[local] Hint Resolve on_tree_le : builds.

Lemma pr_itor_first_le :
  pr_itor_first (build := B) (K := K) (V := V) ⊑ pr_itor_first (build := B').
Proof. unfold pr_itor_first. solve_le. Qed.

Lemma pr_itor_last_le :
  pr_itor_last (build := B) (K := K) (V := V) ⊑ pr_itor_last (build := B').
Proof. unfold pr_itor_last. solve_le. Qed.

#[local] Hint Resolve pr_itor_first_le pr_itor_last_le : builds.

Lemma pr_itor_next_le :
  pr_itor_next (build := B) (K := K) (V := V) ⊑ pr_itor_next (build := B').
Proof. unfold pr_itor_next. solve_le. Qed.

Lemma pr_itor_prev_le :
  pr_itor_prev (build := B) (K := K) (V := V) ⊑ pr_itor_prev (build := B').
Proof. unfold pr_itor_prev. solve_le. Qed.

Lemma nextn_loop_le n :
  nextn_loop (build := B) (K := K) (V := V) n ⊑ nextn_loop (build := B') n.
Proof. induction n as [|n IH]; [done|]. cbn [nextn_loop]. solve_le. Qed.

Lemma prevn_loop_le n :
  prevn_loop (build := B) (K := K) (V := V) n ⊑ prevn_loop (build := B') n.
Proof. induction n as [|n IH]; [done|]. cbn [prevn_loop]. solve_le. Qed.

#[local] Hint Resolve nextn_loop_le prevn_loop_le : builds.

Lemma pr_itor_nextn_le count :
  pr_itor_nextn (build := B) (K := K) (V := V) count ⊑
  pr_itor_nextn (build := B') count.
Proof. unfold pr_itor_nextn. solve_le. Qed.

Lemma pr_itor_prevn_le count :
  pr_itor_prevn (build := B) (K := K) (V := V) count ⊑
  pr_itor_prevn (build := B') count.
Proof. unfold pr_itor_prevn. solve_le. Qed.

Lemma pr_itor_new_le mem :
  pr_itor_new (build := B) (K := K) (V := V) mem ⊑ pr_itor_new (build := B') mem.
Proof.
  intros w r. unfold pr_itor_new. destruct mem; [|done].
  destruct (pr_itor_first _) as [[z [w' it]]|] eqn:Hf; [|done].
  by rewrite (pr_itor_first_le _ _ Hf).
Qed.

(** ** The tables *)

Lemma pr_tree_vtable_le `{!Allocator} :
  pr_tree_vtable (build := B) (K := K) (V := V) ⊑ pr_tree_vtable (build := B').
Proof.
  split; cbn; intros;
    auto using pr_itor_new_le, pr_tree_insert_le, pr_tree_probe_le,
      pr_tree_remove_le, pr_tree_walk_le; reflexivity.
Qed.

Lemma pr_tree_itor_vtable_le :
  pr_tree_itor_vtable (build := B) (K := K) (V := V) ⊑
  pr_tree_itor_vtable (build := B').
Proof.
  split; cbn; intros;
    auto using pr_itor_next_le, pr_itor_prev_le, pr_itor_nextn_le,
      pr_itor_prevn_le, pr_itor_first_le, pr_itor_last_le; reflexivity.
Qed.

(** ** The theorems *)


End Builds.

Section Agree.
Context {K V : Type} (cmp : dict_compare_func K) `{!Comparator cmp} `{!Allocator}.
Implicit Types (w : world K V) (l : list (K * V)) (cs : list (call K V)).

(** On a state that holds a dictionary a build returns what the build
    without assertions returns. *)
Lemma calls_release_build (B : Build) w l cs :
  tree_models cmp w l → (∀ used, is_Some (MALLOC used)) →
  Z.of_nat (length l + length cs) < ULONG_MAX →
  ∃ r, do_calls (pr_tree_vtable (build := B)) cs w = Some r ∧
       do_calls (pr_tree_vtable (build := release_build)) cs w = Some r.
Proof.
  intros Hm Hmem Hlen.
  destruct (pr_tree_calls_run (build := B) cmp w l cs Hm Hmem Hlen)
    as (rs & w' & Hrun & _).
  exists (rs, w'). split; [done|].
  by apply (do_calls_le _ _ cs (pr_tree_vtable_le B _ (le_release_build B))).
Qed.

(** C14: on a state that holds a dictionary no assertion fails, and the
    builds agree: every sequence of calls through the table returns, and it
    returns the same answers and the same final state whether the build
    checks its assertions or not. *)
Theorem pr_tree_builds_agree (B B' : Build) w l cs :
  tree_models cmp w l → (∀ used, is_Some (MALLOC used)) →
  Z.of_nat (length l + length cs) < ULONG_MAX →
  ∃ r, do_calls (pr_tree_vtable (build := B)) cs w = Some r ∧
       do_calls (pr_tree_vtable (build := B')) cs w = Some r.
Proof.
  intros Hm Hmem Hlen.
  destruct (calls_release_build B w l cs) as (r & Hr & Hrel); [done..|].
  destruct (calls_release_build B' w l cs) as (r' & Hr' & Hrel'); [done..|].
  exists r. split; [done|]. congruence.
Qed.

End Agree.


(** ** Instances *)


Lemma pr_tree_builds_agree_witness :
  ∃ r, do_calls (pr_tree_vtable (build := debug_build)) [CInsert 25 250 0; CRemove 10] full3
         = Some r ∧
       do_calls (pr_tree_vtable (build := release_build)) [CInsert 25 250 0; CRemove 10] full3
         = Some r.
Proof.
  apply (pr_tree_builds_agree Z_cmp debug_build release_build full3
           [(10, 100); (20, 200); (30, 300)]).
  - exists full3_s. split; [apply full3_inv|done].
  - intros used. by eexists.
  - by vm_compute.
Defined.
