(* ===== verification/Typed.v ===== *)
(** * The C types of the integer fields

    [weight_t] is [unsigned long] and [count] is [unsigned]: [typed w] says
    that every weight stored in a node of [w] is a 64-bit value and the
    count of the tree struct a 32-bit value.  Every function of pr_tree.c
    keeps [typed], from any state, well formed or not, and in every build,
    because every store of an integer wraps to the width of the field; and
    every function returns a value of the range of its C type: a count is a
    32-bit value, a status is -1, 0 or 1.  The lemmas follow the call graph
    of pr_tree.c; the theorems state the result for the two tables. *)

From Stdlib Require Import ZArith Lia.
From stdpp Require Import base tactics option list gmap.
From S2P Require Import Prelude Contract Assoc Node Rotate Tree Walk Itor Shape.
From S2P Require Import Dict Vtable Examples Inv Exec.

#[local] Open Scope Z_scope.

Create HintDb typed discriminated.
#[export] Hint Constants Opaque : typed.

Section Typed.
Context {build : Build} {K V : Type}.
Implicit Types (w : world K V) (p node : ptr) (n : pr_node K V) (tr : pr_tree K).

(** ** Definitions *)

Definition typed_node n : Prop := 0 ≤ weight n ≤ ULONG_MAX.
Definition typed_tree tr : Prop := 0 ≤ count tr ≤ UINT_MAX.
Definition typed w : Prop :=
  map_Forall (λ _, typed_node) (nodes w) ∧ from_option typed_tree True (tree w).

(** The same for the state of a cursor function. *)
Definition ityped (s : world K V * pr_itor) : Prop := typed s.1.

#[export] Instance typed_dec w : Decision (typed w).
Proof.
  unfold typed, typed_node, typed_tree. destruct (tree w); cbn [from_option]; apply _.
Defined.

(** ** Reads, writes, allocation *)

(** A read keeps every property of the state. *)
Lemma keeps_rd {A} {T : world K V → Prop} (f : pr_node K V → A) p :
  keeps T (rd f p) (λ _, True).
Proof. apply keeps_readonly, readonly_rd. Qed.

Lemma keeps_rd_tree {A} {T : world K V → Prop} (f : pr_tree K → A) :
  keeps T (rd_tree (V := V) f) (λ _, True).
Proof. apply keeps_readonly, readonly_rd_tree. Qed.

Lemma keeps_rd_count : keeps typed (rd_tree (V := V) count) is_unsigned.
Proof.
  intros w c w' Hw. pose proof Hw as [_ Ht]. revert Ht. unfold rd_tree.
  destruct (tree w) as [tr|]; [|done]. by intros Ht [= <- <-].
Qed.

Lemma keeps_WEIGHT {T : world K V → Prop} p :
  keeps T (WEIGHT (K := K) (V := V) p) (λ _, True).
Proof. destruct p; [apply keeps_rd|by apply keeps_ret]. Qed.

Lemma keeps_wr f p :
  (∀ n, typed_node n → typed_node (f n)) → keeps typed (wr f p) (λ _, True).
Proof.
  intros Hf w [] w' [Hn Ht] (a & n & -> & Ha & ->)%wr_Some. split; [|done].
  split; [|done]. cbn [nodes upd_nodes]. apply map_Forall_insert_2; [|done].
  apply Hf, (Hn a n Ha).
Qed.

Lemma keeps_wr_tree (f : pr_tree K → pr_tree K) :
  (∀ tr, typed_tree tr → typed_tree (f tr)) →
  keeps typed (wr_tree (V := V) f) (λ _, True).
Proof.
  intros Hf w [] w' [Hn Ht]. revert Ht. unfold wr_tree.
  destruct (tree w) as [tr|]; [|done].
  intros Ht [= <-]. split; [|done]. split; [done|]. by apply Hf.
Qed.

Lemma keeps_set_tree (o : option (pr_tree K)) :
  from_option typed_tree True o →
  keeps typed (modify (upd_tree (V := V) (λ _, o))) (λ _, True).
Proof. by intros Ho w [] w' [Hn Ht] [= <-]. Qed.

Lemma keeps_FREE p : keeps typed (FREE (K := K) (V := V) p) (λ _, True).
Proof.
  destruct p as [a|]; [|by apply keeps_ret]. intros w [] w' [Hn Ht].
  unfold FREE. intros (n & w1 & (? & [= <-] & _ & ->)%deref_Some & [= <-])%bind_Some.
  split; [|done]. split; [|done]. by apply map_Forall_delete.
Qed.

Lemma keeps_call_del_func node :
  keeps typed (call_del_func (K := K) (V := V) node) (λ _, True).
Proof.
  unfold call_del_func. eapply keeps_bind; [apply keeps_rd_tree|]. intros df _.
  apply keeps_when; [|done]. eapply keeps_bind; [apply keeps_rd|]. intros k _.
  eapply keeps_bind; [apply keeps_rd|]. intros d _. by intros w [] w' Hw [= <-].
Qed.

Lemma keeps_node_new `{!Allocator} (k : K) (d : V) :
  keeps typed (node_new k d) (λ _, True).
Proof.
  intros w p w' [Hn Ht]. unfold node_new. destruct (MALLOC _) as [a|]; intros [= <- <-];
    [|done]. split; [|done]. split; [|done]. cbn [nodes upd_nodes].
  apply map_Forall_insert_2; [|done]. split; by vm_compute.
Qed.

Lemma keeps_on_tree {A} (c : M (world K V) A) (R : A → Prop) :
  keeps typed c R → keeps ityped (on_tree c) R.
Proof.
  intros Hc [w it] a [w' it'] Hw. unfold on_tree. cbn [fst snd].
  destruct (c w) as [[a' w1]|] eqn:Hrun; [|done]. intros [= <- <- <-].
  by apply (Hc w).
Qed.

Lemma keeps_rd_itor : keeps ityped (rd_itor (K := K) (V := V)) (λ _, True).
Proof. apply keeps_gets. Qed.

Lemma keeps_wr_itor p : keeps ityped (wr_itor (K := K) (V := V) p) (λ _, True).
Proof. by intros s [] s' Hs [= <-]. Qed.

End Typed.

#[export] Hint Resolve keeps_rd keeps_rd_tree keeps_WEIGHT keeps_FREE
  keeps_call_del_func keeps_node_new keeps_rd_itor keeps_wr_itor keeps_on_tree
  keeps_gets : typed.
#[export] Hint Extern 1 (keeps typed (wr _ _) _) =>
  apply keeps_wr; intros ? ?; first [assumption | apply ulong_range] : typed.
#[export] Hint Extern 1 (keeps typed (wr_tree _) _) =>
  apply keeps_wr_tree; intros ? ?;
  first [assumption | apply uint_range | by vm_compute] : typed.

(** [keeps typed c R] for code made of the constructs of pr_tree.c: the
    statements by the lemmas above, the calls by the lemmas of the database
    [typed], the rest by the structure of the code.  The goals it leaves say
    that a returned value is in [R]. *)
Ltac solve_keeps :=
  repeat match goal with
  | |- keeps _ (mret _) _ => apply keeps_ret
  | |- keeps _ stuck _ => apply keeps_stuck
  | |- keeps _ (ASSERT _) _ => apply keeps_ASSERT; solve_readonly
  | |- keeps _ (gets _) _ => apply keeps_gets
  | |- keeps _ (when_ _ _) _ => apply keeps_when
  | |- keeps _ (mbind _ _) _ => eapply (keeps_bind _ _ _ (λ _, True)); [|intros ? _]
  | |- keeps _ (if ?b then _ else _) _ => destruct b
  | |- keeps _ (match ?x with _ => _ end) _ => destruct x
  | |- keeps _ _ _ =>
      eapply keeps_weaken;
        [first [eassumption | solve [auto with typed nocore]]|by intros]
  | |- _ => exact I
  end.

Section Functions.
Context {build : Build} {K V : Type}.
Implicit Types (w : world K V) (p node : ptr).

(** ** Rotations and rebalancing *)

Lemma keeps_REWEIGH node : keeps typed (REWEIGH (K := K) (V := V) node) (λ _, True).
Proof. unfold REWEIGH. solve_keeps. Qed.

Lemma keeps_replace_child p node x :
  keeps typed (replace_child (K := K) (V := V) p node x) (λ _, True).
Proof. unfold replace_child. solve_keeps. Qed.

#[local] Hint Resolve keeps_REWEIGH keeps_replace_child : typed.

Lemma keeps_rot_left node : keeps typed (rot_left (K := K) (V := V) node) (λ _, True).
Proof. unfold rot_left. solve_keeps. Qed.

Lemma keeps_rot_right node : keeps typed (rot_right (K := K) (V := V) node) (λ _, True).
Proof. unfold rot_right. solve_keeps. Qed.

#[local] Hint Resolve keeps_rot_left keeps_rot_right : typed.

Lemma keeps_fixup fuel : ∀ node,
  keeps typed (fixup (K := K) (V := V) fuel node) (λ _, True).
Proof. induction fuel as [|fuel IH]; intros node; cbn [fixup]; solve_keeps. Qed.

#[local] Hint Resolve keeps_fixup : typed.

Lemma keeps_FIXUP_again fuel : ∀ node,
  keeps typed (FIXUP_again (K := K) (V := V) fuel node) (λ _, True).
Proof. induction fuel as [|fuel IH]; intros node; cbn [FIXUP_again]; solve_keeps. Qed.

#[local] Hint Resolve keeps_FIXUP_again : typed.

Lemma keeps_FIXUP node : keeps typed (FIXUP (K := K) (V := V) node) (λ _, True).
Proof. unfold FIXUP. solve_keeps. Qed.

#[local] Hint Resolve keeps_FIXUP : typed.

(** ** The tree core *)

Lemma keeps_pr_tree_new `{KeyPointer K} mem key_cmp del_func :
  keeps typed (pr_tree_new (V := V) mem key_cmp del_func) (λ _, True).
Proof.
  unfold pr_tree_new. destruct mem; [|by apply keeps_ret].
  eapply keeps_bind; [apply keeps_set_tree; split; by vm_compute|].
  intros _ _. by apply keeps_ret.
Qed.

Lemma keeps_search_loop fuel (k : K) : ∀ node,
  keeps typed (search_loop (V := V) fuel k node) (λ _, True).
Proof. induction fuel as [|fuel IH]; intros node; cbn [search_loop]; solve_keeps. Qed.

#[local] Hint Resolve keeps_search_loop : typed.

Lemma keeps_pr_tree_search (k : K) :
  keeps typed (pr_tree_search (V := V) k) (λ _, True).
Proof. unfold pr_tree_search. solve_keeps. Qed.

Lemma keeps_insert_loop fuel (k : K) (d : V) ow : ∀ rv p node,
  keeps typed (insert_loop fuel k d ow rv p node)
    (λ r, if r is inl ret then is_flag ret else True).
Proof.
  induction fuel as [|fuel IH]; intros rv p node; cbn [insert_loop]; solve_keeps;
    first [by left|by right].
Qed.

Lemma keeps_insert_fixup_loop fuel : ∀ p,
  keeps typed (insert_fixup_loop (K := K) (V := V) fuel p) (λ _, True).
Proof.
  induction fuel as [|fuel IH]; intros p; cbn [insert_fixup_loop]; solve_keeps.
Qed.

#[local] Hint Resolve keeps_insert_fixup_loop : typed.

Lemma keeps_link_new_node `{!Allocator} (k : K) (d : V) rv p found :
  keeps typed (link_new_node k d rv p found) (λ r, r = -1 ∨ r = found).
Proof. unfold link_new_node. solve_keeps; first [by left|by right]. Qed.

Lemma keeps_pr_tree_insert `{!Allocator} (k : K) (d : V) ow :
  keeps typed (pr_tree_insert k d ow) is_tristate.
Proof.
  unfold pr_tree_insert. do 2 (eapply keeps_bind; [solve_keeps|intros ? _]).
  eapply keeps_bind; [apply keeps_insert_loop|]. intros [ret|[rv p]] Hr.
  - apply keeps_ret. unfold is_tristate. destruct Hr; auto.
  - eapply keeps_weaken; [apply keeps_link_new_node|].
    intros z [->| ->]; unfold is_tristate; auto.
Qed.

Lemma keeps_probe_loop fuel (k : K) : ∀ rv p node,
  keeps typed (probe_loop (V := V) fuel k rv p node) (λ _, True).
Proof.
  induction fuel as [|fuel IH]; intros rv p node; cbn [probe_loop]; solve_keeps.
Qed.

Lemma keeps_pr_tree_probe `{!Allocator} (k : K) (d : V) :
  keeps typed (pr_tree_probe k d) (λ r, is_tristate r.1).
Proof.
  unfold pr_tree_probe. do 2 (eapply keeps_bind; [solve_keeps|intros ? _]).
  eapply keeps_bind; [apply keeps_probe_loop|]. intros [nd|[rv p]] _.
  - apply keeps_ret. unfold is_tristate. auto.
  - eapply keeps_bind; [apply keeps_link_new_node|]. intros ret Hret.
    apply keeps_ret. destruct Hret as [->| ->]; unfold is_tristate; auto.
Qed.

Lemma keeps_weight_dec_loop fuel : ∀ p,
  keeps typed (weight_dec_loop (K := K) (V := V) fuel p) (λ _, True).
Proof.
  induction fuel as [|fuel IH]; intros p; cbn [weight_dec_loop]; solve_keeps.
Qed.

#[local] Hint Resolve keeps_weight_dec_loop : typed.

Lemma keeps_splice_out node out :
  keeps typed (splice_out (K := K) (V := V) node out) is_status.
Proof. unfold splice_out. solve_keeps. by right. Qed.

#[local] Hint Resolve keeps_splice_out : typed.

Lemma keeps_remove_loop fuel (k : K) : ∀ node,
  keeps typed (remove_loop (V := V) fuel k node) is_status.
Proof.
  induction fuel as [|fuel IH]; intros node; cbn [remove_loop]; solve_keeps;
    by left.
Qed.

Lemma keeps_pr_tree_remove (k : K) :
  keeps typed (pr_tree_remove (V := V) k) is_status.
Proof.
  unfold pr_tree_remove. do 2 (eapply keeps_bind; [solve_keeps|intros ? _]).
  apply keeps_remove_loop.
Qed.

Lemma keeps_empty_loop fuel : ∀ node,
  keeps typed (empty_loop (K := K) (V := V) fuel node) (λ _, True).
Proof. induction fuel as [|fuel IH]; intros node; cbn [empty_loop]; solve_keeps. Qed.

#[local] Hint Resolve keeps_empty_loop : typed.

Lemma keeps_pr_tree_empty : keeps typed (pr_tree_empty (K := K) (V := V)) is_unsigned.
Proof.
  unfold pr_tree_empty. eapply keeps_bind; [apply keeps_rd_count|]. intros c Hc.
  solve_keeps. exact Hc.
Qed.

Lemma keeps_pr_tree_destroy :
  keeps typed (pr_tree_destroy (K := K) (V := V)) is_unsigned.
Proof.
  unfold pr_tree_destroy. eapply keeps_bind; [apply keeps_rd_tree|]. intros r _.
  eapply (keeps_bind _ _ _ is_unsigned).
  { destruct (nonnull r); [apply keeps_pr_tree_empty|by apply keeps_ret]. }
  intros c Hc. eapply keeps_bind; [by apply keeps_set_tree|]. intros _ _.
  by apply keeps_ret.
Qed.

Lemma keeps_pr_tree_count : keeps typed (pr_tree_count (K := K) (V := V)) is_unsigned.
Proof. apply keeps_rd_count. Qed.

End Functions.

#[export] Hint Resolve
  keeps_REWEIGH keeps_replace_child keeps_rot_left keeps_rot_right
  keeps_fixup keeps_FIXUP_again keeps_FIXUP keeps_search_loop
  keeps_insert_fixup_loop keeps_weight_dec_loop keeps_splice_out keeps_empty_loop : typed.

Section Traversal.
Context {build : Build} {K V : Type}.
Implicit Types (w : world K V) (p node : ptr).

(** ** Traversal and metrics *)

Lemma is_unsigned_uint z : is_unsigned (uint z).
Proof. apply uint_range. Qed.

Lemma is_unsigned_0 : is_unsigned 0.
Proof. split; by vm_compute. Qed.

Lemma is_unsigned_MAX a b : is_unsigned a → is_unsigned b → is_unsigned (MAX a b).
Proof. unfold is_unsigned. rewrite MAX_max. lia. Qed.

Lemma is_unsigned_MIN a b : is_unsigned a → is_unsigned b → is_unsigned (MIN a b).
Proof. unfold is_unsigned. rewrite MIN_min. lia. Qed.

Lemma keeps_llink_loop fuel : ∀ node,
  keeps typed (llink_loop (K := K) (V := V) fuel node) (λ _, True).
Proof. induction fuel as [|fuel IH]; intros node; cbn [llink_loop]; solve_keeps. Qed.

Lemma keeps_rlink_loop fuel : ∀ node,
  keeps typed (rlink_loop (K := K) (V := V) fuel node) (λ _, True).
Proof. induction fuel as [|fuel IH]; intros node; cbn [rlink_loop]; solve_keeps. Qed.

Lemma keeps_next_up_loop fuel : ∀ node temp,
  keeps typed (next_up_loop (K := K) (V := V) fuel node temp) (λ _, True).
Proof.
  induction fuel as [|fuel IH]; intros node temp; cbn [next_up_loop]; solve_keeps.
Qed.

Lemma keeps_prev_up_loop fuel : ∀ node temp,
  keeps typed (prev_up_loop (K := K) (V := V) fuel node temp) (λ _, True).
Proof.
  induction fuel as [|fuel IH]; intros node temp; cbn [prev_up_loop]; solve_keeps.
Qed.

#[local] Hint Resolve keeps_llink_loop keeps_rlink_loop keeps_next_up_loop
  keeps_prev_up_loop : typed.

Lemma keeps_node_min node : keeps typed (node_min (K := K) (V := V) node) (λ _, True).
Proof. unfold node_min. solve_keeps. Qed.

Lemma keeps_node_max node : keeps typed (node_max (K := K) (V := V) node) (λ _, True).
Proof. unfold node_max. solve_keeps. Qed.

Lemma keeps_node_next node : keeps typed (node_next (K := K) (V := V) node) (λ _, True).
Proof. unfold node_next. solve_keeps. Qed.

Lemma keeps_node_prev node : keeps typed (node_prev (K := K) (V := V) node) (λ _, True).
Proof. unfold node_prev. solve_keeps. Qed.

#[local] Hint Resolve keeps_node_min keeps_node_max keeps_node_next keeps_node_prev : typed.

Lemma keeps_pr_tree_min : keeps typed (pr_tree_min (K := K) (V := V)) (λ _, True).
Proof. unfold pr_tree_min. solve_keeps. Qed.

Lemma keeps_pr_tree_max : keeps typed (pr_tree_max (K := K) (V := V)) (λ _, True).
Proof. unfold pr_tree_max. solve_keeps. Qed.

Lemma keeps_walk_loop {St} fuel (visit : K → V → St → bool * St) : ∀ node n s,
  is_unsigned n →
  keeps typed (walk_loop fuel visit node n s) (λ r, is_unsigned r.1).
Proof.
  induction fuel as [|fuel IH]; intros node n s Hn; cbn [walk_loop];
    [apply keeps_stuck|].
  destruct (nonnull node); [|by apply keeps_ret].
  do 2 (eapply keeps_bind; [apply keeps_rd|intros ? _]).
  destruct (negb _); [apply keeps_ret, is_unsigned_uint|].
  eapply keeps_bind; [apply keeps_node_next|]. intros next _.
  apply IH, is_unsigned_uint.
Qed.

Lemma keeps_pr_tree_walk {St} (visit : K → V → St → bool * St) s :
  keeps typed (pr_tree_walk visit s) (λ r, is_unsigned r.1).
Proof.
  unfold pr_tree_walk. eapply keeps_bind; [apply keeps_rd_tree|]. intros r _.
  destruct (negb _); [apply keeps_ret, is_unsigned_0|].
  eapply keeps_bind; [apply keeps_gets|]. intros fuel _.
  eapply keeps_bind; [apply keeps_node_min|]. intros node _.
  apply keeps_walk_loop, is_unsigned_0.
Qed.

(** The term for one child in the metrics: [child ? f(child) + 1 : 0]. *)
Lemma keeps_child_metric (c : M (world K V) Z) b :
  keeps typed c (λ _, True) →
  keeps typed (if b : bool then h ← c; mret (uint (h + 1)) else mret 0) is_unsigned.
Proof.
  intros Hc. destruct b; [|apply keeps_ret, is_unsigned_0].
  eapply keeps_bind; [exact Hc|]. intros h _. apply keeps_ret, is_unsigned_uint.
Qed.

Lemma keeps_node_height fuel : ∀ node,
  keeps typed (node_height (K := K) (V := V) fuel node) is_unsigned.
Proof.
  induction fuel as [|fuel IH]; intros node; cbn [node_height]; [apply keeps_stuck|].
  eapply keeps_bind; [apply keeps_ASSERT; solve_readonly|]. intros _ _.
  eapply keeps_bind; [apply keeps_rd|]. intros ll _.
  eapply keeps_bind; [eapply keeps_child_metric, keeps_weaken; [apply IH|done]|].
  intros l Hl. eapply keeps_bind; [apply keeps_rd|]. intros rl _.
  eapply keeps_bind; [eapply keeps_child_metric, keeps_weaken; [apply IH|done]|].
  intros r Hr. by apply keeps_ret, is_unsigned_MAX.
Qed.

Lemma keeps_node_mheight fuel : ∀ node,
  keeps typed (node_mheight (K := K) (V := V) fuel node) is_unsigned.
Proof.
  induction fuel as [|fuel IH]; intros node; cbn [node_mheight]; [apply keeps_stuck|].
  eapply keeps_bind; [apply keeps_ASSERT; solve_readonly|]. intros _ _.
  eapply keeps_bind; [apply keeps_rd|]. intros ll _.
  eapply keeps_bind; [eapply keeps_child_metric, keeps_weaken; [apply IH|done]|].
  intros l Hl. eapply keeps_bind; [apply keeps_rd|]. intros rl _.
  eapply keeps_bind; [eapply keeps_child_metric, keeps_weaken; [apply IH|done]|].
  intros r Hr. by apply keeps_ret, is_unsigned_MIN.
Qed.

(** The term for one child in [node_pathlen]. *)
Lemma keeps_child_pathlen (c : M (world K V) Z) b n level :
  is_unsigned n → keeps typed c (λ _, True) →
  keeps typed (if b : bool then p ← c; mret (uint (n + uint (level + p))) else mret n)
    is_unsigned.
Proof.
  intros Hn Hc. destruct b; [|by apply keeps_ret].
  eapply keeps_bind; [exact Hc|]. intros h _. apply keeps_ret, is_unsigned_uint.
Qed.

Lemma keeps_node_pathlen fuel : ∀ node level,
  keeps typed (node_pathlen (K := K) (V := V) fuel node level) is_unsigned.
Proof.
  induction fuel as [|fuel IH]; intros node level; cbn [node_pathlen];
    [apply keeps_stuck|].
  eapply keeps_bind; [apply keeps_ASSERT; solve_readonly|]. intros _ _.
  eapply keeps_bind; [apply keeps_rd|]. intros ll _.
  eapply keeps_bind.
  { apply keeps_child_pathlen; [apply is_unsigned_0|].
    eapply keeps_weaken; [apply IH|done]. }
  intros n Hn. eapply keeps_bind; [apply keeps_rd|]. intros rl _.
  eapply keeps_bind.
  { apply keeps_child_pathlen; [exact Hn|]. eapply keeps_weaken; [apply IH|done]. }
  intros n' Hn'. by apply keeps_ret.
Qed.

Lemma keeps_pr_tree_height :
  keeps typed (pr_tree_height (K := K) (V := V)) is_unsigned.
Proof.
  unfold pr_tree_height. eapply keeps_bind; [apply keeps_rd_tree|]. intros r _.
  destruct (nonnull r); [|apply keeps_ret, is_unsigned_0].
  eapply keeps_bind; [apply keeps_gets|]. intros fuel _. apply keeps_node_height.
Qed.

Lemma keeps_pr_tree_mheight :
  keeps typed (pr_tree_mheight (K := K) (V := V)) is_unsigned.
Proof.
  unfold pr_tree_mheight. eapply keeps_bind; [apply keeps_rd_tree|]. intros r _.
  destruct (nonnull r); [|apply keeps_ret, is_unsigned_0].
  eapply keeps_bind; [apply keeps_gets|]. intros fuel _. apply keeps_node_mheight.
Qed.

Lemma keeps_pr_tree_pathlen :
  keeps typed (pr_tree_pathlen (K := K) (V := V)) is_unsigned.
Proof.
  unfold pr_tree_pathlen. eapply keeps_bind; [apply keeps_rd_tree|]. intros r _.
  destruct (nonnull r); [|apply keeps_ret, is_unsigned_0].
  eapply keeps_bind; [apply keeps_gets|]. intros fuel _. apply keeps_node_pathlen.
Qed.

(** ** The cursor *)

Lemma keeps_RETVALID : keeps ityped (RETVALID (K := K) (V := V)) is_flag.
Proof.
  unfold RETVALID. eapply keeps_bind; [apply keeps_rd_itor|]. intros p _.
  apply keeps_ret. destruct p; [by right|by left].
Qed.

#[local] Hint Resolve keeps_RETVALID : typed.

Lemma keeps_pr_itor_first : keeps ityped (pr_itor_first (K := K) (V := V)) is_flag.
Proof.
  unfold pr_itor_first. solve_keeps.
Qed.

Lemma keeps_pr_itor_last : keeps ityped (pr_itor_last (K := K) (V := V)) is_flag.
Proof.
  unfold pr_itor_last. solve_keeps.
Qed.

#[local] Hint Resolve keeps_pr_itor_first keeps_pr_itor_last : typed.

Lemma keeps_pr_itor_next : keeps ityped (pr_itor_next (K := K) (V := V)) is_flag.
Proof.
  unfold pr_itor_next. solve_keeps.
Qed.

Lemma keeps_pr_itor_prev : keeps ityped (pr_itor_prev (K := K) (V := V)) is_flag.
Proof.
  unfold pr_itor_prev. solve_keeps.
Qed.

Lemma keeps_nextn_loop n : keeps ityped (nextn_loop (K := K) (V := V) n) (λ _, True).
Proof. induction n as [|n IH]; cbn [nextn_loop]; solve_keeps. Qed.

Lemma keeps_prevn_loop n : keeps ityped (prevn_loop (K := K) (V := V) n) (λ _, True).
Proof. induction n as [|n IH]; cbn [prevn_loop]; solve_keeps. Qed.

#[local] Hint Resolve keeps_nextn_loop keeps_prevn_loop : typed.

Lemma keeps_pr_itor_nextn count :
  keeps ityped (pr_itor_nextn (K := K) (V := V) count) is_flag.
Proof.
  unfold pr_itor_nextn. solve_keeps.
Qed.

Lemma keeps_pr_itor_prevn count :
  keeps ityped (pr_itor_prevn (K := K) (V := V) count) is_flag.
Proof.
  unfold pr_itor_prevn. solve_keeps.
Qed.

Lemma keeps_pr_itor_set_data (d : V) old :
  keeps ityped (pr_itor_set_data (K := K) d old) (λ r, is_status r.1).
Proof. unfold pr_itor_set_data. solve_keeps; first [by left|by right]. Qed.

Lemma keeps_pr_itor_new mem :
  keeps typed (pr_itor_new (K := K) (V := V) mem) (λ _, True).
Proof.
  intros w o w' Hw. unfold pr_itor_new. destruct mem; [|by intros [= <- <-]].
  destruct (pr_itor_first _) as [[z [w1 it]]|] eqn:Hf; [|done]. intros [= <- <-].
  split; [|done]. by apply (keeps_pr_itor_first (w, mk_itor NULL) z (w1, it)).
Qed.

End Traversal.

#[export] Hint Resolve
  keeps_llink_loop keeps_rlink_loop keeps_next_up_loop keeps_prev_up_loop
  keeps_node_min keeps_node_max keeps_node_next keeps_node_prev
  keeps_RETVALID keeps_pr_itor_first keeps_pr_itor_last keeps_nextn_loop
  keeps_prevn_loop : typed.

Section Tables.
Context {build : Build} {K V : Type}.
Implicit Types (w : world K V) (t : shape K V).

(** ** The tables *)

Lemma pr_tree_vtable_keeps `{!Allocator} :
  dict_vtable_keeps typed (pr_tree_vtable (K := K) (V := V)).
Proof.
  split; cbn; intros;
    auto using keeps_pr_itor_new, keeps_pr_tree_destroy, keeps_pr_tree_insert,
      keeps_pr_tree_probe, keeps_pr_tree_search, keeps_pr_tree_remove,
      keeps_pr_tree_empty, keeps_pr_tree_walk, keeps_pr_tree_count.
Qed.

Lemma keeps_pr_itor_key : keeps ityped (pr_itor_key (K := K) (V := V)) (λ _, True).
Proof. unfold pr_itor_key. solve_keeps. Qed.

Lemma keeps_pr_itor_data : keeps ityped (pr_itor_data (K := K) (V := V)) (λ _, True).
Proof. unfold pr_itor_data. solve_keeps. Qed.

Lemma keeps_pr_itor_cdata : keeps ityped (pr_itor_cdata (K := K) (V := V)) (λ _, True).
Proof. unfold pr_itor_cdata. solve_keeps. Qed.

Lemma keeps_pr_itor_search (k : K) :
  keeps ityped (pr_itor_search (V := V) k) is_flag.
Proof.
  assert (∀ fuel cmp n, keeps typed (itor_search_loop (V := V) fuel cmp k n) (λ _, True))
    as Hloop.
  { induction fuel as [|fuel IH]; intros cmp n; cbn [itor_search_loop]; solve_keeps. }
  unfold pr_itor_search. solve_keeps.
Qed.

Lemma pr_tree_itor_vtable_keeps :
  itor_vtable_keeps ityped (pr_tree_itor_vtable (K := K) (V := V)).
Proof.
  split; cbn; intros.
  - by apply keeps_ret.
  - apply keeps_RETVALID.
  - apply keeps_wr_itor.
  - apply keeps_pr_itor_next.
  - apply keeps_pr_itor_prev.
  - apply keeps_pr_itor_nextn.
  - apply keeps_pr_itor_prevn.
  - apply keeps_pr_itor_first.
  - apply keeps_pr_itor_last.
  - apply keeps_pr_itor_key.
  - apply keeps_pr_itor_data.
  - apply keeps_pr_itor_cdata.
  - apply keeps_pr_itor_set_data.
Qed.

(** ** The invariant implies the typing *)

Lemma rep_typed m p t a :
  rep m p t → weights_ok t → fits t → a ∈ addrs t →
  ∃ n : pr_node K V, m !! a = Some n ∧ typed_node n.
Proof.
  revert p. induction t as [|b l IHl k v wt r IHr]; intros p Hrep Hok Hfit Ha;
    [by apply elem_of_nil in Ha|].
  destruct Hrep as (Hb & Hl & Hr), Hok as (Hwt & Hokl & Hokr).
  unfold fits in *. cbn [nnodes addrs] in *.
  apply elem_of_app in Ha as [Ha|[->|Ha]%elem_of_cons].
  - apply (IHl (Some b)); [done..|lia|done].
  - eexists. split; [exact Hb|]. unfold typed_node. cbn [weight].
    rewrite Hwt, !weights_ok_tweight by done. lia.
  - apply (IHr (Some b)); [done..|lia|done].
Qed.

Lemma inv_typed cmp w t : inv cmp w t → typed w.
Proof.
  intros Hinv. destruct (inv_tree _ _ _ Hinv) as (tr & Htr & _ & _ & Hc).
  destruct Hinv as [[_ Hrep _ Hdom] _ Hok Hfit _ _]. split.
  - intros a n Ha.
    assert (a ∈ addrs t) as Hin.
    { apply (elem_of_list_to_set (C := gset positive)). rewrite <- Hdom.
      by apply elem_of_dom_2 in Ha. }
    destruct (rep_typed _ _ _ _ Hrep Hok Hfit Hin) as (n' & Hn' & Ht). congruence.
  - rewrite Htr. cbn. unfold typed_tree. rewrite Hc. apply uint_range.
Qed.

(** ** The theorems *)


End Tables.
