(* ===== verification/Frame.v ===== *)
(** * What the functions leave alone

    A cursor and the tree share the nodes of the store, so what an update of
    the tree does to the nodes it does not mean to change matters to every
    cursor.  Two relations between the store before and the store after say
    it: [within] (every node was there, with its key and datum: nothing was
    made, no key or datum stored) and [extends] (every node is still there,
    with its key and datum: nothing was freed, no key or datum stored).

    Both are kept by the code that only relinks and reweighs nodes.  The
    class [Relinks] states what such a property must satisfy, the rotations
    and the rebalancing are proved once against the class, and the
    relations are its instances.  [within] is then kept by the functions
    that free nodes ([pr_tree_remove], [pr_tree_empty], [pr_tree_destroy])
    and [extends] by those that make them ([pr_tree_probe], and
    [pr_tree_insert] when it does not overwrite).  A third instance,
    [persists], allows for the one node that [pr_tree_insert] overwrites:
    every node is still there, with its key and datum or with the key
    inserted, which then compares equal to the key it had.  A fourth,
    [except], is [within] for [pr_tree_remove] of a key: the nodes that are
    gone held a key that compares equal to it.  The proofs follow the code
    with the judgement [keeps], from any state and in every build. *)

From Stdlib Require Import ZArith Lia.
From stdpp Require Import base tactics option list gmap.
From S2P Require Import Prelude Contract Node Rotate Tree Exec Typed.

#[local] Open Scope Z_scope.

Section Relinks.
Context {build : Build} {K V : Type}.
Implicit Types (w v : world K V) (p node : ptr) (n : pr_node K V).

(** ** Definitions *)

(** A store to a field other than [key] and [datum]. *)
Definition keeps_entry (f : pr_node K V → pr_node K V) : Prop :=
  ∀ n, key (f n) = key n ∧ datum (f n) = datum n.

(** A property of the nodes of the store and of the comparator that a store
    to a link or to a weight keeps. *)
Class Relinks (T : world K V → Prop) : Prop := {
  relinks_wr f p : keeps_entry f → keeps T (wr f p) (λ _, True);
  relinks_nodes w w' :
    nodes w' = nodes w → key_cmp <$> tree w' = key_cmp <$> tree w → T w → T w'
}.

(** Every node of [w] is a node of [v] with the same key and datum. *)
Definition within v w : Prop :=
  ∀ a n, nodes w !! a = Some n →
    ∃ n0, nodes v !! a = Some n0 ∧ key n = key n0 ∧ datum n = datum n0.

(** Every node of [v] is a node of [w] with the same key and datum. *)
Definition extends v w : Prop := within w v.

(** Every node of [v] is a node of [w], with the same key and datum or with
    the key [k], which then compares equal to the key it had; the
    comparator of the tree is [cmp]. *)
Definition persists (cmp : dict_compare_func K) (k : K) v w : Prop :=
  key_cmp <$> tree w = Some cmp ∧
  ∀ a n, nodes v !! a = Some n →
    ∃ n', nodes w !! a = Some n' ∧
      (key n' = key n ∧ datum n' = datum n ∨ key n' = k ∧ keq cmp k (key n)).

(** Every node of [w] is a node of [v] with the same key and datum, and
    every node of [v] whose key does not compare equal to [k] is a node of
    [w]; the comparator of the tree is [cmp]. *)
Definition except (cmp : dict_compare_func K) (k : K) v w : Prop :=
  key_cmp <$> tree w = Some cmp ∧ within v w ∧
  ∀ a n, nodes v !! a = Some n → ¬ keq cmp k (key n) → is_Some (nodes w !! a).

(** ** The relations are instances *)

Lemma within_refl w : within w w.
Proof. intros a n Hn. by exists n. Qed.

Lemma within_trans v w w' : within v w → within w w' → within v w'.
Proof.
  intros H1 H2 a n (n1 & Hn1 & ? & ?)%H2. destruct (H1 a n1 Hn1) as (n0 & ? & ? & ?).
  exists n0. split_and!; congruence.
Qed.

#[export] Instance within_preorder : PreOrder within.
Proof. split; [exact within_refl|exact within_trans]. Qed.

Lemma persists_refl cmp k w : key_cmp <$> tree w = Some cmp → persists cmp k w w.
Proof. intros Hc. split; [done|]. intros a n Hn. exists n. auto. Qed.

#[export] Instance within_relinks v : Relinks (within v).
Proof.
  split.
  - intros f p Hf w [] w' Hw (a & n & -> & Ha & ->)%wr_Some. split; [|done].
    intros a' n'. cbn [nodes upd_nodes].
    intros [[<- <-]|[_ Hn']]%lookup_insert_Some; [|by apply Hw].
    destruct (Hw a n Ha) as (n0 & ? & ? & ?), (Hf n).
    exists n0. split_and!; congruence.
  - intros w w' Hn _ Hw a n. rewrite Hn. apply Hw.
Qed.

#[export] Instance extends_relinks v : Relinks (extends v).
Proof.
  split.
  - intros f p Hf w [] w' Hw (a & n & -> & Ha & ->)%wr_Some. split; [|done].
    intros a' n0 Hn0. destruct (Hw a' n0 Hn0) as (n1 & Hn1 & ? & ?).
    cbn [nodes upd_nodes]. destruct (decide (a' = a)) as [->|].
    + exists (f n). destruct (Hf n). rewrite lookup_insert_eq.
      split_and!; [done|congruence..].
    + exists n1. by rewrite lookup_insert_ne.
  - intros w w' Hn _ Hw a n0 Hn0. rewrite Hn. by apply Hw.
Qed.

#[export] Instance persists_relinks cmp k v : Relinks (persists cmp k v).
Proof.
  split.
  - intros f p Hf w [] w' [Hc Hw] (a & n & -> & Ha & ->)%wr_Some. split; [|done].
    split; [done|]. intros a' n0 Hn0. destruct (Hw a' n0 Hn0) as (n1 & Hn1 & H1).
    cbn [nodes upd_nodes]. destruct (decide (a' = a)) as [->|].
    + exists (f n). destruct (Hf n) as [-> ->]. rewrite lookup_insert_eq.
      by simplify_eq.
    + exists n1. by rewrite lookup_insert_ne.
  - intros w w' Hn Hc [Hc' Hw]. split; [congruence|].
    intros a n0 Hn0. rewrite Hn. by apply Hw.
Qed.

#[export] Instance except_relinks cmp k v : Relinks (except cmp k v).
Proof.
  split.
  - intros f p Hf w [] w' (Hc & Hin & Hw) Hrun.
    destruct (relinks_wr f p Hf w () w' Hin Hrun) as [Hin' _].
    apply wr_Some in Hrun as (a & n & -> & Ha & ->). split; [|done].
    split_and!; [done..|]. intros a' n0 Hn0 Hk. cbn [nodes upd_nodes].
    destruct (decide (a' = a)) as [->|]; [by rewrite lookup_insert_eq|].
    rewrite lookup_insert_ne by done. by eapply Hw.
  - intros w w' Hn Hc (Hc' & Hin & Hw). split_and!; [congruence|..].
    + by apply (relinks_nodes w).
    + intros a n0 Hn0 Hk. rewrite Hn. by eapply Hw.
Qed.

(** ** The statements that touch no node *)

Section Generic.
Context (T : world K V → Prop) `{!Relinks T}.

Lemma relinks_wr_tree (f : pr_tree K → pr_tree K) :
  (∀ tr, key_cmp (f tr) = key_cmp tr) →
  keeps T (wr_tree (V := V) f) (λ _, True).
Proof.
  intros Hf w [] w' Hw. unfold wr_tree. destruct (tree w) as [tr|] eqn:Htr; [|done].
  intros [= <-]. split; [|done]. apply (relinks_nodes w); [done| |done].
  cbn. by rewrite Htr, Hf.
Qed.

Lemma relinks_upd_del_log f :
  keeps T (modify (upd_del_log (K := K) (V := V) f)) (λ _, True).
Proof. intros w [] w' Hw [= <-]. split; [|done]. by apply (relinks_nodes w). Qed.

End Generic.
End Relinks.

#[export] Hint Resolve within_relinks extends_relinks persists_relinks except_relinks
  relinks_upd_del_log : typed.
#[export] Hint Extern 2 (keeps _ (wr _ _) _) =>
  apply relinks_wr; by intros ? : typed.
#[export] Hint Extern 2 (keeps _ (wr_tree _) _) =>
  apply relinks_wr_tree; first [by intros ?|assumption|exact _] : typed.

Section Functions.
Context {build : Build} {K V : Type}.
Context (T : world K V → Prop) `{!Relinks T}.
Implicit Types (p node : ptr).

(** ** Relinking and reweighing, along the call graph *)

Lemma relinks_call_del_func node :
  keeps T (call_del_func (K := K) (V := V) node) (λ _, True).
Proof. unfold call_del_func. solve_keeps. Qed.

Lemma relinks_REWEIGH node : keeps T (REWEIGH (K := K) (V := V) node) (λ _, True).
Proof. unfold REWEIGH. solve_keeps. Qed.

Lemma relinks_replace_child p node x :
  keeps T (replace_child (K := K) (V := V) p node x) (λ _, True).
Proof. unfold replace_child. solve_keeps. Qed.

#[local] Hint Resolve relinks_call_del_func relinks_REWEIGH relinks_replace_child : typed.

Lemma relinks_rot_left node : keeps T (rot_left (K := K) (V := V) node) (λ _, True).
Proof. unfold rot_left. solve_keeps. Qed.

Lemma relinks_rot_right node : keeps T (rot_right (K := K) (V := V) node) (λ _, True).
Proof. unfold rot_right. solve_keeps. Qed.

#[local] Hint Resolve relinks_rot_left relinks_rot_right : typed.

Lemma relinks_fixup fuel : ∀ node,
  keeps T (fixup (K := K) (V := V) fuel node) (λ _, True).
Proof. induction fuel as [|fuel IH]; intros node; cbn [fixup]; solve_keeps. Qed.

#[local] Hint Resolve relinks_fixup : typed.

Lemma relinks_FIXUP_again fuel : ∀ node,
  keeps T (FIXUP_again (K := K) (V := V) fuel node) (λ _, True).
Proof. induction fuel as [|fuel IH]; intros node; cbn [FIXUP_again]; solve_keeps. Qed.

#[local] Hint Resolve relinks_FIXUP_again : typed.

Lemma relinks_FIXUP node : keeps T (FIXUP (K := K) (V := V) node) (λ _, True).
Proof. unfold FIXUP. solve_keeps. Qed.

Lemma relinks_weight_dec_loop fuel : ∀ temp,
  keeps T (weight_dec_loop (K := K) (V := V) fuel temp) (λ _, True).
Proof. induction fuel as [|fuel IH]; intros temp; cbn [weight_dec_loop]; solve_keeps. Qed.

Lemma relinks_insert_fixup_loop fuel : ∀ p,
  keeps T (insert_fixup_loop (K := K) (V := V) fuel p) (λ _, True).
Proof.
  pose proof relinks_FIXUP.
  induction fuel as [|fuel IH]; intros p; cbn [insert_fixup_loop]; solve_keeps.
Qed.

End Functions.

#[export] Hint Resolve relinks_call_del_func relinks_REWEIGH relinks_replace_child
  relinks_rot_left relinks_rot_right relinks_fixup relinks_FIXUP
  relinks_weight_dec_loop relinks_insert_fixup_loop : typed.

Section Within.
Context {build : Build} {K V : Type}.
Implicit Types (w v : world K V) (p node : ptr).

(** ** The functions that free nodes keep [within] *)

Lemma within_FREE v p : keeps (within v) (FREE (K := K) (V := V) p) (λ _, True).
Proof.
  destruct p as [a|]; [|by apply keeps_ret]. intros w [] w' Hw.
  unfold FREE. intros (n & w1 & (? & [= <-] & _ & ->)%deref_Some & [= <-])%bind_Some.
  split; [|done]. intros a' n'. cbn [nodes upd_nodes].
  intros [_ Hn']%lookup_delete_Some. by apply Hw.
Qed.

#[local] Hint Resolve within_FREE : typed.

Lemma within_splice_out v node out :
  keeps (within v) (splice_out (K := K) (V := V) node out) (λ _, True).
Proof. unfold splice_out. solve_keeps. Qed.

#[local] Hint Resolve within_splice_out : typed.

Lemma within_remove_loop v fuel (k : K) : ∀ node,
  keeps (within v) (remove_loop (V := V) fuel k node) (λ _, True).
Proof. induction fuel as [|fuel IH]; intros node; cbn [remove_loop]; solve_keeps. Qed.

#[local] Hint Resolve within_remove_loop : typed.

Lemma within_pr_tree_remove v (k : K) :
  keeps (within v) (pr_tree_remove (V := V) k) (λ _, True).
Proof. unfold pr_tree_remove. solve_keeps. Qed.

Lemma within_empty_loop v fuel : ∀ node,
  keeps (within v) (empty_loop (K := K) (V := V) fuel node) (λ _, True).
Proof. induction fuel as [|fuel IH]; intros node; cbn [empty_loop]; solve_keeps. Qed.

#[local] Hint Resolve within_empty_loop : typed.

Lemma within_pr_tree_empty v :
  keeps (within v) (pr_tree_empty (K := K) (V := V)) (λ _, True).
Proof. unfold pr_tree_empty. solve_keeps. Qed.

#[local] Hint Resolve within_pr_tree_empty : typed.

Lemma within_upd_tree v f :
  keeps (within v) (modify (upd_tree (K := K) (V := V) f)) (λ _, True).
Proof. by intros w [] w' Hw [= <-]. Qed.

#[local] Hint Resolve within_upd_tree : typed.

Lemma within_pr_tree_destroy v :
  keeps (within v) (pr_tree_destroy (K := K) (V := V)) (λ _, True).
Proof. unfold pr_tree_destroy. solve_keeps. Qed.

End Within.

Section Extends.
Context {build : Build} {K V : Type} `{!Allocator}.
Implicit Types (w v : world K V) (p node : ptr) (k : K) (d : V).

(** ** The functions that make nodes keep [extends] *)

Lemma extends_node_new v k d : keeps (extends v) (node_new k d) (λ _, True).
Proof.
  intros w p w' Hw. unfold node_new.
  destruct (MALLOC _) as [a|] eqn:Ha; intros [= <- <-]; [|done]. split; [|done].
  intros a' n0 Hn0. destruct (Hw a' n0 Hn0) as (n1 & Hn1 & ? & ?). exists n1.
  cbn [nodes upd_nodes]. rewrite lookup_insert_ne; [done|]. intros <-.
  by apply MALLOC_fresh, not_elem_of_dom in Ha; simplify_eq.
Qed.

#[local] Hint Resolve extends_node_new : typed.

Lemma extends_link_new_node v k d rv p found :
  keeps (extends v) (link_new_node k d rv p found) (λ _, True).
Proof. unfold link_new_node. solve_keeps. Qed.

#[local] Hint Resolve extends_link_new_node : typed.

Lemma extends_probe_loop v fuel k : ∀ rv p node,
  keeps (extends v) (probe_loop (V := V) fuel k rv p node) (λ _, True).
Proof.
  induction fuel as [|fuel IH]; intros rv p node; cbn [probe_loop]; solve_keeps.
Qed.

#[local] Hint Resolve extends_probe_loop : typed.

Lemma extends_pr_tree_probe v k d :
  keeps (extends v) (pr_tree_probe k d) (λ _, True).
Proof. unfold pr_tree_probe. solve_keeps. Qed.

(** The descent of [pr_tree_insert] stores a key and a datum only when
    [overwrite] is set. *)
Lemma extends_insert_loop v fuel k d : ∀ rv p node,
  keeps (extends v) (insert_loop fuel k d 0 rv p node) (λ _, True).
Proof.
  induction fuel as [|fuel IH]; intros rv p node; cbn [insert_loop];
    change (0 =? 0) with true; solve_keeps.
Qed.

#[local] Hint Resolve extends_insert_loop : typed.

Lemma extends_pr_tree_insert v k d :
  keeps (extends v) (pr_tree_insert k d 0) (λ _, True).
Proof. unfold pr_tree_insert. solve_keeps. Qed.

End Extends.

Section Persists.
Context {build : Build} {K V : Type} `{!Allocator}.
Context (cmp : dict_compare_func K) (k : K) (v : world K V).
Implicit Types (w : world K V) (p node : ptr) (d : V).

(** ** [pr_tree_insert] keeps [persists] *)

Lemma persists_node_new d : keeps (persists cmp k v) (node_new k d) (λ _, True).
Proof.
  intros w p w' [Hc Hw]. unfold node_new.
  destruct (MALLOC _) as [a|] eqn:Ha; intros [= <- <-]; [|done]. split; [|done].
  split; [done|]. intros a' n0 Hn0. destruct (Hw a' n0 Hn0) as (n1 & Hn1 & H1).
  exists n1. cbn [nodes upd_nodes]. rewrite lookup_insert_ne; [done|]. intros <-.
  by apply MALLOC_fresh, not_elem_of_dom in Ha; simplify_eq.
Qed.

(** The branch that overwrites: the node holds a key that compares equal to
    [k]. *)
Lemma persists_overwrite {A} d a n w (r : A) :
  persists cmp k v w → nodes w !! a = Some n → keq cmp k (key n) →
  ∀ r' w', (call_del_func (Some a);; wr (set_key k) (Some a);;
            wr (set_datum d) (Some a);; mret r) w = Some (r', w') →
  persists cmp k v w'.
Proof.
  intros [Hc Hw] Hn Hk r' w'. destruct (tree w) as [tr|] eqn:Htr; [|done].
  rewrite (bind_run _ _ _ _ _ (call_del_func_run w tr a n Htr Hn)).
  set (w1 := if del_func tr then _ else w).
  assert (nodes w1 = nodes w ∧ tree w1 = tree w) as [Hn1 Ht1]
    by (subst w1; by destruct (del_func tr)).
  rewrite <- Hn1 in Hn. rewrite (bind_run _ _ _ _ _ (wr_run _ _ _ _ Hn)).
  erewrite bind_run; [|by apply wr_run, lookup_insert_eq]. intros [= _ <-].
  split; [by cbn; rewrite Ht1, Htr in *|]. intros a' n0 Hn0.
  destruct (Hw a' n0 Hn0) as (n1 & Hn1' & H1). cbn. rewrite Hn1.
  destruct (decide (a' = a)) as [->|]; [|by exists n1; rewrite !lookup_insert_ne].
  eexists. rewrite lookup_insert_eq. split; [done|]. right. cbn.
  rewrite <- Hn1 in Hn1'. simplify_eq. destruct H1 as [[<- _]|[_ ?]]; by split.
Qed.

#[local] Hint Resolve persists_node_new : typed.

(** The descent stores a key only in a node whose key compares equal to
    it. *)
Lemma persists_insert_loop fuel d ow : ∀ rv p node,
  keeps (persists cmp k v) (insert_loop fuel k d ow rv p node) (λ _, True).
Proof.
  induction fuel as [|fuel IH]; intros rv p node; cbn [insert_loop];
    [apply keeps_stuck|].
  destruct (nonnull node); [|solve_keeps]. intros w r w' Hw.
  intros (cmp' & ? & (tr & Htr & -> & ->)%rd_tree_Some & Hrun)%bind_Some.
  apply bind_Some in Hrun as (nk & ? & (a & n & -> & Hn & -> & ->)%rd_Some & Hrun).
  assert (key_cmp tr = cmp) as Hcmp
    by (destruct Hw as [Hc _]; rewrite Htr in Hc; by simplify_eq/=).
  rewrite Hcmp in Hrun. destruct (Z.ltb_spec (cmp k (key n)) 0).
  { apply bind_Some in Hrun as (l & ? & (? & ? & _ & _ & _ & ->)%rd_Some & Hrun).
    by eapply (IH _ _ _ w). }
  destruct (Z.gtb_spec (cmp k (key n)) 0).
  { apply bind_Some in Hrun as (l & ? & (? & ? & _ & _ & _ & ->)%rd_Some & Hrun).
    by eapply (IH _ _ _ w). }
  destruct (ow =? 0); [by injection Hrun as <- <-|]. split; [|done].
  eapply persists_overwrite; [done..| |done]. unfold keq. lia.
Qed.

#[local] Hint Resolve persists_insert_loop : typed.

Lemma persists_link_new_node d rv p found :
  keeps (persists cmp k v) (link_new_node k d rv p found) (λ _, True).
Proof. unfold link_new_node. solve_keeps. Qed.

#[local] Hint Resolve persists_link_new_node : typed.

Lemma persists_pr_tree_insert d ow :
  keeps (persists cmp k v) (pr_tree_insert k d ow) (λ _, True).
Proof. unfold pr_tree_insert. solve_keeps. Qed.

End Persists.

Section Except.
Context {build : Build} {K V : Type}.
Context (cmp : dict_compare_func K) (k : K) (v : world K V).
Implicit Types (w : world K V) (p node : ptr).

(** ** [pr_tree_remove] frees only a node whose key compares equal *)

(** The node at [p], if it was in [v], had a key that compares equal to
    [k]. *)
Definition doomed (p : ptr) : Prop :=
  ∀ a n, p = Some a → nodes v !! a = Some n → keq cmp k (key n).

Lemma except_FREE p : doomed p → keeps (except cmp k v) (FREE p) (λ _, True).
Proof.
  intros Hp w [] w' (Hc & Hin & Hw) Hrun.
  destruct (within_FREE v p w () w' Hin Hrun) as [Hin' _].
  split; [|done]. destruct p as [a|]; [|by injection Hrun as <-].
  revert Hrun. unfold FREE.
  intros (n & w1 & (? & [= <-] & _ & ->)%deref_Some & [= <-])%bind_Some.
  split_and!; [done..|]. intros a' n0 Hn0 Hk. cbn [nodes upd_nodes].
  rewrite lookup_delete_ne; [by eapply Hw|]. intros <-. by eapply Hk, Hp.
Qed.

#[local] Hint Extern 1 (keeps (except _ _ _) (FREE _) _) =>
  apply except_FREE; assumption : typed.

Lemma except_splice_out node out :
  doomed node → keeps (except cmp k v) (splice_out node out) (λ _, True).
Proof. intros Hp. unfold splice_out. solve_keeps. Qed.

#[local] Hint Extern 1 (keeps (except _ _ _) (splice_out _ _) _) =>
  apply except_splice_out; assumption : typed.

(** The node at which the loop finds the key is doomed. *)
Lemma except_doomed w a n :
  except cmp k v w → nodes w !! a = Some n → keq cmp k (key n) → doomed (Some a).
Proof.
  intros (_ & Hin & _) Hn Hk ? n0 [= <-] Hn0.
  destruct (Hin a n Hn) as (n1 & ? & Hkey & _). simplify_eq. by rewrite <- Hkey.
Qed.

Lemma except_remove_loop fuel : ∀ node,
  keeps (except cmp k v) (remove_loop fuel k node) (λ _, True).
Proof.
  induction fuel as [|fuel IH]; intros node; cbn [remove_loop]; [apply keeps_stuck|].
  destruct (nonnull node); [|solve_keeps]. intros w r w' Hw.
  intros (cmp' & ? & (tr & Htr & -> & ->)%rd_tree_Some & Hrun)%bind_Some.
  apply bind_Some in Hrun as (nk & ? & (a & n & -> & Hn & -> & ->)%rd_Some & Hrun).
  assert (key_cmp tr = cmp) as Hcmp
    by (destruct Hw as [Hc _]; rewrite Htr in Hc; by simplify_eq/=).
  rewrite Hcmp in Hrun. revert Hrun.
  destruct (Z.eqb_spec (cmp k (key n)) 0) as [Hk|_]; cbn [negb]; intros Hrun;
    [pose proof (except_doomed w a n Hw Hn Hk) as Hp|];
    refine ((_ : keeps (except cmp k v) _ (λ _, True)) w r w' Hw Hrun);
    solve_keeps.
Qed.

#[local] Hint Resolve except_remove_loop : typed.

Lemma except_pr_tree_remove : keeps (except cmp k v) (pr_tree_remove k) (λ _, True).
Proof. unfold pr_tree_remove. solve_keeps. Qed.

Lemma except_refl w : key_cmp <$> tree w = Some cmp → except cmp k w w.
Proof. intros Hc. split_and!; [done|apply within_refl|by eauto]. Qed.

End Except.
