(* ===== verification/Aliasing.v ===== *)
(** * Cursors across updates of the tree

    A cursor holds a pointer to a node of the tree and nothing tells it when
    the tree changes.  With the relations of [Frame] and the refinement
    theorems this file says what a cursor finds after an update.

    After [pr_tree_remove] of the key of its node, and after
    [pr_tree_empty], the node is freed: the cursor still reports itself
    valid, and every function that reads the node through it reads freed
    memory, which is a fault of the model.

    After [pr_tree_probe], [pr_tree_insert] and [pr_tree_remove] of another
    key the node is where it was: the cursor is at a position of the new
    tree and reads the pair it read before, or, when [pr_tree_insert]
    overwrote that pair, the key and the datum inserted. *)

From Stdlib Require Import ZArith Lia.
From stdpp Require Import base tactics option list gmap.
From S2P Require Import Prelude Contract Assoc Node Rotate Tree Walk Itor Shape Bst.
From S2P Require Import Examples Inv Exec ShapeOps RemoveShape RemoveProofs EmptyProofs.
From S2P Require Import WalkShape WalkProofs ItorProofs DictProofs Typed Frame.

#[local] Open Scope Z_scope.

Section Stale.
Context {build : Build} {K V : Type}.
Context (cmp : dict_compare_func K) `{!Comparator cmp}.
Implicit Types (w : world K V) (t : shape K V) (it : pr_itor) (n : pr_node K V).

(** ** The node that a removal frees *)

Lemma pr_tree_remove_frees k w t a n :
  inv cmp w t → nodes w !! a = Some n → keq cmp k (key n) →
  ∃ w', pr_tree_remove k w = Some (0, w') ∧ inv cmp w' (remove_s cmp k t) ∧
        within w w' ∧ nodes w' !! a = None.
Proof.
  intros Hinv Hn Hk. destruct (inv_tree _ _ _ Hinv) as (tr & Htr & _).
  destruct (pr_tree_remove_run cmp k w t (del_func tr) Hinv)
    as (ret & w' & Hrun & Hinv' & -> & _); [by rewrite Htr|].
  destruct (within_pr_tree_remove w k w _ w' (within_refl w) Hrun) as [Hw _].
  pose proof (wf_entry _ _ _ _ (inv_wf _ _ _ Hinv) Hn) as Hin.
  assert (entry cmp k (inorder t) ≠ None) as He.
  { intros He%entry_None. by destruct (proj1 (assoc_None _ _ _) He _ _ Hin). }
  exists w'. split_and!; [by destruct (entry _ _ _)|done..|].
  destruct (nodes w' !! a) as [n'|] eqn:Hn'; [exfalso|done].
  destruct (Hw a n' Hn') as (n0 & Hn0 & Hk0 & _).
  pose proof (wf_entry _ _ _ _ (inv_wf _ _ _ Hinv') Hn') as Hin'.
  destruct Hinv as [_ Hbst Hok Hfit _ _].
  rewrite remove_s_inorder in Hin' by done.
  apply (proj1 (assoc_None cmp _ _)
           (assoc_del_entry_eq cmp k _ (proj1 (bst_sorted cmp t) Hbst)) _ _ Hin').
  congruence.
Qed.

(** ** The cursor functions on a freed node *)

Lemma node_next_dangling a w : nodes w !! a = None → node_next (Some a) w = None.
Proof.
  intros Ha. unfold node_next. erewrite bind_run; [|by apply ASSERT_run].
  erewrite bind_run; [|reflexivity]. by apply bind_None, rd_dangling.
Qed.

Lemma node_prev_dangling a w : nodes w !! a = None → node_prev (Some a) w = None.
Proof.
  intros Ha. unfold node_prev. erewrite bind_run; [|by apply ASSERT_run].
  erewrite bind_run; [|reflexivity]. by apply bind_None, rd_dangling.
Qed.

Lemma on_tree_None {A} (c : M (world K V) A) w it :
  c w = None → on_tree c (w, it) = None.
Proof. unfold on_tree. cbn [fst]. by intros ->. Qed.

Lemma pr_itor_dangling a w (d : V) (want_old : bool) :
  nodes w !! a = None →
  let s := (w, mk_itor (Some a)) in
  pr_itor_valid s = Some (1, s) ∧
  pr_itor_key s = None ∧ pr_itor_data s = None ∧ pr_itor_cdata s = None ∧
  pr_itor_next s = None ∧ pr_itor_prev s = None ∧
  pr_itor_set_data d want_old s = None.
Proof.
  intros Ha s. subst s.
  unfold pr_itor_key, pr_itor_data, pr_itor_cdata, pr_itor_next, pr_itor_prev,
    pr_itor_set_data.
  pose proof (rd_dangling key a w Ha). pose proof (rd_dangling datum a w Ha).
  pose proof (wr_dangling (set_datum d) a w Ha).
  pose proof (node_next_dangling a w Ha). pose proof (node_prev_dangling a w Ha).
  split_and!; [done|..]; (erewrite bind_run; [|reflexivity]);
    cbn [nonnull negb node snd];
    [..|destruct want_old; [|erewrite bind_run; [|reflexivity]]];
    repeat apply bind_None; by apply on_tree_None.
Qed.

(** ** The theorems *)

(** C17: [pr_tree_remove] of the key of the node a cursor is on returns 0
    and frees that node, and it makes no node and moves no key or datum:
    every node of the store it leaves was there with the same key and datum.
    The cursor is not told.  [pr_itor_valid] still returns 1, and
    [pr_itor_key], [pr_itor_data], [pr_itor_cdata], [pr_itor_next],
    [pr_itor_prev] and [pr_itor_set_data] on it read the freed node: they
    have no defined result. *)
Theorem pr_tree_remove_stale k w t it a n (d : V) (want_old : bool) :
  inv cmp w t → node it = Some a → nodes w !! a = Some n → keq cmp k (key n) →
  ∃ w', pr_tree_remove k w = Some (0, w') ∧
    inv cmp w' (remove_s cmp k t) ∧ within w w' ∧ nodes w' !! a = None ∧
    pr_itor_valid (w', it) = Some (1, (w', it)) ∧
    pr_itor_key (w', it) = None ∧ pr_itor_data (w', it) = None ∧
    pr_itor_cdata (w', it) = None ∧
    pr_itor_next (w', it) = None ∧ pr_itor_prev (w', it) = None ∧
    pr_itor_set_data d want_old (w', it) = None.
Proof.
  intros Hinv Hit Hn Hk. destruct it as [p]. cbn in Hit. subst p.
  destruct (pr_tree_remove_frees k w t a n) as (w' & Hrun & Hinv' & Hw & Ha); [done..|].
  exists w'. split_and!; [done..| | | | | | |]; by apply pr_itor_dangling.
Qed.

(** [pr_tree_empty] frees the node of every cursor: whatever node a cursor
    held, the functions that read through it have no defined result
    afterwards, and [pr_itor_valid] still returns 1. *)
Theorem pr_tree_empty_stale w t it a (d : V) (want_old : bool) :
  inv cmp w t → node it = Some a →
  wp pr_tree_empty w (λ _ w',
    inv cmp w' Leaf ∧ nodes w' = ∅ ∧
    pr_itor_valid (w', it) = Some (1, (w', it)) ∧
    pr_itor_key (w', it) = None ∧ pr_itor_data (w', it) = None ∧
    pr_itor_cdata (w', it) = None ∧
    pr_itor_next (w', it) = None ∧ pr_itor_prev (w', it) = None ∧
    pr_itor_set_data d want_old (w', it) = None).
Proof.
  intros Hinv Hit. destruct it as [p]. cbn in Hit. subst p.
  destruct (inv_tree _ _ _ Hinv) as (tr & Htr & _ & Hcmp & _).
  eapply wp_run; [by apply pr_tree_empty_run, Htr; apply Hinv|].
  split_and!; [by apply emptied_inv|done|..]; by apply pr_itor_dangling.
Qed.

End Stale.

Section Survive.
Context {build : Build} {K V : Type}.
Context (cmp : dict_compare_func K) `{!Comparator cmp} `{!Allocator}.
Implicit Types (w : world K V) (t : shape K V) (it : pr_itor) (n : pr_node K V).
Implicit Types (l : list (K * V)).

(** ** Definitions *)

(** The cursor is at a position of the dictionary [l] that holds the pair
    [(k, d)], and reads it. *)
Definition cursor_on (s : world K V * pr_itor) l (k : K) (d : V) : Prop :=
  ∃ z, cursor_at cmp s l z ∧ 0 ≤ z ∧ l !! Z.to_nat z = Some (k, d) ∧
    pr_itor_valid s = Some (1, s) ∧
    pr_itor_key s = Some (Some k, s) ∧ pr_itor_data s = Some (Some d, s).

(** ** A node of the store is at a position of the tree *)

Lemma wf_position w t a n :
  wf w t → nodes w !! a = Some n →
  ∃ i, elems t !! i = Some (a, (key n, datum n)).
Proof.
  intros Hwf Hn.
  assert (a ∈ (elems t).*1) as ([a' [k d]] & -> & [i Hi]%list_elem_of_lookup)%list_elem_of_fmap.
  { rewrite elems_addrs. apply (wf_lookup_elem _ _ _ Hwf). eauto. }
  pose proof (list_elem_of_lookup_2 _ _ _ Hi) as He. exists i. rewrite Hi.
  pose proof (rd_key_elem _ _ _ _ _ Hwf He) as Hk.
  pose proof (rd_datum_elem _ _ _ _ _ Hwf He) as Hd. cbn [fst] in *.
  rewrite (rd_run key _ _ _ Hn) in Hk. rewrite (rd_run datum _ _ _ Hn) in Hd.
  by simplify_eq.
Qed.

Lemma cursor_on_node w t it a n :
  inv cmp w t → node it = Some a → nodes w !! a = Some n →
  cursor_on (w, it) (inorder t) (key n) (datum n).
Proof.
  intros Hinv Hit Hn. pose proof (inv_wf _ _ _ Hinv) as Hwf.
  destruct (wf_position w t a n Hwf Hn) as (i & Hi).
  destruct (elems_lookup_pos _ _ _ _ Hi) as [Hpos Hpair].
  pose proof (at_pos_Some _ _ _ Hpos) as Hz. rewrite <- length_inorder in Hz.
  assert (node it = at_pos t (Z.of_nat i)) as Hit' by congruence.
  exists (Z.of_nat i). split_and!.
  - exists t. split_and!; [done..|lia|lia].
  - lia.
  - by rewrite Nat2Z.id, <- elems_inorder, list_lookup_fmap, Hi.
  - unfold pr_itor_valid. by rewrite RETVALID_run, Hit.
  - by rewrite (pr_itor_key_run w t it _ Hwf Hit'), Hpair.
  - by rewrite (pr_itor_data_run w t it _ Hwf Hit'), Hpair.
Qed.

(** A computation that keeps [extends] and leaves a tree leaves every
    cursor on its node. *)
Lemma extends_cursor_on {A} (c : M (world K V) A) w l' it a n :
  keeps (extends w) c (λ _, True) →
  wp c w (λ _ w', tree_models cmp w' l') →
  node it = Some a → nodes w !! a = Some n →
  wp c w (λ _ w', cursor_on (w', it) l' (key n) (datum n)).
Proof.
  intros Hc (r & w' & Hrun & t' & Hinv' & <-) Hit Hn. exists r, w'. split; [done|].
  destruct (Hc w r w' (within_refl w) Hrun) as [Hw _].
  destruct (Hw a n Hn) as (n' & Hn' & -> & ->). by eapply cursor_on_node.
Qed.

(** The same for a computation that keeps [persists]: the cursor reads a
    key that compares equal to the one it read, and the same pair unless
    the key inserted compares equal to it. *)
Lemma persists_cursor_on {A} (c : M (world K V) A) k w t l' it a n :
  keeps (persists cmp k w) c (λ _, True) →
  wp c w (λ _ w', tree_models cmp w' l') →
  inv cmp w t → node it = Some a → nodes w !! a = Some n →
  wp c w (λ _ w', ∃ k' d', cursor_on (w', it) l' k' d' ∧ keq cmp k' (key n) ∧
                   (¬ keq cmp k (key n) → k' = key n ∧ d' = datum n)).
Proof.
  intros Hc (r & w' & Hrun & t' & Hinv' & <-) Hinv Hit Hn. exists r, w'. split; [done|].
  destruct (Hc w r w' (persists_refl cmp k w (inv_cmp _ _ _ Hinv)) Hrun) as [[_ Hw] _].
  destruct (Hw a n Hn) as (n' & Hn' & Hsame). exists (key n'), (datum n').
  split; [by eapply cursor_on_node|]. destruct Hsame as [[-> ->]|[-> Hk]]; by split.
Qed.

(** The same for a computation that keeps [except]: a cursor on a node
    whose key does not compare equal to the key removed stays on it. *)
Lemma except_cursor_on {A} (c : M (world K V) A) k w t l' it a n :
  keeps (except cmp k w) c (λ _, True) →
  wp c w (λ _ w', tree_models cmp w' l') →
  inv cmp w t → node it = Some a → nodes w !! a = Some n → ¬ keq cmp k (key n) →
  wp c w (λ _ w', cursor_on (w', it) l' (key n) (datum n)).
Proof.
  intros Hc (r & w' & Hrun & t' & Hinv' & <-) Hinv Hit Hn Hk. exists r, w'.
  split; [done|].
  destruct (Hc w r w' (except_refl cmp k w (inv_cmp _ _ _ Hinv)) Hrun)
    as [(_ & Hin & Hw) _].
  destruct (Hw a n Hn Hk) as [n' Hn'].
  destruct (Hin a n' Hn') as (n0 & ? & Hkey & Hdatum). simplify_eq.
  rewrite <- Hkey, <- Hdatum. by eapply cursor_on_node.
Qed.

(** ** Each update *)

Section Updates.
Context (k : K) (d : V) (w : world K V) (t : shape K V) (it : pr_itor).
Context (a : addr) (n : pr_node K V).
Context (Hinv : inv cmp w t) (Hit : node it = Some a) (Hn : nodes w !! a = Some n).

Lemma probe_cursor_on :
  (assoc cmp k (inorder t) = None → tree_room w (inorder t)) →
  wp (pr_tree_probe k d) w (λ _ w',
    cursor_on (w', it) (put_entry cmp k d false (inorder t)) (key n) (datum n)).
Proof.
  intros Hroom. apply (extends_cursor_on _ w _ it a n); [apply extends_pr_tree_probe| |done..].
  eapply wp_mono; [by apply tree_models_probe|]. by intros ?? [? _].
Qed.

Lemma insert_keep_cursor_on :
  (assoc cmp k (inorder t) = None → tree_room w (inorder t)) →
  wp (pr_tree_insert k d 0) w (λ _ w',
    cursor_on (w', it) (put_entry cmp k d false (inorder t)) (key n) (datum n)).
Proof.
  intros Hroom. apply (extends_cursor_on _ w _ it a n); [apply extends_pr_tree_insert| |done..].
  eapply wp_mono; [by apply (tree_models_insert cmp w t k d 0)|]. by intros ?? [? _].
Qed.

Lemma insert_cursor_on ow :
  (assoc cmp k (inorder t) = None → tree_room w (inorder t)) →
  wp (pr_tree_insert k d ow) w (λ _ w',
    ∃ k' d', cursor_on (w', it) (put_entry cmp k d (negb (ow =? 0)) (inorder t)) k' d' ∧
      keq cmp k' (key n) ∧ (¬ keq cmp k (key n) → k' = key n ∧ d' = datum n)).
Proof.
  intros Hroom. apply (persists_cursor_on _ k w t _ it a n);
    [apply persists_pr_tree_insert| |done..].
  eapply wp_mono; [by apply (tree_models_insert cmp w t k d ow)|]. by intros ?? [? _].
Qed.

Lemma remove_cursor_on :
  ¬ keq cmp k (key n) →
  wp (pr_tree_remove k) w (λ _ w',
    cursor_on (w', it) (del_entry cmp k (inorder t)) (key n) (datum n)).
Proof.
  intros Hk. apply (except_cursor_on _ k w t _ it a n);
    [apply except_pr_tree_remove| |done..].
  eapply wp_mono; [by apply (tree_models_remove cmp w t k)|]. by intros ?? [? _].
Qed.

End Updates.

(** ** The theorems *)

(** C18: an update of the tree keeps every cursor that is not on the node
    it removes.  An insertion frees no node, and stores a key and a datum
    only in the node that [pr_tree_insert] overwrites; [pr_tree_remove]
    frees only the node that holds the key and stores no key and no datum.
    A cursor on a node of the tree is therefore on the same node
    afterwards, valid and at a position of the new dictionary.  After
    [pr_tree_probe], after [pr_tree_insert] without [overwrite], and after
    [pr_tree_remove] of a key that does not compare equal to the key of the
    node, [pr_itor_key] and [pr_itor_data] return the key and the datum
    they returned before; after [pr_tree_insert] with any [overwrite] they
    return a key that compares equal to it, and the same key and datum
    unless the key inserted compares equal to the key of the node. *)
Theorem update_keeps_cursor k d w t it a n :
  inv cmp w t → (assoc cmp k (inorder t) = None → tree_room w (inorder t)) →
  node it = Some a → nodes w !! a = Some n →
  let l' := put_entry cmp k d false (inorder t) in
  wp (pr_tree_probe k d) w (λ _ w', cursor_on (w', it) l' (key n) (datum n)) ∧
  wp (pr_tree_insert k d 0) w (λ _ w', cursor_on (w', it) l' (key n) (datum n)) ∧
  (∀ ow, wp (pr_tree_insert k d ow) w (λ _ w',
     ∃ k' d', cursor_on (w', it) (put_entry cmp k d (negb (ow =? 0)) (inorder t)) k' d' ∧
       keq cmp k' (key n) ∧ (¬ keq cmp k (key n) → k' = key n ∧ d' = datum n))) ∧
  (¬ keq cmp k (key n) →
   wp (pr_tree_remove k) w (λ _ w',
     cursor_on (w', it) (del_entry cmp k (inorder t)) (key n) (datum n))).
Proof.
  intros Hinv Hroom Hit Hn l'. split_and!.
  - by eapply probe_cursor_on.
  - by eapply insert_keep_cursor_on.
  - intros ow. by eapply insert_cursor_on.
  - by eapply remove_cursor_on.
Qed.

End Survive.

(** ** Instances on concrete worlds *)

#[local] Existing Instance debug_build.

Lemma pr_tree_remove_stale_witness :
  ∃ w', pr_tree_remove 30 full3 = Some (0, w') ∧
    inv Z_cmp w' (remove_s Z_cmp 30 full3_s) ∧ within full3 w' ∧
    nodes w' !! 3%positive = None ∧
    pr_itor_valid (w', mk_itor (Some 3%positive)) = Some (1, (w', mk_itor (Some 3%positive))) ∧
    pr_itor_key (w', mk_itor (Some 3%positive)) = None ∧
    pr_itor_data (w', mk_itor (Some 3%positive)) = None ∧
    pr_itor_cdata (w', mk_itor (Some 3%positive)) = None ∧
    pr_itor_next (w', mk_itor (Some 3%positive)) = None ∧
    pr_itor_prev (w', mk_itor (Some 3%positive)) = None ∧
    pr_itor_set_data 0 true (w', mk_itor (Some 3%positive)) = None.
Proof.
  apply (pr_tree_remove_stale Z_cmp 30 full3 full3_s (mk_itor (Some 3%positive))
           3%positive (mk_node 30 300 (Some 1%positive) NULL NULL 2) 0 true full3_inv);
    by vm_compute.
Defined.

Lemma update_keeps_cursor_witness :
  wp (pr_tree_probe 25 250) full3
    (λ _ w', cursor_on Z_cmp (w', mk_itor (Some 3%positive))
               [(10, 100); (20, 200); (25, 250); (30, 300)] 30 300) ∧
  wp (pr_tree_insert 25 250 0) full3
    (λ _ w', cursor_on Z_cmp (w', mk_itor (Some 3%positive))
               [(10, 100); (20, 200); (25, 250); (30, 300)] 30 300) ∧
  (∀ ow, wp (pr_tree_insert 25 250 ow) full3 (λ _ w',
     ∃ k' d', cursor_on Z_cmp (w', mk_itor (Some 3%positive))
                (put_entry Z_cmp 25 250 (negb (ow =? 0)) [(10, 100); (20, 200); (30, 300)])
                k' d' ∧
       keq Z_cmp k' 30 ∧ (¬ keq Z_cmp 25 30 → k' = 30 ∧ d' = 300))) ∧
  (¬ keq Z_cmp 25 30 →
   wp (pr_tree_remove 25) full3 (λ _ w',
     cursor_on Z_cmp (w', mk_itor (Some 3%positive))
       (del_entry Z_cmp 25 [(10, 100); (20, 200); (30, 300)]) 30 300)).
Proof.
  apply (update_keeps_cursor Z_cmp 25 250 full3 full3_s (mk_itor (Some 3%positive))
           3%positive (mk_node 30 300 (Some 1%positive) NULL NULL 2) full3_inv);
    [|done..]. intros _. split; [by eexists|by vm_compute].
Defined.
