(* ===== verification/ProtocolProofs.v ===== *)
(** * The tree keeps the protocol of a dictionary and a cursor

    [pr_tree_alias_laws]: the tables of pr_tree.c satisfy [AliasLaws], with
    [tree_models], [tree_room] and [cursor_at].  The laws for the updates
    are the lemmas of [Aliasing], which rest on the frame relations of
    [Frame]; the laws for positioning a cursor hold because [pr_itor_first],
    [pr_itor_last] and [pr_itor_invalidate] store the [node] field without
    reading it.  With the client theorem of [Protocol] every sequence of
    calls of the two tables that follows the protocol answers as the
    abstract dictionary and the abstract cursor do.

    [pr_tree_memory_laws]: they satisfy [MemoryLaws] too, the state being
    full when [MALLOC] returns [NULL].  With the second client theorem of
    [Protocol] the sequences return with any allocator, each call with one
    of its outcomes. *)

From Stdlib Require Import ZArith Lia.
From stdpp Require Import base tactics option list gmap.
From S2P Require Import Prelude Contract Assoc Node Rotate Tree Walk Itor Shape Bst.
From S2P Require Import Dict Protocol Vtable Examples Inv WalkShape WalkProofs.
From S2P Require Import InsertProofs ProbeProofs ItorProofs DictProofs Frame Aliasing.

#[local] Open Scope Z_scope.

Section ProtocolProofs.
Context {build : Build} {K V : Type}.
Context (cmp : dict_compare_func K) `{!Comparator cmp} `{!Allocator}.
Implicit Types (w : world K V) (t : shape K V) (it : pr_itor) (n : pr_node K V).
Implicit Types (l : list (K * V)) (z : Z).

(** ** Definitions *)

(** The calls of the two tables of the tree. *)
Definition pr_tree_mcalls (cs : list (mcall K V)) :
    M (world K V * pr_itor) (list (manswer K V)) :=
  do_mcalls pr_tree_vtable pr_tree_itor_vtable cs.

(** The allocator has no memory for a node. *)
Definition no_memory (w : world K V) : Prop := MALLOC (dom (nodes w)) = None.

(** ** A cursor at a pair is on a node that holds it *)

Lemma cursor_at_node w it l z k0 v0 :
  cursor_at cmp (w, it) l z → entry_at l z = Some (k0, v0) →
  ∃ t a n, inv cmp w t ∧ inorder t = l ∧ node it = Some a ∧
           nodes w !! a = Some n ∧ key n = k0 ∧ datum n = v0.
Proof.
  intros (t & Hinv & <- & Hit & Hz) He. cbn [fst snd] in *.
  change (pair_at t z = Some (k0, v0)) in He.
  destruct (at_pos t z) as [a|] eqn:Ha; [|by rewrite pair_at_None in He].
  destruct (pair_at_elem t z a Ha) as (kv & Hp & Hel). rewrite He in Hp. simplify_eq.
  destruct (rep_elem _ _ _ a k0 v0 (wf_rep _ _ (inv_wf _ _ _ Hinv))) as (n & ? & ? & ?).
  { by eapply list_elem_of_lookup_2. }
  by exists t, a, n.
Qed.

Lemma cursor_on_tracked w it w' l' k1 d1 k0 :
  cursor_on cmp (w', it) l' k1 d1 → keq cmp k1 k0 →
  tracked cmp (cursor_at cmp) (w, it) w' l' k0.
Proof.
  intros (z & Hat & Hz & Hl & _) Hk. exists z, k1, d1. split_and!; [done| |done].
  unfold entry_at. by destruct (Z.ltb_spec z 0); [lia|].
Qed.

(** An invalid cursor holds no pointer, on any tree. *)
Lemma cursor_at_outside w it l z w' l' :
  cursor_at cmp (w, it) l z → inside l z = false → tree_models cmp w' l' →
  cursor_at cmp (w', it) l' (-1).
Proof.
  intros (t & Hinv & <- & Hit & Hz) Hin (t' & Hinv' & <-). cbn [fst snd] in *.
  exists t'. split_and!; [done..| |lia|lia]. cbn [fst snd].
  rewrite Hit, (at_pos_before t' (-1)) by lia.
  apply andb_false_iff in Hin. rewrite Z.leb_gt, Z.ltb_ge, length_inorder in Hin.
  destruct Hin; [by apply at_pos_before|by apply at_pos_after].
Qed.

(** ** The laws *)

Lemma pr_tree_alias_laws :
  AliasLaws cmp pr_tree_vtable pr_tree_itor_vtable (tree_models (V:=V) cmp) tree_room
    (cursor_at cmp).
Proof.
  split; cbn [pr_tree_vtable pr_tree_itor_vtable insert_func probe_func remove_func
              invalidate_func first_func last_func].
  - intros s l z (t & Hinv & <- & _). by exists t.
  - intros [w it]. apply cursor_at_outside.
  - intros [w it] l (t & Hinv & <-). eapply wp_run; [reflexivity|].
    exists t. rewrite at_pos_before by lia. split_and!; [done..|lia|lia].
  - intros [w it] l (t & Hinv & <-).
    apply (cursor_moves cmp _ w t it 0); [done|apply pr_itor_first_run, (inv_wf _ _ _ Hinv)|done|lia].
  - intros [w it] l (t & Hinv & <-). rewrite length_inorder.
    apply (cursor_moves cmp _ w t it); [done|apply pr_itor_last_run, (inv_wf _ _ _ Hinv)|done|lia].
  - intros [w it] l z k v ow k0 v0 Hat He Hroom.
    destruct (cursor_at_node _ _ _ _ _ _ Hat He) as (t & a & n & Hinv & <- & Hit & Hn & <- & <-).
    eapply wp_mono; [by apply (insert_cursor_on cmp k v w t it a n Hinv Hit Hn ow)|].
    intros ? w' (k' & d' & Hon & Hk & _). by eapply cursor_on_tracked.
  - intros [w it] l z k v k0 v0 Hat He Hroom.
    destruct (cursor_at_node _ _ _ _ _ _ Hat He) as (t & a & n & Hinv & <- & Hit & Hn & <- & <-).
    eapply wp_mono; [by apply (probe_cursor_on cmp k v w t it a n Hinv Hit Hn)|].
    intros ? w' Hon. eapply cursor_on_tracked; [exact Hon|reflexivity].
  - intros [w it] l z k k0 v0 Hat He Hk.
    destruct (cursor_at_node _ _ _ _ _ _ Hat He) as (t & a & n & Hinv & <- & Hit & Hn & <- & <-).
    eapply wp_mono; [by apply (remove_cursor_on cmp k w t it a n Hinv Hit Hn)|].
    intros ? w' Hon. eapply cursor_on_tracked; [exact Hon|reflexivity].
Qed.

Lemma pr_tree_memory_laws :
  MemoryLaws cmp pr_tree_vtable (tree_models (V:=V) cmp) no_memory.
Proof.
  split; cbn [pr_tree_vtable insert_func probe_func]; unfold no_memory.
  - intros w l k v ow (t & Hinv & <-) Hk%entry_None Hfull.
    by apply (pr_tree_insert_NULL_run cmp k v ow w t).
  - intros w l k v (t & Hinv & <-) Hk%entry_None Hfull.
    by apply (pr_tree_probe_NULL_run cmp k v w t).
Qed.

(** Memory is the only room an insertion needs, below 2^64 - 2 pairs. *)
Lemma tree_room_or_no_memory w l :
  (length l < Z.to_nat (ULONG_MAX - 1))%nat → tree_room w l ∨ no_memory w.
Proof.
  intros Hl. unfold tree_room, no_memory.
  destruct (MALLOC (dom (nodes w))); [left; split; [by eexists|lia]|by right].
Qed.

#[local] Existing Instance pr_tree_alias_laws.
#[local] Existing Instance pr_tree_memory_laws.

(** ** The theorems *)

(** C1: the tree and its cursor keep the protocol of the library.  A
    sequence of calls of the entries of [pr_tree_vtable] and of
    [pr_tree_itor_vtable], in any order, that never reads through a cursor
    whose pair has been removed, returns the answers of the abstract
    dictionary and the abstract cursor: no call faults, every answer is the
    one the sorted list of pairs gives, the state holds the final
    dictionary, and the cursor is at the position its pair has in it (or is
    stale, when the last structural change removed its pair).  Insertions
    and removals of other keys move the position of the cursor's pair and
    rotate its node; the cursor follows. *)
Theorem pr_tree_protocol_refines cs w it l p rs l' p' :
  holds (tree_models cmp) (cursor_at cmp) (w, it) l p →
  (∀ used, is_Some (MALLOC used)) →
  Z.of_nat (length l + length cs) < ULONG_MAX →
  spec_mcalls cmp cs l p = Some (rs, (l', p')) →
  wp (pr_tree_mcalls cs) (w, it) (λ rs' s',
    rs' = rs ∧ holds (tree_models cmp) (cursor_at cmp) s' l' p').
Proof.
  intros Hs Hmem Hlen Hspec.
  apply (do_mcalls_run cmp pr_tree_vtable pr_tree_itor_vtable (tree_models cmp) tree_room
           (cursor_at cmp) (Z.to_nat (ULONG_MAX - 1)) cs (w, it) l p); [|done|lia|done].
  intros w0 l0 _ Hl0. split; [apply Hmem|lia].
Qed.

(** C19: with any allocator the calls return.  A sequence of calls of the
    two tables that follows the protocol, whichever insertions fail, returns
    on every state that holds a dictionary and a cursor at a place of it,
    with fewer than 2^64 - 1 pairs and calls: no call faults, whether
    [MALLOC] gives memory or not.  Each answer is an outcome of its call on
    the abstract dictionary and cursor: the answer of the protocol, or, for
    [pr_tree_insert] and [pr_tree_probe] of a key that is not there, -1
    with the dictionary and the cursor as they were.  The final state
    holds the dictionary and the cursor these outcomes leave. *)
Theorem pr_tree_protocol_any_allocator cs w it l p :
  holds (tree_models cmp) (cursor_at cmp) (w, it) l p →
  Z.of_nat (length l + length cs) < ULONG_MAX →
  allowed cmp cs l p = true →
  wp (pr_tree_mcalls cs) (w, it) (λ rs s',
    ∃ l' p', outcomes cmp cs l p rs l' p' ∧
             holds (tree_models cmp) (cursor_at cmp) s' l' p').
Proof.
  intros Hs Hlen Hok.
  apply (do_mcalls_any cmp pr_tree_vtable pr_tree_itor_vtable (tree_models cmp) tree_room
           no_memory (cursor_at cmp) (Z.to_nat (ULONG_MAX - 1)) cs (w, it) l p);
    [|done|lia|done].
  intros w0 l0 _. apply tree_room_or_no_memory.
Qed.

End ProtocolProofs.

(** ** Instances on concrete worlds *)

#[local] Existing Instance debug_build.

Lemma pr_tree_protocol_refines_witness :
  wp (pr_tree_mcalls
        [MItor IKey; MDict (CInsert 25 250 0); MItor IPrev; MItor IData;
         MDict (CRemove 10); MItor IKey; MDict (CRemove 25); MDict CCount;
         MItor IFirst; MItor IKey; MItor (ISetData 222 true); MDict (CSearch 20)])
     (full3, mk_itor (Some 3%positive))
     (λ rs' s',
       rs' = [RKey (Some 30); RDict (AInt 0); RInt 1; RData (Some 250);
              RDict (AInt 0); RKey (Some 25); RDict (AInt 0); RDict (AInt 2);
              RInt 1; RKey (Some 20); RSet 0 (Some 200); RDict (AData (Some 222))] ∧
       holds (tree_models Z_cmp) (cursor_at Z_cmp) s' [(20, 222); (30, 300)] (Pos 0)).
Proof.
  apply (pr_tree_protocol_refines Z_cmp _ full3 (mk_itor (Some 3%positive))
           [(10, 100); (20, 200); (30, 300)] (Pos 2)).
  - exists full3_s. split_and!; [apply full3_inv|done|done|done|by vm_compute].
  - intros used. by eexists.
  - by vm_compute.
  - by vm_compute.
Defined.

Lemma pr_tree_protocol_any_allocator_witness :
  wp (pr_tree_mcalls (H := bounded_allocator 4)
        [MDict (CInsert 25 250 0); MDict (CInsert 5 50 0); MItor IKey;
         MDict (CProbe 40 400); MDict (CSearch 5)])
     (full3, mk_itor (Some 3%positive))
     (λ rs s', ∃ l' p',
       outcomes Z_cmp
         [MDict (CInsert 25 250 0); MDict (CInsert 5 50 0); MItor IKey;
          MDict (CProbe 40 400); MDict (CSearch 5)]
         [(10, 100); (20, 200); (30, 300)] (Pos 2) rs l' p' ∧
       holds (tree_models Z_cmp) (cursor_at Z_cmp) s' l' p').
Proof.
  apply (pr_tree_protocol_any_allocator (H := bounded_allocator 4) Z_cmp _ full3
           (mk_itor (Some 3%positive)) [(10, 100); (20, 200); (30, 300)] (Pos 2)).
  - exists full3_s. split_and!; [apply full3_inv|done|done|done|by vm_compute].
  - by vm_compute.
  - by vm_compute.
Defined.
