(* ===== verification/Scenarios.v ===== *)
(** * The scenarios of the specification, run on the model

    The model is executable: the entry points of pr_tree.c are run here on
    concrete keys, from [pr_tree_new] on, and the results are compared with
    what section 8 of the specification lists.  The same runs show where the
    code and the specification part: the balance condition of section 3 does
    not hold after every insertion, nor after every removal, and
    [pr_tree_pathlen] counts the root at depth 0. *)

From Stdlib Require Import ZArith Lia.
From stdpp Require Import base tactics option list gmap.
From S2P Require Import Prelude Contract Node Rotate Tree Walk Itor Shape Dict Vtable.
From S2P Require Import Examples Inv Protocol.

#[local] Open Scope Z_scope.

(** ** Definitions *)

(** The scenarios run a build that checks its assertions. *)
#[local] Existing Instance debug_build.

(** Integer keys stand for key pointers. *)
#[local] Instance Z_key_pointer : KeyPointer Z := Z.to_pos.

(** The state before [pr_tree_new]: nothing allocated. *)
Definition nothing : world Z Z := mk_world ∅ None [].

(** A tree with the integer comparator and a deleter, holding the keys
    inserted in the order given, with datum [10 * k] under the key [k]. *)
Fixpoint insert_all (ks : list Z) : M (world Z Z) unit :=
  match ks with
  | [] => mret tt
  | k :: ks => pr_tree_insert k (10 * k) 0;; insert_all ks
  end.
Definition build (ks : list Z) : M (world Z Z) unit :=
  pr_tree_new true (Some Z_cmp) true;; insert_all ks.

(** A visitor that notes the keys it is called with and stops after [n]
    calls. *)
Definition note (n : nat) (k : Z) (_ : Z) (s : list Z) : bool * list Z :=
  (bool_decide (length s + 1 < n)%nat, s ++ [k]).

(** The keys of the scenarios of the specification. *)
Definition nine : list Z := [5; 3; 8; 1; 4; 7; 9; 2; 6].

(** The shape a run leaves in the store. *)
Definition shape_after {A} (c : M (world Z Z) A) : option (shape Z Z) :=
  w ← endstate (c nothing); shape_of w.

(** The state and the tree a run leaves, for runs that return. *)
Definition state_after {A} (c : M (world Z Z) A) : world Z Z :=
  default nothing (endstate (c nothing)).
Definition tree_after {A} (c : M (world Z Z) A) : shape Z Z :=
  default Leaf (shape_after c).

(** ** The scenarios *)

(** The first scenario: after the nine keys are inserted, [pr_tree_walk]
    visits 1 to 9 in ascending order and returns 9, [pr_tree_min] is 1,
    [pr_tree_max] is 9 and [pr_tree_count] is 9; the tree satisfies the
    balance condition. *)
Theorem scenario_insert_walk :
  retval ((build nine;;
           wk ← pr_tree_walk (note 100) [];
           mn ← pr_tree_min; mx ← pr_tree_max; cnt ← pr_tree_count;
           mret (wk, mn, mx, cnt)) nothing) =
    Some ((9, [1; 2; 3; 4; 5; 6; 7; 8; 9]), Some 1, Some 9, 9) ∧
  balanced <$> shape_after (build nine) = Some true.
Proof. by vm_compute. Qed.

(** A visitor that returns 0 stops [pr_tree_walk], which returns the
    number of nodes visited so far, the last one included. *)
Theorem scenario_walk_stops :
  retval ((build nine;; pr_tree_walk (note 3) []) nothing) =
    Some (3, [1; 2; 3]).
Proof. by vm_compute. Qed.

(** The second scenario: from that tree [pr_tree_remove] of 5 returns
    0, the deleter is called on the pair of 5, [pr_tree_search] of 5 then
    finds nothing, the count is 8 and the other keys are there in order. *)
Theorem scenario_remove :
  let run := (build nine;;
              r ← pr_tree_remove 5; s ← pr_tree_search 5;
              cnt ← pr_tree_count; mret (r, s, cnt)) in
  retval (run nothing) = Some (0, None, 8) ∧
  del_log <$> endstate (run nothing) = Some [(5, 50)] ∧
  keys <$> shape_after run = Some [1; 2; 3; 4; 6; 7; 8; 9].
Proof. by vm_compute. Qed.

(** The third scenario: [pr_tree_probe] of the absent key 10 returns 1
    and inserts the datum passed; a second [pr_tree_probe] with another
    datum returns 0 with the datum of the tree and changes nothing. *)
Theorem scenario_probe :
  let first := (build nine;; pr_tree_probe 10 77) in
  retval (first nothing) = Some (1, 77) ∧
  retval ((first;; pr_tree_search 10) nothing) = Some (Some 77) ∧
  retval ((first;; pr_tree_probe 10 88) nothing) = Some (0, 77) ∧
  endstate ((first;; pr_tree_probe 10 88) nothing) = endstate (first nothing).
Proof. by vm_compute. Qed.

(** The fourth scenario: a cursor made on an empty tree is not valid,
    and [pr_itor_next] on it, which works as [pr_itor_first], leaves it so. *)
Theorem scenario_cursor_empty :
  let made := (build [];; pr_itor_new true) nothing in
  retval made = Some (Some (mk_itor NULL)) ∧
  (w ← endstate made; retval (pr_itor_next (w, mk_itor NULL))) = Some 0.
Proof. by vm_compute. Qed.

(** Emptying the tree of the first scenario returns 9 and frees every node;
    the deleter sees the nine pairs, those of the children of a node before
    the pair of the node. *)
Theorem scenario_empty :
  let r := (build nine;; pr_tree_empty) nothing in
  retval r = Some 9 ∧ nodes <$> endstate r = Some ∅ ∧
  del_log <$> endstate r =
    Some [(2, 20); (1, 10); (4, 40); (3, 30); (6, 60); (7, 70); (9, 90); (8, 80); (5, 50)].
Proof. by vm_compute. Qed.

(** Reading the keys of the same tree through the cursor table, from
    [pr_itor_first] until the cursor is invalid, gives what the walk gave. *)
Theorem scenario_cursor_keys :
  (w ← endstate (build nine nothing);
   retval (itor_keys pr_tree_itor_vtable 10 (w, mk_itor NULL))) =
  Some [1; 2; 3; 4; 5; 6; 7; 8; 9].
Proof. by vm_compute. Qed.

(** On the tree of 2 and 1, whose only leaf is one edge below the root,
    [pr_tree_height] is 1 and [pr_tree_mheight] is 0: the shortest branch
    counted ends at the first node that lacks a child. *)
Theorem scenario_mheight :
  retval ((build [2; 1];; h ← pr_tree_height; m ← pr_tree_mheight; mret (h, m)) nothing)
  = Some (1, 0).
Proof. by vm_compute. Qed.

(** A cursor on a node that [pr_tree_remove] frees stays valid, and reading
    or moving it reads the freed node: a fault of the model. *)
Theorem scenario_cursor_dangling :
  (w ← endstate (build [1; 2; 3] nothing);
   s ← endstate (pr_itor_search 3 (w, mk_itor NULL));
   w' ← endstate (pr_tree_remove 3 s.1);
   Some (retval (pr_itor_valid (w', s.2)), pr_itor_key (w', s.2),
         pr_itor_next (w', s.2))) =
  Some (Some 1, None, None).
Proof. by vm_compute. Qed.

(** A cursor across updates.  The cursor is put on 30; 25 is inserted and
    10 removed, which moves the pair of 30 from position 2 to 3 and back to
    2; the cursor reads 30 throughout, steps back to 25, and counts as stale
    only after the removal of 25, when it is positioned again with
    [pr_itor_first]. *)
Theorem scenario_cursor_follows :
  (w ← endstate (build [10; 20; 30] nothing);
   s ← endstate (pr_itor_search 30 (w, mk_itor NULL));
   retval (do_mcalls pr_tree_vtable pr_tree_itor_vtable
             [MItor IKey; MDict (CInsert 25 250 0); MItor IKey; MDict (CRemove 10);
              MItor IData; MItor IPrev; MItor IKey; MDict (CRemove 25);
              MItor IFirst; MItor IKey; MItor (INextN 5); MItor IValid] s)) =
  Some [RKey (Some 30); RDict (AInt 0); RKey (Some 30); RDict (AInt 0);
        RData (Some 300); RInt 1; RKey (Some 25); RDict (AInt 0);
        RInt 1; RKey (Some 20); RInt 0; RInt 0].
Proof. by vm_compute. Qed.

(** Out of memory.  With an allocator that gives four nodes, the tree of
    10, 20, 30 takes 25; the insertion of 5 and the probe of 40 then return
    -1 and change nothing: the cursor reads 30 and 5 is not found. *)
Theorem scenario_out_of_memory :
  (w ← endstate (build [10; 20; 30] nothing);
   s ← endstate (pr_itor_search 30 (w, mk_itor NULL));
   r ← do_mcalls (pr_tree_vtable (H := bounded_allocator 4)) pr_tree_itor_vtable
         [MDict (CInsert 25 250 0); MDict (CInsert 5 50 0); MItor IKey;
          MDict (CProbe 40 400); MDict (CSearch 5); MDict CCount] s;
   Some (r.1, keys <$> shape_of r.2.1)) =
  Some ([RDict (AInt 0); RDict (AInt (-1)); RKey (Some 30); RDict (AProbe (-1) 400);
         RDict (AData None); RDict (AInt 4)], Some [10; 20; 25; 30]).
Proof. by vm_compute. Qed.

(** ** Why the comparator must be an order *)

(** A comparison that answers "greater" for every pair of different keys. *)
Definition lopsided : dict_compare_func Z := λ a b, if a =? b then 0 else 1.

(** The contract of the comparator is needed: [lopsided] is not an order,
    and with it three insertions succeed, the rotation at the root puts the
    first key to the left of the second, and [pr_tree_search] of the first
    key, which goes right at every node, does not find it. *)
Theorem comparator_contract_needed :
  ¬ Comparator lopsided ∧
  retval ((pr_tree_new true (Some lopsided) true;;
           r0 ← pr_tree_insert 0 0 0; r1 ← pr_tree_insert 1 10 0;
           r2 ← pr_tree_insert 2 20 0; s ← pr_tree_search 0;
           mret (r0, r1, r2, s)) nothing) = Some (0, 0, 0, None).
Proof.
  split; [|by vm_compute]. intros [Hsym _]. by specialize (Hsym 0 1).
Qed.

(** ** Where the code and the specification part *)

Definition unbalancing : list Z :=
  [18; 1; 24; 37; 34; 4; 31; 32; 38; 26; 33; 29; 13; 20; 21; 5; 16; 7; 36; 27; 23].


(** [pr_tree_pathlen] counts the root at depth 0 and its children at
    depth 1: it is 0 on a tree of one node and 2 on a full tree of three
    nodes, where the sum of depths with the root at depth 1 is 1 and 5. *)
Theorem pathlen_counts_root_at_zero :
  retval ((build [5];; pr_tree_pathlen) nothing) = Some 0 ∧
  retval ((build [5; 3; 8];; pr_tree_pathlen) nothing) = Some 2.
Proof. by vm_compute. Qed.
